(* ===== verification/_CoqProject ===== *)
-Q . S2P
Prelude.v
Machine.v
CString.v
Hash.v
Alloc.v
Table.v
TableLemmas.v
Lookup.v
Lifecycle.v
Delete.v
Insert.v
Resize.v
Reach.v
Print.v
Heap.v
Program.v
Repr.v
Sim.v
RefineRead.v
RefineFree.v
RefineSet.v
RefineResize.v
HeapReach.v
Driver.v
