(* ===== verification/Prelude.v ===== *)
(** * Verification of carp's string-keyed hash table (src/src/lib/carp_ht.c)

    ** The program

    [carp_ht.c] is a separate-chaining hash table from strings to 64-bit
    integers.  A table is a [size] and an array of [size] bucket heads; a
    bucket is a singly linked chain of entries (key buffer, value, next).
    The public operations are [carp_ht_init], [carp_ht_set], [carp_ht_get],
    [carp_ht_del], [carp_ht_resize], [carp_ht_print] and [carp_ht_cleanup];
    the static helpers are the djb2 hash [carp_ht_rhash], its reduction
    [carp_ht_hash] and the load monitor [carp_ht_used].  [carp_ht_set] asks
    [carp_ht_used] whether the table is more than 60% full and, if so,
    calls [carp_ht_resize], which inserts every entry into a table of
    2*size+1 buckets by calling [carp_ht_set] again.  [main] is a
    demonstration driver.  The header carp_ht.h (the two struct
    declarations and the length of the key buffer) is not part of the
    sources: the two record types and the sizes are modelled from the way
    the C file uses them.

    ** The model

    A shallow embedding in two layers, each with one definition per
    function of the C file.  In the table layer ([Table]) a chain is the
    list of its entries in link order and a pointer to an entry is a cursor
    (bucket index, position in the chain); it is the layer in which the
    functional behaviour is proved.  In the heap layer ([Heap], [Program])
    the table is what the C program has: a struct with a size and a
    pointer, an array block of pointers, and entry blocks linked by
    pointers, in a heap that [malloc], [calloc] and [free] change; it is
    the layer in which leaks, releases and dangling pointers are proved.
    The two are related by a simulation ([Sim], [RefineRead] to
    [RefineResize], [HeapReach]).  Integers are [Z] with the wrap-around of
    each C type written out, and a signed computation that leaves its type
    is a fault.  What the C standard leaves to the platform (width of
    [unsigned long], signedness of [char], size of a pointer, size of the
    block [malloc] hands out for a request, how much of it [calloc] has
    cleared) and what the missing header fixes (capacity of the key buffer,
    size of an entry) are the fields of the class [Platform], whose laws
    are fields too; every definition and theorem is generic in it, and the
    witnesses instantiate it.

    - [Prelude] (this file): notations of scope [carp_scope], the tactics
      [zbool], [case_ztest], [zdiv], the hint database [carp], and the
      arithmetic and list lemmas the components share ([wrap], [swrap], C
      division, [total]).
    - [Machine]: the class [Platform], the conversions to [unsigned long],
      [long] and [short], and the platforms [lp64] (x86-64 with glibc),
      [lp64_roomy] (x86-64 with an allocator whose smallest block holds an
      entry and is cleared whole), [lp64_dirty] (the same blocks, of which
      [calloc] clears the bytes requested and no more), [aapcs64] (unsigned
      [char]) and [ilp32].
    - [CString]: NUL-terminated strings as Rocq strings: [byte_of],
      [char_to_int], [strlen], [cstr], [strcmp], [strncpy].
    - [Hash]: [carp_ht_rhash] (lines 36-46) and [carp_ht_hash] (48-52)
      against the reference recurrence [djb2].
    - [Alloc]: the allocator as an oracle (a list of booleans, one consumed
      per [malloc] or [calloc]; the empty oracle grants every request), the
      monad [M] of the operations that allocate, whose outcomes are a value
      with the rest of the oracle, a fault (NULL dereference, heap
      overflow, key-buffer overflow, key without terminator, signed
      overflow, division by zero, failed assertion) or [OutOfFuel], and the
      total-correctness predicate [runs] with its rules for [bind] and for
      the loop [foldM].
    - [Table]: the records [carp_ht_entry] and [carp_ht], cursors, and one
      definition per function of the C file: [carp_ht_used] (54-66) with
      the product and the quotient of line 65 in [long], [carp_ht_init]
      (68-81), [carp_ht_del] (83-117) with its loop
      [del_loop], [carp_ht_get] (162-176) with its loop [get_loop],
      [carp_ht_set] (120-160) with its body [set_body], its loop [set_loop]
      and its allocation [alloc_entry], [carp_ht_resize] (178-206) as
      [resize_with], and [carp_ht_cleanup] (226-242).
    - [TableLemmas]: the invariant [inv] ([wf]: a positive size that is the
      length of the array; [in_home]: every entry sits in the bucket of its
      hash; [keys_ok]: every key is a C string that fits its buffer;
      [uniform]: the entries of a chain share one key), [sparse] (no more
      entries than buckets), [flat] (no chain of two), their boolean
      checker [invb], the lemmas on [bucket] and [store], and the two
      properties of an allocator the theorems on insertion ask for:
      [roomy] (the block of a pointer-sized request holds an entry) and
      [cleared] (and is cleared as far as the key buffer reaches).
    - [Lookup]: [carp_ht_get] against the reference [lookup_ref].
    - [Lifecycle]: [carp_ht_init] on each of its paths; [carp_ht_cleanup].
    - [Delete]: [carp_ht_del] against the reference [delete_first].
    - [Insert]: [set_body], lines 132-159 of [carp_ht_set], branch by
      branch, and its specification [set_body_runs]; the reference
      [entry_of] for the entry of a key that fits.
    - [Resize]: [carp_ht_used], [carp_ht_resize] and the whole of
      [carp_ht_set], with the fuel; [set_fault], the faults a
      [carp_ht_set] under allocations that succeed can end with.
    - [Reach]: the tables reached from [carp_ht_init] by [carp_ht_set] and
      [carp_ht_del], as an inductive step relation labelled with the
      entries stored, their invariants by rule induction, and the
      refinement of the log of a run by its table.
    - [Print]: [carp_ht_print] (208-224) as the call of [carp_ht_used]
      and the list [dump] of the strings its calls of [printf] write.
    - [Heap]: pointers ([Null], [Addr], [Wild] for an indeterminate one),
      blocks (an entry with its link, or an array of pointers), the heap
      as a finite map from addresses to blocks, the struct
      [carp_ht_struct], and the monad [HM] of programs on a heap and an
      oracle, with [new_block] ([malloc], [calloc]), [free], and the reads
      and writes through pointers, each with its faults.
    - [Program]: the C file on the heap, function by function and loop by
      loop: [carp_ht_used_ptr], [carp_ht_init_ptr], [carp_ht_get_ptr],
      [carp_ht_del_ptr], [carp_ht_set_ptr] with [set_body_ptr] and
      [set_loop_ptr], [carp_ht_resize_ptr] as [resize_with_ptr] with
      [migrate_loop], [carp_ht_print_ptr] and [carp_ht_cleanup_ptr].
    - [Repr]: when a heap holds a table: located chains, [linked],
      [table_at] (the array, the links, and no block reached twice),
      the abstraction [abs] to a table of [Table], [usable], the
      well-formedness [owned], the frame condition [evolves], and
      [garbage], the blocks in use that the table does not reach.
    - [Sim]: the simulation [sim] between a run of the table layer and a
      run of the heap layer (same use of the oracle, same fault, same
      exhaustion of the fuel, related results), the postcondition
      [returns], and their rules for [bind] and the loops.
    - [RefineRead], [RefineFree], [RefineSet], [RefineResize]: the
      functions of [Program] against those of [Table]: the readers, the
      functions that release blocks, [carp_ht_init] and the body of
      [carp_ht_set], and [carp_ht_set] with [carp_ht_resize].
    - [HeapReach]: the structs and heaps a client reaches, as a step
      relation, against the tables of [Reach].
    - [Driver]: [main] (7-33) on the table layer ([main]) and on the heap
      ([main_ptr]), with the text it writes, and runs of both as examples.

    ** What the theorems show

    The hash is the djb2 recurrence modulo 2^w, reads the key up to its
    first NUL, and gives a bucket index in [0, size).  [carp_ht_get] returns
    the first entry of the key's bucket that has the key; the bound check in
    its loop is dead.  [carp_ht_del] returns 1 on an empty bucket, 2 when
    the key is not in the chain, and 0 after unlinking the first entry with
    the key; it preserves the invariant.  [carp_ht_init] returns a table of
    empty buckets, 1 when the allocation is refused, and overruns its array
    when the request wraps.  [carp_ht_used] returns the occupancy, between
    0 and 100 on a table with no more entries than buckets, unless the
    product of line 65 leaves [long] ([carp_ht_used_bounds]); a table with
    more entries than a hundredth of [LONG_MAX] makes every [carp_ht_set]
    overflow there ([carp_ht_set_overflow]).

    Insertion is where the code departs from its specification.  A key
    whose lookup returns NULL replaces the whole chain of its bucket, so a
    colliding key evicts the keys stored there ([set_body_evicts]).  A key
    that is present is never updated: a second entry is appended behind
    the first and lookups keep returning the old value ([set_body_stale]);
    the block of that entry is requested with the size of a pointer, so on
    x86-64 with glibc the entry overruns it
    ([carp_ht_set_present_overruns]).  A [carp_ht_set] that resizes inserts
    its key twice ([carp_ht_set_resize_duplicates]), which on glibc is the
    same overrun ([carp_ht_set_resize_overruns]).  Where the block does
    hold an entry, [calloc] was asked to clear a pointer's worth of it, so
    the key copied without terminator by line 155 is terminated only if
    the allocator cleared more than it was asked to
    ([set_body_unterminated]).  A refused allocation of an entry is
    written through ([set_body_null_deref]).  On the tables the interface
    builds, all of which satisfy [inv] and [sparse] ([reachable_good]),
    [carp_ht_set] returns 0 with the key present whenever the allocator's
    blocks hold an entry and are cleared ([carp_ht_set_returns]).
    [carp_ht_print] writes a record for every entry, along the collision
    lists, whatever the comment of line 213 says
    ([carp_ht_print_records]).

    The heap layer refines the table layer.  On a heap that holds a usable
    table, every function of [Program] faults exactly when its counterpart
    of [Table] faults, and returns the same status with a heap that holds
    the table the counterpart returns; blocks outside the table are
    untouched ([carp_ht_set_ptr_refines], [carp_ht_del_ptr_correct],
    [carp_ht_get_ptr_refines], [carp_ht_print_ptr_refines],
    [carp_ht_init_ptr_owned]).  Well-formedness of the heap is an
    invariant of the interface ([owned_preserved]), every state a client
    reaches holds a table that [Reach] reaches ([hreachable_refines]), and
    there a [carp_ht_set] always returns 0 with the key found, on an
    allocator whose blocks hold an entry ([hreachable_set_live]).  The
    heap layer adds what lists cannot say.  An insertion whose lookup
    returns NULL on a chain leaves every block of the chain allocated and
    unreachable ([set_body_ptr_leaks]); [carp_ht_del] leaks nothing;
    [carp_ht_cleanup] releases exactly the blocks the table reaches
    ([carp_ht_cleanup_ptr_releases]) and leaves a dangling pointer in the
    struct ([carp_ht_cleanup_ptr_dangling]); [carp_ht_resize] releases
    the whole old table, so pointers [carp_ht_get] returned before it
    dangle ([carp_ht_resize_ptr_releases]).  The program of [main] is
    the composition of these: on every platform, oracle and heap its run
    on the heap faults when its run on the table does, writes the same
    text, and leaves the blocks it found as they were
    ([main_ptr_refines]).  The examples of [Driver] run it: on glibc the
    ninth insertion overruns the heap; with blocks that hold an entry the
    program writes two dumps of ten records, loses two of its eleven keys
    and ends with two blocks it never released.

    What the table does promise is stated against the log of a run, the
    entries its calls of [carp_ht_set] asked to store: the table is a cache
    of the log that may lose entries but holds none that is not in it, so
    a lookup returns no value but one stored for that key
    ([reachable_lookup_logged]).  Keys are C strings: arrays that hold the
    same string ([same_cstr], an equivalence for which the operations are
    [Proper]) are the same key ([key_same_cstr]).

    ** Bounds and fuel

    [carp_ht_set] and [carp_ht_resize] call each other, so they are one
    fixpoint on fuel; the loops are structural.  Fuel bounds the nesting of
    [carp_ht_set] inside [carp_ht_resize] inside [carp_ht_set].  On a table
    with no more entries than buckets a resize to 2*size+1 buckets brings
    the occupancy below 50%, so no insertion of the migration resizes
    again: fuel 2 is enough ([carp_ht_set_returns]), and more fuel changes
    no result.  A theorem that says a resize succeeds assumes
    [2 * size + 1 <= LONG_MAX]; beyond it line 182 overflows
    ([carp_ht_resize_overflow]).  A theorem that says [carp_ht_used]
    returns assumes [in_use * 100 <= LONG_MAX]; beyond it line 65
    overflows.  The theorems about what a call returns, if it returns,
    need neither.  The invariants are proved for allocations that succeed;
    a refused allocation of the new array leaves the table unchanged
    ([carp_ht_set_resize_refused]), a refused allocation of an entry is a
    fault.  The refinement theorems hold under every oracle and every
    fuel.

    On the heap the walks along the links ([while (base)]) are not
    structural: a chain of a heap that is not well formed can be a cycle.
    Each walk is given the number of blocks of the heap as its bound
    ([bound]); a walk that takes more steps has been through a block twice
    and never ends in C, which is the outcome [OutOfFuel].  On a heap that
    holds a table no block is reached twice, so a chain is no longer than
    the heap is large ([linked_length]) and the bound is never reached:
    the refinement theorems show it, since the table layer has no such
    bound.

    ** Not modelled

    Bytes: a block is an entry or an array of pointers, not a sequence of
    bytes, so the undersized block of line 151 is modelled by the checks of
    [write_entry] and [alloc_entry] against [malloc_usable] and
    [calloc_cleared], and a key that overflows its buffer or lacks its
    terminator is a fault, not a write into the fields behind it or a read
    of what lies there.  The key buffer is taken to be the first field of
    an entry, so that the bytes [calloc] cleared of an undersized block
    are the first bytes of the key.  A fault is raised where the defect is
    made, in a fixed order, which is earlier than a run of the C program
    would show it.  Widths: the sizes and counts are values of [long] and [size_t],
    whose overflows are modelled, with [size_t] as wide as [unsigned
    long]; the argument of [carp_ht_init] is any integer, bounded by the
    assertion and by the request, and the value of an entry is an integer
    without width, since the code stores and prints it and computes
    nothing with it.  The byte count [calloc] computes at line 185 is not
    checked for overflow: [calloc] returns NULL then, which is one of the
    refusals of the oracle.  Addresses are abstract: [malloc] returns the least address
    not in use, and no theorem depends on which.  The contents of a block
    [malloc] returns are indeterminate pointers ([Wild]); reading one is a
    fault.  In the table layer a read of a bucket outside the array yields
    the empty chain, and on the heap it is a fault; no table that
    satisfies [wf] reaches either.  In the table layer [carp_ht_cleanup]
    leaves a table without array; the pointer it leaves in the struct is
    in the heap layer.  [printf] is modelled by the text it writes, not as
    an effect on a stream.  The assertions on NULL arguments have no
    counterpart: the model has no NULL table or key.
    Concurrency has none either: the code has no synchronisation and the
    model runs one call at a time. *)

From Stdlib Require Export ZArith Lia.
From stdpp Require Export base tactics list option.

#[global] Open Scope Z_scope.

(** ** Notations *)

Declare Scope carp_scope.
Delimit Scope carp_scope with carp.

(** C's [a != b] and [a == b] on integers, as booleans. *)
Notation "a !=? b" := (negb (Z.eqb a b)) (at level 70, no associativity) : carp_scope.
Notation "a ==? b" := (Z.eqb a b) (at level 70, no associativity) : carp_scope.

#[global] Open Scope carp_scope.

(** ** Machine integers *)

(** The value of [z] in an unsigned type of [w] bits. *)
Definition wrap (w z : Z) : Z := z mod 2 ^ w.

(** The value of [z] in a signed (two's complement) type of [w] bits. *)
Definition swrap (w z : Z) : Z := (z + 2 ^ (w - 1)) mod 2 ^ w - 2 ^ (w - 1).

(** C's [/] on integers truncates towards zero. *)
Definition cdiv (a b : Z) : Z := Z.quot a b.

(** ** Lists *)

(** The total number of elements of a list of lists, counted bucket by
    bucket as the loops of the C file do. *)
Definition total {A} (ls : list (list A)) : Z :=
  fold_left (fun n c => n + Z.of_nat (length c)) ls 0.

(** ** Tactics *)

Create HintDb carp discriminated.
Create Rewrite HintDb carp.

(** Turns the boolean integer tests of the hypotheses and the goal into
    propositions. *)
Ltac zbool :=
  repeat match goal with
  | H : negb _ = true |- _ => apply negb_true_iff in H
  | H : negb _ = false |- _ => apply negb_false_iff in H
  | H : (_ =? _) = true |- _ => apply Z.eqb_eq in H
  | H : (_ =? _) = false |- _ => apply Z.eqb_neq in H
  | H : (_ <? _) = true |- _ => apply Z.ltb_lt in H
  | H : (_ <? _) = false |- _ => apply Z.ltb_ge in H
  | H : (_ <=? _) = true |- _ => apply Z.leb_le in H
  | H : (_ <=? _) = false |- _ => apply Z.leb_gt in H
  | |- negb _ = true => apply negb_true_iff
  | |- negb _ = false => apply negb_false_iff
  | |- (_ =? _) = true => apply Z.eqb_eq
  | |- (_ =? _) = false => apply Z.eqb_neq
  | |- (_ <? _) = true => apply Z.ltb_lt
  | |- (_ <? _) = false => apply Z.ltb_ge
  | |- (_ <=? _) = true => apply Z.leb_le
  | |- (_ <=? _) = false => apply Z.leb_gt
  end.

(** Case analysis on the first boolean integer test under an [if] of the
    goal, with the test as a proposition in each case. *)
Ltac case_ztest :=
  match goal with
  | |- context [if negb ?b then _ else _] => destruct b eqn:?; simpl negb; cbv iota
  | |- context [if ?b then _ else _] => destruct b eqn:?
  end; zbool.

(** Closes an arithmetic goal that mentions [/], [mod], [÷] or [rem]. *)
Ltac zdiv := Z.div_mod_to_equations; Z.quot_rem_to_equations; nia.

(** ** Arithmetic lemmas *)

Lemma pow2_pos w : 0 <= w -> 0 < 2 ^ w.
Proof. intros. apply Z.pow_pos_nonneg; lia. Qed.

Lemma wrap_range w z : 0 <= w -> 0 <= wrap w z < 2 ^ w.
Proof. intros. apply Z.mod_pos_bound, pow2_pos; done. Qed.

Lemma wrap_small w z : 0 <= z < 2 ^ w -> wrap w z = z.
Proof. apply Z.mod_small. Qed.

Lemma wrap_wrap w z : wrap w (wrap w z) = wrap w z.
Proof. apply Zmod_mod. Qed.

Lemma wrap_add_l w a b : wrap w (wrap w a + b) = wrap w (a + b).
Proof. apply Zplus_mod_idemp_l. Qed.

Lemma wrap_add_r w a b : wrap w (a + wrap w b) = wrap w (a + b).
Proof. apply Zplus_mod_idemp_r. Qed.

Lemma wrap_mul_r w a b : wrap w (a * wrap w b) = wrap w (a * b).
Proof. apply Zmult_mod_idemp_r. Qed.

Lemma wrap_shiftl w a n : 0 <= n -> wrap w (Z.shiftl a n) = wrap w (a * 2 ^ n).
Proof. intros. by rewrite Z.shiftl_mul_pow2. Qed.

Lemma swrap_range w z : 0 < w -> - 2 ^ (w - 1) <= swrap w z < 2 ^ (w - 1).
Proof.
  intros. unfold swrap.
  assert (2 ^ w = 2 * 2 ^ (w - 1)) as Hw
    by (rewrite <- Z.pow_succ_r by lia; f_equal; lia).
  pose proof (Z.mod_pos_bound (z + 2 ^ (w - 1)) (2 ^ w) (pow2_pos w ltac:(lia))).
  lia.
Qed.

Lemma swrap_small w z : 0 < w -> - 2 ^ (w - 1) <= z < 2 ^ (w - 1) -> swrap w z = z.
Proof.
  intros. unfold swrap.
  assert (2 ^ w = 2 * 2 ^ (w - 1)) as Hw
    by (rewrite <- Z.pow_succ_r by lia; f_equal; lia).
  rewrite Z.mod_small by lia. lia.
Qed.

Lemma cdiv_nonneg a b : 0 <= a -> 0 < b -> cdiv a b = a / b.
Proof. apply Z.quot_div_nonneg. Qed.

Lemma cdiv_range a b : 0 <= a -> 0 < b -> 0 <= cdiv a b <= a.
Proof. intros. rewrite cdiv_nonneg by done. zdiv. Qed.

(** ** List lemmas *)

Lemma total_from {A} (ls : list (list A)) n :
  fold_left (fun n c => n + Z.of_nat (length c)) ls n = n + total ls.
Proof.
  unfold total. revert n. induction ls as [|c ls IH]; intros n; simpl; [lia|].
  rewrite IH, (IH (0 + _)). lia.
Qed.

Lemma total_nil {A} : total (@nil (list A)) = 0.
Proof. done. Qed.

Lemma total_cons {A} (c : list A) ls : total (c :: ls) = Z.of_nat (length c) + total ls.
Proof. unfold total at 1. simpl. rewrite total_from. lia. Qed.

Lemma total_app {A} (l1 l2 : list (list A)) : total (l1 ++ l2) = total l1 + total l2.
Proof.
  induction l1 as [|c l1 IH]; simpl; [rewrite total_nil; lia|].
  rewrite !total_cons, IH. lia.
Qed.

Lemma total_concat {A} (ls : list (list A)) : total ls = Z.of_nat (length (concat ls)).
Proof.
  induction ls as [|c ls IH]; simpl; [done|].
  rewrite total_cons, IH, length_app. lia.
Qed.

Lemma total_nonneg {A} (ls : list (list A)) : 0 <= total ls.
Proof. rewrite total_concat. lia. Qed.

Lemma total_replicate_nil {A} n : total (replicate n (@nil A)) = 0.
Proof. induction n; simpl; [done|]. by rewrite total_cons, IHn. Qed.

Lemma total_insert {A} (ls : list (list A)) i c c' :
  ls !! i = Some c ->
  total (<[i:=c']> ls) = total ls - Z.of_nat (length c) + Z.of_nat (length c').
Proof.
  revert i. induction ls as [|d ls IH]; intros [|i] Hi; simplify_eq/=.
  - rewrite !total_cons. lia.
  - rewrite !total_cons, (IH _ Hi). lia.
Qed.

Lemma elem_of_concat {A} (x : A) (ls : list (list A)) :
  x ∈ concat ls <-> exists l, x ∈ l /\ l ∈ ls.
Proof.
  induction ls as [|l ls IH]; simpl.
  - split; [by intros ?%elem_of_nil | by intros (l & _ & ?%elem_of_nil)].
  - rewrite elem_of_app, IH. split.
    + intros [?|(l' & ? & ?)]; [exists l | exists l']; split; try done;
        [by left | by right].
    + intros (l' & Hx & [->|?]%elem_of_cons); [by left | right; eauto].
Qed.

Lemma concat_replicate_nil {A} n : concat (replicate n (@nil A)) = [].
Proof. induction n; simpl; done. Qed.

#[export] Hint Rewrite @total_nil @total_cons @total_app @total_replicate_nil : carp.
#[export] Hint Resolve pow2_pos wrap_range swrap_range total_nonneg : carp.
