(* ===== verification/Machine.v ===== *)
(** * Machine: the integer types of the C file

    What the C standard leaves to the implementation and the C file depends
    on: the width of [unsigned long] (and of [long], which has the same
    width), whether plain [char] is signed, the sizes of a pointer and of an
    entry, the length of the key buffer of an entry (which the missing
    header defines), how far the allocator rounds a request up and how much
    of the block [calloc] has cleared.  The
    conversions into each integer type are written with [wrap] and
    [swrap]. *)

From S2P Require Import Prelude.

(** ** The platform *)

Class Platform := {
  (** Width in bits of [unsigned long] and of [long]. *)
  ulong_bits : Z;
  (** Whether plain [char] is a signed type. *)
  char_signed : bool;
  (** Number of bytes of the [key] array of [carp_ht_entry]. *)
  key_capacity : Z;
  (** Size in bytes of a pointer to an entry. *)
  pointer_bytes : Z;
  (** Size in bytes of an entry, padding included. *)
  entry_bytes : Z;
  (** The number of bytes the allocator really provides for a request:
      allocators round requests up to their block sizes. *)
  malloc_usable : Z -> Z;
  (** The number of bytes at the start of the block that [calloc] has set
      to zero for a request: the standard promises the bytes requested, an
      allocator may clear the whole block.  The key buffer is taken to be
      the first field of an entry, the order in which the fields are
      listed and used; the bytes cleared are then the first bytes of the
      key. *)
  calloc_cleared : Z -> Z;
  (** The C standard gives [long] at least 32 bits. *)
  ulong_bits_ge : 32 <= ulong_bits;
  (** The key buffer holds at least the terminator. *)
  key_capacity_pos : 0 < key_capacity;
  pointer_bytes_pos : 0 < pointer_bytes;
  (** An entry holds its key buffer, its 8-byte value and its link. *)
  entry_bytes_ge : key_capacity + 8 + pointer_bytes <= entry_bytes;
  malloc_usable_ge : forall n, n <= malloc_usable n;
  calloc_cleared_ge : forall n, n <= calloc_cleared n;
  calloc_cleared_le : forall n, calloc_cleared n <= malloc_usable n;
}.

(** glibc's [malloc] on a 64-bit machine: chunks of 16-byte granularity with
    an 8-byte header, 24 usable bytes at least. *)
Definition glibc64_usable (n : Z) : Z := Z.max 24 ((n + 23) / 16 * 16 - 8).

(** An allocator whose smallest block has 64 bytes. *)
Definition roomy_usable (n : Z) : Z := Z.max 64 n.

Lemma glibc64_usable_ge n : n <= glibc64_usable n.
Proof. unfold glibc64_usable. zdiv. Qed.

Lemma roomy_usable_ge n : n <= roomy_usable n.
Proof. unfold roomy_usable. lia. Qed.

(** What the standard promises of [calloc]: the bytes requested are zero,
    and nothing is known of the rest of the block. *)
Definition requested (n : Z) : Z := n.

(** x86-64 System V with glibc: 64-bit [long], signed [char], an entry of
    25 + 7 (padding) + 8 + 8 bytes. *)
Definition lp64 : Platform :=
  {| ulong_bits := 64; char_signed := true; key_capacity := 25;
     pointer_bytes := 8; entry_bytes := 48; malloc_usable := glibc64_usable;
     calloc_cleared := requested;
     ulong_bits_ge := ltac:(done); key_capacity_pos := ltac:(done);
     pointer_bytes_pos := ltac:(done); entry_bytes_ge := ltac:(done);
     malloc_usable_ge := glibc64_usable_ge;
     calloc_cleared_ge := Z.le_refl; calloc_cleared_le := glibc64_usable_ge |}.

(** The same machine with an allocator whose smallest block holds an
    entry and whose [calloc] clears the whole block. *)
Definition lp64_roomy : Platform :=
  {| ulong_bits := 64; char_signed := true; key_capacity := 25;
     pointer_bytes := 8; entry_bytes := 48; malloc_usable := roomy_usable;
     calloc_cleared := roomy_usable;
     ulong_bits_ge := ltac:(done); key_capacity_pos := ltac:(done);
     pointer_bytes_pos := ltac:(done); entry_bytes_ge := ltac:(done);
     malloc_usable_ge := roomy_usable_ge;
     calloc_cleared_ge := roomy_usable_ge; calloc_cleared_le := fun n => Z.le_refl _ |}.

(** The same machine with an allocator whose smallest block holds an entry
    and whose [calloc] clears no more than the bytes requested. *)
Definition lp64_dirty : Platform :=
  {| ulong_bits := 64; char_signed := true; key_capacity := 25;
     pointer_bytes := 8; entry_bytes := 48; malloc_usable := roomy_usable;
     calloc_cleared := requested;
     ulong_bits_ge := ltac:(done); key_capacity_pos := ltac:(done);
     pointer_bytes_pos := ltac:(done); entry_bytes_ge := ltac:(done);
     malloc_usable_ge := roomy_usable_ge;
     calloc_cleared_ge := Z.le_refl; calloc_cleared_le := roomy_usable_ge |}.

(** AArch64 AAPCS with glibc: 64-bit [long], unsigned [char]. *)
Definition aapcs64 : Platform :=
  {| ulong_bits := 64; char_signed := false; key_capacity := 25;
     pointer_bytes := 8; entry_bytes := 48; malloc_usable := glibc64_usable;
     calloc_cleared := requested;
     ulong_bits_ge := ltac:(done); key_capacity_pos := ltac:(done);
     pointer_bytes_pos := ltac:(done); entry_bytes_ge := ltac:(done);
     malloc_usable_ge := glibc64_usable_ge;
     calloc_cleared_ge := Z.le_refl; calloc_cleared_le := glibc64_usable_ge |}.

(** x86 System V: 32-bit [long] and pointers, signed [char], an entry of
    25 + 3 (padding) + 8 + 4 bytes. *)
Definition ilp32 : Platform :=
  {| ulong_bits := 32; char_signed := true; key_capacity := 25;
     pointer_bytes := 4; entry_bytes := 40; malloc_usable := roomy_usable;
     calloc_cleared := roomy_usable;
     ulong_bits_ge := ltac:(done); key_capacity_pos := ltac:(done);
     pointer_bytes_pos := ltac:(done); entry_bytes_ge := ltac:(done);
     malloc_usable_ge := roomy_usable_ge;
     calloc_cleared_ge := roomy_usable_ge; calloc_cleared_le := fun n => Z.le_refl _ |}.

(** ** Conversions *)

Section Conversions.
Context {P : Platform}.

(** Conversion to [unsigned long]: reduction modulo 2^w. *)
Definition to_ulong (z : Z) : Z := wrap ulong_bits z.

(** Conversion to [long] on a two's complement machine. *)
Definition to_long (z : Z) : Z := swrap ulong_bits z.

(** Conversion to [short int], 16 bits on every platform above. *)
Definition to_short (z : Z) : Z := swrap 16 z.

(** Largest value of [long]. *)
Definition LONG_MAX : Z := 2 ^ (ulong_bits - 1) - 1.

(** Largest value of [unsigned long]. *)
Definition ULONG_MAX : Z := 2 ^ ulong_bits - 1.

(** Whether [z] is a value of [long]. *)
Definition fits_long (z : Z) : bool := (- LONG_MAX - 1 <=? z) && (z <=? LONG_MAX).

End Conversions.

(** ** Lemmas *)

Section ConversionLemmas.
Context {P : Platform}.

Lemma ulong_bits_pos : 0 < ulong_bits.
Proof. pose proof ulong_bits_ge. lia. Qed.

Lemma ulong_modulus_pos : 0 < 2 ^ ulong_bits.
Proof. apply pow2_pos. pose proof ulong_bits_pos. lia. Qed.

Lemma ulong_modulus_double : 2 ^ ulong_bits = 2 * 2 ^ (ulong_bits - 1).
Proof. pose proof ulong_bits_pos. rewrite <- Z.pow_succ_r by lia. f_equal. lia. Qed.

Lemma LONG_MAX_ge : 2 ^ 31 - 1 <= LONG_MAX.
Proof.
  unfold LONG_MAX. pose proof ulong_bits_ge.
  pose proof (Z.pow_le_mono_r 2 31 (ulong_bits - 1)). lia.
Qed.

Lemma LONG_MAX_lt_modulus : LONG_MAX < 2 ^ ulong_bits.
Proof.
  unfold LONG_MAX. rewrite ulong_modulus_double.
  pose proof (pow2_pos (ulong_bits - 1)). pose proof ulong_bits_pos. lia.
Qed.

Lemma to_ulong_range z : 0 <= to_ulong z < 2 ^ ulong_bits.
Proof. apply wrap_range. pose proof ulong_bits_pos. lia. Qed.

Lemma to_ulong_small z : 0 <= z <= ULONG_MAX -> to_ulong z = z.
Proof. unfold ULONG_MAX. intros. apply wrap_small. lia. Qed.

(** A nonnegative [long] keeps its value when converted to [unsigned long]. *)
Lemma to_ulong_of_long z : 0 <= z <= LONG_MAX -> to_ulong z = z.
Proof. intros. apply wrap_small. pose proof LONG_MAX_lt_modulus. lia. Qed.

Lemma to_long_small z : - LONG_MAX - 1 <= z <= LONG_MAX -> to_long z = z.
Proof. unfold LONG_MAX. intros. apply swrap_small; [apply ulong_bits_pos | lia]. Qed.

Lemma fits_long_spec z : fits_long z = true <-> - LONG_MAX - 1 <= z <= LONG_MAX.
Proof. unfold fits_long. rewrite andb_true_iff, !Z.leb_le. done. Qed.

End ConversionLemmas.

Lemma to_short_range z : - 32768 <= to_short z <= 32767.
Proof. pose proof (swrap_range 16 z). unfold to_short. change (2 ^ (16 - 1)) with 32768 in *. lia. Qed.

Lemma to_short_small z : - 32768 <= z <= 32767 -> to_short z = z.
Proof. intros. apply swrap_small; [lia|]. change (2 ^ (16 - 1)) with 32768. lia. Qed.

#[export] Hint Resolve to_ulong_range to_short_range ulong_bits_pos ulong_modulus_pos : carp.
