(* ===== verification/CString.v ===== *)
(** * CString: NUL-terminated strings

    A [const char *] argument is modelled by the Rocq string of the bytes it
    points to; the C string it denotes ends at the first NUL byte, or at the
    end of the Rocq string, which stands for the terminator.  The library
    functions the table calls ([strlen], [strcmp], [strncpy]) are defined on
    this representation, each reading what the C function reads. *)

From stdpp Require Import strings.
From Stdlib Require Import Ascii.
From S2P Require Import Prelude Machine.

(** ** Definitions *)

(** The value of a byte as an [unsigned char]. *)
Definition byte_of (c : ascii) : Z := Z.of_N (Ascii.N_of_ascii c).

(** The NUL byte. *)
Definition NUL : ascii := Ascii.zero.

Definition is_nul (c : ascii) : bool := byte_of c ==? 0.

(** The value of a plain [char] converted to [int], as in [c = *str++]:
    negative for bytes above 127 where [char] is signed. *)
Definition char_to_int {P : Platform} (c : ascii) : Z :=
  if char_signed then swrap 8 (byte_of c) else byte_of c.

(** [strlen]: the number of bytes before the first NUL. *)
Fixpoint strlen (s : string) : Z :=
  match s with
  | EmptyString => 0
  | String c s' => if is_nul c then 0 else 1 + strlen s'
  end.

(** The C string a pointer denotes: the bytes before the first NUL. *)
Fixpoint cstr (s : string) : string :=
  match s with
  | EmptyString => EmptyString
  | String c s' => if is_nul c then EmptyString else String c (cstr s')
  end.

(** Two arrays hold the same C string. *)
Definition same_cstr (a b : string) : Prop := cstr a = cstr b.

(** [strcmp]: the difference of the first two bytes that differ, compared
    as [unsigned char]; 0 when both strings end together.  The table only
    tests the result against 0. *)
Fixpoint strcmp (a b : string) : Z :=
  match a, b with
  | EmptyString, EmptyString => 0
  | EmptyString, String y _ => 0 - byte_of y
  | String x _, EmptyString => byte_of x - 0
  | String x a', String y b' =>
      if byte_of x ==? byte_of y
      then if is_nul x then 0 else strcmp a' b'
      else byte_of x - byte_of y
  end.

(** A buffer of [n] zero bytes, as [calloc] returns it. *)
Fixpoint zeroed (n : nat) : string :=
  match n with
  | O => EmptyString
  | S n' => String NUL (zeroed n')
  end.

(** [strncpy dst src n]: writes exactly [n] bytes at the start of [dst], the
    bytes of [src] up to its terminator and then NULs.  Bytes that would fall
    behind the end of [dst] are dropped by the model; the callers rule this
    case out before they copy. *)
Fixpoint strncpy (dst src : string) (n : nat) : string :=
  match n, dst with
  | O, _ => dst
  | S _, EmptyString => EmptyString
  | S n', String _ d' =>
      match src with
      | EmptyString => String NUL (strncpy d' EmptyString n')
      | String c s' =>
          if is_nul c then String NUL (strncpy d' EmptyString n')
          else String c (strncpy d' s' n')
      end
  end.

(** ** Bytes *)

Lemma byte_of_range c : 0 <= byte_of c < 256.
Proof.
  unfold byte_of. pose proof (Ascii.N_ascii_bounded c). lia.
Qed.

Lemma byte_of_inj c d : byte_of c = byte_of d -> c = d.
Proof.
  unfold byte_of. intros H%N2Z.inj.
  rewrite <- (Ascii.ascii_N_embedding c), <- (Ascii.ascii_N_embedding d). by f_equal.
Qed.

Lemma is_nul_spec c : is_nul c = true <-> c = NUL.
Proof.
  unfold is_nul. rewrite Z.eqb_eq. split; [|by intros ->].
  intros H. by apply byte_of_inj.
Qed.

Lemma is_nul_NUL : is_nul NUL = true.
Proof. done. Qed.

Section CharToInt.
Context {P : Platform}.

Lemma char_to_int_range c : - 128 <= char_to_int c < 256.
Proof.
  unfold char_to_int. pose proof (byte_of_range c).
  destruct char_signed; [|lia].
  pose proof (swrap_range 8 (byte_of c)). change (2 ^ (8 - 1)) with 128 in *. lia.
Qed.

(** The conversion to [int] agrees with the byte modulo 256. *)
Lemma char_to_int_mod c : char_to_int c mod 256 = byte_of c.
Proof.
  unfold char_to_int, swrap. pose proof (byte_of_range c).
  change (2 ^ (8 - 1)) with 128. change (2 ^ 8) with 256.
  destruct char_signed; zdiv.
Qed.

(** The loop test [(c = *str++)] fails exactly on the NUL byte, whatever the
    signedness of [char]. *)
Lemma char_to_int_zero c : char_to_int c = 0 <-> c = NUL.
Proof.
  rewrite <- is_nul_spec. unfold is_nul. rewrite Z.eqb_eq.
  rewrite <- (char_to_int_mod c). pose proof (char_to_int_range c). split; zdiv.
Qed.

End CharToInt.

(** ** Strings *)

Lemma strlen_nonneg s : 0 <= strlen s.
Proof. induction s as [|c s IH]; simpl; [done|]. destruct (is_nul c); lia. Qed.

Lemma cstr_idemp s : cstr (cstr s) = cstr s.
Proof.
  induction s as [|c s IH]; simpl; [done|].
  destruct (is_nul c) eqn:E; simpl; [done|]. by rewrite E, IH.
Qed.

Lemma strlen_cstr s : strlen (cstr s) = strlen s.
Proof.
  induction s as [|c s IH]; simpl; [done|].
  destruct (is_nul c) eqn:E; simpl; [done|]. by rewrite E, IH.
Qed.

Lemma strlen_length s : strlen s = Z.of_nat (String.length (cstr s)).
Proof.
  induction s as [|c s IH]; simpl; [done|].
  destruct (is_nul c); simpl; lia.
Qed.

Lemma strcmp_cstr_l a b : strcmp (cstr a) b = strcmp a b.
Proof.
  revert b. induction a as [|x a IH]; intros [|y b]; simpl; try done.
  - destruct (is_nul x) eqn:E; simpl; [|done].
    unfold is_nul in E. zbool. lia.
  - destruct (is_nul x) eqn:E; simpl.
    + unfold is_nul in E. zbool. rewrite E.
      destruct (0 =? byte_of y) eqn:E'; zbool; [|done]. by rewrite <- E'.
    + rewrite E. by rewrite IH.
Qed.

Lemma strcmp_cstr_r a b : strcmp a (cstr b) = strcmp a b.
Proof.
  revert a. induction b as [|y b IH]; intros [|x a]; simpl; try done.
  - destruct (is_nul y) eqn:E; simpl; [|done].
    unfold is_nul in E. zbool. lia.
  - destruct (is_nul y) eqn:E; simpl.
    + unfold is_nul in E. zbool. rewrite E.
      destruct (byte_of x =? 0) eqn:E'; zbool; [|lia].
      unfold is_nul. rewrite E'. by rewrite Z.eqb_refl.
    + rewrite IH. done.
Qed.

(** [strcmp] returns 0 exactly when the two C strings are equal. *)
Lemma strcmp_eq a b : strcmp a b = 0 <-> cstr a = cstr b.
Proof.
  revert b. induction a as [|x a IH]; intros [|y b]; simpl; unfold is_nul;
    repeat case_ztest; try (split; intros; simplify_eq; (done || lia)).
  match goal with H : byte_of _ = byte_of _ |- _ => apply byte_of_inj in H as -> end.
  rewrite IH. split; [by intros ->|by intros [=]].
Qed.

Lemma strcmp_refl a : strcmp a a = 0.
Proof. by apply strcmp_eq. Qed.

(** The test [strcmp a b != 0] of the C file, decided on the C strings. *)
Lemma strcmp_neq a b : (strcmp a b !=? 0) = true <-> cstr a <> cstr b.
Proof. rewrite negb_true_iff, Z.eqb_neq, strcmp_eq. done. Qed.

Lemma length_zeroed n : String.length (zeroed n) = n.
Proof. induction n; simpl; [done|]. by rewrite IHn. Qed.

Lemma cstr_zeroed n : cstr (zeroed n) = EmptyString.
Proof. by destruct n. Qed.

Lemma strncpy_nil_zeroed m n : cstr (strncpy (zeroed m) EmptyString n) = EmptyString.
Proof. destruct m, n; done. Qed.

(** Copying [strlen src] bytes of [src] into a zeroed buffer with room for
    one more byte leaves the C string [src] in the buffer: the terminator is
    a byte [calloc] had cleared. *)
Lemma strncpy_zeroed_fits cap src :
  strlen src < Z.of_nat cap ->
  cstr (strncpy (zeroed cap) src (Z.to_nat (strlen src))) = cstr src.
Proof.
  revert cap. induction src as [|c s IH]; intros cap Hlen; simpl in *.
  - by destruct cap.
  - destruct (is_nul c) eqn:E; simpl.
    + by destruct cap.
    + pose proof (strlen_nonneg s).
      destruct cap as [|cap]; [lia|].
      replace (Z.to_nat (1 + strlen s)) with (S (Z.to_nat (strlen s))) by lia.
      simpl. rewrite E. simpl. rewrite E. f_equal. apply IH. lia.
Qed.

(** The same holds of a buffer of which only the first [n] bytes are
    cleared, whatever bytes [junk] follow them: the string read back ends
    at a cleared byte and does not depend on [junk]. *)
Lemma strncpy_cleared_fits n junk src :
  strlen src < Z.of_nat n ->
  cstr (strncpy (zeroed n +:+ junk) src (Z.to_nat (strlen src))) = cstr src.
Proof.
  revert n. induction src as [|c s IH]; intros n Hlen; simpl in *.
  - destruct n; [lia|done].
  - destruct (is_nul c) eqn:E; simpl.
    + destruct n; [lia|done].
    + pose proof (strlen_nonneg s).
      destruct n as [|n]; [lia|].
      replace (Z.to_nat (1 + strlen s)) with (S (Z.to_nat (strlen s))) by lia.
      simpl. rewrite E. simpl. rewrite E. f_equal. apply IH. lia.
Qed.

(** With no room for the terminator the buffer holds no NUL: the C string
    read back from it has the whole capacity for length, and a reader runs
    off the buffer. *)
Lemma strncpy_zeroed_full cap src :
  Z.of_nat cap <= strlen src ->
  strlen (strncpy (zeroed cap) src (Z.to_nat (strlen src))) = Z.of_nat cap.
Proof.
  revert cap. induction src as [|c s IH]; intros cap Hlen; simpl in *.
  - destruct cap; [done|lia].
  - destruct (is_nul c) eqn:E; simpl.
    + destruct cap; [done|lia].
    + pose proof (strlen_nonneg s).
      replace (Z.to_nat (1 + strlen s)) with (S (Z.to_nat (strlen s))) by lia.
      destruct cap as [|cap]; [done|].
      simpl. rewrite E. simpl. rewrite E, IH by lia. lia.
Qed.

(** The copy reads its source up to the terminator. *)
Lemma strncpy_cstr dst src n : strncpy dst (cstr src) n = strncpy dst src n.
Proof.
  revert dst src. induction n as [|n IH]; intros dst src; [by destruct dst|].
  destruct dst as [|d dst]; [done|]. destruct src as [|c src]; [done|].
  simpl. destruct (is_nul c) eqn:E; simpl; [done|]. by rewrite E, IH.
Qed.

(** ** Arrays that hold the same C string

    [same_cstr] relates two arrays that differ behind their terminators
    only; the library functions do not tell them apart. *)

#[export] Instance same_cstr_equiv : Equivalence same_cstr.
Proof.
  unfold same_cstr. split; [by intros ? | by intros ?? -> | by intros ??? -> ->].
Qed.

Lemma same_cstr_cstr s : same_cstr (cstr s) s.
Proof. apply cstr_idemp. Qed.

#[export] Instance cstr_proper : Proper (same_cstr ==> eq) cstr.
Proof. by intros a b H. Qed.

#[export] Instance strlen_proper : Proper (same_cstr ==> eq) strlen.
Proof. intros a b H. by rewrite <- (strlen_cstr a), H, strlen_cstr. Qed.

#[export] Instance strcmp_proper : Proper (same_cstr ==> same_cstr ==> eq) strcmp.
Proof.
  intros a a' Ha b b' Hb.
  by rewrite <- (strcmp_cstr_l a), <- (strcmp_cstr_r _ b), Ha, Hb, strcmp_cstr_l, strcmp_cstr_r.
Qed.

#[export] Instance strncpy_proper dst : Proper (same_cstr ==> eq ==> eq) (strncpy dst).
Proof. intros a b H n ? <-. by rewrite <- (strncpy_cstr dst a), H, strncpy_cstr. Qed.

#[export] Hint Resolve strlen_nonneg byte_of_range strcmp_refl : carp.
#[export] Hint Rewrite strcmp_cstr_l strcmp_cstr_r cstr_idemp strlen_cstr : carp.
