(* ===== verification/Hash.v ===== *)
(** * Hash: the djb2 hash and the bucket index

    [carp_ht_rhash] (src/src/lib/carp_ht.c, 36-46) and [carp_ht_hash]
    (48-52), with the arithmetic of [unsigned long] written out: the shift,
    each addition and the conversion of the [int] read from the key all wrap
    modulo 2^w.  The reference definition [djb2] is the recurrence the
    comment of line 43 states, h*33 + c, on the bytes of the C string. *)

From stdpp Require Import strings.
From Stdlib Require Import Ascii.
From S2P Require Import Prelude Machine CString.

(** ** Definitions *)

Section Definitions.
Context {P : Platform}.

(** Line 43: [hash = ((hash << 5) + hash) + c], on [unsigned long], with [c]
    an [int] converted to [unsigned long] by the addition. *)
Definition rhash_step (hash c : Z) : Z :=
  to_ulong (to_ulong (to_ulong (Z.shiftl hash 5) + hash) + to_ulong c).

(** Lines 42-43: the loop [while ((c = *str++))], which reads one byte,
    converts it to [int] and stops when that is 0. *)
Fixpoint rhash_loop (hash : Z) (str : string) : Z :=
  match str with
  | EmptyString => hash
  | String ch str' =>
      let c := char_to_int ch in
      if c !=? 0 then rhash_loop (rhash_step hash c) str' else hash
  end.

(** Lines 36-46. *)
Definition carp_ht_rhash (str : string) : Z := rhash_loop 5381 str.

(** Lines 48-52: [carp_ht_rhash(str) % size]; the [long] [size] is converted
    to [unsigned long] by the usual arithmetic conversions.  The C operation
    is undefined for [size = 0], where Rocq's [mod] returns its first
    argument. *)
Definition carp_ht_hash (str : string) (size : Z) : Z :=
  carp_ht_rhash str mod to_ulong size.

(** The recurrence of the comment of line 43, on a list of [int]s. *)
Definition djb2 (cs : list Z) : Z :=
  fold_left (fun h c => wrap ulong_bits (h * 33 + c)) cs 5381.

(** The [int]s the loop reads from a string: its bytes up to the first
    NUL. *)
Fixpoint ints_of (str : string) : list Z :=
  match str with
  | EmptyString => []
  | String ch str' => if is_nul ch then [] else char_to_int ch :: ints_of str'
  end.

(** A key of 7-bit bytes: the keys on which every platform agrees. *)
Fixpoint is_ascii7 (str : string) : bool :=
  match str with
  | EmptyString => true
  | String ch str' => (byte_of ch <? 128) && is_ascii7 str'
  end.

End Definitions.

(** ** Lemmas *)

Section Lemmas.
Context {P : Platform}.

Lemma rhash_step_range hash c : 0 <= rhash_step hash c < 2 ^ ulong_bits.
Proof. apply to_ulong_range. Qed.

(** The shift-and-add of line 43 is the multiplication by 33 its comment
    announces, modulo 2^w. *)
Lemma rhash_step_33 hash c : rhash_step hash c = wrap ulong_bits (hash * 33 + c).
Proof.
  unfold rhash_step, to_ulong.
  rewrite wrap_shiftl by lia.
  rewrite wrap_add_r, wrap_add_l, <- Z.add_assoc, wrap_add_l.
  f_equal. change (2 ^ 5) with 32. lia.
Qed.

Lemma rhash_loop_range hash str :
  0 <= hash < 2 ^ ulong_bits -> 0 <= rhash_loop hash str < 2 ^ ulong_bits.
Proof.
  revert hash. induction str as [|ch str IH]; intros hash Hh; simpl; [done|].
  case_ztest; [done|]. apply IH, rhash_step_range.
Qed.

Lemma char_to_int_test ch : (char_to_int ch !=? 0) = negb (is_nul ch).
Proof.
  f_equal. apply eq_true_iff_eq.
  by rewrite Z.eqb_eq, char_to_int_zero, is_nul_spec.
Qed.

Lemma rhash_loop_ints hash str :
  rhash_loop hash str =
  fold_left (fun h c => wrap ulong_bits (h * 33 + c)) (ints_of str) hash.
Proof.
  revert hash. induction str as [|ch str IH]; intros hash; simpl; [done|].
  rewrite char_to_int_test. destruct (is_nul ch); simpl; [done|].
  by rewrite IH, rhash_step_33.
Qed.

Lemma ints_of_cstr str : ints_of (cstr str) = ints_of str.
Proof.
  induction str as [|ch str IH]; simpl; [done|].
  destruct (is_nul ch) eqn:E; simpl; [done|]. by rewrite E, IH.
Qed.

Lemma carp_ht_rhash_range str : 0 <= carp_ht_rhash str < 2 ^ ulong_bits.
Proof.
  apply rhash_loop_range. pose proof ulong_bits_ge.
  pose proof (Z.pow_le_mono_r 2 32 ulong_bits). lia.
Qed.

(** C19. The loop of [carp_ht_rhash], with its shifts and wrapping additions,
    computes the djb2 recurrence h*33 + c (modulo 2^w, from 5381) over the
    bytes of the key that precede its first NUL. *)
Theorem carp_ht_rhash_djb2 str : carp_ht_rhash str = djb2 (ints_of str).
Proof. unfold carp_ht_rhash, djb2. apply rhash_loop_ints. Qed.

(** The bucket index reads the key up to its first NUL only. *)
Lemma carp_ht_hash_cstr str size : carp_ht_hash (cstr str) size = carp_ht_hash str size.
Proof. unfold carp_ht_hash, carp_ht_rhash. by rewrite !rhash_loop_ints, ints_of_cstr. Qed.

(** The hash reads the key up to its first NUL only: bytes behind the
    terminator change neither the raw hash nor the bucket index. *)
Theorem carp_ht_rhash_cstr str size :
  carp_ht_rhash (cstr str) = carp_ht_rhash str /\
  carp_ht_hash (cstr str) size = carp_ht_hash str size.
Proof.
  split; [|apply carp_ht_hash_cstr].
  unfold carp_ht_rhash. by rewrite !rhash_loop_ints, ints_of_cstr.
Qed.

(** For a positive bucket count that is a value of [long], the bucket index
    lies in [0, size). *)
Lemma carp_ht_hash_lt str size :
  0 < size <= LONG_MAX -> 0 <= carp_ht_hash str size < size.
Proof.
  intros Hs. unfold carp_ht_hash. rewrite to_ulong_of_long by lia.
  apply Z.mod_pos_bound. lia.
Qed.

(** C20. For a positive bucket count that is a value of [long], the bucket
    index is the djb2 hash of the key modulo the count: the conversion of
    the count to [unsigned long] changes nothing, and the index lies in
    [0, size). *)
Theorem carp_ht_hash_range str size :
  0 < size <= LONG_MAX ->
  carp_ht_hash str size = djb2 (ints_of str) mod size /\
  0 <= carp_ht_hash str size < size.
Proof.
  intros Hs. split; [|by apply carp_ht_hash_lt].
  unfold carp_ht_hash, carp_ht_rhash, djb2.
  by rewrite rhash_loop_ints, to_ulong_of_long by lia.
Qed.

#[export] Instance carp_ht_hash_proper : Proper (same_cstr ==> eq ==> eq) carp_ht_hash.
Proof.
  intros a b H sz ? <-. unfold same_cstr in H.
  by rewrite <- (carp_ht_hash_cstr a), H, carp_ht_hash_cstr.
Qed.

(** Two keys that are equal as C strings have the same bucket index. *)
Lemma carp_ht_hash_strcmp a b size :
  strcmp a b = 0 -> carp_ht_hash a size = carp_ht_hash b size.
Proof.
  intros H%strcmp_eq. by rewrite <- (carp_ht_hash_cstr a), H, carp_ht_hash_cstr.
Qed.

End Lemmas.

(** On 7-bit keys the conversion of [char] to [int] does not depend on the
    signedness of [char]. *)
Lemma ints_of_ascii7 (P Q : Platform) str :
  is_ascii7 str = true -> @ints_of P str = @ints_of Q str.
Proof.
  induction str as [|ch str IH]; simpl; [done|].
  intros [Hc Hs]%andb_true_iff. zbool. destruct (is_nul ch); [done|].
  rewrite (IH Hs). f_equal. unfold char_to_int.
  pose proof (byte_of_range ch).
  rewrite swrap_small by (change (2 ^ (8 - 1)) with 128; lia).
  by destruct (@char_signed P), (@char_signed Q).
Qed.

(** Platforms with the same width of [unsigned long] compute the same
    raw hash for every key of 7-bit bytes, whether [char] is signed or
    not. *)
Theorem carp_ht_rhash_ascii7 (P Q : Platform) str :
  @ulong_bits P = @ulong_bits Q -> is_ascii7 str = true ->
  @carp_ht_rhash P str = @carp_ht_rhash Q str.
Proof.
  intros Hw Hs. unfold carp_ht_rhash.
  by rewrite !rhash_loop_ints, Hw, (ints_of_ascii7 P Q).
Qed.

(** Witnesses on x86-64. *)

Lemma carp_ht_hash_range_witness :
  0 <= carp_ht_hash (P:=lp64) "Maxwell" 10 < 10.
Proof. apply (carp_ht_hash_range (P:=lp64)). vm_compute. split; [done|discriminate]. Defined.

Lemma carp_ht_rhash_ascii7_witness :
  carp_ht_rhash (P:=lp64) "Maxwell" = carp_ht_rhash (P:=aapcs64) "Maxwell".
Proof. apply (carp_ht_rhash_ascii7 lp64 aapcs64); reflexivity. Defined.

(** The raw hashes of the empty key and of a one-letter key, and a byte
    above 127 on which signed and unsigned [char] disagree. *)

Example carp_ht_rhash_empty : carp_ht_rhash (P:=lp64) "" = 5381.
Proof. reflexivity. Qed.

Example carp_ht_rhash_a : carp_ht_rhash (P:=lp64) "a" = 5381 * 33 + 97.
Proof. reflexivity. Qed.

Example carp_ht_rhash_signedness :
  let key := String (ascii_of_nat 200) EmptyString in
  carp_ht_rhash (P:=lp64) key = 5381 * 33 + 200 - 256 /\
  carp_ht_rhash (P:=aapcs64) key = 5381 * 33 + 200.
Proof. split; reflexivity. Qed.
