(* ===== verification/Alloc.v ===== *)
(** * Alloc: the allocator and the monad of the allocating operations

    [malloc] and [calloc] may return NULL.  The model resolves this choice
    with an oracle: a list of booleans of which every allocation consumes
    the head ([true]: a block is returned); an exhausted oracle grants every
    request.  [carp_ht_init], [carp_ht_set] and [carp_ht_resize] run in the
    monad [M]: from an oracle to a value with the rest of the oracle, to a
    fault, or to [OutOfFuel] when the bound on nested calls is reached.  A
    fault is behaviour the C standard leaves undefined or a failed
    [assert]; it ends the run, and it is raised where the defect is made:
    a key stored without its terminator is a fault of the call that stores
    it, not of the later call that reads it.  The oracle stands for every
    reason a request may be refused, a byte count that [calloc] cannot
    represent included. *)

From S2P Require Import Prelude Machine.

(** ** Definitions *)

(** Why a run stopped. *)
Inductive fault :=
| NullDeref        (** an access through a null pointer *)
| HeapOverflow     (** an access behind the end of an allocated block *)
| KeyOverflow      (** a key that leaves no room for its terminator *)
| Unterminated     (** a key copied into bytes that were not cleared: no
                       terminator follows it *)
| SignedOverflow   (** [long] arithmetic out of range *)
| DivByZero        (** a division by zero *)
| AssertFail       (** a failed [assert] *)
| BadPointer.      (** an access through a pointer to no live block: a
                       released block, an indeterminate pointer *)

Definition oracle := list bool.

Inductive outcome (A : Type) :=
| Ok (a : A) (rest : oracle)
| Fault (f : fault)
| OutOfFuel.
Arguments Ok {A} a rest.
Arguments Fault {A} f.
Arguments OutOfFuel {A}.

Definition M (A : Type) : Type := oracle -> outcome A.

Definition ret {A} (a : A) : M A := fun o => Ok a o.

Definition bind {A B} (m : M A) (k : A -> M B) : M B :=
  fun o =>
    match m o with
    | Ok a o' => k a o'
    | Fault f => Fault f
    | OutOfFuel => OutOfFuel
    end.

#[export] Instance M_ret : MRet M := @ret.
#[export] Instance M_bind : MBind M := fun A B k m => bind m k.

Definition raise {A} (f : fault) : M A := fun _ => Fault f.

Definition out_of_fuel {A} : M A := fun _ => OutOfFuel.

(** One call of [malloc] or [calloc]: whether a block is returned. *)
Definition alloc : M bool :=
  fun o =>
    match o with
    | [] => Ok true []
    | b :: o' => Ok b o'
    end.

(** [check b f] goes on when [b] holds and stops with [f] otherwise. *)
Definition check (b : bool) (f : fault) : M unit :=
  if b then ret tt else raise f.

(** A loop over a list that threads a state through a monadic body. *)
Fixpoint foldM {A B} (f : B -> A -> M B) (l : list A) (b : B) : M B :=
  match l with
  | [] => ret b
  | a :: l' => b' ← f b a; foldM f l' b'
  end.

(** An oracle that grants every request. *)
Definition never_fails (o : oracle) : Prop := Forall (eq true) o.

(** [runs E Q r]: the run did not run out of fuel; it returned a value that
    satisfies [Q] and left an oracle that never fails, or it stopped with a
    fault that [E] allows. *)
Definition runs {A} (E : fault -> Prop) (Q : A -> Prop) (r : outcome A) : Prop :=
  match r with
  | Ok a o' => never_fails o' /\ Q a
  | Fault f => E f
  | OutOfFuel => False
  end.

(** ** Lemmas *)

Lemma bind_unfold {A B} (m : M A) (k : A -> M B) o :
  (m ≫= k) o = match m o with
               | Ok a o' => k a o'
               | Fault f => Fault f
               | OutOfFuel => OutOfFuel
               end.
Proof. done. Qed.

Lemma bind_Ok {A B} (m : M A) (k : A -> M B) o a o' :
  m o = Ok a o' -> (m ≫= k) o = k a o'.
Proof. intros H. by rewrite bind_unfold, H. Qed.

Lemma bind_Fault {A B} (m : M A) (k : A -> M B) o f :
  m o = Fault f -> (m ≫= k) o = Fault f.
Proof. intros H. by rewrite bind_unfold, H. Qed.

Lemma bind_OutOfFuel {A B} (m : M A) (k : A -> M B) o :
  m o = OutOfFuel -> (m ≫= k) o = OutOfFuel.
Proof. intros H. by rewrite bind_unfold, H. Qed.

Lemma bind_Ok_inv {A B} (m : M A) (k : A -> M B) o b o2 :
  (m ≫= k) o = Ok b o2 -> exists a o1, m o = Ok a o1 /\ k a o1 = Ok b o2.
Proof. rewrite bind_unfold. destruct (m o) as [a o1| |]; [eauto|done..]. Qed.

(** The monad laws, pointwise in the oracle. *)

Lemma bind_ret_l {A B} (a : A) (k : A -> M B) o : (mret a ≫= k) o = k a o.
Proof. done. Qed.

Lemma bind_ret_r {A} (m : M A) o : (m ≫= mret) o = m o.
Proof. rewrite bind_unfold. by destruct (m o). Qed.

Lemma bind_assoc {A B C} (m : M A) (k : A -> M B) (k' : B -> M C) o :
  ((m ≫= k) ≫= k') o = (m ≫= fun a => k a ≫= k') o.
Proof. rewrite !bind_unfold. by destruct (m o). Qed.

Lemma check_true f o : check true f o = Ok tt o.
Proof. done. Qed.

Lemma check_false f o : check false f o = Fault f.
Proof. done. Qed.

Lemma never_fails_nil : never_fails [].
Proof. constructor. Qed.

Lemma never_fails_cons o : never_fails o -> never_fails (true :: o).
Proof. by constructor. Qed.

(** Under an oracle that never fails an allocation returns a block and
    leaves such an oracle. *)
Lemma alloc_never_fails o :
  never_fails o -> exists o', alloc o = Ok true o' /\ never_fails o'.
Proof.
  intros H. destruct H as [|b o <- H]; simpl; eauto using never_fails_nil.
Qed.

(** A refused allocation consumes the refusal. *)
Lemma alloc_refused o : alloc (false :: o) = Ok false o.
Proof. done. Qed.

Lemma foldM_nil {A B} (f : B -> A -> M B) b o : foldM f [] b o = Ok b o.
Proof. done. Qed.

Lemma foldM_cons {A B} (f : B -> A -> M B) a l b o :
  foldM f (a :: l) b o = (f b a ≫= foldM f l) o.
Proof. done. Qed.

Lemma foldM_app {A B} (f : B -> A -> M B) l1 l2 b o :
  foldM f (l1 ++ l2) b o = (foldM f l1 b ≫= foldM f l2) o.
Proof.
  revert b o. induction l1 as [|a l1 IH]; intros b o; [done|].
  simpl. rewrite !bind_unfold. destruct (f b a) as [b' o'| |]; [|done..].
  apply IH.
Qed.

(** A loop over the elements of a list of lists is a loop over the lists
    with a loop over each. *)
Lemma foldM_concat {A B} (f : B -> A -> M B) ls b o :
  foldM f (concat ls) b o = foldM (fun b l => foldM f l b) ls b o.
Proof.
  revert b o. induction ls as [|l ls IH]; intros b o; [done|].
  simpl. rewrite foldM_app, !bind_unfold.
  destruct (foldM f l b o) as [b' o'| |]; [apply IH|done..].
Qed.

(** ** Total correctness under an oracle that never fails

    The rules of [runs]: a specification is proved along the binds of the
    code, the loop by an invariant that knows how many elements the loop has
    been through. *)

Lemma runs_ret {A} (E : fault -> Prop) (Q : A -> Prop) a o :
  never_fails o -> Q a -> runs E Q (ret a o).
Proof. by split. Qed.

Lemma runs_raise {A} (E : fault -> Prop) (Q : A -> Prop) f o :
  E f -> runs E Q (raise f o).
Proof. done. Qed.

Lemma runs_bind {A B} (E : fault -> Prop) (Q : A -> Prop) (R : B -> Prop)
    (m : M A) (k : A -> M B) o :
  runs E Q (m o) ->
  (forall a o', never_fails o' -> Q a -> runs E R (k a o')) ->
  runs E R ((m ≫= k) o).
Proof.
  intros Hm Hk. rewrite bind_unfold.
  destruct (m o) as [a o'|f|]; [|done..]. destruct Hm. by apply Hk.
Qed.

Lemma runs_weaken {A} (E E' : fault -> Prop) (Q Q' : A -> Prop) r :
  (forall f, E f -> E' f) -> (forall a, Q a -> Q' a) -> runs E Q r -> runs E' Q' r.
Proof. intros HE HQ. destruct r; simpl; naive_solver. Qed.

Lemma runs_alloc E o : never_fails o -> runs E (eq true) (alloc o).
Proof. intros (o' & -> & Ho')%alloc_never_fails. by split. Qed.

Lemma runs_check E b f o :
  never_fails o -> (b = false -> E f) -> runs E (fun _ => b = true) (check b f o).
Proof. intros Ho Hf. destruct b; simpl; [by split | by apply Hf]. Qed.

(** A run that cannot fault returns. *)
Lemma runs_Ok {A} (Q : A -> Prop) r :
  runs (fun _ => False) Q r -> exists a o', r = Ok a o' /\ never_fails o' /\ Q a.
Proof. destruct r as [a o'| |]; simpl; [|done..]. intros []. eauto. Qed.

(** A run that cannot return faults. *)
Lemma runs_Fault {A} (E : fault -> Prop) (r : outcome A) :
  runs E (fun _ => False) r -> exists f, r = Fault f /\ E f.
Proof. destruct r as [a o'|f|]; simpl; [by intros []| |done]. eauto. Qed.

(** What is known of a run that returned. *)
Lemma runs_Ok_inv {A} (E : fault -> Prop) (Q : A -> Prop) r a o' :
  runs E Q r -> r = Ok a o' -> never_fails o' /\ Q a.
Proof. by intros Hr ->. Qed.

(** What is known of a run that faulted. *)
Lemma runs_Fault_inv {A} (E : fault -> Prop) (Q : A -> Prop) (r : outcome A) f :
  runs E Q r -> r = Fault f -> E f.
Proof. by intros Hr ->. Qed.

Lemma runs_foldM {A B} (E : fault -> Prop) (I : nat -> B -> Prop)
    (f : B -> A -> M B) l b o :
  (forall n b a o, l !! n = Some a -> I n b -> never_fails o ->
     runs E (I (S n)) (f b a o)) ->
  I 0%nat b -> never_fails o -> runs E (I (length l)) (foldM f l b o).
Proof.
  revert I b o. induction l as [|a l IH]; intros I b o Hf HI Ho; [by split|].
  rewrite foldM_cons. eapply runs_bind; [by apply (Hf 0%nat)|].
  intros b' o' Ho' Hb'. apply (IH (fun n => I (S n))); [|done..].
  intros n b2 a2 o2 Hn. by apply (Hf (S n)).
Qed.

(** ** Fuel

    A run that did not run out of fuel is not changed by parts that are
    given more of it. *)

Lemma bind_fuel {A B} (m m' : M A) (k k' : A -> M B) o :
  (m o <> OutOfFuel -> m' o = m o) ->
  (forall a o', k a o' <> OutOfFuel -> k' a o' = k a o') ->
  (m ≫= k) o <> OutOfFuel -> (m' ≫= k') o = (m ≫= k) o.
Proof.
  intros Hm Hk. rewrite !bind_unfold.
  destruct (m o) as [a o1|f|] eqn:E; intros H; [|by rewrite Hm..|done].
  rewrite Hm by done. by apply Hk.
Qed.

Lemma foldM_fuel {A B} (f f' : B -> A -> M B) l b o :
  (forall b a o, f b a o <> OutOfFuel -> f' b a o = f b a o) ->
  foldM f l b o <> OutOfFuel -> foldM f' l b o = foldM f l b o.
Proof.
  intros Hf. revert b o. induction l as [|a l IH]; intros b o; [done|].
  rewrite !foldM_cons. apply bind_fuel; [apply Hf | apply IH].
Qed.

#[export] Hint Resolve never_fails_nil never_fails_cons : carp.
#[export] Hint Resolve runs_ret runs_alloc : carp.
#[export] Hint Rewrite @bind_ret_l @check_true @check_false @foldM_nil : carp.
