(* ===== verification/Table.v ===== *)
(** * Table: the hash table of src/src/lib/carp_ht.c

    The data of the table and one definition per function of the C file.
    A chain is the list of its entries in link order, so an entry's [next]
    is the tail of the list behind it and a pointer to an entry is a cursor
    [At i j]: bucket [i], position [j].  Each loop of the C file is a
    structural fixpoint on the chain it walks; [carp_ht_set] and
    [carp_ht_resize], which call each other, are one fixpoint on fuel. *)

From stdpp Require Import strings.
From S2P Require Import Prelude Machine CString Hash Alloc.

(** ** Data *)

(** An entry: the C string in its key buffer and its value.  The link to
    the next entry is the tail of the chain.  The value is a [long long]
    that the C file stores and prints and never computes with: it is an
    integer without a width here. *)
Record carp_ht_entry := { key : string; value : Z }.

(** A chain, from its head: an abbreviation, so that the list lemmas apply
    to chains as they are. *)
Abbreviation chain := (list carp_ht_entry).

(** The table: [size] as the C struct stores it, and the bucket array.  A
    table without an array (after a failed [carp_ht_init] or after
    [carp_ht_cleanup]) has [buckets = []]. *)
Record carp_ht := { size : Z; buckets : list chain }.

(** A pointer to an entry of the table. *)
Inductive entry_ptr :=
| NULL
| At (i j : nat).

Section Operations.
Context {P : Platform}.

(** ** Access *)

(** [h->buckets[i]].  A read outside the array is undefined in C and yields
    the empty chain here; no well-formed table reaches it. *)
Definition bucket (h : carp_ht) (i : Z) : chain :=
  default [] (buckets h !! Z.to_nat i).

(** [h->buckets[i] = c]. *)
Definition store (h : carp_ht) (i : Z) (c : chain) : carp_ht :=
  {| size := size h; buckets := <[Z.to_nat i := c]> (buckets h) |}.

(** [*p]. *)
Definition deref (h : carp_ht) (p : entry_ptr) : option carp_ht_entry :=
  match p with
  | NULL => None
  | At i j => buckets h !! i ≫= (.!! j)
  end.

(** The entries the loops over the table visit: the chains of the first
    [size] buckets, in bucket order and link order. *)
Definition entries (h : carp_ht) : list carp_ht_entry :=
  concat (take (Z.to_nat (size h)) (buckets h)).

(** ** carp_ht_used, lines 54-66 *)

(** Lines 55-63: the number of entries, counted chain by chain. *)
Definition in_use (h : carp_ht) : Z :=
  total (take (Z.to_nat (size h)) (buckets h)).

(** Line 65: [in_use * 100 / h->size], computed in [long] and returned as
    [short int].  The product is undefined when it is not a value of
    [long], and so is the quotient when the size is 0. *)
Definition carp_ht_used (h : carp_ht) : M Z :=
  check (fits_long (in_use h * 100)) SignedOverflow;;
  check (size h !=? 0) DivByZero;;
  ret (to_short (cdiv (in_use h * 100) (size h))).

(** ** carp_ht_init, lines 68-81 *)

(** A table of [sz] empty buckets: the array after the loop of lines 77-78,
    and the array [calloc] returns at line 185. *)
Definition empty_table (sz : Z) : carp_ht :=
  {| size := sz; buckets := replicate (Z.to_nat sz) [] |}.

(** The size is stored before the allocation (line 72), so a failed
    [carp_ht_init] leaves a table with a size and no array.  The request of
    line 73 is [size * sizeof(carp_ht_entry * )] in [size_t], which is as
    wide as [unsigned long] on the platforms modelled: when the product
    wraps, the loop of lines 77-78 writes behind the block.  The argument
    is any integer; the theorems on tables assume that it is a value of
    [long], as the parameter of the C function is. *)
Definition carp_ht_init (sz : Z) : M (Z * carp_ht) :=
  check (0 <? sz) AssertFail;;
  p ← alloc;
  if (p : bool) then
    check (sz * pointer_bytes <=? malloc_usable (to_ulong (sz * pointer_bytes)))
          HeapOverflow;;
    ret (0, empty_table sz)
  else ret (1, {| size := sz; buckets := [] |}).

(** ** carp_ht_get, lines 162-176 *)

(** Lines 169-173: the walk from [base], at position [j] of its chain;
    [oob] is the test [hash >= h->size] of line 170, which does not change
    during the walk. *)
Fixpoint get_loop (oob : bool) (k : string) (base : chain) (j : nat) : option nat :=
  match base with
  | [] => None
  | e :: next =>
      if strcmp (key e) k !=? 0
      then if oob then None else get_loop oob k next (S j)
      else Some j
  end.

Definition carp_ht_get (h : carp_ht) (k : string) : entry_ptr :=
  let hash := carp_ht_hash k (size h) in
  match get_loop (to_ulong (size h) <=? hash) k (bucket h hash) 0 with
  | Some j => At (Z.to_nat hash) j
  | None => NULL
  end.

(** ** carp_ht_del, lines 83-117 *)

(** Lines 102-113: the walk from [base]; [None] is the [return 2] of line
    104, [Some c] the chain from [base] on once the match is unlinked. *)
Fixpoint del_loop (k : string) (base : chain) : option chain :=
  match base with
  | [] => None
  | e :: next =>
      if strcmp (key e) k !=? 0
      then match next with
           | [] => None
           | _ :: _ => cons e <$> del_loop k next
           end
      else Some next
  end.

Definition carp_ht_del (h : carp_ht) (k : string) : Z * carp_ht :=
  let hash := carp_ht_hash k (size h) in
  match bucket h hash with
  | [] => (1, h)
  | e :: next =>
      if strcmp (key e) k ==? 0 then (0, store h hash next)
      else match del_loop k (e :: next) with
           | Some c => (0, store h hash c)
           | None => (2, h)
           end
  end.

(** ** carp_ht_cleanup, lines 226-242 *)

(** The entries released, in the order of the calls of [free]; the array is
    released last and the table is left without one.  The C struct keeps
    the pointer to the released array: that is [carp_ht_cleanup_ptr] of
    [Program], where a later call through the struct is a fault. *)
Definition carp_ht_cleanup (h : carp_ht) : list carp_ht_entry * carp_ht :=
  (fold_left (fun freed c => freed ++ c) (take (Z.to_nat (size h)) (buckets h)) [],
   {| size := size h; buckets := [] |}).

(** ** carp_ht_set, lines 120-160, and carp_ht_resize, lines 178-206 *)

(** Lines 155-157: the key is copied without its terminator (the count
    of line 155 is [strlen(key)]), so the C string the buffer holds ends
    where the bytes behind the copy are zero.  [alloc_entry] lets the write
    go on only when [calloc] has cleared the byte behind the copy; the
    string stored is then the one read from a buffer cleared whole, which
    is how it is computed here ([new_entry_cleared] in [Insert]). *)
Definition new_entry (k : string) (v : Z) : carp_ht_entry :=
  {| key := cstr (strncpy (zeroed (Z.to_nat key_capacity)) k (Z.to_nat (strlen k)));
     value := v |}.

(** Lines 137 and 151 with the writes of lines 155-157: a block of [bytes]
    bytes is requested and an entry is written into it.  The write through
    a refused request, the write behind the block, the key that fills or
    overflows its buffer, and the key whose terminator is a byte [calloc]
    did not clear are faults, looked for in this order. *)
Definition alloc_entry (bytes : Z) (k : string) : M unit :=
  p ← alloc;
  check p NullDeref;;
  check (entry_bytes <=? malloc_usable bytes) HeapOverflow;;
  check (strlen k <? key_capacity) KeyOverflow;;
  check (strlen k <? calloc_cleared bytes) Unterminated.

(** Lines 142-149: the walk from [base]; [Some c] is the [return 0] of line
    145, with [c] the chain from [base] on after the write of line 144;
    [None] is the exit of the loop, at the last entry of the chain. *)
Fixpoint set_loop (k : string) (v : Z) (base : chain) : option chain :=
  match base with
  | [] => None
  | e :: next =>
      match next with
      | [] => None
      | n :: rest =>
          if strcmp (key n) k !=? 0
          then Some (e :: {| key := key n; value := v |} :: rest)
          else cons e <$> set_loop k v next
      end
  end.

(** Lines 132-159: what [carp_ht_set] does once the table is not too
    full. *)
Definition set_body (h : carp_ht) (k : string) (v : Z) : M (Z * carp_ht) :=
  match carp_ht_get h k with
  | NULL =>
      let hash := carp_ht_hash k (size h) in
      alloc_entry entry_bytes k;;
      ret (0, store h hash [new_entry k v])
  | At i j =>
      let c := bucket h (Z.of_nat i) in
      match set_loop k v (drop j c) with
      | Some c' => ret (0, store h (Z.of_nat i) (take j c ++ c'))
      | None =>
          alloc_entry pointer_bytes k;;
          ret (0, store h (Z.of_nat i) (c ++ [new_entry k v]))
      end
  end.

(** Lines 178-206, with the call of [carp_ht_set] on the new table as a
    parameter.  The status of that call is dropped (line 197); the size the
    table receives is the one computed on entry (line 203), whatever the
    calls did to the new table.  Whether [calloc] grants the array is the
    oracle's choice, also for a number of bytes that [size_t] cannot
    hold. *)
Definition resize_with (set : carp_ht -> string -> Z -> M (Z * carp_ht))
    (h : carp_ht) : M (Z * carp_ht) :=
  let newsize := 2 * size h + 1 in
  check (fits_long newsize) SignedOverflow;;
  p ← alloc;
  if (p : bool) then
    newh ← foldM (fun newh e => r ← set newh (key e) (value e); ret r.2)
                 (entries h) (empty_table newsize);
    let h' := (carp_ht_cleanup h).2 in
    ret (0, {| size := newsize; buckets := buckets newh |})
  else ret (1, h).

(** Lines 120-160.  [fuel] bounds the nesting of calls: a call that resizes
    runs the insertions of the migration and its own second call with one
    unit less. *)
Fixpoint carp_ht_set (fuel : nat) (h : carp_ht) (k : string) (v : Z) : M (Z * carp_ht) :=
  match fuel with
  | O => out_of_fuel
  | S fuel' =>
      used ← carp_ht_used h;
      if 60 <? used then
        r ← resize_with (carp_ht_set fuel') h;
        if r.1 ==? 1 then ret (1, r.2)
        else
          r' ← carp_ht_set fuel' r.2 k v;
          if r'.1 !=? 0 then ret (1, r'.2)
          else set_body r'.2 k v
      else set_body h k v
  end.

Definition carp_ht_resize (fuel : nat) (h : carp_ht) : M (Z * carp_ht) :=
  resize_with (carp_ht_set fuel) h.

End Operations.

(** ** Decidable equality *)

#[export] Instance carp_ht_entry_eq_dec : EqDecision carp_ht_entry.
Proof. solve_decision. Defined.

#[export] Instance carp_ht_eq_dec : EqDecision carp_ht.
Proof. solve_decision. Defined.

#[export] Instance entry_ptr_eq_dec : EqDecision entry_ptr.
Proof. solve_decision. Defined.
