(* ===== verification/TableLemmas.v ===== *)
(** * TableLemmas: the invariants of the table

    The predicates the theorems on the operations are stated with: the
    invariant [inv] of a table ([wf], [in_home], [keys_ok], [uniform]),
    [sparse], [flat], the reference [lookup_ref] of the lookup, the key
    equality [matches] that [strcmp] decides, and the conditions [roomy]
    and [cleared] on the allocator; a boolean checker [invb] of the
    invariant for concrete tables; and the lemmas on [bucket] and [store]
    that the files of the operations share. *)

From stdpp Require Import strings.
From S2P Require Import Prelude Machine CString Hash Alloc Table.

(** ** Definitions *)

(** The entry's key is the C string [k]: what [strcmp (key e) k == 0]
    decides. *)
Definition matches (k : string) (e : carp_ht_entry) : Prop := cstr (key e) = cstr k.

#[export] Instance matches_dec k e : Decision (matches k e).
Proof. unfold matches. apply _. Defined.

Section Definitions.
Context {P : Platform}.

(** The table is initialised: a positive size that is a value of [long],
    and an array of that many buckets. *)
Definition wf (h : carp_ht) : Prop :=
  0 < size h <= LONG_MAX /\ length (buckets h) = Z.to_nat (size h).

(** Every entry sits in the bucket its key hashes to. *)
Definition in_home (h : carp_ht) : Prop :=
  forall i c e, buckets h !! i = Some c -> e ∈ c ->
    carp_ht_hash (key e) (size h) = Z.of_nat i.

(** Every stored key is a C string that fits its buffer. *)
Definition keys_ok (h : carp_ht) : Prop :=
  forall c e, c ∈ buckets h -> e ∈ c ->
    cstr (key e) = key e /\ strlen (key e) < key_capacity.

(** The entries of a chain all have the same key. *)
Definition uniform (h : carp_ht) : Prop :=
  forall c e1 e2, c ∈ buckets h -> e1 ∈ c -> e2 ∈ c -> key e1 = key e2.

(** No more entries than buckets. *)
Definition sparse (h : carp_ht) : Prop := in_use h <= size h.

(** No chain has more than one entry. *)
Definition flat (h : carp_ht) : Prop :=
  forall c, c ∈ buckets h -> (length c <= 1)%nat.

(** The reference definition of the lookup: the first entry of the bucket of
    [k] whose key is [k], with no bound check in the loop. *)
Definition lookup_ref (h : carp_ht) (k : string) : option (nat * carp_ht_entry) :=
  list_find (matches k) (bucket h (carp_ht_hash k (size h))).

(** The value a client reads through the pointer [carp_ht_get] returns. *)
Definition get_value (h : carp_ht) (k : string) : option Z :=
  value <$> deref h (carp_ht_get h k).

(** [h'] holds no entry but those of [h] and those of [es]. *)
Definition adds (h : carp_ht) (es : list carp_ht_entry) (h' : carp_ht) : Prop :=
  forall e, e ∈ entries h' -> e ∈ es \/ e ∈ entries h.

(** The allocator's block for a pointer-sized request holds an entry. *)
Definition roomy : Prop := entry_bytes <= malloc_usable pointer_bytes.

(** [calloc] clears the key buffer of the block it returns for a
    pointer-sized request: whatever key fits the buffer is followed by a
    terminator there. *)
Definition cleared : Prop := key_capacity <= calloc_cleared pointer_bytes.

(** The invariant of the tables the operations build. *)
Record inv (h : carp_ht) : Prop := {
  inv_wf : wf h;
  inv_home : in_home h;
  inv_keys : keys_ok h;
  inv_uniform : uniform h;
}.

(** What [in_home], [keys_ok] and [uniform] ask of one chain, stored in
    bucket [i] of a table of [sz] buckets. *)
Definition chain_ok (sz i : Z) (c : chain) : Prop :=
  (forall e, e ∈ c ->
     carp_ht_hash (key e) sz = i /\ cstr (key e) = key e /\ strlen (key e) < key_capacity) /\
  (forall e1 e2, e1 ∈ c -> e2 ∈ c -> key e1 = key e2).

(** The invariant as a boolean function, to check a given table by
    computation. *)
Definition entry_okb (sz i : Z) (e : carp_ht_entry) : bool :=
  (carp_ht_hash (key e) sz =? i) && bool_decide (cstr (key e) = key e)
  && (strlen (key e) <? key_capacity).

Definition chain_okb (sz i : Z) (c : chain) : bool :=
  forallb (entry_okb sz i) c &&
  match c with
  | [] => true
  | e :: c' => forallb (fun e' => bool_decide (key e' = key e)) c'
  end.

Fixpoint chains_okb (sz i : Z) (bs : list chain) : bool :=
  match bs with
  | [] => true
  | c :: bs' => chain_okb sz i c && chains_okb sz (i + 1) bs'
  end.

Definition invb (h : carp_ht) : bool :=
  (0 <? size h) && (size h <=? LONG_MAX)
  && bool_decide (length (buckets h) = Z.to_nat (size h))
  && chains_okb (size h) 0 (buckets h).

End Definitions.

(** ** Access to the bucket array *)

Section Access.
Context {P : Platform}.
Implicit Types (h : carp_ht) (c : chain) (k : string) (e : carp_ht_entry).

Lemma wf_size_pos h : wf h -> 0 < size h.
Proof. intros [? _]. lia. Qed.

Lemma wf_length h : wf h -> Z.of_nat (length (buckets h)) = size h.
Proof. intros [? ->]. lia. Qed.

Lemma take_buckets h : wf h -> take (Z.to_nat (size h)) (buckets h) = buckets h.
Proof. intros [_ Hl]. apply take_ge. lia. Qed.

Lemma entries_wf h : wf h -> entries h = concat (buckets h).
Proof. intros. unfold entries. by rewrite take_buckets. Qed.

Lemma in_use_wf h : wf h -> in_use h = total (buckets h).
Proof. intros. unfold in_use. by rewrite take_buckets. Qed.

Lemma in_use_entries h : in_use h = Z.of_nat (length (entries h)).
Proof. apply total_concat. Qed.

Lemma in_use_nonneg h : 0 <= in_use h.
Proof. apply total_nonneg. Qed.

(** On an initialised table the bucket index of a key is inside the
    array. *)
Lemma hash_in_range h k :
  wf h -> 0 <= carp_ht_hash k (size h) < size h.
Proof. intros [? _]. by apply carp_ht_hash_lt. Qed.

Lemma hash_lt_length h k :
  wf h -> (Z.to_nat (carp_ht_hash k (size h)) < length (buckets h))%nat.
Proof. intros Hwf. pose proof (hash_in_range h k Hwf). destruct Hwf as [_ ->]. lia. Qed.

Lemma bucket_lookup h i :
  wf h -> 0 <= i < size h -> buckets h !! Z.to_nat i = Some (bucket h i).
Proof.
  intros [_ Hl] Hi. unfold bucket.
  assert (is_Some (buckets h !! Z.to_nat i)) as [c Hc]
    by (apply lookup_lt_is_Some_2; lia).
  by rewrite Hc.
Qed.

Lemma bucket_elem_of h i : wf h -> 0 <= i < size h -> bucket h i ∈ buckets h.
Proof. intros. eapply list_elem_of_lookup_2, bucket_lookup; done. Qed.

Lemma size_store h i c : size (store h i c) = size h.
Proof. done. Qed.

Lemma wf_store h i c : wf h -> wf (store h i c).
Proof. intros [? Hl]. split; [done|]. simpl. by rewrite length_insert. Qed.

Lemma bucket_store_eq h i c :
  wf h -> 0 <= i < size h -> bucket (store h i c) i = c.
Proof.
  intros [_ Hl] Hi. unfold bucket, store. simpl.
  rewrite list_lookup_insert_eq by lia. done.
Qed.

Lemma bucket_store_ne h i j c :
  0 <= i -> 0 <= j -> i <> j -> bucket (store h i c) j = bucket h j.
Proof.
  intros. unfold bucket, store. simpl.
  rewrite list_lookup_insert_ne by lia. done.
Qed.

Lemma store_bucket h i : wf h -> 0 <= i < size h -> store h i (bucket h i) = h.
Proof.
  intros Hwf Hi. destruct h as [sz bs]. unfold store. simpl. f_equal.
  apply list_insert_id. by apply (bucket_lookup {| size := sz; buckets := bs |}).
Qed.

Lemma in_use_store h i c :
  wf h -> 0 <= i < size h ->
  in_use (store h i c) =
  in_use h - Z.of_nat (length (bucket h i)) + Z.of_nat (length c).
Proof.
  intros Hwf Hi. rewrite !in_use_wf by auto using wf_store.
  apply total_insert. by apply bucket_lookup.
Qed.

(** What the chains of a table are after a store. *)
Lemma elem_of_store h i c d :
  d ∈ buckets (store h i c) -> d = c \/ d ∈ buckets h.
Proof.
  unfold store. simpl. intros (j & Hj)%list_elem_of_lookup_1.
  destruct (decide (Z.to_nat i = j)) as [<-|Hne].
  - apply list_lookup_insert_Some in Hj as [(_ & -> & _)|[? _]]; [by left|done].
  - rewrite list_lookup_insert_ne in Hj by done. right.
    by eapply list_elem_of_lookup_2.
Qed.

(** What the entries of a table are after a store. *)
Lemma adds_store h i c : wf h -> adds h c (store h i c).
Proof.
  intros Hwf e. rewrite !entries_wf by auto using wf_store.
  intros (d & He & [->|Hd]%elem_of_store)%elem_of_concat; [by left|].
  right. apply elem_of_concat. eauto.
Qed.

Lemma adds_subseteq h es es' h' : adds h es h' -> es ⊆ es' -> adds h es' h'.
Proof. intros Ha Hsub e [?|?]%Ha; [left; by apply Hsub | by right]. Qed.

Lemma adds_trans h1 h2 h3 es :
  adds h1 es h2 -> adds h2 es h3 -> adds h1 es h3.
Proof. intros H12 H23 e [?|?]%H23; [by left | by apply H12]. Qed.

Lemma adds_nil h1 h2 h3 es :
  adds h1 [] h2 -> adds h2 es h3 -> adds h1 es h3.
Proof.
  intros H12 H23 e [?|[[]%elem_of_nil|?]%H12]%H23; [by left | by right].
Qed.

End Access.

(** ** The invariants, chain by chain *)

Section Invariants.
Context {P : Platform}.
Implicit Types (h : carp_ht) (c : chain) (k : string) (e : carp_ht_entry).

(** Every chain of a table that satisfies the invariant is a good chain of
    its bucket. *)
Lemma inv_chain_ok h i : inv h -> 0 <= i < size h -> chain_ok (size h) i (bucket h i).
Proof.
  intros [Hwf Hhome Hkeys Huni] Hi.
  pose proof (bucket_lookup h i Hwf Hi) as Hl.
  pose proof (bucket_elem_of h i Hwf Hi) as Hin.
  split.
  - intros e He. split; [|by apply (Hkeys _ _ Hin)].
    rewrite (Hhome _ _ _ Hl He). lia.
  - intros e1 e2. by apply Huni.
Qed.

(** Storing a good chain preserves the invariant. *)
Lemma inv_store h i c :
  inv h -> 0 <= i < size h -> chain_ok (size h) i c -> inv (store h i c).
Proof.
  intros [Hwf Hhome Hkeys Huni] Hi [Hc Hu]. split.
  - by apply wf_store.
  - intros j d e Hj He. simpl in *.
    destruct (decide (Z.to_nat i = j)) as [<-|Hne].
    + apply list_lookup_insert_Some in Hj as [(_ & <- & _)|[? _]]; [|done].
      destruct (Hc e He) as (-> & _). lia.
    + rewrite list_lookup_insert_ne in Hj by done. by eapply Hhome.
  - intros d e [->|Hd]%elem_of_store He; [by apply Hc | by eapply Hkeys].
  - intros d e1 e2 [->|Hd]%elem_of_store; [by apply Hu | by apply Huni].
Qed.

(** A chain whose entries all come from a good chain is good. *)
Lemma chain_ok_subseteq sz i c c' : chain_ok sz i c -> c' ⊆ c -> chain_ok sz i c'.
Proof. intros [Hc Hu] Hsub. split; intros; [apply Hc | apply Hu]; by apply Hsub. Qed.

Lemma chain_ok_nil sz i : chain_ok sz i [].
Proof. split; intros; by apply elem_of_nil in H. Qed.

Lemma flat_store h i c : flat h -> (length c <= 1)%nat -> flat (store h i c).
Proof. intros Hf Hc d [->|Hd]%elem_of_store; [done | by apply Hf]. Qed.

(** The table [carp_ht_init] and [carp_ht_resize] start from. *)
Lemma inv_empty sz : 0 < sz <= LONG_MAX -> inv (empty_table sz).
Proof.
  intros Hsz. unfold empty_table. split.
  - split; [done|]. simpl. by rewrite length_replicate.
  - intros i c e [-> _]%lookup_replicate He. by apply elem_of_nil in He.
  - intros c e [-> _]%elem_of_replicate He. by apply elem_of_nil in He.
  - intros c e1 e2 [-> _]%elem_of_replicate He. by apply elem_of_nil in He.
Qed.

Lemma in_use_empty sz : in_use (empty_table sz) = 0.
Proof. unfold in_use. simpl. by rewrite take_replicate, total_replicate_nil. Qed.

Lemma entries_empty sz : entries (empty_table sz) = [].
Proof. unfold entries. simpl. by rewrite take_replicate, concat_replicate_nil. Qed.

Lemma bucket_empty sz i : bucket (empty_table sz) i = [].
Proof.
  unfold bucket, empty_table. simpl.
  destruct (replicate _ _ !! _) as [c|] eqn:E; [|done].
  by apply lookup_replicate in E as [-> _].
Qed.

(** The invariant from its chains. *)
Lemma inv_of_chains h :
  wf h ->
  (forall j c, buckets h !! j = Some c -> chain_ok (size h) (Z.of_nat j) c) ->
  inv h.
Proof.
  intros Hwf Hc. split; [done|..].
  - intros i c e Hi He. by apply (Hc i c Hi).
  - intros c e (i & Hi)%list_elem_of_lookup_1 He. by apply (Hc i c Hi).
  - intros c e1 e2 (i & Hi)%list_elem_of_lookup_1. by apply (Hc i c Hi).
Qed.

Lemma chain_okb_spec sz i c : chain_okb sz i c = true -> chain_ok sz i c.
Proof.
  unfold chain_okb. rewrite andb_true_iff, forallb_forall. intros [Hall Huni].
  assert (forall e, e ∈ c -> key e = from_option key "" (head c)) as Hhead.
  { destruct c as [|e0 c]; [by intros ? ?%elem_of_nil|].
    rewrite forallb_forall in Huni. simpl.
    intros e [->|He]%elem_of_cons; [done|].
    apply list_elem_of_In, Huni in He. by apply bool_decide_eq_true in He. }
  split.
  - intros e He. apply list_elem_of_In, Hall in He. unfold entry_okb in He.
    rewrite !andb_true_iff, bool_decide_eq_true in He.
    destruct He as [[H1 H2] H3]. zbool. done.
  - intros e1 e2 H1 H2. by rewrite (Hhead _ H1), (Hhead _ H2).
Qed.

Lemma chains_okb_spec sz i bs j c :
  chains_okb sz i bs = true -> bs !! j = Some c -> chain_ok sz (i + Z.of_nat j) c.
Proof.
  revert i j. induction bs as [|d bs IH]; intros i j; [done|].
  simpl. rewrite andb_true_iff. intros [Hd Hbs]. destruct j as [|j]; simpl.
  - intros [= ->]. rewrite Z.add_0_r. by apply chain_okb_spec.
  - intros Hj. replace (i + Z.of_nat (S j)) with (i + 1 + Z.of_nat j) by lia.
    by apply IH.
Qed.

(** A table that passes the boolean check satisfies the invariant. *)
Lemma invb_inv h : invb h = true -> inv h.
Proof.
  unfold invb. rewrite !andb_true_iff, bool_decide_eq_true.
  intros [[[??] ?] Hc]. zbool. apply inv_of_chains; [by split|].
  intros j c Hj. by apply (chains_okb_spec _ 0 _ _ _ Hc).
Qed.

End Invariants.

#[export] Hint Resolve wf_store wf_size_pos hash_in_range in_use_nonneg : carp.
#[export] Hint Resolve inv_wf inv_chain_ok chain_ok_nil : carp.
