(* ===== verification/Lookup.v ===== *)
(** * Lookup: carp_ht_get

    The loop of [carp_ht_get] (src/src/lib/carp_ht.c, 162-176) against its
    reference [lookup_ref]: the first entry of the key's bucket whose key is
    the key looked up.  The bound check of line 170 is dead on every
    initialised table; the pointer returned is NULL exactly when no entry of
    the bucket has the key, and points to the first one that has it
    otherwise. *)

From stdpp Require Import strings.
From S2P Require Import Prelude Machine CString Hash Alloc Table TableLemmas.

(** ** Definitions *)

(** A table of three buckets on x86-64: two entries with the key "a" chained
    in bucket 1 (the raw hash of "a" is 177670 = 3 * 59223 + 1). *)
Definition lookup_example : carp_ht :=
  {| size := 3;
     buckets := [[]; [{| key := "a"; value := 1 |}; {| key := "a"; value := 2 |}]; []] |}.

Section Lookup.
Context {P : Platform}.
Implicit Types (h : carp_ht) (c : chain) (k : string) (e : carp_ht_entry).

(** ** The test of the loops *)

Lemma strcmp_test_matches k e : matches k e -> (strcmp (key e) k !=? 0) = false.
Proof. unfold matches. intros H%strcmp_eq. rewrite H. done. Qed.

Lemma strcmp_test_differs k e : ~ matches k e -> (strcmp (key e) k !=? 0) = true.
Proof. unfold matches. intros H. by apply strcmp_neq. Qed.

Lemma strcmp_eq_test_matches k e : matches k e -> (strcmp (key e) k ==? 0) = true.
Proof. unfold matches. intros H%strcmp_eq. rewrite H. done. Qed.

Lemma strcmp_eq_test_differs k e : ~ matches k e -> (strcmp (key e) k ==? 0) = false.
Proof. intros H%strcmp_test_differs. by apply negb_true_iff. Qed.

(** Keys that are equal as C strings match the same entries. *)
Lemma matches_cstr k k' e : cstr k = cstr k' -> matches k e <-> matches k' e.
Proof. unfold matches. by intros ->. Qed.

(** An entry in its home bucket that matches [k] is in the bucket of [k]. *)
Lemma matches_hash k e sz : matches k e -> carp_ht_hash (key e) sz = carp_ht_hash k sz.
Proof. intros H. apply carp_ht_hash_strcmp. by apply strcmp_eq. Qed.

(** ** The loop *)

(** Without the bound check the loop is [list_find]. *)
Lemma get_loop_find k c j :
  get_loop false k c j = (fun r => (j + r.1)%nat) <$> list_find (matches k) c.
Proof.
  revert j. induction c as [|e c IH]; intros j; [done|].
  simpl. destruct (decide (matches k e)) as [Hm|Hm].
  - rewrite (strcmp_test_matches _ _ Hm). simpl. f_equal. lia.
  - rewrite (strcmp_test_differs _ _ Hm), IH.
    destruct (list_find (matches k) c) as [[i x]|]; simpl; [|done].
    f_equal. lia.
Qed.

(** With the bound check on, the loop gives up after the first entry. *)
Lemma get_loop_oob k c j :
  get_loop true k c j =
  match c with
  | e :: _ => if decide (matches k e) then Some j else None
  | [] => None
  end.
Proof.
  destruct c as [|e c]; [done|]. simpl.
  destruct (decide (matches k e)) as [Hm|Hm].
  - by rewrite (strcmp_test_matches _ _ Hm).
  - by rewrite (strcmp_test_differs _ _ Hm).
Qed.

(** The test [hash >= h->size] of line 170 is false on every initialised
    table. *)
Lemma hash_bound_test h k :
  wf h -> (to_ulong (size h) <=? carp_ht_hash k (size h)) = false.
Proof.
  intros Hwf. pose proof (hash_in_range h k Hwf). destruct Hwf as [? _].
  rewrite to_ulong_of_long by lia. apply Z.leb_gt. lia.
Qed.

(** On an initialised table [carp_ht_get] returns the position of the
    first entry of the key's bucket whose key equals the key as a C string,
    and NULL when the bucket has none. *)
Lemma carp_ht_get_lookup h k :
  wf h ->
  carp_ht_get h k =
  match lookup_ref h k with
  | Some (j, _) => At (Z.to_nat (carp_ht_hash k (size h))) j
  | None => NULL
  end.
Proof.
  intros Hwf. unfold carp_ht_get, lookup_ref.
  rewrite (hash_bound_test h k Hwf), get_loop_find.
  by destruct (list_find _ _) as [[j e]|].
Qed.

Lemma deref_At h i j :
  deref h (At i j) = bucket h (Z.of_nat i) !! j.
Proof.
  unfold deref, bucket. rewrite Nat2Z.id.
  by destruct (buckets h !! i).
Qed.

(** What a client reads through the pointer. *)
Lemma deref_get h k : wf h -> deref h (carp_ht_get h k) = snd <$> lookup_ref h k.
Proof.
  intros Hwf. rewrite (carp_ht_get_lookup h k Hwf).
  destruct (lookup_ref h k) as [[j e]|] eqn:E; [|done].
  rewrite deref_At, Z2Nat.id by (pose proof (hash_in_range h k Hwf); lia).
  by apply list_find_Some in E as (-> & _).
Qed.

Lemma get_value_ref h k :
  wf h -> get_value h k = (fun r => value r.2) <$> lookup_ref h k.
Proof.
  intros Hwf. unfold get_value. rewrite (deref_get h k Hwf).
  by destruct (lookup_ref h k).
Qed.

(** [carp_ht_get] returns NULL exactly when no entry of the key's bucket
    has the key. *)
Lemma carp_ht_get_NULL_bucket h k :
  wf h ->
  carp_ht_get h k = NULL <->
  forall e, e ∈ bucket h (carp_ht_hash k (size h)) -> ~ matches k e.
Proof.
  intros Hwf. rewrite (carp_ht_get_lookup h k Hwf). unfold lookup_ref.
  rewrite <- list.Forall_forall, <- (list_find_None (matches k)).
  destruct (list_find (matches k) _) as [[j e]|]; naive_solver.
Qed.

(** A pointer [carp_ht_get] returns that is not NULL points into the
    bucket of the key, to an entry with that key, and no entry before it in
    the chain has the key. *)
Theorem carp_ht_get_found h k i j :
  wf h -> carp_ht_get h k = At i j ->
  Z.of_nat i = carp_ht_hash k (size h) /\
  exists e, deref h (At i j) = Some e /\ matches k e /\
    forall j' e', (j' < j)%nat -> deref h (At i j') = Some e' -> ~ matches k e'.
Proof.
  intros Hwf. pose proof (hash_in_range h k Hwf).
  rewrite (carp_ht_get_lookup h k Hwf). unfold lookup_ref.
  destruct (list_find _ _) as [[j0 e]|] eqn:E; [|done].
  intros [= <- <-]. rewrite Z2Nat.id by lia. split; [done|].
  apply list_find_Some in E as (He & Hm & Hfirst).
  exists e. setoid_rewrite deref_At. rewrite Z2Nat.id by lia. eauto.
Qed.

(** On a table whose entries are in their home buckets [carp_ht_get]
    returns NULL exactly when no entry of the table has the key: the one
    bucket it searches is the only one that can hold it. *)
Theorem carp_ht_get_NULL h k :
  wf h -> in_home h ->
  carp_ht_get h k = NULL <-> forall e, e ∈ entries h -> ~ matches k e.
Proof.
  intros Hwf Hhome. rewrite (carp_ht_get_NULL_bucket h k Hwf).
  pose proof (hash_in_range h k Hwf) as Hr.
  rewrite (entries_wf h Hwf). split.
  - intros Hb e (c & He & Hc)%elem_of_concat Hm.
    apply list_elem_of_lookup_1 in Hc as [i Hi].
    pose proof (Hhome i c e Hi He) as Hh. rewrite (matches_hash k e _ Hm) in Hh.
    apply (Hb e); [|done]. unfold bucket. rewrite Hh, Nat2Z.id, Hi. done.
  - intros Hall e He. apply Hall, elem_of_concat.
    exists (bucket h (carp_ht_hash k (size h))). split; [done|].
    by apply bucket_elem_of.
Qed.

(** A lookup does not depend on bytes behind the terminator of the key. *)
Lemma carp_ht_get_cstr h k : carp_ht_get h (cstr k) = carp_ht_get h k.
Proof.
  unfold carp_ht_get. rewrite carp_ht_hash_cstr.
  assert (forall oob c j, get_loop oob (cstr k) c j = get_loop oob k c j) as ->; [|done].
  intros oob c. induction c as [|e c IH]; intros j; [done|].
  simpl. by rewrite strcmp_cstr_r, IH.
Qed.

#[export] Instance carp_ht_get_proper : Proper (eq ==> same_cstr ==> eq) carp_ht_get.
Proof.
  intros h ? <- a b H. unfold same_cstr in H.
  by rewrite <- (carp_ht_get_cstr h a), H, carp_ht_get_cstr.
Qed.

(** C34. The bound check of line 170 is dead code: on every initialised
    table [carp_ht_get] is the walk without it. *)
Theorem get_bound_check_dead h k :
  wf h ->
  carp_ht_get h k =
  match get_loop false k (bucket h (carp_ht_hash k (size h))) 0 with
  | Some j => At (Z.to_nat (carp_ht_hash k (size h))) j
  | None => NULL
  end.
Proof. intros Hwf. unfold carp_ht_get. by rewrite (hash_bound_test h k Hwf). Qed.

(** C4. [carp_ht_get] against its reference: the pointer it returns is the
    position of the first entry of the key's bucket with the key, NULL when
    there is none, and the entry behind the pointer is that entry. *)
Theorem carp_ht_get_ref h k :
  wf h ->
  carp_ht_get h k =
    match lookup_ref h k with
    | Some (j, _) => At (Z.to_nat (carp_ht_hash k (size h))) j
    | None => NULL
    end /\
  deref h (carp_ht_get h k) = snd <$> lookup_ref h k.
Proof. intros Hwf. split; [by apply carp_ht_get_lookup | by apply deref_get]. Qed.

End Lookup.

(** ** Witnesses *)

Lemma lookup_example_wf : wf (P:=lp64) lookup_example.
Proof. split; [vm_compute; split; [done|discriminate] | done]. Qed.

Lemma lookup_example_inv : inv (P:=lp64) lookup_example.
Proof. by apply invb_inv. Qed.

Lemma get_bound_check_dead_witness :
  carp_ht_get (P:=lp64) lookup_example "a" = At 1 0.
Proof.
  rewrite (get_bound_check_dead (P:=lp64) lookup_example "a" lookup_example_wf).
  reflexivity.
Defined.

Lemma carp_ht_get_ref_witness :
  deref lookup_example (carp_ht_get (P:=lp64) lookup_example "a") =
  Some {| key := "a"; value := 1 |}.
Proof.
  destruct (carp_ht_get_ref (P:=lp64) lookup_example "a" lookup_example_wf) as [_ ->].
  reflexivity.
Defined.

Lemma carp_ht_get_NULL_witness : carp_ht_get (P:=lp64) lookup_example "b" = NULL.
Proof.
  apply (carp_ht_get_NULL (P:=lp64) lookup_example "b" lookup_example_wf
           (inv_home _ lookup_example_inv)).
  intros e [->|[->|[]%elem_of_nil]%elem_of_cons]%elem_of_cons; by vm_compute.
Defined.

Lemma carp_ht_get_found_witness :
  exists e, deref lookup_example (At 1 0) = Some e /\ matches "a" e.
Proof.
  destruct (carp_ht_get_found (P:=lp64) lookup_example "a" 1 0 lookup_example_wf eq_refl)
    as (_ & e & He & Hm & _).
  eauto.
Defined.
