(* ===== verification/Lifecycle.v ===== *)
(** * Lifecycle: carp_ht_init and carp_ht_cleanup

    [carp_ht_init] (src/src/lib/carp_ht.c, 68-81) on each of its paths: the
    failed assertion, the refused allocation, the request that wraps in
    [size_t], and the table of empty buckets.  [carp_ht_cleanup] (226-242)
    releases every entry the table holds, once, in bucket order and link
    order, and leaves the table without an array. *)

From stdpp Require Import strings.
From S2P Require Import Prelude Machine CString Hash Alloc Table TableLemmas Lookup.

Section Lifecycle.
Context {P : Platform}.
Implicit Types (h : carp_ht) (k : string) (o : oracle).

(** ** carp_ht_init *)

Lemma carp_ht_get_empty sz k : carp_ht_get (empty_table sz) k = NULL.
Proof. unfold carp_ht_get. by rewrite bucket_empty. Qed.

(** A request that does not wrap is served by a block that holds the
    array. *)
Lemma array_fits sz :
  0 < sz -> sz * pointer_bytes <= ULONG_MAX ->
  (sz * pointer_bytes <=? malloc_usable (to_ulong (sz * pointer_bytes))) = true.
Proof.
  intros Hsz Hfit. pose proof pointer_bytes_pos.
  rewrite to_ulong_small by nia. apply Z.leb_le, malloc_usable_ge.
Qed.

(** What a [carp_ht_init] that returned has done. *)
Lemma carp_ht_init_Ok_inv sz o st h o' :
  carp_ht_init sz o = Ok (st, h) o' ->
  0 < sz /\ ((st = 0 /\ h = empty_table sz) \/
             (st = 1 /\ h = {| size := sz; buckets := [] |})).
Proof.
  unfold carp_ht_init. destruct (0 <? sz) eqn:Hsz; [|done]. zbool.
  intros Heq. split; [done|]. revert Heq. rewrite bind_unfold. simpl.
  rewrite bind_unfold. destruct (alloc o) as [[] o1|f|]; simpl; [|by intros [= <- <- <-]; right|done..].
  rewrite bind_unfold. destruct (_ <=? _); simpl; [|done].
  intros [= <- <- <-]. by left.
Qed.

(** C33. With a positive size whose array fits [size_t] and an allocation
    that succeeds, [carp_ht_init] returns 0 and a table of [size] empty
    buckets: it satisfies the invariant, holds no entry, and every lookup
    in it returns NULL. *)
Theorem carp_ht_init_success sz o :
  0 < sz <= LONG_MAX -> sz * pointer_bytes <= ULONG_MAX -> never_fails o ->
  exists o', carp_ht_init sz o = Ok (0, empty_table sz) o' /\ never_fails o' /\
    inv (empty_table sz) /\ in_use (empty_table sz) = 0 /\
    forall k, carp_ht_get (empty_table sz) k = NULL.
Proof.
  intros Hsz Hfit (o' & Ha & Ho')%alloc_never_fails. exists o'.
  split_and!; [|done|by apply inv_empty|apply in_use_empty|apply carp_ht_get_empty].
  unfold carp_ht_init. rewrite (proj2 (Z.ltb_lt 0 sz)) by lia.
  rewrite bind_unfold. simpl. rewrite (bind_Ok _ _ _ _ _ Ha).
  by rewrite array_fits by lia.
Qed.

(** When the array cannot be allocated [carp_ht_init] returns 1; the
    size is stored already, and the table has no array. *)
Theorem carp_ht_init_failure sz o :
  0 < sz -> carp_ht_init sz (false :: o) = Ok (1, {| size := sz; buckets := [] |}) o.
Proof. intros Hsz. unfold carp_ht_init. by rewrite (proj2 (Z.ltb_lt 0 sz)) by lia. Qed.

(** A size that is not positive fails the assertion of line 70, whatever
    the allocator would do. *)
Theorem carp_ht_init_assert sz o : sz <= 0 -> carp_ht_init sz o = Fault AssertFail.
Proof. intros Hsz. unfold carp_ht_init. by rewrite (proj2 (Z.ltb_ge 0 sz)) by lia. Qed.

(** ** carp_ht_cleanup *)

Lemma fold_left_app_concat {A} (ls : list (list A)) (acc : list A) :
  fold_left (fun freed c => freed ++ c) ls acc = acc ++ concat ls.
Proof.
  revert acc. induction ls as [|c ls IH]; intros acc; simpl.
  - by rewrite app_nil_r.
  - by rewrite IH, app_assoc.
Qed.

(** [carp_ht_cleanup] releases exactly the entries of the table, each
    once, in the order of the chains, and leaves the table without an array:
    what [carp_ht_set] unlinked by overwriting a bucket is not among
    them. *)
Theorem carp_ht_cleanup_frees h :
  (carp_ht_cleanup h).1 = entries h /\
  Z.of_nat (length (carp_ht_cleanup h).1) = in_use h /\
  buckets (carp_ht_cleanup h).2 = [].
Proof.
  unfold carp_ht_cleanup. simpl. rewrite fold_left_app_concat. simpl.
  split_and!; [done| |done]. by rewrite in_use_entries.
Qed.

End Lifecycle.

(** ** Witnesses and examples *)

Lemma carp_ht_init_success_witness :
  exists o', carp_ht_init (P:=lp64) 10 [] = Ok (0, empty_table 10) o'.
Proof.
  destruct (carp_ht_init_success (P:=lp64) 10 []) as (o' & Heq & _).
  - vm_compute. split; [done|discriminate].
  - vm_compute. discriminate.
  - apply never_fails_nil.
  - by exists o'.
Defined.

Lemma carp_ht_init_failure_witness :
  carp_ht_init (P:=lp64) 10 [false] = Ok (1, {| size := 10; buckets := [] |}) [].
Proof. apply (carp_ht_init_failure (P:=lp64) 10 []). lia. Defined.

Lemma carp_ht_init_assert_witness : carp_ht_init (P:=lp64) 0 [] = Fault AssertFail.
Proof. apply (carp_ht_init_assert (P:=lp64) 0 []). lia. Defined.

(** On x86-64 a size of 2^61 makes the request of line 73 wrap to 0 bytes:
    the loop of lines 77-78 overruns the block. *)
Example carp_ht_init_wraps : carp_ht_init (P:=lp64) (2 ^ 61) [] = Fault HeapOverflow.
Proof. reflexivity. Qed.
