(* ===== verification/Delete.v ===== *)
(** * Delete: carp_ht_del

    [carp_ht_del] (src/src/lib/carp_ht.c, 83-117) against its reference
    [delete_first]: the chain without its first entry that has the key.  The
    three statuses (0 unlinked, 1 empty bucket, 2 not in the chain) are
    characterised; a failed deletion leaves the table as it was, a
    successful one removes exactly one entry and preserves every
    invariant.  A successful deletion makes the key absent only when the
    chain held it once. *)

From stdpp Require Import strings.
From S2P Require Import Prelude Machine CString Hash Alloc Table TableLemmas Lookup.

(** ** Definitions *)

(** The chain without its first entry with key [k]; [None] when it has
    none. *)
Definition delete_first (k : string) (c : chain) : option chain :=
  (fun r => delete r.1 c) <$> list_find (matches k) c.

(** A table of three buckets on x86-64 whose bucket 1 chains "a" twice and
    "d" (the raw hashes of "a" and "d" are 177670 and 177673, both 1 modulo
    3). *)
Definition delete_example : carp_ht :=
  {| size := 3;
     buckets := [[];
                 [{| key := "a"; value := 1 |}; {| key := "d"; value := 4 |};
                  {| key := "a"; value := 2 |}];
                 []] |}.

(** The same bucket without the entry of "d", on which the invariant
    holds. *)
Definition delete_example_uniform : carp_ht :=
  {| size := 3;
     buckets := [[]; [{| key := "a"; value := 1 |}; {| key := "a"; value := 2 |}]; []] |}.

(** ** The loop *)

Section Delete.
Context {P : Platform}.
Implicit Types (h : carp_ht) (c : chain) (k : string) (e : carp_ht_entry).

Lemma delete_first_cons_match k e c : matches k e -> delete_first k (e :: c) = Some c.
Proof. intros Hm. unfold delete_first. simpl. by rewrite decide_True. Qed.

Lemma delete_first_cons_differs k e c :
  ~ matches k e -> delete_first k (e :: c) = cons e <$> delete_first k c.
Proof.
  intros Hm. unfold delete_first. simpl. rewrite decide_False by done.
  by destruct (list_find (matches k) c) as [[j x]|].
Qed.

Lemma delete_first_None k c : delete_first k c = None <-> Forall (fun e => ~ matches k e) c.
Proof.
  unfold delete_first. rewrite <- (list_find_None (matches k)).
  destruct (list_find (matches k) c); naive_solver.
Qed.

(** The loop of lines 102-113 unlinks the first entry with the key. *)
Lemma del_loop_delete_first k c : del_loop k c = delete_first k c.
Proof.
  induction c as [|e c IH]; [done|]. simpl.
  destruct (decide (matches k e)) as [Hm|Hm].
  - by rewrite (strcmp_test_matches _ _ Hm), delete_first_cons_match.
  - rewrite (strcmp_test_differs _ _ Hm), delete_first_cons_differs by done.
    destruct c; [done|]. by rewrite IH.
Qed.

Lemma delete_first_length k c c' :
  delete_first k c = Some c' -> length c = S (length c').
Proof.
  unfold delete_first.
  destruct (list_find (matches k) c) as [[j x]|] eqn:E; intros [= <-].
  apply list_find_Some in E as (Hj & _).
  rewrite length_delete by eauto.
  apply lookup_lt_Some in Hj. lia.
Qed.

Lemma delete_first_elem_of k c c' e :
  delete_first k c = Some c' -> e ∈ c' -> e ∈ c.
Proof.
  unfold delete_first.
  destruct (list_find (matches k) c) as [[j x]|]; intros [= <-].
  apply list_elem_of_delete_inv.
Qed.

(** Deleting [k] does not change what a lookup of another key finds in the
    chain. *)
Lemma delete_first_find_other k k' c c' :
  cstr k' <> cstr k -> delete_first k c = Some c' ->
  snd <$> list_find (matches k') c' = snd <$> list_find (matches k') c.
Proof.
  intros Hne. revert c'. induction c as [|e c IH]; intros c'; [done|].
  destruct (decide (matches k e)) as [Hm|Hm].
  - rewrite delete_first_cons_match by done. intros [= <-].
    simpl. rewrite decide_False; [by destruct (list_find _ c) as [[??]|]|].
    unfold matches in *. congruence.
  - rewrite delete_first_cons_differs by done.
    destruct (delete_first k c) as [c0|]; intros [= <-].
    simpl. destruct (decide (matches k' e)); [done|].
    specialize (IH c0 eq_refl).
    destruct (list_find _ c0) as [[??]|], (list_find _ c) as [[??]|]; naive_solver.
Qed.

(** The loop reads the key as a C string. *)
Lemma del_loop_cstr k c : del_loop (cstr k) c = del_loop k c.
Proof.
  induction c as [|e c IH]; [done|]. simpl. rewrite strcmp_cstr_r.
  destruct c; [done|]. by rewrite IH.
Qed.

(** ** The operation *)

Lemma carp_ht_del_cstr h k : carp_ht_del h (cstr k) = carp_ht_del h k.
Proof.
  unfold carp_ht_del. cbv zeta. rewrite carp_ht_hash_cstr.
  destruct (bucket h _) as [|e c]; [done|].
  by rewrite strcmp_cstr_r, del_loop_cstr.
Qed.

#[export] Instance carp_ht_del_proper : Proper (eq ==> same_cstr ==> eq) carp_ht_del.
Proof.
  intros h ? <- a b H. unfold same_cstr in H.
  by rewrite <- (carp_ht_del_cstr h a), H, carp_ht_del_cstr.
Qed.

(** [carp_ht_del] in terms of the reference: the test of line 95 is the
    first iteration of the loop. *)
Lemma carp_ht_del_ref h k :
  carp_ht_del h k =
  let hash := carp_ht_hash k (size h) in
  match bucket h hash with
  | [] => (1, h)
  | c => match delete_first k c with
         | Some c' => (0, store h hash c')
         | None => (2, h)
         end
  end.
Proof.
  unfold carp_ht_del. cbv zeta. destruct (bucket h _) as [|e c]; [done|].
  rewrite del_loop_delete_first.
  destruct (decide (matches k e)) as [Hm|Hm].
  - by rewrite (strcmp_eq_test_matches _ _ Hm), delete_first_cons_match.
  - by rewrite (strcmp_eq_test_differs _ _ Hm).
Qed.

(** C18. [carp_ht_del] returns 1 exactly when the bucket of the key is
    empty, 2 exactly when the bucket is not empty and none of its entries
    has the key, and 0 exactly when an entry of the bucket has the key; it
    returns nothing else. *)
Theorem carp_ht_del_status h k :
  let c := bucket h (carp_ht_hash k (size h)) in
  let st := (carp_ht_del h k).1 in
  (st = 1 <-> c = []) /\
  (st = 2 <-> c <> [] /\ Forall (fun e => ~ matches k e) c) /\
  (st = 0 <-> Exists (matches k) c) /\
  (st = 0 \/ st = 1 \/ st = 2).
Proof.
  intros c st. subst st. rewrite carp_ht_del_ref. simpl. fold c.
  destruct c as [|e c']; [by rewrite Exists_nil; naive_solver|].
  destruct (delete_first k (e :: c')) as [c1|] eqn:E; simpl.
  - assert (~ Forall (fun e => ~ matches k e) (e :: c')) as HF
      by (intros HF%delete_first_None; congruence).
    assert (Exists (matches k) (e :: c')) as Hex.
    { destruct (decide (Exists (matches k) (e :: c'))) as [|Hn]; [done|].
      by apply Forall_Exists_neg in Hn. }
    naive_solver.
  - apply delete_first_None in E.
    assert (~ Exists (matches k) (e :: c')) by (by apply Forall_Exists_neg).
    naive_solver.
Qed.

(** A deletion that fails (status 1 or 2) leaves the table as it was. *)
Lemma carp_ht_del_unchanged h k :
  (carp_ht_del h k).1 <> 0 -> (carp_ht_del h k).2 = h.
Proof.
  rewrite carp_ht_del_ref. simpl. destruct (bucket h _) as [|e c]; [done|].
  by destruct (delete_first k (e :: c)).
Qed.

Lemma size_del h k : size (carp_ht_del h k).2 = size h.
Proof.
  rewrite carp_ht_del_ref. simpl. destruct (bucket h _) as [|e c]; [done|].
  by destruct (delete_first k (e :: c)).
Qed.

(** C35. [carp_ht_del] fails (status 1 or 2) exactly when a lookup of the
    key returns NULL, and a deletion that fails leaves the table as it
    was. *)
Theorem carp_ht_del_failure h k :
  wf h ->
  ((carp_ht_del h k).1 <> 0 <-> carp_ht_get h k = NULL) /\
  ((carp_ht_del h k).1 <> 0 -> (carp_ht_del h k).2 = h).
Proof.
  intros Hwf. split; [|apply carp_ht_del_unchanged].
  rewrite (carp_ht_get_NULL_bucket h k Hwf), <- list.Forall_forall, <- delete_first_None.
  rewrite carp_ht_del_ref. simpl. destruct (bucket h _) as [|e c]; [done|].
  by destruct (delete_first k (e :: c)).
Qed.

(** A successful deletion stores the chain without the first match. *)
Lemma carp_ht_del_success h k :
  (carp_ht_del h k).1 = 0 ->
  exists c', delete_first k (bucket h (carp_ht_hash k (size h))) = Some c' /\
    (carp_ht_del h k).2 = store h (carp_ht_hash k (size h)) c'.
Proof.
  rewrite carp_ht_del_ref. simpl. destruct (bucket h _) as [|e c] eqn:Eb; [done|].
  destruct (delete_first k (e :: c)) as [c'|]; [eauto|done].
Qed.

(** A successful deletion removes exactly one entry, and the table stays
    initialised. *)
Lemma carp_ht_del_removes h k :
  wf h -> (carp_ht_del h k).1 = 0 ->
  in_use (carp_ht_del h k).2 = in_use h - 1 /\ wf (carp_ht_del h k).2.
Proof.
  intros Hwf (c' & Hc' & ->)%carp_ht_del_success.
  split; [|by apply wf_store].
  rewrite in_use_store by auto with carp.
  apply delete_first_length in Hc'. lia.
Qed.

(** [carp_ht_del] removes exactly one entry when it returns 0 and none
    otherwise; the table keeps its size and stays initialised. *)
Theorem carp_ht_del_in_use h k :
  wf h ->
  let h' := (carp_ht_del h k).2 in
  in_use h' = in_use h - (if decide ((carp_ht_del h k).1 = 0) then 1 else 0) /\
  size h' = size h /\ wf h'.
Proof.
  intros Hwf. simpl. rewrite size_del.
  destruct (decide ((carp_ht_del h k).1 = 0)) as [H0|Hn].
  - by destruct (carp_ht_del_removes h k Hwf H0).
  - rewrite carp_ht_del_unchanged by done. split_and!; [lia|done..].
Qed.

(** [carp_ht_del] preserves the invariant of the table and never adds an
    entry. *)
Lemma carp_ht_del_inv_le h k :
  inv h -> inv (carp_ht_del h k).2 /\ in_use (carp_ht_del h k).2 <= in_use h.
Proof.
  intros Hinv. pose proof (inv_wf _ Hinv) as Hwf.
  destruct (decide ((carp_ht_del h k).1 = 0)) as [H0|Hn].
  - destruct (carp_ht_del_removes h k Hwf H0) as (Hu & _). split; [|lia].
    apply carp_ht_del_success in H0 as (c' & Hc' & ->).
    apply inv_store; [done|auto with carp|].
    eapply chain_ok_subseteq; [apply inv_chain_ok; auto with carp|].
    intros e He. by eapply delete_first_elem_of.
  - rewrite carp_ht_del_unchanged by done. split; [done|lia].
Qed.

(** C28. [carp_ht_del] preserves the invariant of the table and leaves no
    more entries than buckets where there were no more. *)
Theorem carp_ht_del_inv h k :
  inv h -> sparse h ->
  inv (carp_ht_del h k).2 /\ sparse (carp_ht_del h k).2 /\
  size (carp_ht_del h k).2 = size h.
Proof.
  intros Hinv Hs. destruct (carp_ht_del_inv_le h k Hinv) as [? ?].
  unfold sparse in *. rewrite size_del. split_and!; [done|lia|done].
Qed.

(** [carp_ht_del] adds no entry. *)
Lemma carp_ht_del_adds h k : wf h -> adds h [] (carp_ht_del h k).2.
Proof.
  intros Hwf e. destruct (decide ((carp_ht_del h k).1 = 0)) as [H0|Hn];
    [|rewrite carp_ht_del_unchanged by done; by right].
  apply carp_ht_del_success in H0 as (c' & Hc' & ->).
  intros [He|?]%adds_store; [|by right|done]. right.
  rewrite (entries_wf h Hwf). apply elem_of_concat.
  exists (bucket h (carp_ht_hash k (size h))).
  split; [by eapply delete_first_elem_of | by apply bucket_elem_of, hash_in_range].
Qed.

Lemma carp_ht_del_flat h k : flat h -> flat (carp_ht_del h k).2.
Proof.
  intros Hf. destruct (decide ((carp_ht_del h k).1 = 0)) as [H0|Hn].
  - apply carp_ht_del_success in H0 as (c' & Hc' & ->).
    intros d [->|Hd]%elem_of_store; [|by apply Hf].
    destruct (bucket h _) as [|e c] eqn:Eb; [done|].
    apply delete_first_length in Hc'.
    assert (e :: c ∈ buckets h) as Hin.
    { unfold bucket in Eb. destruct (buckets h !! _) eqn:El; [|done].
      simpl in Eb. subst. by eapply list_elem_of_lookup_2. }
    apply Hf in Hin. lia.
  - by rewrite carp_ht_del_unchanged.
Qed.

(** Deleting a key changes the result of a lookup of no other key. *)
Theorem carp_ht_del_get_other h k k' :
  wf h -> cstr k' <> cstr k ->
  let h' := (carp_ht_del h k).2 in
  deref h' (carp_ht_get h' k') = deref h (carp_ht_get h k').
Proof.
  intros Hwf Hne. simpl.
  destruct (decide ((carp_ht_del h k).1 = 0)) as [H0|Hn];
    [|by rewrite carp_ht_del_unchanged].
  destruct (carp_ht_del_removes h k Hwf H0) as (_ & Hwf').
  rewrite !deref_get by done.
  apply carp_ht_del_success in H0 as (c' & Hc' & ->).
  unfold lookup_ref. rewrite size_store.
  pose proof (hash_in_range h k Hwf). pose proof (hash_in_range h k' Hwf).
  destruct (decide (carp_ht_hash k' (size h) = carp_ht_hash k (size h))) as [Eh|Eh].
  - rewrite Eh, bucket_store_eq by done. by eapply delete_first_find_other.
  - rewrite bucket_store_ne by lia. done.
Qed.

Lemma delete_first_filter k c c' :
  delete_first k c = Some c' ->
  length (filter (matches k) c) = S (length (filter (matches k) c')).
Proof.
  revert c'. induction c as [|e c IH]; intros c'; [done|].
  destruct (decide (matches k e)) as [Hm|Hm].
  - rewrite delete_first_cons_match by done. intros [= <-].
    by rewrite filter_cons_True.
  - rewrite delete_first_cons_differs by done.
    destruct (delete_first k c) as [c0|]; intros [= <-].
    rewrite !filter_cons_False by done. by apply IH.
Qed.

Lemma filter_matches_nil k c :
  filter (matches k) c = [] <-> forall e, e ∈ c -> ~ matches k e.
Proof.
  split.
  - intros Hf e He Hm. by eapply filter_nil_not_elem_of.
  - intros Hall. induction c as [|e c IH]; [done|].
    rewrite filter_cons_False by (apply Hall; left).
    apply IH. intros e' He'. apply Hall. by right.
Qed.

(** C30. After a successful deletion the key is absent exactly when its
    chain held it once: with a second entry of that key in the chain, the
    lookup finds that entry. *)
Theorem carp_ht_del_get h k :
  wf h -> (carp_ht_del h k).1 = 0 ->
  carp_ht_get (carp_ht_del h k).2 k = NULL <->
  length (filter (matches k) (bucket h (carp_ht_hash k (size h)))) = 1%nat.
Proof.
  intros Hwf H0. destruct (carp_ht_del_removes h k Hwf H0) as (_ & Hwf').
  rewrite (carp_ht_get_NULL_bucket _ _ Hwf').
  apply carp_ht_del_success in H0 as (c' & Hc' & ->).
  rewrite size_store, bucket_store_eq by auto with carp.
  rewrite <- filter_matches_nil, (delete_first_filter _ _ _ Hc').
  rewrite <- length_zero_iff_nil. lia.
Qed.

End Delete.

(** ** Witnesses *)

Lemma delete_example_wf : wf (P:=lp64) delete_example.
Proof. split; [vm_compute; split; [done|discriminate] | done]. Qed.

Lemma carp_ht_del_inv_witness :
  inv (P:=lp64) (carp_ht_del (P:=lp64) delete_example_uniform "a").2.
Proof.
  apply (carp_ht_del_inv (P:=lp64) delete_example_uniform "a").
  - by apply invb_inv.
  - vm_compute. discriminate.
Defined.

Lemma carp_ht_del_failure_witness :
  (carp_ht_del (P:=lp64) delete_example "b").2 = delete_example.
Proof.
  apply (carp_ht_del_failure (P:=lp64) delete_example "b" delete_example_wf).
  vm_compute. discriminate.
Defined.

Lemma carp_ht_del_in_use_witness :
  in_use (carp_ht_del (P:=lp64) delete_example "d").2 = in_use delete_example - 1.
Proof.
  apply (carp_ht_del_in_use (P:=lp64) delete_example "d" delete_example_wf).
Defined.

Lemma carp_ht_del_get_other_witness :
  deref (carp_ht_del (P:=lp64) delete_example "a").2
        (carp_ht_get (P:=lp64) (carp_ht_del (P:=lp64) delete_example "a").2 "d") =
  deref delete_example (carp_ht_get (P:=lp64) delete_example "d").
Proof.
  apply (carp_ht_del_get_other (P:=lp64) delete_example "a" "d" delete_example_wf).
  vm_compute. discriminate.
Defined.

(** The key "d" is chained once, so deleting it makes it absent; "a" is
    chained twice, so it is still found after one deletion, with the value
    of the second entry. *)

Lemma carp_ht_del_get_witness :
  carp_ht_get (P:=lp64) (carp_ht_del (P:=lp64) delete_example "d").2 "d" = NULL.
Proof.
  apply (carp_ht_del_get (P:=lp64) delete_example "d" delete_example_wf eq_refl).
  reflexivity.
Defined.

Example carp_ht_del_leaves_duplicate :
  (carp_ht_del (P:=lp64) delete_example "a").1 = 0 /\
  get_value (P:=lp64) (carp_ht_del (P:=lp64) delete_example "a").2 "a" = Some 2.
Proof. split; reflexivity. Qed.
