(* ===== verification/Insert.v ===== *)
(** * Insert: the body of carp_ht_set

    [set_body] (src/src/lib/carp_ht.c, 132-159), branch by branch.  With the
    lookup of line 132 returning NULL the bucket head is overwritten by a
    new entry, whatever the bucket held; with the lookup returning an entry
    the loop of lines 142-149 walks from it and either writes the value into
    the first later entry with another key or, at the end of the chain,
    appends a new entry in a block requested with the size of a pointer:
    a block that may be too small for the entry, and of which [calloc] was
    not asked to clear the byte that ends the key.  In no case is the value
    of the entry found changed. *)

From stdpp Require Import strings.
From S2P Require Import Prelude Machine CString Hash Alloc Table TableLemmas Lookup.

(** ** Definitions *)

(** The entry lines 155-157 build for a key that fits its buffer. *)
Definition entry_of (k : string) (v : Z) : carp_ht_entry :=
  {| key := cstr k; value := v |}.

(** The reference of the loop of lines 142-149: the chain behind [base]
    with the value written into its first entry with another key, if
    any. *)
Fixpoint update_first_other (k : string) (v : Z) (c : chain) : option chain :=
  match c with
  | [] => None
  | n :: rest =>
      if decide (matches k n) then cons n <$> update_first_other k v rest
      else Some ({| key := key n; value := v |} :: rest)
  end.

(** A table of three buckets on x86-64 whose bucket 1 holds "a" and then
    "d", as no sequence of insertions builds it. *)
Definition insert_example_mixed : carp_ht :=
  {| size := 3;
     buckets := [[]; [{| key := "a"; value := 1 |}; {| key := "d"; value := 4 |}]; []] |}.

(** A table of three buckets whose bucket 1 holds "a". *)
Definition insert_example : carp_ht :=
  {| size := 3; buckets := [[]; [{| key := "a"; value := 1 |}]; []] |}.

(** The faults the block of line 151 allows: a heap overflow, on an
    allocator whose pointer-sized block does not hold an entry; a key
    without a terminator, on an allocator whose block holds an entry that
    [calloc] does not clear whole. *)
Definition overrun {P : Platform} (f : fault) : Prop :=
  (~ roomy /\ f = HeapOverflow) \/ (roomy /\ ~ cleared /\ f = Unterminated).

(** A table of three buckets whose bucket 1 holds "Maxwells", a key of
    eight bytes: as many as [calloc] clears for the block of line 151 on
    x86-64. *)
Definition insert_example_long : carp_ht :=
  {| size := 3; buckets := [[]; [{| key := "Maxwells"; value := 1 |}]; []] |}.

(** What an insertion of [k] with [v] into [h] promises of the status and
    table it returns: status 0, the invariant, the size of [h], at most [n]
    entries more, the key found by a lookup, and no entry but those of [h]
    and the one written. *)
Definition set_post {P : Platform} (h : carp_ht) (k : string) (v n : Z)
    (r : Z * carp_ht) : Prop :=
  r.1 = 0 /\ inv r.2 /\ size r.2 = size h /\ in_use r.2 <= in_use h + n /\
  carp_ht_get r.2 k <> NULL /\ adds h [entry_of k v] r.2.

Section Insert.
Context {P : Platform}.
Implicit Types (h : carp_ht) (c : chain) (k : string) (e : carp_ht_entry) (o : oracle).

(** ** The new entry and its block *)

Lemma new_entry_fits k v : strlen k < key_capacity -> new_entry k v = entry_of k v.
Proof.
  intros Hk. unfold new_entry, entry_of. f_equal.
  apply strncpy_zeroed_fits. pose proof key_capacity_pos. lia.
Qed.

(** The key of the new entry does not depend on the bytes [calloc] left
    as they were: on a buffer of which the first [n] bytes are cleared and
    that goes on with any bytes [junk], a key shorter than [n] is stored as
    it is in a buffer cleared whole. *)
Lemma new_entry_cleared k v n junk :
  strlen k < Z.of_nat n -> strlen k < key_capacity ->
  cstr (strncpy (zeroed n +:+ junk) k (Z.to_nat (strlen k))) = key (new_entry k v).
Proof.
  intros Hn Hk. rewrite new_entry_fits by done. by apply strncpy_cleared_fits.
Qed.

(** A request granted is an allocation that succeeds and three tests. *)
Lemma alloc_entry_granted bytes k o o' :
  alloc o = Ok true o' ->
  alloc_entry bytes k o =
  (check (entry_bytes <=? malloc_usable bytes) HeapOverflow;;
   check (strlen k <? key_capacity) KeyOverflow;;
   check (strlen k <? calloc_cleared bytes) Unterminated) o'.
Proof. intros Ho. unfold alloc_entry. by rewrite (bind_Ok _ _ _ _ _ Ho). Qed.

Lemma alloc_entry_ok bytes k o :
  never_fails o -> entry_bytes <= malloc_usable bytes -> strlen k < key_capacity ->
  strlen k < calloc_cleared bytes ->
  exists o', alloc_entry bytes k o = Ok tt o' /\ never_fails o'.
Proof.
  intros (o' & Ho & Hnf)%alloc_never_fails Hb Hk Hc. exists o'. split; [|done].
  rewrite (alloc_entry_granted _ _ _ _ Ho), !bind_unfold.
  by rewrite (proj2 (Z.leb_le _ _) Hb), (proj2 (Z.ltb_lt _ _) Hk), (proj2 (Z.ltb_lt _ _) Hc).
Qed.

(** A block requested with the size of an entry is cleared behind every
    key that fits the buffer. *)
Lemma cleared_entry k : strlen k < key_capacity -> strlen k < calloc_cleared entry_bytes.
Proof.
  pose proof entry_bytes_ge. pose proof pointer_bytes_pos.
  pose proof (calloc_cleared_ge entry_bytes). lia.
Qed.

Lemma cleared_pointer k :
  cleared -> strlen k < key_capacity -> strlen k < calloc_cleared pointer_bytes.
Proof. unfold cleared. lia. Qed.

(** A refused allocation is written through. *)
Lemma alloc_entry_refused bytes k o : alloc_entry bytes k (false :: o) = Fault NullDeref.
Proof. done. Qed.

(** A block too small for an entry is overrun. *)
Lemma alloc_entry_small bytes k o :
  never_fails o -> malloc_usable bytes < entry_bytes ->
  alloc_entry bytes k o = Fault HeapOverflow.
Proof.
  intros (o' & Ho & Hnf)%alloc_never_fails Hb.
  unfold alloc_entry. rewrite (bind_Ok _ _ _ _ _ Ho). simpl.
  rewrite !bind_unfold. simpl. by rewrite (proj2 (Z.leb_gt _ _) Hb).
Qed.

(** A key as long as the buffer or longer overruns it. *)
Lemma alloc_entry_long bytes k o :
  never_fails o -> entry_bytes <= malloc_usable bytes -> key_capacity <= strlen k ->
  alloc_entry bytes k o = Fault KeyOverflow.
Proof.
  intros (o' & Ho & Hnf)%alloc_never_fails Hb Hk.
  unfold alloc_entry. rewrite (bind_Ok _ _ _ _ _ Ho). simpl.
  rewrite !bind_unfold. simpl.
  by rewrite (proj2 (Z.leb_le _ _) Hb), (proj2 (Z.ltb_ge _ _) Hk).
Qed.

(** A key that reaches the end of the bytes [calloc] cleared is stored
    without a terminator. *)
Lemma alloc_entry_dirty bytes k o :
  never_fails o -> entry_bytes <= malloc_usable bytes -> strlen k < key_capacity ->
  calloc_cleared bytes <= strlen k ->
  alloc_entry bytes k o = Fault Unterminated.
Proof.
  intros (o' & Ho & Hnf)%alloc_never_fails Hb Hk Hc.
  rewrite (alloc_entry_granted _ _ _ _ Ho), !bind_unfold.
  by rewrite (proj2 (Z.leb_le _ _) Hb), (proj2 (Z.ltb_lt _ _) Hk), (proj2 (Z.ltb_ge _ _) Hc).
Qed.

(** What a successful request tells. *)
Lemma alloc_entry_Ok_inv bytes k o u o' :
  alloc_entry bytes k o = Ok u o' ->
  entry_bytes <= malloc_usable bytes /\ strlen k < key_capacity /\
  strlen k < calloc_cleared bytes /\ (never_fails o -> never_fails o').
Proof.
  unfold alloc_entry. rewrite !bind_unfold.
  destruct o as [|[] o]; simpl; try done;
    destruct (entry_bytes <=? malloc_usable bytes) eqn:Eb; simpl; try done;
    destruct (strlen k <? key_capacity) eqn:Ek; simpl; try done;
    destruct (strlen k <? calloc_cleared bytes) eqn:Ec; simpl; try done;
    intros [= _ <-]; zbool; split_and!; try done.
  by intros ?%Forall_inv_tail.
Qed.

(** ** The loop *)

Lemma set_loop_reference k v e c :
  set_loop k v (e :: c) = cons e <$> update_first_other k v c.
Proof.
  revert e. induction c as [|n c IH]; intros e; [done|].
  simpl. destruct (decide (matches k n)) as [Hm|Hm].
  - rewrite (strcmp_test_matches _ _ Hm). specialize (IH n).
    simpl in IH. by rewrite IH.
  - by rewrite (strcmp_test_differs _ _ Hm).
Qed.

Lemma update_first_other_None k v c :
  update_first_other k v c = None <-> Forall (matches k) c.
Proof.
  induction c as [|n c IH]; simpl; [by split|].
  destruct (decide (matches k n)) as [Hm|Hm].
  - rewrite Forall_cons_iff, <- IH.
    destruct (update_first_other k v c); naive_solver.
  - split; [done|]. by intros [? _]%Forall_cons_iff.
Qed.

(** The loop leaves through its end exactly when every entry behind [base]
    has the key. *)
Lemma set_loop_None k v e c :
  set_loop k v (e :: c) = None <-> Forall (matches k) c.
Proof.
  rewrite set_loop_reference, <- (update_first_other_None k v).
  destruct (update_first_other k v c); naive_solver.
Qed.

(** The write of line 144 keeps the keys and the length of the chain, and
    changes the value of an entry whose key is not the key set. *)
Lemma update_first_other_Some k v c c' :
  update_first_other k v c = Some c' ->
  exists l n r, c = l ++ n :: r /\ Forall (matches k) l /\ ~ matches k n /\
    c' = l ++ {| key := key n; value := v |} :: r.
Proof.
  revert c'. induction c as [|n c IH]; intros c'; [done|]. simpl.
  destruct (decide (matches k n)) as [Hm|Hm].
  - destruct (update_first_other k v c) as [c0|]; intros [= <-].
    destruct (IH c0 eq_refl) as (l & n' & r & -> & Hl & Hn & ->).
    exists (n :: l), n', r. split_and!; try done. by constructor.
  - intros [= <-]. exists [], n, c. split_and!; try done.
Qed.

(** ** The key as a C string *)

Lemma new_entry_cstr k v : new_entry (cstr k) v = new_entry k v.
Proof. unfold new_entry. by rewrite strlen_cstr, strncpy_cstr. Qed.

Lemma alloc_entry_cstr bytes k : alloc_entry bytes (cstr k) = alloc_entry bytes k.
Proof. unfold alloc_entry. by rewrite strlen_cstr. Qed.

Lemma set_loop_cstr k v c : set_loop (cstr k) v c = set_loop k v c.
Proof.
  induction c as [|e c IH]; [done|]. simpl. destruct c as [|n c]; [done|].
  by rewrite strcmp_cstr_r, IH.
Qed.

(** [set_body] reads its key up to the terminator only. *)
Lemma set_body_cstr h k v : set_body h (cstr k) v = set_body h k v.
Proof.
  unfold set_body. rewrite carp_ht_get_cstr.
  destruct (carp_ht_get h k) as [|i j]; cbv zeta.
  - by rewrite carp_ht_hash_cstr, new_entry_cstr, alloc_entry_cstr.
  - by rewrite set_loop_cstr, new_entry_cstr, alloc_entry_cstr.
Qed.

(** ** The three branches *)

(** The chain of the key's bucket around the entry a lookup finds. *)
Lemma lookup_ref_split h k j e :
  lookup_ref h k = Some (j, e) ->
  let c := bucket h (carp_ht_hash k (size h)) in
  c !! j = Some e /\ matches k e /\ drop j c = e :: drop (S j) c /\
  take (S j) c = take j c ++ [e] /\ Forall (fun e' => ~ matches k e') (take j c).
Proof.
  intros (Hj & Hm & Hfirst)%list_find_Some. simpl. split_and!; try done.
  - by apply drop_S.
  - by apply take_S_r.
  - apply list.Forall_forall. intros e' (i & Hi)%list_elem_of_lookup_1.
    apply lookup_take_Some in Hi as [Hi ?]. by eapply Hfirst.
Qed.

(** [set_body] is one of three things: with the key not in its bucket, a
    new chain of one entry; with the key found and only entries of that key
    behind it, an entry appended in a pointer-sized block; with an entry of
    another key behind it, a write into that entry. *)
Lemma set_body_cases h k v o :
  wf h ->
  let hash := carp_ht_hash k (size h) in
  let c := bucket h hash in
  (lookup_ref h k = None /\
   set_body h k v o =
   (alloc_entry entry_bytes k;; ret (0, store h hash [new_entry k v])) o) \/
  (exists j e, lookup_ref h k = Some (j, e) /\ Forall (matches k) (drop (S j) c) /\
   set_body h k v o =
   (alloc_entry pointer_bytes k;; ret (0, store h hash (c ++ [new_entry k v]))) o) \/
  (exists j e r, lookup_ref h k = Some (j, e) /\
   update_first_other k v (drop (S j) c) = Some r /\
   set_body h k v o = Ok (0, store h hash (take (S j) c ++ r)) o).
Proof.
  intros Hwf hash c. pose proof (hash_in_range h k Hwf) as Hr.
  unfold set_body. rewrite (carp_ht_get_lookup h k Hwf).
  destruct (lookup_ref h k) as [[j e]|] eqn:El; [|by left]. right.
  rewrite Z2Nat.id by lia. fold hash c.
  destruct (lookup_ref_split h k j e El) as (_ & _ & Hd & Ht & _).
  fold hash c in Hd, Ht. rewrite Hd, set_loop_reference.
  destruct (update_first_other k v (drop (S j) c)) as [r|] eqn:Eu; simpl.
  - right. exists j, e, r. split_and!; try done.
    by rewrite Ht, <- app_assoc.
  - left. exists j, e. split_and!; try done.
    by apply (update_first_other_None k v).
Qed.

(** What a lookup finds in a chain that starts like the old one up to and
    including the entry found before. *)
Lemma list_find_take_app k c j e r :
  list_find (matches k) c = Some (j, e) ->
  list_find (matches k) (take (S j) c ++ r) = Some (j, e).
Proof.
  intros (Hj & Hm & Hfirst)%list_find_Some.
  apply list_find_app_l, list_find_Some. split_and!; [|done|].
  - rewrite lookup_take_lt by lia. done.
  - intros i y [Hy _]%lookup_take_Some. by apply Hfirst.
Qed.

(** Branch 1, lines 135-139: when the lookup returns NULL and the
    allocation succeeds, the bucket of the key becomes a chain of exactly
    one entry, the new one, whatever chain the bucket held. *)
Lemma set_body_fresh h k v o :
  wf h -> carp_ht_get h k = NULL -> never_fails o -> strlen k < key_capacity ->
  exists o', never_fails o' /\
    set_body h k v o = Ok (0, store h (carp_ht_hash k (size h)) [entry_of k v]) o'.
Proof.
  intros Hwf Hnull Ho Hk.
  destruct (set_body_cases h k v o Hwf) as [[_ ->]|[(j & e & El & _)|(j & e & r & El & _)]].
  - destruct (alloc_entry_ok entry_bytes k o Ho (malloc_usable_ge _) Hk (cleared_entry k Hk))
      as (o' & Ha & Ho').
    exists o'. split; [done|]. rewrite (bind_Ok _ _ _ _ _ Ha).
    by rewrite new_entry_fits.
  - rewrite (carp_ht_get_lookup h k Hwf), El in Hnull. done.
  - rewrite (carp_ht_get_lookup h k Hwf), El in Hnull. done.
Qed.

(** Branch 2, lines 142-152: when the lookup finds the key and only
    entries of that key follow, an allocator whose pointer-sized block holds
    an entry, cleared behind the key, lets [set_body] append a second entry
    with the key at the end of the chain. *)
Lemma set_body_appends h k v o j e :
  wf h -> lookup_ref h k = Some (j, e) ->
  Forall (matches k) (drop (S j) (bucket h (carp_ht_hash k (size h)))) ->
  roomy -> never_fails o -> strlen k < key_capacity ->
  strlen k < calloc_cleared pointer_bytes ->
  exists o', never_fails o' /\
    set_body h k v o =
    Ok (0, store h (carp_ht_hash k (size h))
             (bucket h (carp_ht_hash k (size h)) ++ [entry_of k v])) o'.
Proof.
  intros Hwf El Hall Hroomy Ho Hk Hc.
  destruct (set_body_cases h k v o Hwf)
    as [[El' _]|[(j' & e' & El' & _ & ->)|(j' & e' & r & El' & Hu & _)]].
  - congruence.
  - destruct (alloc_entry_ok pointer_bytes k o Ho Hroomy Hk Hc) as (o' & Ha & Ho').
    exists o'. split; [done|]. rewrite (bind_Ok _ _ _ _ _ Ha).
    by rewrite new_entry_fits.
  - rewrite El in El'. injection El' as <- <-.
    apply (update_first_other_None k v) in Hall. congruence.
Qed.

(** Branch 2 on an allocator whose pointer-sized block is smaller than
    an entry: the entry written at lines 155-157 overruns the block
    requested at line 151. *)
Lemma set_body_overruns h k v o j e :
  wf h -> lookup_ref h k = Some (j, e) ->
  Forall (matches k) (drop (S j) (bucket h (carp_ht_hash k (size h)))) ->
  ~ roomy -> never_fails o ->
  set_body h k v o = Fault HeapOverflow.
Proof.
  intros Hwf El Hall Htight Ho. unfold roomy in Htight.
  destruct (set_body_cases h k v o Hwf)
    as [[El' _]|[(j' & e' & El' & _ & ->)|(j' & e' & r & El' & Hu & _)]].
  - congruence.
  - apply bind_Fault, alloc_entry_small; [done|lia].
  - rewrite El in El'. injection El' as <- <-.
    apply (update_first_other_None k v) in Hall. congruence.
Qed.

(** Branch 2 on an allocator whose pointer-sized block holds an entry of
    which [calloc] has not cleared the byte behind the key: the key is
    stored without a terminator. *)
Lemma set_body_dirty h k v o j e :
  wf h -> lookup_ref h k = Some (j, e) ->
  Forall (matches k) (drop (S j) (bucket h (carp_ht_hash k (size h)))) ->
  roomy -> never_fails o -> strlen k < key_capacity ->
  calloc_cleared pointer_bytes <= strlen k ->
  set_body h k v o = Fault Unterminated.
Proof.
  intros Hwf El Hall Hroomy Ho Hk Hc.
  destruct (set_body_cases h k v o Hwf)
    as [[El' _]|[(j' & e' & El' & _ & ->)|(j' & e' & r & El' & Hu & _)]].
  - congruence.
  - by apply bind_Fault, alloc_entry_dirty.
  - rewrite El in El'. injection El' as <- <-.
    apply (update_first_other_None k v) in Hall. congruence.
Qed.

(** C37. Branch 3, lines 143-146: when an entry with another key follows the
    entry found, the value is written into that entry and [set_body]
    returns 0 without allocating. *)
Theorem set_body_writes_other h k v o j e r :
  wf h -> lookup_ref h k = Some (j, e) ->
  update_first_other k v (drop (S j) (bucket h (carp_ht_hash k (size h)))) = Some r ->
  set_body h k v o =
  Ok (0, store h (carp_ht_hash k (size h))
           (take (S j) (bucket h (carp_ht_hash k (size h))) ++ r)) o.
Proof.
  intros Hwf El Hu.
  destruct (set_body_cases h k v o Hwf)
    as [[El' _]|[(j' & e' & El' & Hall & _)|(j' & e' & r' & El' & Hu' & ->)]].
  - congruence.
  - rewrite El in El'. injection El' as <- <-.
    apply (update_first_other_None k v) in Hall. congruence.
  - rewrite El in El'. injection El' as <- <-. congruence.
Qed.

(** C36. A refused allocation of the entry is not checked: [set_body] writes
    through the NULL it received. *)
Theorem set_body_null_deref h k v o :
  wf h -> carp_ht_get h k = NULL -> set_body h k v (false :: o) = Fault NullDeref.
Proof.
  intros Hwf Hnull.
  destruct (set_body_cases h k v (false :: o) Hwf)
    as [[_ ->]|[(j & e & El & _)|(j & e & r & El & _)]]; [done|..];
    rewrite (carp_ht_get_lookup h k Hwf), El in Hnull; done.
Qed.

(** ** Lookups after an insertion *)

Lemma lookup_ref_store h k c :
  wf h -> lookup_ref (store h (carp_ht_hash k (size h)) c) k = list_find (matches k) c.
Proof.
  intros Hwf. unfold lookup_ref. by rewrite size_store, bucket_store_eq by auto with carp.
Qed.

Lemma get_NULL_lookup h k : wf h -> carp_ht_get h k = NULL <-> lookup_ref h k = None.
Proof.
  intros Hwf. rewrite (carp_ht_get_lookup h k Hwf).
  destruct (lookup_ref h k) as [[??]|]; naive_solver.
Qed.

Lemma matches_entry_of k v : matches k (entry_of k v).
Proof. unfold matches, entry_of. simpl. apply cstr_idemp. Qed.

(** What a run of [set_body] that returns has done. *)
Lemma set_body_Ok h k v o st h' o' :
  wf h -> set_body h k v o = Ok (st, h') o' ->
  let hash := carp_ht_hash k (size h) in
  let c := bucket h hash in
  st = 0 /\ (never_fails o -> never_fails o') /\
  ((lookup_ref h k = None /\ strlen k < key_capacity /\
    h' = store h hash [entry_of k v]) \/
   (exists j e, lookup_ref h k = Some (j, e) /\ Forall (matches k) (drop (S j) c) /\
      roomy /\ strlen k < key_capacity /\ h' = store h hash (c ++ [entry_of k v])) \/
   (exists j e r, lookup_ref h k = Some (j, e) /\
      update_first_other k v (drop (S j) c) = Some r /\
      h' = store h hash (take (S j) c ++ r))).
Proof.
  intros Hwf Hok hash c.
  destruct (set_body_cases h k v o Hwf)
    as [[El Heq]|[(j & e & El & Hall & Heq)|(j & e & r & El & Hu & Heq)]];
    rewrite Heq in Hok; clear Heq.
  - apply bind_Ok_inv in Hok as (u & o1 & Ha & [= <- <- <-]).
    apply alloc_entry_Ok_inv in Ha as (_ & Hk & _ & Ho).
    rewrite new_entry_fits by done. split_and!; try done. by left.
  - apply bind_Ok_inv in Hok as (u & o1 & Ha & [= <- <- <-]).
    apply alloc_entry_Ok_inv in Ha as (Hb & Hk & _ & Ho).
    rewrite new_entry_fits by done. split_and!; try done.
    right. left. exists j, e. split_and!; done.
  - injection Hok as <- <- <-. split_and!; try done.
    right. right. by exists j, e, r.
Qed.

(** C29. An insertion of a key that was absent makes a lookup of the key
    return the value inserted. *)
Theorem set_body_roundtrip h k v o st h' o' :
  wf h -> carp_ht_get h k = NULL -> set_body h k v o = Ok (st, h') o' ->
  get_value h' k = Some v.
Proof.
  intros Hwf Hnull%get_NULL_lookup Hok; [|done].
  destruct (set_body_Ok h k v o st h' o' Hwf Hok)
    as (_ & _ & [(_ & _ & ->)|[(j & e & El & _)|(j & e & r & El & _)]]);
    [|congruence..].
  unfold get_value. rewrite deref_get, lookup_ref_store by auto with carp.
  simpl. by rewrite decide_True by apply matches_entry_of.
Qed.

(** C8. An insertion of a key that is present never changes what a lookup
    of the key returns: the entry found keeps its value, whichever branch
    the loop takes. *)
Theorem set_body_stale h k v o st h' o' :
  wf h -> carp_ht_get h k <> NULL -> set_body h k v o = Ok (st, h') o' ->
  deref h' (carp_ht_get h' k) = deref h (carp_ht_get h k).
Proof.
  intros Hwf Hfound Hok. rewrite get_NULL_lookup in Hfound by done.
  destruct (set_body_Ok h k v o st h' o' Hwf Hok)
    as (_ & _ & [(El & _)|[(j & e & El & _ & _ & _ & ->)|(j & e & r & El & _ & ->)]]);
    [done|..].
  all: rewrite !deref_get, lookup_ref_store, El by auto with carp.
  - by rewrite (list_find_app_l _ _ _ _ _ El).
  - by rewrite (list_find_take_app _ _ _ _ _ El).
Qed.

(** C6. An insertion whose lookup returns NULL on a bucket that is not
    empty discards the chain of the bucket: every key that was in it is
    absent afterwards. *)
Theorem set_body_evicts h k v o st h' o' e :
  wf h -> in_home h -> carp_ht_get h k = NULL ->
  e ∈ bucket h (carp_ht_hash k (size h)) ->
  set_body h k v o = Ok (st, h') o' ->
  carp_ht_get h' (key e) = NULL /\
  in_use h' = in_use h - Z.of_nat (length (bucket h (carp_ht_hash k (size h)))) + 1.
Proof.
  intros Hwf Hhome Hnull He Hok. pose proof (hash_in_range h k Hwf) as Hr.
  assert (~ matches k e) as Hne by (by apply (carp_ht_get_NULL_bucket h k Hwf)).
  assert (carp_ht_hash (key e) (size h) = carp_ht_hash k (size h)) as Hh.
  { rewrite (Hhome _ _ _ (bucket_lookup h _ Hwf Hr) He). lia. }
  apply get_NULL_lookup in Hnull; [|done].
  destruct (set_body_Ok h k v o st h' o' Hwf Hok)
    as (_ & _ & [(_ & _ & ->)|[(j & e0 & El & _)|(j & e0 & r & El & _)]]);
    [|congruence..].
  split; [|by rewrite in_use_store by done].
  apply carp_ht_get_NULL_bucket; [by apply wf_store|].
  rewrite size_store, Hh, bucket_store_eq by done.
  intros e' ->%list_elem_of_singleton Hm. apply Hne.
  unfold matches in *. simpl in Hm. by rewrite cstr_idemp in Hm.
Qed.

(** ** The invariant *)

(** In a table that satisfies the invariant the whole chain of a key that
    is found has that key. *)
Lemma inv_all_match h k j e :
  inv h -> lookup_ref h k = Some (j, e) ->
  Forall (matches k) (bucket h (carp_ht_hash k (size h))).
Proof.
  intros Hinv El. pose proof (inv_wf _ Hinv) as Hwf.
  pose proof (hash_in_range h k Hwf) as Hr.
  destruct (inv_chain_ok h _ Hinv Hr) as [_ Hu].
  apply list_find_Some in El as (Hj%list_elem_of_lookup_2 & Hm & _).
  apply list.Forall_forall. intros e' He'. unfold matches in *.
  by rewrite (Hu e' e He' Hj).
Qed.

Lemma chain_ok_entry_of h k v :
  strlen k < key_capacity ->
  chain_ok (size h) (carp_ht_hash k (size h)) [entry_of k v].
Proof.
  intros Hk. split.
  - intros e ->%list_elem_of_singleton. simpl.
    by rewrite carp_ht_hash_cstr, cstr_idemp, strlen_cstr.
  - by intros e1 e2 ->%list_elem_of_singleton ->%list_elem_of_singleton.
Qed.

(** [set_body] preserves the invariant of the table; it returns 0,
    keeps the size and adds at most one entry. *)
Lemma set_body_inv h k v o st h' o' :
  inv h -> set_body h k v o = Ok (st, h') o' ->
  st = 0 /\ inv h' /\ size h' = size h /\ in_use h' <= in_use h + 1.
Proof.
  intros Hinv Hok. pose proof (inv_wf _ Hinv) as Hwf.
  pose proof (hash_in_range h k Hwf) as Hr.
  pose proof (inv_chain_ok h _ Hinv Hr) as Hc.
  destruct (set_body_Ok h k v o st h' o' Hwf Hok)
    as (-> & _ & [(_ & Hk & ->)|[(j & e & El & _ & _ & Hk & ->)|(j & e & r & El & Hu & _)]]).
  - split_and!; [done| |done|].
    + apply inv_store; [done..|]. by apply chain_ok_entry_of.
    + rewrite in_use_store by done. simpl. lia.
  - split_and!; [done| |done|].
    + apply inv_store; [done..|]. pose proof (inv_all_match h k j e Hinv El) as Hall.
      destruct Hc as [Hc1 Hc2]. destruct (chain_ok_entry_of h k v Hk) as [Hn1 Hn2].
      rewrite list.Forall_forall in Hall.
      assert (forall e', e' ∈ bucket h (carp_ht_hash k (size h)) -> key e' = cstr k) as Hkey.
      { intros e' He'. destruct (Hc1 e' He') as (_ & <- & _). by apply Hall. }
      split.
      * intros e' [He'|He']%elem_of_app; [by apply Hc1 | by apply Hn1].
      * intros e1 e2 [H1| ->%list_elem_of_singleton]%elem_of_app
                     [H2| ->%list_elem_of_singleton]%elem_of_app; simpl;
          rewrite ?(Hkey _ H1), ?(Hkey _ H2); done.
    + rewrite in_use_store, length_app by done. simpl. lia.
  - pose proof (inv_all_match h k j e Hinv El) as Hall.
    apply (Forall_drop _ (S j)), (update_first_other_None k v) in Hall. congruence.
Qed.

(** On an allocator whose pointer-sized block is smaller than an entry,
    setting a key that is present in a table that satisfies the invariant
    overruns the heap. *)
Lemma set_body_tight_present h k v o :
  inv h -> ~ roomy -> carp_ht_get h k <> NULL -> never_fails o ->
  set_body h k v o = Fault HeapOverflow.
Proof.
  intros Hinv Htight Hfound Ho. pose proof (inv_wf _ Hinv) as Hwf.
  rewrite get_NULL_lookup in Hfound by done.
  destruct (lookup_ref h k) as [[j e]|] eqn:El; [|done].
  eapply set_body_overruns; try done.
  by eapply Forall_drop, inv_all_match.
Qed.

(** C23. The terminator of the key appended at line 151 is a byte of the
    block of line 151, of which [calloc] was asked to clear no more than
    the size of a pointer.  On an allocator whose block holds the entry,
    setting a key that is present appends the second entry when the key is
    shorter than the bytes cleared, and stores a key without a terminator
    when it is not: with the eight bytes the C standard promises on x86-64,
    every key of eight bytes or more. *)
Theorem set_body_unterminated h k v o :
  inv h -> roomy -> carp_ht_get h k <> NULL -> never_fails o ->
  strlen k < key_capacity ->
  (calloc_cleared pointer_bytes <= strlen k -> set_body h k v o = Fault Unterminated) /\
  (strlen k < calloc_cleared pointer_bytes ->
   exists o', never_fails o' /\
     set_body h k v o =
     Ok (0, store h (carp_ht_hash k (size h))
              (bucket h (carp_ht_hash k (size h)) ++ [entry_of k v])) o').
Proof.
  intros Hinv Hroomy Hfound Ho Hk. pose proof (inv_wf _ Hinv) as Hwf.
  rewrite get_NULL_lookup in Hfound by done.
  destruct (lookup_ref h k) as [[j e]|] eqn:El; [|done].
  pose proof (Forall_drop _ (S j) _ (inv_all_match h k j e Hinv El)) as Hall.
  split; intros Hc; [by eapply set_body_dirty | by eapply set_body_appends].
Qed.

(** ** The specification of [set_body] *)

(** After [set_body] a lookup of the key finds an entry. *)
Lemma set_body_present h k v o st h' o' :
  wf h -> set_body h k v o = Ok (st, h') o' -> carp_ht_get h' k <> NULL.
Proof.
  intros Hwf Hok.
  destruct (set_body_Ok h k v o st h' o' Hwf Hok)
    as (_ & _ & [(_ & _ & ->)|[(j & e & El & _ & _ & _ & ->)|(j & e & r & El & _ & ->)]]);
    rewrite get_NULL_lookup, lookup_ref_store by auto with carp.
  - simpl. by rewrite decide_True by apply matches_entry_of.
  - by rewrite (list_find_app_l _ _ _ _ _ El).
  - by rewrite (list_find_take_app _ _ _ _ _ El).
Qed.

(** On a table that satisfies the invariant [set_body] adds no entry but
    the one it writes. *)
Lemma set_body_adds h k v o st h' o' :
  inv h -> set_body h k v o = Ok (st, h') o' -> adds h [entry_of k v] h'.
Proof.
  intros Hinv Hok. pose proof (inv_wf _ Hinv) as Hwf.
  destruct (set_body_Ok h k v o st h' o' Hwf Hok)
    as (_ & _ & [(_ & _ & ->)|[(j & e & El & _ & _ & _ & ->)|(j & e & r & El & Hu & _)]]).
  - by apply adds_store.
  - intros e' [[He'|He']%elem_of_app|?]%adds_store; [right|by left|by right|done].
    rewrite (entries_wf h Hwf). apply elem_of_concat.
    eauto using bucket_elem_of, hash_in_range.
  - pose proof (inv_all_match h k j e Hinv El) as Hall.
    apply (Forall_drop _ (S j)), (update_first_other_None k v) in Hall. congruence.
Qed.

(** The faults of the block of line 151 are two. *)
Lemma overrun_fault f : overrun f -> f = HeapOverflow \/ f = Unterminated.
Proof. intros [[_ ->]|(_ & _ & ->)]; [by left|by right]. Qed.

(** On a table that satisfies the invariant, with allocations that succeed
    and a key that fits, [set_body] returns a table that satisfies
    [set_post], or the key was present and the block of line 151 is
    overrun or not cleared behind the key. *)
Lemma set_body_runs h k v o :
  inv h -> never_fails o -> strlen k < key_capacity ->
  runs overrun (set_post h k v 1) (set_body h k v o).
Proof.
  intros Hinv Ho Hk. pose proof (inv_wf _ Hinv) as Hwf.
  assert (forall h' o', set_body h k v o = Ok (0, h') o' -> never_fails o' ->
            runs overrun (set_post h k v 1) (set_body h k v o)) as Hpost.
  { intros h' o' Hok Ho'. rewrite Hok. split; [done|].
    destruct (set_body_inv h k v o 0 h' o' Hinv Hok) as (_ & ? & ? & ?).
    split_and!; try done; [by eapply set_body_present | by eapply set_body_adds]. }
  destruct (lookup_ref h k) as [[j e]|] eqn:El.
  - pose proof (Forall_drop _ (S j) _ (inv_all_match h k j e Hinv El)) as Hall.
    destruct (decide roomy) as [Hroomy|Htight];
      [|rewrite (set_body_overruns h k v o j e Hwf El Hall Htight Ho); by left].
    destruct (decide (strlen k < calloc_cleared pointer_bytes)) as [Hc|Hc].
    + destruct (set_body_appends h k v o j e Hwf El Hall Hroomy Ho Hk Hc) as (o' & Ho' & Hok).
      eauto.
    + rewrite (set_body_dirty h k v o j e Hwf El Hall Hroomy Ho Hk) by lia.
      right. split_and!; [done| |done]. unfold cleared. lia.
  - apply get_NULL_lookup in El; [|done].
    destruct (set_body_fresh h k v o Hwf El Ho Hk) as (o' & Ho' & Hok). eauto.
Qed.

End Insert.

(** ** Witnesses

    On x86-64 with glibc ([lp64]), and with an allocator whose smallest
    block holds an entry ([lp64_roomy]). *)

Lemma insert_example_inv : inv (P:=lp64) insert_example.
Proof. by apply invb_inv. Qed.

Lemma insert_example_roomy_inv : inv (P:=lp64_roomy) insert_example.
Proof. by apply invb_inv. Qed.

Lemma insert_example_mixed_wf : wf (P:=lp64) insert_example_mixed.
Proof. split; [vm_compute; split; [done|discriminate] | done]. Qed.

Lemma insert_example_long_inv : inv (P:=lp64_dirty) insert_example_long.
Proof. by apply invb_inv. Qed.

Lemma lp64_dirty_roomy : roomy (P:=lp64_dirty).
Proof. vm_compute. discriminate. Qed.

(** Setting "Maxwells" again on x86-64, with a [calloc] that clears the
    eight bytes requested: the ninth byte of the block is not cleared. *)
Lemma set_body_unterminated_witness :
  set_body (P:=lp64_dirty) insert_example_long "Maxwells" 9 [] = Fault Unterminated.
Proof.
  apply (set_body_unterminated (P:=lp64_dirty) insert_example_long "Maxwells" 9 []
           insert_example_long_inv lp64_dirty_roomy);
    [by vm_compute|apply never_fails_nil|by vm_compute|by vm_compute].
Defined.

(** Setting "a" where "d" follows it writes the value into the entry of
    "d". *)
Lemma set_body_writes_other_witness :
  set_body (P:=lp64) insert_example_mixed "a" 9 [] =
  Ok (0, {| size := 3;
            buckets := [[]; [{| key := "a"; value := 1 |}; {| key := "d"; value := 9 |}]; []] |})
     [].
Proof.
  apply (set_body_writes_other (P:=lp64) insert_example_mixed "a" 9 [] 0%nat
           {| key := "a"; value := 1 |} [{| key := "d"; value := 9 |}]
           insert_example_mixed_wf); reflexivity.
Defined.

Lemma set_body_null_deref_witness :
  set_body (P:=lp64) insert_example "b" 5 [false] = Fault NullDeref.
Proof.
  apply (set_body_null_deref (P:=lp64) insert_example "b" 5 []
           (inv_wf _ insert_example_inv)).
  reflexivity.
Defined.

Lemma set_body_roundtrip_witness :
  get_value (P:=lp64) (store insert_example 2 [entry_of "b" 5]) "b" = Some 5.
Proof.
  apply (set_body_roundtrip (P:=lp64) insert_example "b" 5 [] 0
           (store insert_example 2 [entry_of "b" 5]) []
           (inv_wf _ insert_example_inv)); reflexivity.
Defined.

(** Setting "a" again appends a second entry; the lookup still finds the
    first, with the old value 1. *)
Lemma set_body_stale_witness :
  deref (store insert_example 1 [{| key := "a"; value := 1 |}; entry_of "a" 9])
        (carp_ht_get (P:=lp64_roomy)
           (store insert_example 1 [{| key := "a"; value := 1 |}; entry_of "a" 9]) "a") =
  Some {| key := "a"; value := 1 |}.
Proof.
  apply (set_body_stale (P:=lp64_roomy) insert_example "a" 9 [] 0
           (store insert_example 1 [{| key := "a"; value := 1 |}; entry_of "a" 9]) []
           (inv_wf _ insert_example_roomy_inv)); [discriminate|reflexivity].
Defined.

(** Setting "d", which shares bucket 1 with "a", makes "a" absent. *)
Lemma set_body_evicts_witness :
  carp_ht_get (P:=lp64) (store insert_example 1 [entry_of "d" 4]) "a" = NULL.
Proof.
  apply (set_body_evicts (P:=lp64) insert_example "d" 4 [] 0
           (store insert_example 1 [entry_of "d" 4]) [] {| key := "a"; value := 1 |}
           (inv_wf _ insert_example_inv) (inv_home _ insert_example_inv));
    [reflexivity|apply list_elem_of_here|reflexivity].
Defined.
