(* ===== verification/Resize.v ===== *)
(** * Resize: carp_ht_used, carp_ht_resize and carp_ht_set

    The load monitor (src/src/lib/carp_ht.c, 54-66), the growth of the
    table (178-206) and the whole of [carp_ht_set] (120-160).  On a table
    with no more entries than buckets the occupancy is computed without
    truncation as long as the product of line 65 is a value of [long], a
    resize moves the entries into 2*size+1 buckets with
    insertions that never resize again, and [carp_ht_set] needs fuel 2.  A
    [carp_ht_set] that resizes goes through [set_body] twice: once in its
    recursive call and once more when that call has returned. *)

From stdpp Require Import strings.
From S2P Require Import Prelude Machine CString Hash Alloc Table TableLemmas.
From S2P Require Import Lookup Delete Insert.

(** ** Definitions *)

(** The occupancy as the specification defines it: the percentage of
    entries per bucket, truncated. *)
Definition occupancy (h : carp_ht) : Z := in_use h * 100 / size h.

(** The faults a [carp_ht_set] on the table [h] allows under allocations
    that succeed: those of the block of line 151, and the overflow of the
    product of line 65 when a hundred times the entries of [h] is not a
    value of [long]. *)
Definition set_fault {P : Platform} (h : carp_ht) (f : fault) : Prop :=
  overrun f \/ (LONG_MAX < in_use h * 100 /\ f = SignedOverflow).

(** A table of one bucket on x86 that chains more entries than a hundredth
    of the largest [long]. *)
Definition overflow_example : carp_ht :=
  {| size := 1;
     buckets := [replicate (Z.to_nat 21474837) {| key := "a"; value := 0 |}] |}.

(** What [carp_ht_resize] promises of the status and table it returns:
    status 0, the invariant, the new size, and no entry more than before. *)
Definition resize_post {P : Platform} (h : carp_ht) (r : Z * carp_ht) : Prop :=
  r.1 = 0 /\ inv r.2 /\ size r.2 = 2 * size h + 1 /\ in_use r.2 <= in_use h /\
  adds h [] r.2.

(** What [carp_ht_set] promises of the status and table it returns on a
    table [h] with no more entries than buckets. *)
Definition set_result {P : Platform} (h : carp_ht) (k : string) (v : Z)
    (r : Z * carp_ht) : Prop :=
  r.1 = 0 /\ inv r.2 /\ sparse r.2 /\ carp_ht_get r.2 k <> NULL /\
  size h <= size r.2 <= 2 * size h + 1 /\ adds h [entry_of k v] r.2.

(** What a [carp_ht_set] that resizes leaves: the table has the new size
    and the bucket of the key ends with a second entry of the key. *)
Definition duplicated {P : Platform} (h : carp_ht) (k : string) (v : Z)
    (r : Z * carp_ht) : Prop :=
  r.1 = 0 /\ size r.2 = 2 * size h + 1 /\
  exists c, bucket r.2 (carp_ht_hash k (size r.2)) = c ++ [entry_of k v] /\
    c <> [] /\ Forall (matches k) c.

(** A table of three buckets on x86-64 that holds "c" in bucket 0 and "a" in
    bucket 1. *)
Definition full_example : carp_ht :=
  {| size := 3;
     buckets := [[{| key := "c"; value := 3 |}]; [{| key := "a"; value := 1 |}]; []] |}.

(** A table of one bucket that chains 328 entries: its occupancy, 32800, is
    not a value of [short]. *)
Definition crowded_example : carp_ht :=
  {| size := 1; buckets := [replicate 328 {| key := "a"; value := 0 |}] |}.

Section Resize.
Context {P : Platform}.
Implicit Types (h : carp_ht) (c : chain) (k : string) (e : carp_ht_entry) (o : oracle).

(** ** carp_ht_used *)

(** What a [carp_ht_used] that returns tells: the product of line 65 is a
    value of [long], the size is not 0, and the oracle is as it was. *)
Lemma carp_ht_used_Ok_inv h o u o' :
  carp_ht_used h o = Ok u o' ->
  o' = o /\ in_use h * 100 <= LONG_MAX /\ size h <> 0 /\
  u = to_short (cdiv (in_use h * 100) (size h)).
Proof.
  unfold carp_ht_used. rewrite !bind_unfold.
  destruct (fits_long (in_use h * 100)) eqn:Ef; [|done].
  apply fits_long_spec in Ef. simpl.
  destruct (size h =? 0) eqn:Ez; [done|]. intros [= <- <-]. zbool. split_and!; [done|lia|done..].
Qed.

Lemma carp_ht_used_Ok h o :
  in_use h * 100 <= LONG_MAX -> size h <> 0 ->
  carp_ht_used h o = Ok (to_short (cdiv (in_use h * 100) (size h))) o.
Proof.
  intros Hfit Hsz. pose proof (in_use_nonneg h). pose proof LONG_MAX_ge.
  unfold carp_ht_used. rewrite !bind_unfold.
  rewrite (proj2 (fits_long_spec _)) by lia. simpl.
  by rewrite (proj2 (Z.eqb_neq _ _) Hsz).
Qed.

(** A table with more entries than a hundredth of the largest [long]:
    the product of line 65 overflows. *)
Lemma carp_ht_used_overflow h o :
  LONG_MAX < in_use h * 100 -> carp_ht_used h o = Fault SignedOverflow.
Proof.
  intros Hbig. unfold carp_ht_used. rewrite !bind_unfold.
  assert (fits_long (in_use h * 100) = false) as ->; [|done].
  apply not_true_is_false. rewrite fits_long_spec. lia.
Qed.

(** On a table whose size is not 0 nothing else can happen. *)
Lemma carp_ht_used_total h o :
  size h <> 0 ->
  carp_ht_used h o = Fault SignedOverflow \/ exists u, carp_ht_used h o = Ok u o.
Proof.
  intros Hsz. destruct (decide (in_use h * 100 <= LONG_MAX)) as [Hfit|Hbig].
  - right. eexists. by apply carp_ht_used_Ok.
  - left. apply carp_ht_used_overflow. lia.
Qed.

(** The oracle does not matter to [carp_ht_used]. *)
Lemma carp_ht_used_oracle h o o2 u o' :
  carp_ht_used h o = Ok u o' -> carp_ht_used h o2 = Ok u o2.
Proof. intros (_ & ? & ? & ->)%carp_ht_used_Ok_inv. by apply carp_ht_used_Ok. Qed.

(** On an initialised table with no more entries than buckets the
    quotient of line 65 is the occupancy, which the conversion to [short]
    leaves as it is. *)
Lemma occupancy_short h :
  wf h -> sparse h ->
  to_short (cdiv (in_use h * 100) (size h)) = occupancy h /\ 0 <= occupancy h <= 100.
Proof.
  intros Hwf Hs. pose proof (wf_size_pos h Hwf). pose proof (in_use_nonneg h).
  unfold sparse in Hs. unfold occupancy.
  rewrite cdiv_nonneg by lia.
  assert (0 <= in_use h * 100 / size h <= 100) by zdiv.
  rewrite to_short_small by lia. done.
Qed.

(** On such a table [carp_ht_used] returns the occupancy, as long as the
    product of line 65 is a value of [long]. *)
Lemma carp_ht_used_occupancy h o :
  wf h -> sparse h -> in_use h * 100 <= LONG_MAX -> carp_ht_used h o = Ok (occupancy h) o.
Proof.
  intros Hwf Hs Hfit. pose proof (wf_size_pos h Hwf).
  rewrite carp_ht_used_Ok by lia. by destruct (occupancy_short h Hwf Hs) as [-> _].
Qed.

(** The test of line 125 on the occupancy. *)
Lemma occupancy_test h : 0 < size h -> 60 < occupancy h <-> 61 * size h <= in_use h * 100.
Proof. intros. unfold occupancy. zdiv. Qed.

(** ** carp_ht_set, by the outcome of the test of line 125 *)

Lemma carp_ht_set_0 h k v o : carp_ht_set 0 h k v o = OutOfFuel.
Proof. done. Qed.

Lemma carp_ht_set_S fuel h k v :
  carp_ht_set (S fuel) h k v =
  (used ← carp_ht_used h;
   if 60 <? used then
     r ← resize_with (carp_ht_set fuel) h;
     if r.1 ==? 1 then ret (1, r.2)
     else r' ← carp_ht_set fuel r.2 k v;
          if r'.1 !=? 0 then ret (1, r'.2) else set_body r'.2 k v
   else set_body h k v).
Proof. done. Qed.

(** Lines 132-159 when the table is not too full. *)
Lemma carp_ht_set_body fuel h k v o u :
  carp_ht_used h o = Ok u o -> u <= 60 -> carp_ht_set (S fuel) h k v o = set_body h k v o.
Proof.
  intros Hu Hle. rewrite carp_ht_set_S, (bind_Ok _ _ _ _ _ Hu).
  by rewrite (proj2 (Z.ltb_ge _ _) Hle).
Qed.

(** Line 125 on a table whose entries are too many to count in percent. *)
Lemma carp_ht_set_overflows fuel h k v o :
  LONG_MAX < in_use h * 100 -> carp_ht_set (S fuel) h k v o = Fault SignedOverflow.
Proof. intros Hbig. rewrite carp_ht_set_S. by apply bind_Fault, carp_ht_used_overflow. Qed.

(** ** Fuel *)

Lemma resize_with_fuel (set set' : carp_ht -> string -> Z -> M (Z * carp_ht)) h o :
  (forall h k v o, set h k v o <> OutOfFuel -> set' h k v o = set h k v o) ->
  resize_with set h o <> OutOfFuel -> resize_with set' h o = resize_with set h o.
Proof.
  intros Hset. unfold resize_with. cbv zeta.
  apply bind_fuel; [done|]. intros _ o1.
  apply bind_fuel; [done|]. intros [] o2; [|done].
  apply bind_fuel; [|done]. apply foldM_fuel.
  intros newh e o3. apply bind_fuel; [apply Hset | done].
Qed.

(** ** The key as a C string *)

Lemma carp_ht_set_cstr fuel h k v o :
  carp_ht_set fuel h (cstr k) v o = carp_ht_set fuel h k v o.
Proof.
  revert h o. induction fuel as [|n IH]; intros h o; [done|].
  rewrite !carp_ht_set_S, !bind_unfold.
  destruct (carp_ht_used h o) as [u o0| |]; [|done..].
  rewrite set_body_cstr. destruct (60 <? u); [|done].
  rewrite !bind_unfold. destruct (resize_with _ h o0) as [r o1| |]; [|done..].
  destruct (r.1 ==? 1); [done|]. rewrite !bind_unfold, IH.
  destruct (carp_ht_set n r.2 k v o1) as [r' o2| |]; [|done..].
  by rewrite set_body_cstr.
Qed.

(** One more unit of fuel does not change a run that had enough. *)
Lemma carp_ht_set_fuel_S n h k v o :
  carp_ht_set n h k v o <> OutOfFuel -> carp_ht_set (S n) h k v o = carp_ht_set n h k v o.
Proof.
  revert h k v o. induction n as [|n IH]; intros h k v o; [done|].
  rewrite (carp_ht_set_S (S n)), (carp_ht_set_S n).
  apply bind_fuel; [done|]. intros u o0. destruct (60 <? u); [|done].
  apply bind_fuel; [by apply resize_with_fuel|]. intros r o1.
  destruct (r.1 ==? 1); [done|]. apply bind_fuel; [apply IH | done].
Qed.

(** ** carp_ht_resize *)

(** When the array of the new table cannot be allocated
    [carp_ht_resize] returns 1 and the table is unchanged. *)
Theorem carp_ht_resize_failure fuel h o :
  2 * size h + 1 <= LONG_MAX -> 0 < size h ->
  carp_ht_resize fuel h (false :: o) = Ok (1, h) o.
Proof.
  intros Hfit Hpos. unfold carp_ht_resize, resize_with.
  assert (fits_long (2 * size h + 1) = true) as -> by (apply fits_long_spec; lia).
  done.
Qed.

(** Line 182 with a size whose double plus one is not a value of
    [long]. *)
Lemma resize_with_overflow (set : carp_ht -> string -> Z -> M (Z * carp_ht)) h o :
  LONG_MAX < 2 * size h + 1 -> resize_with set h o = Fault SignedOverflow.
Proof.
  intros Hbig. unfold resize_with.
  assert (fits_long (2 * size h + 1) = false) as ->; [|done].
  apply not_true_is_false. rewrite fits_long_spec. lia.
Qed.

(** C39. A size whose double does not fit [long] makes line 182
    overflow. *)
Theorem carp_ht_resize_overflow fuel h o :
  LONG_MAX < 2 * size h + 1 -> carp_ht_resize fuel h o = Fault SignedOverflow.
Proof. apply resize_with_overflow. Qed.

Lemma keys_of_entries h e : inv h -> e ∈ entries h -> strlen (key e) < key_capacity.
Proof.
  intros Hinv. rewrite (entries_wf h (inv_wf _ Hinv)).
  intros (c & He & Hc)%elem_of_concat. by apply (inv_keys _ Hinv c e).
Qed.

Lemma set_fault_overrun h : forall f, overrun f -> set_fault h f.
Proof. by left. Qed.

Lemma set_fault_mono h h' :
  in_use h' <= in_use h -> forall f, set_fault h' f -> set_fault h f.
Proof. intros Hle f [?|[? ->]]; [by left|right]. split; [lia|done]. Qed.

(** The three ways of a [carp_ht_set] on an initialised table with no more
    entries than buckets: the product of line 65 overflows; the table is
    not too full; it is too full. *)
Lemma carp_ht_set_cases fuel h k v o :
  wf h -> sparse h ->
  (LONG_MAX < in_use h * 100 /\ carp_ht_set (S fuel) h k v o = Fault SignedOverflow) \/
  (in_use h * 100 < 61 * size h /\ carp_ht_set (S fuel) h k v o = set_body h k v o) \/
  (61 * size h <= in_use h * 100 <= LONG_MAX /\
   carp_ht_set (S fuel) h k v o =
   (r ← resize_with (carp_ht_set fuel) h;
    if r.1 ==? 1 then ret (1, r.2)
    else r' ← carp_ht_set fuel r.2 k v;
         if r'.1 !=? 0 then ret (1, r'.2) else set_body r'.2 k v) o).
Proof.
  intros Hwf Hs. pose proof (wf_size_pos h Hwf) as Hpos.
  destruct (decide (in_use h * 100 <= LONG_MAX)) as [Hfit|Hbig];
    [|left; split; [lia|apply carp_ht_set_overflows; lia]].
  right. pose proof (carp_ht_used_occupancy h o Hwf Hs Hfit) as Hu.
  rewrite carp_ht_set_S, (bind_Ok _ _ _ _ _ Hu).
  pose proof (occupancy_test h Hpos). destruct (60 <? occupancy h) eqn:Et; zbool.
  - right. split; [lia|done].
  - left. split; [lia|done].
Qed.

(** An insertion into a table that holds at most half as many entries as
    it has buckets does not resize. *)
Lemma carp_ht_set_half_runs fuel h k v o :
  inv h -> 2 * in_use h <= size h -> never_fails o -> strlen k < key_capacity ->
  runs (set_fault h) (set_post h k v 1) (carp_ht_set (S fuel) h k v o).
Proof.
  intros Hinv Hhalf Ho Hk. pose proof (inv_wf _ Hinv) as Hwf.
  pose proof (wf_size_pos h Hwf). pose proof (in_use_nonneg h).
  destruct (carp_ht_set_cases fuel h k v o Hwf) as [[? ->]|[[_ ->]|[? _]]];
    [unfold sparse; lia|by right| |lia].
  eapply runs_weaken; [apply set_fault_overrun|done|by apply set_body_runs].
Qed.

(** The entry written for an entry of a table that satisfies the invariant
    is that entry. *)
Lemma entry_of_entry h e : inv h -> e ∈ entries h -> entry_of (key e) (value e) = e.
Proof.
  intros Hinv. rewrite (entries_wf h (inv_wf _ Hinv)).
  intros (c & He & Hc)%elem_of_concat. destruct (inv_keys _ Hinv c e Hc He) as [Hkey _].
  destruct e as [k v]. unfold entry_of. simpl in *. by rewrite Hkey.
Qed.

(** The loop of lines 189-200: no insertion into the new table resizes it,
    and the new table ends with entries of the old one only, and no more of
    them than it had. *)
Lemma migrate_runs fuel h o :
  inv h -> sparse h -> 2 * size h + 1 <= LONG_MAX -> never_fails o ->
  runs (set_fault h)
    (fun newh => inv newh /\ size newh = 2 * size h + 1 /\ in_use newh <= in_use h /\
                 forall e, e ∈ entries newh -> e ∈ entries h)
    (foldM (fun newh e => r ← carp_ht_set (S fuel) newh (key e) (value e); ret r.2)
           (entries h) (empty_table (2 * size h + 1)) o).
Proof.
  intros Hinv Hs Hfit Ho. pose proof (wf_size_pos h (inv_wf _ Hinv)) as Hpos.
  unfold sparse in Hs. pose proof (in_use_entries h) as Hlen.
  rewrite in_use_entries in Hs |- *.
  apply (runs_foldM (set_fault h) (fun n newh =>
           inv newh /\ size newh = 2 * size h + 1 /\ in_use newh <= Z.of_nat n /\
           forall e, e ∈ entries newh -> e ∈ entries h)); [|..|done].
  - intros n newh e o1 Hn (Hinv1 & Hsz1 & Hu1 & Hsub1) Ho1.
    pose proof (lookup_lt_Some _ _ _ Hn) as Hlt.
    apply list_elem_of_lookup_2 in Hn.
    eapply runs_bind.
    + eapply runs_weaken; [apply (set_fault_mono h newh); lia|done|].
      apply carp_ht_set_half_runs; [done|lia|done|]. by apply (keys_of_entries h).
    + intros [st h1] o2 Ho2 (_ & Hinv2 & Hsz2 & Hu2 & _ & Hadds). simpl in *.
      split_and!; [done..|lia|lia|].
      intros e' [->%list_elem_of_singleton|?]%Hadds; [|by apply Hsub1].
      by rewrite (entry_of_entry h e).
  - split_and!; [apply inv_empty; lia|done|rewrite in_use_empty; lia|].
    intros e. rewrite entries_empty. by intros ?%elem_of_nil.
Qed.

(** [carp_ht_resize] on a table with no more entries than buckets, as long
    as the new size is a value of [long]. *)
Lemma carp_ht_resize_runs fuel h o :
  inv h -> sparse h -> 2 * size h + 1 <= LONG_MAX -> never_fails o ->
  runs (set_fault h) (resize_post h) (carp_ht_resize (S fuel) h o).
Proof.
  intros Hinv Hs Hfit Ho. pose proof (wf_size_pos h (inv_wf _ Hinv)) as Hpos.
  unfold carp_ht_resize, resize_with.
  assert (fits_long (2 * size h + 1) = true) as -> by (apply fits_long_spec; lia).
  eapply runs_bind; [by apply runs_check|]. intros _ o0 Ho0 _.
  eapply runs_bind; [by apply runs_alloc|]. intros p o1 Ho1 <-.
  eapply runs_bind; [by apply migrate_runs|].
  intros [sz bs] o2 Ho2 (Hinv2 & Hsz2 & Hu2 & Hsub). simpl in *. subst sz.
  split; [done|]. unfold resize_post. simpl.
  split_and!; [done..|]. intros e He. right. by apply Hsub.
Qed.

(** ** carp_ht_set with a resize *)

(** Lines 125-130 when the table is too full. *)
Lemma carp_ht_set_resize fuel h k v o u :
  carp_ht_used h o = Ok u o -> 60 < u ->
  carp_ht_set (S fuel) h k v o =
  (r ← carp_ht_resize fuel h;
   if r.1 ==? 1 then ret (1, r.2)
   else r' ← carp_ht_set fuel r.2 k v;
        if r'.1 !=? 0 then ret (1, r'.2) else set_body r'.2 k v) o.
Proof.
  intros Hu Hfull. rewrite carp_ht_set_S, (bind_Ok _ _ _ _ _ Hu).
  by rewrite (proj2 (Z.ltb_lt _ _) Hfull).
Qed.

(** The run of a [carp_ht_set] that finds the table too full: it comes to
    the insertion of lines 132-159 with a table of the new size in which
    the key is already present, since its own recursive call has inserted
    it. *)
Lemma resizing_runs (R : Z * carp_ht -> Prop) fuel h k v o :
  inv h -> sparse h -> 2 * size h + 1 <= LONG_MAX -> never_fails o ->
  strlen k < key_capacity ->
  (forall h2 o2, never_fails o2 -> inv h2 -> size h2 = 2 * size h + 1 ->
     in_use h2 <= in_use h + 1 -> carp_ht_get h2 k <> NULL ->
     adds h [entry_of k v] h2 ->
     runs overrun R (set_body h2 k v o2)) ->
  runs (set_fault h) R
    ((r ← carp_ht_resize (S fuel) h;
      if r.1 ==? 1 then ret (1, r.2)
      else r' ← carp_ht_set (S fuel) r.2 k v;
           if r'.1 !=? 0 then ret (1, r'.2) else set_body r'.2 k v) o).
Proof.
  intros Hinv Hs Hfit Ho Hk Hlast.
  pose proof (wf_size_pos h (inv_wf _ Hinv)) as Hpos. unfold sparse in Hs.
  eapply runs_bind; [by apply carp_ht_resize_runs|].
  intros [st1 h1] o1 Ho1 (Hst1 & Hinv1 & Hsz1 & Hu1 & Ha1). simpl in *. subst st1. simpl.
  eapply runs_bind.
  { eapply runs_weaken; [by apply (set_fault_mono h h1)|done|].
    apply carp_ht_set_half_runs; [done|lia|done..]. }
  intros [st2 h2] o2 Ho2 (Hst2 & Hinv2 & Hsz2 & Hu2 & Hget2 & Ha2). simpl in *.
  subst st2. simpl. eapply runs_weaken; [apply set_fault_overrun|done|].
  apply Hlast; [done..|lia|lia|done|by eapply adds_nil].
Qed.

(** [carp_ht_set] on a table that satisfies the invariant and has no more
    entries than buckets: with fuel 2 it returns a table of which
    [set_result] holds, or overruns the block of line 151, or overflows
    the product of line 65. *)
Lemma carp_ht_set_runs fuel h k v o :
  inv h -> sparse h -> 2 * size h + 1 <= LONG_MAX -> never_fails o ->
  strlen k < key_capacity ->
  runs (set_fault h) (set_result h k v) (carp_ht_set (S (S fuel)) h k v o).
Proof.
  intros Hinv Hs Hfit Ho Hk. pose proof (inv_wf _ Hinv) as Hwf.
  pose proof (wf_size_pos h Hwf) as Hpos. unfold sparse in Hs.
  destruct (carp_ht_set_cases (S fuel) h k v o Hwf Hs) as [[? ->]|[[? ->]|[? ->]]];
    [by right| |].
  - eapply runs_weaken; [apply set_fault_overrun| |by apply set_body_runs].
    intros [st h1] (? & ? & ? & ? & ? & ?). unfold set_result, sparse. simpl in *.
    split_and!; try done; lia.
  - apply resizing_runs; try done.
    intros h2 o2 Ho2 Hinv2 Hsz2 Hu2 Hget2 Ha2.
    eapply runs_weaken; [done| |by apply set_body_runs].
    intros [st h3] (? & ? & ? & ? & ? & ?). unfold set_result, sparse. simpl in *.
    split_and!; try done; try lia. by eapply adds_trans.
Qed.

(** Under allocations that succeed, on an allocator whose pointer-sized
    block holds an entry and is cleared, no fault is left to a
    [carp_ht_set] but the overflow of line 65. *)
Lemma set_fault_roomy h :
  roomy -> cleared -> in_use h * 100 <= LONG_MAX -> forall f, set_fault h f -> False.
Proof. intros ? ? ? f [[[]|(_ & [] & _)]|[? _]]; [done..|lia]. Qed.

(** ** Theorems *)

(** C32. Line 65 on an initialised table with no more entries than buckets.
    The product entries * 100 is computed in [long]: when it is a value of
    [long], [carp_ht_used] returns the occupancy, entries * 100 / size
    truncated, a value between 0 and 100 that the conversion to [short]
    leaves as it is, and the table is found too full exactly when
    100 * entries reaches 61 * size; when it is not, the product overflows
    and nothing is returned. *)
Theorem carp_ht_used_bounds h o :
  wf h -> sparse h ->
  0 <= occupancy h <= 100 /\
  (60 < occupancy h <-> 61 * size h <= in_use h * 100) /\
  (in_use h * 100 <= LONG_MAX -> carp_ht_used h o = Ok (occupancy h) o) /\
  (LONG_MAX < in_use h * 100 -> carp_ht_used h o = Fault SignedOverflow).
Proof.
  intros Hwf Hs. destruct (occupancy_short h Hwf Hs) as [_ Hr].
  split_and!; [apply Hr..|by apply occupancy_test, wf_size_pos| |].
  - by apply carp_ht_used_occupancy.
  - apply carp_ht_used_overflow.
Qed.

(** C31. The signed overflows of [carp_ht_set].  A table that holds more
    entries than a hundredth of the largest [long] cannot be used any
    more: the product of line 65 overflows in every [carp_ht_set], whatever
    the key, the fuel and the allocator (with a [long] of 32 bits that is
    a table of 21474837 entries).  A table with no more entries than
    buckets that is too full and whose size cannot be doubled overflows
    at line 182.  On the tables of the interface, with allocations that
    succeed and a key that fits, no [carp_ht_set] overflows for another
    reason, on any platform. *)
Theorem carp_ht_set_overflow fuel h k v o :
  (LONG_MAX < in_use h * 100 ->
   carp_ht_used h o = Fault SignedOverflow /\
   carp_ht_set (S fuel) h k v o = Fault SignedOverflow) /\
  (wf h -> sparse h -> 61 * size h <= in_use h * 100 -> LONG_MAX < 2 * size h + 1 ->
   carp_ht_set (S fuel) h k v o = Fault SignedOverflow) /\
  (inv h -> sparse h -> never_fails o -> strlen k < key_capacity ->
   carp_ht_set (S (S fuel)) h k v o = Fault SignedOverflow ->
   LONG_MAX < in_use h * 100 \/
   (61 * size h <= in_use h * 100 /\ LONG_MAX < 2 * size h + 1)).
Proof.
  split_and!.
  - intros Hbig. split; [by apply carp_ht_used_overflow|by apply carp_ht_set_overflows].
  - intros Hwf Hs Hfull Hbig.
    destruct (carp_ht_set_cases fuel h k v o Hwf Hs) as [[? ->]|[[? ->]|[? ->]]];
      [done|lia|]. by apply bind_Fault, resize_with_overflow.
  - intros Hinv Hs Ho Hk Hf. pose proof (inv_wf _ Hinv) as Hwf.
    destruct (decide (2 * size h + 1 <= LONG_MAX)) as [Hfit|Hbig].
    + pose proof (carp_ht_set_runs fuel h k v o Hinv Hs Hfit Ho Hk) as Hr.
      destruct (runs_Fault_inv _ _ _ _ Hr Hf) as [Hov|[? _]]; [|by left].
      by destruct (overrun_fault _ Hov).
    + destruct (carp_ht_set_cases (S fuel) h k v o Hwf Hs) as [[? _]|[[? Heq]|[? _]]];
        [by left| |right; lia].
      rewrite Heq in Hf. pose proof (set_body_runs h k v o Hinv Ho Hk) as Hr.
      by destruct (overrun_fault _ (runs_Fault_inv _ _ _ _ Hr Hf)).
Qed.

(** C3. Termination and success of [carp_ht_set].  On an allocator whose
    pointer-sized block holds an entry and is cleared behind the key, with
    allocations that succeed and a key that fits its buffer, [carp_ht_set]
    with fuel 2 or more returns 0 on every table that satisfies the
    invariant, has no more entries than buckets and no more than line 65
    can count; the table it leaves satisfies the invariant and has no more
    entries than buckets again, holds the key, has the size of the old one
    or the size after one resize, and holds no entry but those of the old
    table and the one written. *)
Theorem carp_ht_set_returns fuel h k v o :
  roomy -> cleared -> inv h -> sparse h -> in_use h * 100 <= LONG_MAX ->
  2 * size h + 1 <= LONG_MAX -> never_fails o -> strlen k < key_capacity ->
  exists h' o', carp_ht_set (S (S fuel)) h k v o = Ok (0, h') o' /\
    never_fails o' /\ inv h' /\ sparse h' /\ carp_ht_get h' k <> NULL /\
    size h <= size h' <= 2 * size h + 1 /\ adds h [entry_of k v] h'.
Proof.
  intros Hroomy Hcl Hinv Hs Hcount Hfit Ho Hk.
  destruct (runs_Ok (set_result h k v) (carp_ht_set (S (S fuel)) h k v o))
    as ([st h'] & o' & Heq & Ho' & Hst & Hpost).
  { eapply runs_weaken; [| |by apply carp_ht_set_runs]; [by apply set_fault_roomy|done]. }
  simpl in Hst. subst st. by exists h', o'.
Qed.

(** The fuel of the model is not a parameter of the program: a
    [carp_ht_set] that returns a status or faults with [n] units does the
    same with every larger amount, and so does the [carp_ht_resize] it
    calls. *)
Lemma carp_ht_set_fuel n m h k v o :
  (n <= m)%nat -> carp_ht_set n h k v o <> OutOfFuel ->
  carp_ht_set m h k v o = carp_ht_set n h k v o /\
  (carp_ht_resize n h o <> OutOfFuel -> carp_ht_resize m h o = carp_ht_resize n h o).
Proof.
  intros Hle Hn.
  assert (forall h k v o, carp_ht_set n h k v o <> OutOfFuel ->
            carp_ht_set m h k v o = carp_ht_set n h k v o) as Hset.
  { clear h k v o Hn. induction Hle as [|m Hle IH]; intros h k v o Hn; [done|].
    rewrite carp_ht_set_fuel_S; rewrite IH; done. }
  split; [by apply Hset | by apply resize_with_fuel].
Qed.

(** C40. The operations read a key up to its terminator only: two arrays
    that hold the same C string, such as "a" and the literal "a\0" of
    [main], are the same key to [carp_ht_get], [carp_ht_del] and
    [carp_ht_set]. *)
Theorem key_same_cstr h k k' :
  same_cstr k k' ->
  carp_ht_get h k = carp_ht_get h k' /\
  carp_ht_del h k = carp_ht_del h k' /\
  forall fuel v o, carp_ht_set fuel h k v o = carp_ht_set fuel h k' v o.
Proof.
  intros Hk.
  split_and!; [by apply carp_ht_get_proper | by apply carp_ht_del_proper |].
  intros fuel v o.
  unfold same_cstr in Hk.
  by rewrite <- (carp_ht_set_cstr fuel h k), Hk, carp_ht_set_cstr.
Qed.

(** C27. On every platform, whatever [carp_ht_set] returns under allocations
    that succeed is status 0 and a table that satisfies the invariant, has
    no more entries than buckets and holds the key. *)
Theorem carp_ht_set_inv fuel h k v o st h' o' :
  inv h -> sparse h -> 2 * size h + 1 <= LONG_MAX -> never_fails o ->
  strlen k < key_capacity ->
  carp_ht_set (S (S fuel)) h k v o = Ok (st, h') o' ->
  st = 0 /\ inv h' /\ sparse h' /\ carp_ht_get h' k <> NULL /\ never_fails o'.
Proof.
  intros Hinv Hs Hfit Ho Hk Heq.
  destruct (runs_Ok_inv _ _ _ _ _ (carp_ht_set_runs fuel h k v o Hinv Hs Hfit Ho Hk) Heq)
    as (Ho' & Hst & ? & ? & ? & _).
  done.
Qed.

(** The last insertion of a [carp_ht_set] that resizes appends to the
    chain of the key. *)
Lemma set_body_duplicates h h2 k v o2 :
  roomy -> cleared -> strlen k < key_capacity -> never_fails o2 -> inv h2 ->
  size h2 = 2 * size h + 1 -> carp_ht_get h2 k <> NULL ->
  runs overrun (duplicated h k v) (set_body h2 k v o2).
Proof.
  intros Hroomy Hcl Hk Ho2 Hinv2 Hsz2 Hget2. pose proof (inv_wf _ Hinv2) as Hwf2.
  rewrite get_NULL_lookup in Hget2 by done.
  destruct (lookup_ref h2 k) as [[j e]|] eqn:El; [|done].
  pose proof (inv_all_match h2 k j e Hinv2 El) as Hall.
  destruct (set_body_appends h2 k v o2 j e Hwf2 El (Forall_drop _ _ _ Hall) Hroomy Ho2 Hk
              (cleared_pointer k Hcl Hk)) as (o3 & Ho3 & ->).
  split; [done|]. unfold duplicated. simpl.
  rewrite bucket_store_eq by auto using hash_in_range.
  split_and!; [done..|]. eexists. split_and!; [done| |done].
  apply list_find_Some in El as (Hj & _). by intros Hnil; rewrite Hnil in Hj.
Qed.

(** C17. A [carp_ht_set] that finds the table too full inserts the key
    twice: once in its recursive call and once more after it.  On an
    allocator whose pointer-sized block holds an entry and is cleared
    behind the key, the bucket of the key ends with the second entry,
    behind a chain that is not empty and holds nothing but entries of the
    key. *)
Theorem carp_ht_set_resize_duplicates fuel h k v o u :
  roomy -> cleared -> inv h -> sparse h -> 2 * size h + 1 <= LONG_MAX -> never_fails o ->
  strlen k < key_capacity -> carp_ht_used h o = Ok u o -> 60 < u ->
  exists h' o' c, carp_ht_set (S (S fuel)) h k v o = Ok (0, h') o' /\
    size h' = 2 * size h + 1 /\
    bucket h' (carp_ht_hash k (size h')) = c ++ [entry_of k v] /\
    c <> [] /\ Forall (matches k) c.
Proof.
  intros Hroomy Hcl Hinv Hs Hfit Ho Hk Hu Hfull.
  pose proof (carp_ht_used_Ok_inv _ _ _ _ Hu) as (_ & Hcount & _).
  rewrite (carp_ht_set_resize _ _ _ _ _ _ Hu Hfull).
  destruct (runs_Ok (duplicated h k v)
              ((r ← carp_ht_resize (S fuel) h;
                if r.1 ==? 1 then ret (1, r.2)
                else r' ← carp_ht_set (S fuel) r.2 k v;
                     if r'.1 !=? 0 then ret (1, r'.2) else set_body r'.2 k v) o))
    as ([st h'] & o' & Heq & _ & Hst & Hsz & c & ? & ? & ?).
  { eapply runs_weaken; [by apply (set_fault_roomy h)|done|apply resizing_runs; try done].
    intros h2 o2 Ho2 Hinv2 Hsz2 _ Hget2 _. by apply set_body_duplicates. }
  simpl in *. subst st. by exists h', o', c.
Qed.

(** On an allocator whose pointer-sized block is smaller than an entry,
    every [carp_ht_set] that resizes overruns the heap: the second insertion
    finds the key the first one stored and appends to its chain. *)
Theorem carp_ht_set_resize_overruns fuel h k v o u :
  ~ roomy -> inv h -> sparse h -> 2 * size h + 1 <= LONG_MAX -> never_fails o ->
  strlen k < key_capacity -> carp_ht_used h o = Ok u o -> 60 < u ->
  carp_ht_set (S (S fuel)) h k v o = Fault HeapOverflow.
Proof.
  intros Htight Hinv Hs Hfit Ho Hk Hu Hfull.
  pose proof (carp_ht_used_Ok_inv _ _ _ _ Hu) as (_ & Hcount & _).
  rewrite (carp_ht_set_resize _ _ _ _ _ _ Hu Hfull).
  match goal with |- ?r = _ => destruct (runs_Fault (set_fault h) r) as (f & -> & Hf) end;
    [|destruct Hf as [[[_ ->]|[? _]]|[? _]]; [done|done|lia]].
  apply resizing_runs; try done.
  intros h2 o2 Ho2 Hinv2 _ _ Hget2 _.
  rewrite (set_body_tight_present h2 k v o2 Hinv2 Htight Hget2 Ho2). by left.
Qed.

(** C38. When the table is too full and the new array cannot be allocated,
    [carp_ht_set] returns 1 and the table is unchanged: the key is not
    inserted. *)
Theorem carp_ht_set_resize_refused fuel h k v o u :
  carp_ht_used h (false :: o) = Ok u (false :: o) -> 60 < u ->
  0 < size h -> 2 * size h + 1 <= LONG_MAX ->
  carp_ht_set (S fuel) h k v (false :: o) = Ok (1, h) o.
Proof.
  intros Hu Hfull Hpos Hfit. rewrite (carp_ht_set_resize _ _ _ _ _ _ Hu Hfull).
  unfold carp_ht_resize, resize_with.
  assert (fits_long (2 * size h + 1) = true) as -> by (apply fits_long_spec; lia).
  done.
Qed.

(** C21. On an allocator whose pointer-sized block is smaller than an entry,
    setting a key that is present, in a table that is not too full,
    overruns the heap instead of updating the value. *)
Theorem carp_ht_set_present_overruns fuel h k v o u :
  ~ roomy -> inv h -> carp_ht_used h o = Ok u o -> u <= 60 -> carp_ht_get h k <> NULL ->
  never_fails o -> carp_ht_set (S fuel) h k v o = Fault HeapOverflow.
Proof.
  intros Htight Hinv Hu Hfull Hfound Ho. rewrite (carp_ht_set_body _ _ _ _ _ _ Hu Hfull).
  by apply set_body_tight_present.
Qed.

End Resize.

(** ** Witnesses and examples

    [full_example] holds two entries in three buckets: its occupancy is 66,
    so the next [carp_ht_set] resizes it.  [insert_example] holds one. *)

Lemma full_example_inv : inv (P:=lp64) full_example.
Proof. by apply invb_inv. Qed.

Lemma full_example_roomy_inv : inv (P:=lp64_roomy) full_example.
Proof. by apply invb_inv. Qed.

Lemma lp64_tight : ~ roomy (P:=lp64).
Proof. vm_compute. by intros H. Qed.

Lemma lp64_roomy_roomy : roomy (P:=lp64_roomy).
Proof. vm_compute. discriminate. Qed.

Lemma lp64_roomy_cleared : cleared (P:=lp64_roomy).
Proof. vm_compute. discriminate. Qed.

Lemma full_example_used P : carp_ht_used (P:=P) full_example [] = Ok 66 [].
Proof.
  rewrite carp_ht_used_Ok; [done| |done].
  pose proof (LONG_MAX_ge (P:=P)). change (in_use full_example) with 2. lia.
Qed.

Lemma carp_ht_used_bounds_witness : carp_ht_used (P:=lp64) full_example [] = Ok 66 [].
Proof.
  destruct (carp_ht_used_bounds (P:=lp64) full_example [] (inv_wf _ full_example_inv))
    as (_ & _ & Hok & _); [by vm_compute|].
  apply Hok. by vm_compute.
Defined.

(** [overflow_example] holds 21474837 entries, counted without building
    its chain. *)
Lemma overflow_example_in_use : in_use overflow_example = 21474837.
Proof.
  unfold in_use.
  change (take _ _) with [replicate (Z.to_nat 21474837) {| key := "a"; value := 0 |}].
  rewrite total_cons, length_replicate. pose proof (@total_nil carp_ht_entry). lia.
Qed.

Lemma carp_ht_set_overflow_witness :
  carp_ht_set (P:=ilp32) 1 overflow_example "a" 0 [] = Fault SignedOverflow.
Proof.
  apply (proj1 (carp_ht_set_overflow (P:=ilp32) 0 overflow_example "a" 0 [])).
  rewrite overflow_example_in_use. by vm_compute.
Defined.

Lemma carp_ht_resize_failure_witness :
  carp_ht_resize (P:=lp64) 1 full_example [false] = Ok (1, full_example) [].
Proof. apply (carp_ht_resize_failure (P:=lp64) 1 full_example []); [vm_compute; discriminate | done]. Defined.

Lemma carp_ht_resize_overflow_witness :
  carp_ht_resize (P:=lp64) 1 {| size := 2 ^ 62; buckets := [] |} [] = Fault SignedOverflow.
Proof. apply (carp_ht_resize_overflow (P:=lp64)). reflexivity. Defined.

Lemma carp_ht_set_returns_witness :
  exists h' o', carp_ht_set (P:=lp64_roomy) 2 full_example "b" 5 [] = Ok (0, h') o'.
Proof.
  destruct (carp_ht_set_returns (P:=lp64_roomy) 0 full_example "b" 5 []
              lp64_roomy_roomy lp64_roomy_cleared full_example_roomy_inv)
    as (h' & o' & Heq & _);
    [by vm_compute|by vm_compute|by vm_compute|apply never_fails_nil|reflexivity|].
  by exists h', o'.
Defined.

(** The array "a\0z" holds the C string "a". *)
Lemma key_same_cstr_witness :
  carp_ht_get (P:=lp64) insert_example ("a" +:+ String NUL "z") =
  carp_ht_get (P:=lp64) insert_example "a".
Proof.
  apply (key_same_cstr (P:=lp64) insert_example ("a" +:+ String NUL "z") "a").
  reflexivity.
Defined.

Lemma carp_ht_set_inv_witness :
  inv (P:=lp64) (store insert_example 2 [entry_of "b" 5]).
Proof.
  apply (carp_ht_set_inv (P:=lp64) 0 insert_example "b" 5 [] 0
           (store insert_example 2 [entry_of "b" 5]) [] insert_example_inv);
    [vm_compute; discriminate..|apply never_fails_nil|reflexivity|reflexivity].
Defined.

Lemma carp_ht_set_resize_duplicates_witness :
  exists h' o' c, carp_ht_set (P:=lp64_roomy) 2 full_example "b" 5 [] = Ok (0, h') o' /\
    size h' = 7 /\ bucket h' (carp_ht_hash (P:=lp64_roomy) "b" 7) = c ++ [entry_of "b" 5] /\
    c <> [].
Proof.
  destruct (carp_ht_set_resize_duplicates (P:=lp64_roomy) 0 full_example "b" 5 [] 66
              lp64_roomy_roomy lp64_roomy_cleared full_example_roomy_inv)
    as (h' & o' & c & Heq & Hsz & Hb & Hc & _);
    [by vm_compute|by vm_compute|apply never_fails_nil|reflexivity|reflexivity|done|].
  exists h', o', c. rewrite Hsz in Hb. done.
Defined.

Lemma carp_ht_set_resize_overruns_witness :
  carp_ht_set (P:=lp64) 2 full_example "b" 5 [] = Fault HeapOverflow.
Proof.
  apply (carp_ht_set_resize_overruns (P:=lp64) 0 full_example "b" 5 [] 66
           lp64_tight full_example_inv);
    [by vm_compute|by vm_compute|apply never_fails_nil|reflexivity|reflexivity|done].
Defined.

Lemma carp_ht_set_resize_refused_witness :
  carp_ht_set (P:=lp64) 1 full_example "b" 5 [false] = Ok (1, full_example) [].
Proof.
  apply (carp_ht_set_resize_refused (P:=lp64) 0 full_example "b" 5 [] 66);
    [reflexivity|done|done|by vm_compute].
Defined.

Lemma carp_ht_set_present_overruns_witness :
  carp_ht_set (P:=lp64) 1 insert_example "a" 9 [] = Fault HeapOverflow.
Proof.
  apply (carp_ht_set_present_overruns (P:=lp64) 0 insert_example "a" 9 [] 33
           lp64_tight insert_example_inv);
    [reflexivity|done|discriminate|apply never_fails_nil].
Defined.

(** The occupancy of a chain of 328 entries in one bucket is 32800; as a
    [short] it is negative, and the table is never found too full. *)
Example carp_ht_used_truncates :
  occupancy crowded_example = 32800 /\
  carp_ht_used (P:=lp64) crowded_example [] = Ok (-32736) [].
Proof. split; reflexivity. Qed.
