(* ===== verification/Reach.v ===== *)
(** * Reach: the tables a client builds

    The interface of src/src/lib/carp_ht.c as a transition system: a table
    comes from [carp_ht_init] and changes by calls of [carp_ht_set] and
    [carp_ht_del].  Every table so reached satisfies the invariant and has
    no more entries than buckets, which is what the theorems of the
    operations assume; on an allocator whose pointer-sized block is smaller
    than an entry no reachable table chains two entries.  The abstract
    state of a run is its log, the entries its calls of [carp_ht_set] asked
    to store: the table is a cache of the log, which may have lost entries
    but holds none that is not in it. *)

From stdpp Require Import strings.
From S2P Require Import Prelude Machine CString Hash Alloc Table TableLemmas.
From S2P Require Import Lookup Lifecycle Delete Insert Resize.

Section Reach.
Context {P : Platform}.
Implicit Types (h : carp_ht) (k : string) (o : oracle).

(** ** The transition system *)

(** One call on a table, labelled with the entries the caller asked to
    store.  A [carp_ht_set] is a step when it returns: its allocations
    succeed, its key fits the buffer of an entry, the size a resize would
    give is a value of [long], and its fuel is at least the 2 that
    [carp_ht_set_returns] shows to be enough. *)
Inductive step : carp_ht -> list carp_ht_entry -> carp_ht -> Prop :=
| step_set h k v fuel o st h' o' :
    never_fails o -> strlen k < key_capacity -> 2 * size h + 1 <= LONG_MAX ->
    carp_ht_set (S (S fuel)) h k v o = Ok (st, h') o' ->
    step h [entry_of k v] h'
| step_del h k :
    step h [] (carp_ht_del h k).2.

(** The tables of a run, each with the log of the run: the entries its
    calls of [carp_ht_set] asked to store, the latest first.  A run starts
    from a successful [carp_ht_init] and goes by steps. *)
Inductive reachable : list carp_ht_entry -> carp_ht -> Prop :=
| reach_init sz o h o' :
    sz <= LONG_MAX -> carp_ht_init sz o = Ok (0, h) o' -> reachable [] h
| reach_step log h l h' :
    reachable log h -> step h l h' -> reachable (l ++ log) h'.

(** The invariant of the transition system. *)
Definition good (h : carp_ht) : Prop := inv h /\ sparse h.

(** ** Lemmas *)

Lemma good_init sz o h o' :
  sz <= LONG_MAX -> carp_ht_init sz o = Ok (0, h) o' -> good h /\ flat h.
Proof.
  intros Hmax (Hsz & [[_ ->]|[? _]])%carp_ht_init_Ok_inv; [|done].
  unfold good. split_and!; [by apply inv_empty| |].
  - unfold sparse. rewrite in_use_empty. simpl. lia.
  - intros c [-> _]%elem_of_replicate. simpl. lia.
Qed.

Lemma good_step h l h' : good h -> step h l h' -> good h'.
Proof.
  intros Hgood Hstep.
  destruct Hstep as [h0 k v fuel o st h1 o' Ho Hk Hfit Heq|h0 k];
    destruct Hgood as [Hinv Hs].
  - destruct (runs_Ok_inv _ _ _ _ _ (carp_ht_set_runs fuel h0 k v o Hinv Hs Hfit Ho Hk) Heq)
      as (_ & _ & ? & ? & _).
    by split.
  - destruct (carp_ht_del_inv_le h0 k Hinv). split; [done|].
    unfold sparse in *. rewrite size_del. lia.
Qed.

(** On an allocator whose pointer-sized block is smaller than an entry a
    [set_body] that returns has stored a chain of one entry. *)
Lemma set_body_tight_flat h k v o st h' o' :
  ~ roomy -> inv h -> flat h -> set_body h k v o = Ok (st, h') o' -> flat h'.
Proof.
  intros Htight Hinv Hflat Hok. pose proof (inv_wf _ Hinv) as Hwf.
  destruct (set_body_Ok h k v o st h' o' Hwf Hok)
    as (_ & _ & [(_ & _ & ->)|[(j & e & _ & _ & ? & _)|(j & e & r & El & Hu & _)]]).
  - by apply flat_store.
  - done.
  - pose proof (inv_all_match h k j e Hinv El) as Hall.
    apply (Forall_drop _ (S j)), (update_first_other_None k v) in Hall. congruence.
Qed.

Lemma flat_step h l h' : ~ roomy -> good h -> flat h -> step h l h' -> flat h'.
Proof.
  intros Htight Hgood Hflat Hstep.
  destruct Hstep as [h0 k v fuel o st h1 o' Ho Hk Hfit Heq|h0 k];
    destruct Hgood as [Hinv Hs].
  - destruct (carp_ht_set_cases (S fuel) h0 k v o (inv_wf _ Hinv) Hs)
      as [[_ Hset]|[[_ Hset]|[_ Hset]]]; rewrite Hset in Heq; [done| |].
    + by eapply set_body_tight_flat.
    + match type of Heq with ?r = _ =>
        destruct (runs_Fault (set_fault h0) r) as (f & Hf & _); [|congruence] end.
      apply resizing_runs; try done.
      intros h2 o2 Ho2 Hinv2 _ _ Hget2 _.
      rewrite (set_body_tight_present h2 k v o2 Hinv2 Htight Hget2 Ho2). by left.
  - by apply carp_ht_del_flat.
Qed.

Lemma reachable_sound log h : reachable log h -> good h.
Proof.
  induction 1 as [sz o h o' Hmax Hinit|log h l h' _ IH Hstep].
  - by destruct (good_init sz o h o' Hmax Hinit).
  - by apply (good_step h l h').
Qed.

(** A step stores nothing but what its caller asked to store. *)
Lemma step_adds h l h' : good h -> step h l h' -> adds h l h'.
Proof.
  intros Hgood Hstep.
  destruct Hstep as [h0 k v fuel o st h1 o' Ho Hk Hfit Heq|h0 k];
    destruct Hgood as [Hinv Hs].
  - destruct (runs_Ok_inv _ _ _ _ _ (carp_ht_set_runs fuel h0 k v o Hinv Hs Hfit Ho Hk) Heq)
      as (_ & _ & _ & _ & _ & _ & Hadds).
    done.
  - apply carp_ht_del_adds, Hinv.
Qed.

(** The table is a part of the log. *)
Lemma reachable_entries log h e : reachable log h -> e ∈ entries h -> e ∈ log.
Proof.
  intros Hreach. revert e.
  induction Hreach as [sz o h o' Hmax Hinit|log h l h' Hreach IH Hstep]; intros e.
  - apply carp_ht_init_Ok_inv in Hinit as (_ & [[_ ->]|[? _]]); [|done].
    rewrite entries_empty. by intros ?%elem_of_nil.
  - intros He.
    destruct (step_adds h l h' (reachable_sound _ _ Hreach) Hstep e He) as [?|?];
      apply elem_of_app; auto.
Qed.

(** ** Theorems *)

(** C2. Every table reached from [carp_ht_init] by calls of [carp_ht_set]
    and [carp_ht_del] satisfies the invariant (initialised, every entry in
    the bucket of its key, keys that fit, one key per chain) and has no more
    entries than buckets; so its occupancy is between 0 and 100, and it is
    what [carp_ht_used] returns, not truncated by the conversion to [short]
    of line 65, unless the table holds so many entries that the product of
    that line overflows. *)
Theorem reachable_good log h :
  reachable log h ->
  inv h /\ sparse h /\ 0 <= occupancy h <= 100 /\
  forall o,
    (in_use h * 100 <= LONG_MAX -> carp_ht_used h o = Ok (occupancy h) o) /\
    (LONG_MAX < in_use h * 100 -> carp_ht_used h o = Fault SignedOverflow).
Proof.
  intros [Hinv Hs]%reachable_sound.
  destruct (occupancy_short h (inv_wf _ Hinv) Hs) as [_ Hr].
  split_and!; [done..|apply Hr|apply Hr|].
  intros o. split; [|apply carp_ht_used_overflow].
  by apply carp_ht_used_occupancy; [apply inv_wf|].
Qed.

(** On an allocator whose pointer-sized block is smaller than an entry
    no reachable table chains two entries: every [carp_ht_set] that would
    append to a chain overruns the heap instead. *)
Theorem reachable_tight_flat log h : ~ roomy -> reachable log h -> flat h.
Proof.
  intros Htight. induction 1 as [sz o h o' Hmax Hinit|log h l h' Hreach IH Hstep].
  - by destruct (good_init sz o h o' Hmax Hinit).
  - apply (flat_step h l h'); [done|by apply (reachable_sound log)|done..].
Qed.

(** C5. The table is a cache of the log of its run: a lookup returns no
    value but one that a [carp_ht_set] of the run stored for that key.
    Entries of the log may be missing from the table; none is invented,
    and none is found under another key. *)
Theorem reachable_lookup_logged log h k v :
  reachable log h -> get_value h k = Some v -> entry_of k v ∈ log.
Proof.
  intros Hreach Hget. destruct (reachable_sound log h Hreach) as [Hinv _].
  pose proof (inv_wf _ Hinv) as Hwf. pose proof (hash_in_range h k Hwf) as Hr.
  rewrite (get_value_ref h k Hwf) in Hget.
  destruct (lookup_ref h k) as [[j e]|] eqn:El; [|done]. injection Hget as <-.
  apply list_find_Some in El as (He%list_elem_of_lookup_2 & Hm & _).
  destruct (inv_chain_ok h _ Hinv Hr) as [Hc _]. destruct (Hc e He) as (_ & Hkey & _).
  apply (reachable_entries log h); [done|].
  assert (entry_of k (value e) = e) as ->.
  { destruct e as [ke ve]. unfold entry_of, matches in *. simpl in *. congruence. }
  rewrite (entries_wf h Hwf). apply elem_of_concat. eauto using bucket_elem_of.
Qed.

End Reach.

(** ** Witnesses

    [insert_example] is reached on x86-64 from [carp_ht_init] with size 3 by
    setting "a" to 1. *)

Lemma reach_example : reachable (P:=lp64) [entry_of "a" 1] insert_example.
Proof.
  apply (reach_step (P:=lp64) [] (empty_table 3) [entry_of "a" 1]).
  - apply (reach_init (P:=lp64) 3 [] _ []); [vm_compute; discriminate | reflexivity].
  - apply (step_set (P:=lp64) (empty_table 3) "a" 1 0 [] 0 insert_example []);
      [apply never_fails_nil|reflexivity|vm_compute; discriminate|reflexivity].
Qed.

Lemma reachable_good_witness :
  inv (P:=lp64) insert_example /\ sparse insert_example /\
  0 <= occupancy insert_example <= 100.
Proof.
  destruct (reachable_good (P:=lp64) _ insert_example reach_example) as (? & ? & ? & _).
  done.
Defined.

Lemma reachable_tight_flat_witness : flat insert_example.
Proof.
  exact (reachable_tight_flat (P:=lp64) _ insert_example lp64_tight reach_example).
Defined.

Lemma reachable_lookup_logged_witness : entry_of "a" 1 ∈ [entry_of "a" 1].
Proof.
  exact (reachable_lookup_logged (P:=lp64) _ insert_example "a" 1 reach_example eq_refl).
Defined.
