(* ===== verification/Print.v ===== *)
(** * Print: carp_ht_print

    The dump of the table (src/src/lib/carp_ht.c, 208-224) as the sequence
    of the strings its calls of [printf] write: a header with the occupancy
    and the size, one line for every bucket that is not empty with a record
    for every entry of its chain, and a footer.  The header needs
    [carp_ht_used], so the dump is written when [carp_ht_used] returns.
    The comment of line 213 says that the dump does not follow the
    collision lists; the loop of lines 217-219 does follow them, and the
    theorems show that every entry is printed once, in bucket order and
    link order. *)

From Stdlib Require Import Ascii.
From stdpp Require Import strings pretty.
From S2P Require Import Prelude Machine CString Hash Alloc Table TableLemmas.
From S2P Require Import Lookup Delete Insert Resize.

(** ** Definitions *)

(** The characters the format strings escape. *)
Definition LF : string := String (ascii_of_nat 10) EmptyString.
Definition DQUOTE : string := String (ascii_of_nat 34) EmptyString.

(** The conversions [%d], [%ld] and [%lld] of [printf]: the decimal digits
    of the number, with a minus sign when it is negative. *)
Definition printf_d (z : Z) : string := pretty z.

(** The conversion [%s]: the bytes of the array up to its first NUL. *)
Definition printf_s (s : string) : string := cstr s.

(** What the calls of [printf] wrote, as one text. *)
Definition text (writes : list string) : string := String.concat "" writes.

(** Line 211: the header, from the occupancy and the size. *)
Definition header (used sz : Z) : string :=
  "{ " +:+ printf_d used +:+ "% full (size " +:+ printf_d sz +:+ ")" +:+ LF.

(** Line 223: the footer. *)
Definition footer : string := "}" +:+ LF +:+ LF.

(** Line 218: the record of one entry of bucket [i]. *)
Definition print_entry (i : Z) (e : carp_ht_entry) : string :=
  "  [" +:+ printf_d i +:+ "] " +:+ DQUOTE +:+ printf_s (key e) +:+ DQUOTE
  +:+ ": " +:+ printf_d (value e) +:+ ",".

(** Lines 217-219: the [do ... while] loop from [base], whose chain goes on
    with [next]. *)
Fixpoint print_chain (i : Z) (base : carp_ht_entry) (next : chain) : list string :=
  print_entry i base ::
  match next with
  | [] => []
  | e :: next' => print_chain i e next'
  end.

(** Lines 215-221: the body of the [for] loop at bucket [i]. *)
Definition print_bucket (i : Z) (c : chain) : list string :=
  match c with
  | [] => []
  | base :: next => print_chain i base next ++ [LF]
  end.

(** Lines 211-223, with the value [used] that [carp_ht_used] returned. *)
Definition dump (used : Z) (h : carp_ht) : list string :=
  header used (size h) ::
  concat (imap (fun i c => print_bucket (Z.of_nat i) c)
               (take (Z.to_nat (size h)) (buckets h)))
  ++ [footer].

(** Lines 208-224. *)
Definition carp_ht_print {P : Platform} (h : carp_ht) : M (list string) :=
  used ← carp_ht_used h;
  ret (dump used h).

(** The reference: the records of the entries of [bs], the buckets from
    index [i] on, in bucket order and link order. *)
Fixpoint records (i : Z) (bs : list chain) : list string :=
  match bs with
  | [] => []
  | c :: bs' => (print_entry i <$> c) ++ records (i + 1) bs'
  end.

(** A write that is a record: it starts with the two blanks of line 218. *)
Definition is_record (s : string) : bool :=
  match s with
  | String a (String b _) => bool_decide (a = " "%char) && bool_decide (b = " "%char)
  | _ => false
  end.

(** A table with a chain of two entries and a key with a byte behind its
    terminator. *)
Definition print_example : carp_ht :=
  {| size := 3;
     buckets := [[]; [{| key := "a"; value := 1 |}; {| key := "a"; value := -2 |}];
                 [{| key := "b" +:+ String NUL "z"; value := 3 |}]] |}.

(** ** Lemmas *)

Lemma print_chain_fmap i base next :
  print_chain i base next = print_entry i <$> (base :: next).
Proof.
  revert base. induction next as [|e next IH]; intros base; [done|].
  simpl. f_equal. apply IH.
Qed.

Lemma print_bucket_fmap i c :
  print_bucket i c = match c with [] => [] | _ => (print_entry i <$> c) ++ [LF] end.
Proof. destruct c as [|base next]; [done|]. simpl. by rewrite print_chain_fmap. Qed.

Lemma is_record_print_entry i e : is_record (print_entry i e) = true.
Proof. done. Qed.

Lemma filter_records_bucket i c :
  filter is_record (print_bucket i c) = print_entry i <$> c.
Proof.
  rewrite print_bucket_fmap. destruct c as [|e c]; [done|].
  rewrite list.filter_app. change (filter is_record [LF]) with (@nil string).
  rewrite app_nil_r. generalize (e :: c). intros l.
  induction l as [|e' l IH]; [done|].
  rewrite fmap_cons, filter_cons_True, IH; [done|].
  by rewrite is_record_print_entry.
Qed.

(** The buckets of the loop, from index [i] on. *)
Lemma filter_records_buckets i bs :
  filter is_record (concat (imap (fun j c => print_bucket (i + Z.of_nat j) c) bs)) =
  records i bs.
Proof.
  revert i. induction bs as [|c bs IH]; intros i; [done|].
  simpl. rewrite list.filter_app, Z.add_0_r, filter_records_bucket. f_equal.
  rewrite <- IH. do 2 f_equal. apply imap_ext. intros j d _. simpl.
  f_equal. lia.
Qed.

Lemma length_records i bs : Z.of_nat (length (records i bs)) = total bs.
Proof.
  revert i. induction bs as [|c bs IH]; intros i; [done|].
  simpl. by rewrite length_app, length_fmap, Nat2Z.inj_add, IH, total_cons.
Qed.

Lemma elem_of_records i bs j c e :
  bs !! j = Some c -> e ∈ c -> print_entry (i + Z.of_nat j) e ∈ records i bs.
Proof.
  revert i j. induction bs as [|d bs IH]; intros i j; [done|].
  destruct j as [|j]; simpl.
  - intros [= ->] He. rewrite Z.add_0_r. apply elem_of_app. left.
    by apply list_elem_of_fmap_2.
  - intros Hj He. apply elem_of_app. right.
    replace (i + Z.of_nat (S j)) with (i + 1 + Z.of_nat j) by lia. by apply IH.
Qed.

(** The records of a dump are those of the entries of the table. *)
Lemma filter_records_dump u h :
  filter is_record (dump u h) = records 0 (take (Z.to_nat (size h)) (buckets h)).
Proof.
  unfold dump. rewrite filter_cons, list.filter_app.
  change (filter is_record [footer]) with (@nil string).
  rewrite app_nil_r, <- filter_records_buckets. by case_decide.
Qed.

Lemma elem_of_dump u h i c e :
  (i < Z.to_nat (size h))%nat -> buckets h !! i = Some c -> e ∈ c ->
  print_entry (Z.of_nat i) e ∈ dump u h.
Proof.
  intros Hi Hc He.
  eapply (proj1 (list_elem_of_filter is_record _ _)). rewrite filter_records_dump.
  apply (elem_of_records 0 _ i c); [|done]. by rewrite lookup_take_lt.
Qed.

Section Print.
Context {P : Platform}.

(** [carp_ht_print] writes the dump when [carp_ht_used] returns, and
    stops where [carp_ht_used] stops. *)
Lemma carp_ht_print_Ok_inv h o out o' :
  carp_ht_print h o = Ok out o' -> exists u, carp_ht_used h o = Ok u o /\ o' = o /\ out = dump u h.
Proof.
  unfold carp_ht_print. intros (u & o1 & Hu & [= <- <-])%bind_Ok_inv.
  destruct (carp_ht_used_Ok_inv _ _ _ _ Hu) as (-> & _). by exists u.
Qed.

(** ** Theorems *)

(** C24. The dump follows the collision lists.  [carp_ht_print] returns
    whenever the product of line 65 is a value of [long] and the size is
    not 0, and the records it writes are those of all the entries of the
    table, bucket by bucket and in link order: there are as many records
    as entries and every entry of every bucket has its record in the
    output. *)
Theorem carp_ht_print_records h o :
  (in_use h * 100 <= LONG_MAX -> size h <> 0 -> exists out, carp_ht_print h o = Ok out o) /\
  forall out o', carp_ht_print h o = Ok out o' ->
    filter is_record out = records 0 (take (Z.to_nat (size h)) (buckets h)) /\
    Z.of_nat (length (filter is_record out)) = in_use h /\
    forall i c e, (i < Z.to_nat (size h))%nat -> buckets h !! i = Some c -> e ∈ c ->
      print_entry (Z.of_nat i) e ∈ out.
Proof.
  split.
  - intros Hfit Hsz. eexists. unfold carp_ht_print.
    by rewrite (bind_Ok _ _ _ _ _ (carp_ht_used_Ok h o Hfit Hsz)).
  - intros out o' (u & _ & _ & ->)%carp_ht_print_Ok_inv.
    split_and!; [apply filter_records_dump| |by apply elem_of_dump].
    by rewrite filter_records_dump, length_records.
Qed.

End Print.

(** A key is printed up to its terminator: bytes behind it do not reach the
    output. *)
Lemma print_entry_cstr i e :
  print_entry i {| key := cstr (key e); value := value e |} = print_entry i e.
Proof. unfold print_entry, printf_s. simpl. by rewrite cstr_idemp. Qed.

(** ** Examples *)

Lemma carp_ht_print_records_witness :
  exists out, carp_ht_print (P:=lp64) print_example [] = Ok out [].
Proof.
  apply (proj1 (carp_ht_print_records (P:=lp64) print_example [])); by vm_compute.
Defined.

Example carp_ht_print_example :
  carp_ht_print (P:=lp64) print_example [] =
  Ok ["{ 100% full (size 3)" +:+ LF;
   "  [1] " +:+ DQUOTE +:+ "a" +:+ DQUOTE +:+ ": 1,";
   "  [1] " +:+ DQUOTE +:+ "a" +:+ DQUOTE +:+ ": -2,"; LF;
   "  [2] " +:+ DQUOTE +:+ "b" +:+ DQUOTE +:+ ": 3,"; LF;
   "}" +:+ LF +:+ LF] [].
Proof. by vm_compute. Qed.
