(* ===== verification/Heap.v ===== *)
(** * Heap: the memory of the C program

    The blocks [malloc] and [calloc] return, by address.  A block is an
    entry (its key and value, and the pointer [next]) or an array of
    pointers to entries; a pointer is null, the address of a block, or
    indeterminate, as the cells of a block of [malloc] are.  The operations
    of the C file that read and write memory run in the monad [HM]: the
    monad [M] of the allocator with the heap as state.  An access through a
    null pointer, through a pointer to no live block or behind the end of
    an array is a fault.  A loop that follows pointers is given as many
    steps as the heap has blocks: a walk that needs more goes round a cycle
    and does not end, which is the outcome [OutOfFuel]. *)

From stdpp Require Import gmap.
From S2P Require Import Prelude Machine CString Alloc Table.

(** ** Definitions *)

(** The address of a block. *)
Abbreviation loc := positive.

Inductive ptr :=
| Null            (** the null pointer *)
| Addr (l : loc)  (** the address of a block *)
| Wild.           (** an indeterminate value *)

(** A block: a [carp_ht_entry] with its link, or an array of buckets. *)
Inductive block :=
| Entry (e : carp_ht_entry) (next : ptr)
| Array (cells : list ptr).

Abbreviation heap := (gmap loc block).

(** The struct [carp_ht]: the size and the pointer to the array. *)
Record carp_ht_struct := { h_size : Z; h_buckets : ptr }.

#[export] Instance ptr_eq_dec : EqDecision ptr.
Proof. solve_decision. Defined.

#[export] Instance block_eq_dec : EqDecision block.
Proof. solve_decision. Defined.

#[export] Instance carp_ht_struct_eq_dec : EqDecision carp_ht_struct.
Proof. solve_decision. Defined.

(** Whether a pointer is null: the test [if (p)] negated. *)
Definition is_null (p : ptr) : bool :=
  match p with Null => true | _ => false end.

(** *** The monad *)

Definition HM (A : Type) : Type := heap -> M (A * heap).

Definition hret {A} (a : A) : HM A := fun m => ret (a, m).

Definition hbind {A B} (x : HM A) (k : A -> HM B) : HM B :=
  fun m o =>
    match x m o with
    | Ok r o' => k r.1 r.2 o'
    | Fault f => Fault f
    | OutOfFuel => OutOfFuel
    end.

#[export] Instance HM_ret : MRet HM := @hret.
#[export] Instance HM_bind : MBind HM := fun A B k x => hbind x k.

(** A step that does not touch the heap. *)
Definition lift {A} (x : M A) : HM A := fun m => a ← x; ret (a, m).

Definition hraise {A} (f : fault) : HM A := lift (raise f).

Definition hcheck (b : bool) (f : fault) : HM unit := lift (check b f).

(** A walk that goes round a cycle. *)
Definition diverge {A} : HM A := lift out_of_fuel.

(** The number of steps a walk along distinct blocks can take. *)
Definition bound : HM nat := fun m => ret (base.size m, m).

(** A loop over a list that threads a state through a body in [HM]. *)
Fixpoint hfoldM {A B} (f : B -> A -> HM B) (l : list A) (b : B) : HM B :=
  match l with
  | [] => mret b
  | a :: l' => b' ← f b a; hfoldM f l' b'
  end.

(** *** Blocks *)

(** [malloc] and [calloc]: a block at an address not in use, with the
    contents [b], or NULL. *)
Definition new_block (b : block) : HM ptr :=
  fun m =>
    g ← alloc;
    if (g : bool) then ret (Addr (fresh (dom m)), <[fresh (dom m) := b]> m)
    else ret (Null, m).

(** [free]: [free(NULL)] does nothing. *)
Definition free (p : ptr) : HM unit :=
  fun m =>
    match p with
    | Null => ret (tt, m)
    | Addr l => if m !! l is Some _ then ret (tt, delete l m) else raise BadPointer
    | Wild => raise BadPointer
    end.

(** The block [p] points to. *)
Definition load (p : ptr) : HM block :=
  fun m =>
    match p with
    | Null => raise NullDeref
    | Addr l => match m !! l with
                | Some b => ret (b, m)
                | None => raise BadPointer
                end
    | Wild => raise BadPointer
    end.

(** A write of the whole block [p] points to. *)
Definition put (p : ptr) (b : block) : HM unit :=
  fun m =>
    match p with
    | Null => raise NullDeref
    | Addr l => if m !! l is Some _ then ret (tt, <[l := b]> m) else raise BadPointer
    | Wild => raise BadPointer
    end.

(** *** Entries: [p->key], [p->value], [p->next] *)

Definition load_entry (p : ptr) : HM (carp_ht_entry * ptr) :=
  b ← load p;
  match b with
  | Entry e next => mret (e, next)
  | Array _ => hraise BadPointer
  end.

(** [p->value = v]. *)
Definition store_value (p : ptr) (v : Z) : HM unit :=
  r ← load_entry p; put p (Entry {| key := key r.1; value := v |} r.2).

(** [p->next = q]. *)
Definition store_next (p q : ptr) : HM unit :=
  r ← load_entry p; put p (Entry r.1 q).

(** *** Arrays: [a[i]] *)

Definition load_cells (a : ptr) : HM (list ptr) :=
  b ← load a;
  match b with
  | Array ps => mret ps
  | Entry _ _ => hraise BadPointer
  end.

Definition load_cell (a : ptr) (i : Z) : HM ptr :=
  ps ← load_cells a;
  match (if 0 <=? i then ps !! Z.to_nat i else None) with
  | Some p => mret p
  | None => hraise HeapOverflow
  end.

(** [a[i] = p]. *)
Definition store_cell (a : ptr) (i : Z) (p : ptr) : HM unit :=
  ps ← load_cells a;
  hcheck ((0 <=? i) && (i <? Z.of_nat (length ps))) HeapOverflow;;
  put a (Array (<[Z.to_nat i := p]> ps)).

(** ** Lemmas *)

Lemma hbind_unfold {A B} (x : HM A) (k : A -> HM B) m o :
  (x ≫= k) m o = match x m o with
                 | Ok r o' => k r.1 r.2 o'
                 | Fault f => Fault f
                 | OutOfFuel => OutOfFuel
                 end.
Proof. done. Qed.

Lemma hbind_Ok {A B} (x : HM A) (k : A -> HM B) m o a m' o' :
  x m o = Ok (a, m') o' -> (x ≫= k) m o = k a m' o'.
Proof. intros H. by rewrite hbind_unfold, H. Qed.

Lemma hbind_Fault {A B} (x : HM A) (k : A -> HM B) m o f :
  x m o = Fault f -> (x ≫= k) m o = Fault f.
Proof. intros H. by rewrite hbind_unfold, H. Qed.

Lemma hbind_ret {A B} (a : A) (k : A -> HM B) m o : (mret a ≫= k) m o = k a m o.
Proof. done. Qed.

Lemma hbind_assoc {A B C} (x : HM A) (k : A -> HM B) (k' : B -> HM C) m o :
  ((x ≫= k) ≫= k') m o = (x ≫= fun a => k a ≫= k') m o.
Proof. rewrite !hbind_unfold. by destruct (x m o). Qed.

Lemma hcheck_true f m o : hcheck true f m o = Ok (tt, m) o.
Proof. done. Qed.

Lemma hcheck_false f m o : hcheck false f m o = Fault f.
Proof. done. Qed.

Lemma hfoldM_app {A B} (f : B -> A -> HM B) l1 l2 b m o :
  hfoldM f (l1 ++ l2) b m o = (hfoldM f l1 b ≫= hfoldM f l2) m o.
Proof.
  revert b m o. induction l1 as [|a l1 IH]; intros b m o; [done|].
  simpl. rewrite !hbind_unfold. destruct (f b a m o) as [r o'| |]; [|done..].
  apply IH.
Qed.

(** *** Reads and writes of live blocks *)

Section Access.
Implicit Types (m : heap) (l : loc) (e : carp_ht_entry) (p q : ptr) (o : oracle).

Lemma load_Some m l b o : m !! l = Some b -> load (Addr l) m o = Ok (b, m) o.
Proof. unfold load. by intros ->. Qed.

Lemma load_entry_Some m l e next o :
  m !! l = Some (Entry e next) -> load_entry (Addr l) m o = Ok ((e, next), m) o.
Proof. intros H. unfold load_entry. by rewrite (hbind_Ok _ _ _ _ _ _ _ (load_Some _ _ _ o H)). Qed.

Lemma load_cells_Some m l ps o :
  m !! l = Some (Array ps) -> load_cells (Addr l) m o = Ok (ps, m) o.
Proof. intros H. unfold load_cells. by rewrite (hbind_Ok _ _ _ _ _ _ _ (load_Some _ _ _ o H)). Qed.

Lemma load_cell_Some m l ps i p o :
  m !! l = Some (Array ps) -> 0 <= i -> ps !! Z.to_nat i = Some p ->
  load_cell (Addr l) i m o = Ok (p, m) o.
Proof.
  intros H Hi Hp. unfold load_cell.
  rewrite (hbind_Ok _ _ _ _ _ _ _ (load_cells_Some _ _ _ o H)).
  by rewrite (proj2 (Z.leb_le _ _) Hi), Hp.
Qed.

Lemma put_Some m l b b' o :
  m !! l = Some b -> put (Addr l) b' m o = Ok (tt, <[l := b']> m) o.
Proof. unfold put. by intros ->. Qed.

Lemma store_value_Some m l e next v o :
  m !! l = Some (Entry e next) ->
  store_value (Addr l) v m o =
  Ok (tt, <[l := Entry {| key := key e; value := v |} next]> m) o.
Proof.
  intros H. unfold store_value.
  rewrite (hbind_Ok _ _ _ _ _ _ _ (load_entry_Some _ _ _ _ o H)). simpl.
  by apply put_Some with (Entry e next).
Qed.

Lemma store_next_Some m l e next q o :
  m !! l = Some (Entry e next) ->
  store_next (Addr l) q m o = Ok (tt, <[l := Entry e q]> m) o.
Proof.
  intros H. unfold store_next.
  rewrite (hbind_Ok _ _ _ _ _ _ _ (load_entry_Some _ _ _ _ o H)). simpl.
  by apply put_Some with (Entry e next).
Qed.

Lemma store_cell_Some m l ps i p o :
  m !! l = Some (Array ps) -> 0 <= i < Z.of_nat (length ps) ->
  store_cell (Addr l) i p m o = Ok (tt, <[l := Array (<[Z.to_nat i := p]> ps)]> m) o.
Proof.
  intros H Hi. unfold store_cell.
  rewrite (hbind_Ok _ _ _ _ _ _ _ (load_cells_Some _ _ _ o H)). simpl.
  rewrite (proj2 (Z.leb_le _ _) (proj1 Hi)), (proj2 (Z.ltb_lt _ _) (proj2 Hi)).
  rewrite hbind_unfold, hcheck_true. simpl. by apply put_Some with (Array ps).
Qed.

Lemma free_Some m l b o : m !! l = Some b -> free (Addr l) m o = Ok (tt, delete l m) o.
Proof. unfold free. by intros ->. Qed.

(** A released block is not released twice, nor read. *)
Lemma free_None m l o : m !! l = None -> free (Addr l) m o = Fault BadPointer.
Proof. unfold free. by intros ->. Qed.

Lemma load_None m l o : m !! l = None -> load (Addr l) m o = Fault BadPointer.
Proof. unfold load. by intros ->. Qed.

(** A granted request returns a block that was not in use. *)
Lemma new_block_granted b m o o' :
  alloc o = Ok true o' ->
  new_block b m o = Ok (Addr (fresh (dom m)), <[fresh (dom m) := b]> m) o'.
Proof. intros H. unfold new_block. by rewrite (bind_Ok _ _ _ _ _ H). Qed.

Lemma new_block_refused b m o o' :
  alloc o = Ok false o' -> new_block b m o = Ok (Null, m) o'.
Proof. intros H. unfold new_block. by rewrite (bind_Ok _ _ _ _ _ H). Qed.

Lemma fresh_None m : m !! fresh (dom m) = None.
Proof. apply not_elem_of_dom, is_fresh. Qed.

(** A block written twice, with a write to another block in between. *)
Lemma insert_insert_through m l l' (b b' z : block) :
  l' <> l -> <[l := b]> (<[l' := b']> (<[l := z]> m)) = <[l := b]> (<[l' := b']> m).
Proof.
  intros Hne. apply map_eq. intros i. destruct (decide (i = l)) as [->|].
  - by rewrite !lookup_insert_eq.
  - rewrite !(lookup_insert_ne _ l) by done. destruct (decide (i = l')) as [->|].
    + by rewrite !lookup_insert_eq.
    + by rewrite !lookup_insert_ne by done.
Qed.

End Access.
