(* ===== verification/Program.v ===== *)
(** * Program: the functions of the C file on the heap

    One definition per function of src/src/lib/carp_ht.c, as the C code is
    written: the table is the struct [carp_ht] with the pointer to its
    array, a chain is a linked list of blocks, and every loop follows
    pointers.  The definitions of [Table] work on the chains as lists; the
    files [Repr] and [Refine] relate the two.  The walks take their bound
    from the heap ([bound]); [carp_ht_set_ptr] and [carp_ht_resize_ptr],
    which call each other, take the same fuel as [carp_ht_set]. *)

From stdpp Require Import gmap strings.
From S2P Require Import Prelude Machine CString Hash Alloc Table TableLemmas.
From S2P Require Import Lookup Delete Insert Resize Print Heap.

Section Program.
Context {P : Platform}.

(** The loops [for (long i = 0; i < h->size; i++)] of lines 57, 189, 214
    and 230, with the read of [h->buckets[i]] that opens their body. *)
Definition for_buckets {A} (t : carp_ht_struct) (body : A -> Z -> ptr -> HM A)
    (a : A) : HM A :=
  hfoldM (fun a i => base ← load_cell (h_buckets t) i; body a i base)
         (seqZ 0 (h_size t)) a.

(** ** carp_ht_used, lines 54-66 *)

(** Lines 59-62: the walk along one chain. *)
Fixpoint used_loop (n : nat) (base : ptr) (in_use : Z) : HM Z :=
  match base with
  | Null => mret in_use
  | _ =>
      match n with
      | O => diverge
      | S n' => r ← load_entry base; used_loop n' r.2 (in_use + 1)
      end
  end.

(** Line 65 is the last: the product in [long], the quotient, and the
    conversion to [short int]. *)
Definition carp_ht_used_ptr (t : carp_ht_struct) : HM Z :=
  n ← bound;
  in_use ← for_buckets t (fun in_use _ base => used_loop n base in_use) 0;
  hcheck (fits_long (in_use * 100)) SignedOverflow;;
  hcheck (h_size t !=? 0) DivByZero;;
  mret (to_short (cdiv (in_use * 100) (h_size t))).

(** ** carp_ht_init, lines 68-81 *)

(** The block of [malloc] holds indeterminate pointers; the loop of lines
    77-78 clears them. *)
Definition carp_ht_init_ptr (sz : Z) : HM (Z * carp_ht_struct) :=
  hcheck (0 <? sz) AssertFail;;
  a ← new_block (Array (replicate (Z.to_nat sz) Wild));
  if is_null a then mret (1, {| h_size := sz; h_buckets := Null |})
  else
    hcheck (sz * pointer_bytes <=? malloc_usable (to_ulong (sz * pointer_bytes)))
           HeapOverflow;;
    hfoldM (fun _ i => store_cell a i Null) (seqZ 0 sz) tt;;
    mret (0, {| h_size := sz; h_buckets := a |}).

(** ** carp_ht_get, lines 162-176 *)

(** Lines 169-173. *)
Fixpoint get_loop_ptr (n : nat) (oob : bool) (k : string) (base : ptr) : HM ptr :=
  match base with
  | Null => mret Null
  | _ =>
      match n with
      | O => diverge
      | S n' =>
          r ← load_entry base;
          if strcmp (key r.1) k !=? 0
          then if oob then mret Null else get_loop_ptr n' oob k r.2
          else mret base
      end
  end.

Definition carp_ht_get_ptr (t : carp_ht_struct) (k : string) : HM ptr :=
  let hash := carp_ht_hash k (h_size t) in
  base ← load_cell (h_buckets t) hash;
  n ← bound;
  get_loop_ptr n (to_ulong (h_size t) <=? hash) k base.

(** ** carp_ht_del, lines 83-117 *)

(** Lines 102-113: the walk from [base] with [prev] behind it, the unlink
    and the release; the status returned is 2 (line 104) or 0. *)
Fixpoint del_loop_ptr (n : nat) (k : string) (prev base : ptr) : HM Z :=
  match n with
  | O => diverge
  | S n' =>
      r ← load_entry base;
      if strcmp (key r.1) k !=? 0 then
        if is_null r.2 then mret 2 else del_loop_ptr n' k base r.2
      else
        store_next prev r.2;; free base;; mret 0
  end.

Definition carp_ht_del_ptr (t : carp_ht_struct) (k : string) : HM Z :=
  let hash := carp_ht_hash k (h_size t) in
  base ← load_cell (h_buckets t) hash;
  if is_null base then mret 1
  else
    r ← load_entry base;
    if strcmp (key r.1) k ==? 0 then
      store_cell (h_buckets t) hash r.2;; free base;; mret 0
    else
      n ← bound; del_loop_ptr n k Null base.

(** ** carp_ht_cleanup, lines 226-242 *)

(** Lines 234-238. *)
Fixpoint free_loop (n : nat) (base : ptr) : HM unit :=
  match base with
  | Null => mret tt
  | _ =>
      match n with
      | O => diverge
      | S n' => r ← load_entry base; free base;; free_loop n' r.2
      end
  end.

(** The struct keeps the pointer to the released array. *)
Definition carp_ht_cleanup_ptr (t : carp_ht_struct) : HM unit :=
  n ← bound;
  for_buckets t (fun _ _ base => free_loop n base) tt;;
  free (h_buckets t).

(** ** carp_ht_print, lines 208-224 *)

(** Lines 217-219: the [do ... while] loop, which reads [base] before it
    tests anything. *)
Fixpoint print_loop (n : nat) (i : Z) (base : ptr) : HM (list string) :=
  match n with
  | O => diverge
  | S n' =>
      r ← load_entry base;
      rest ← (if is_null r.2 then mret [] else print_loop n' i r.2);
      mret (print_entry i r.1 :: rest)
  end.

Definition carp_ht_print_ptr (t : carp_ht_struct) : HM (list string) :=
  used ← carp_ht_used_ptr t;
  n ← bound;
  out ← for_buckets t (fun out i base =>
           if is_null base then mret out
           else l ← print_loop n i base; mret (out ++ l ++ [LF]))
         [header used (h_size t)];
  mret (out ++ [footer]).

(** ** carp_ht_set, lines 120-160, and carp_ht_resize, lines 178-206 *)

(** [calloc(1, ...)] of lines 137 and 151: a block seen as an entry.  The
    block is shown cleared whole; how much of it [calloc] has cleared is
    what [write_entry] asks before it stores the key. *)
Definition calloc_entry : HM ptr :=
  new_block (Entry {| key := EmptyString; value := 0 |} Null).

(** Lines 155-157 on the block [base], which was requested with [bytes]
    bytes: the faults of [alloc_entry], in its order. *)
Definition write_entry (bytes : Z) (base : ptr) (k : string) (v : Z) : HM unit :=
  hcheck (negb (is_null base)) NullDeref;;
  hcheck (entry_bytes <=? malloc_usable bytes) HeapOverflow;;
  hcheck (strlen k <? key_capacity) KeyOverflow;;
  hcheck (strlen k <? calloc_cleared bytes) Unterminated;;
  put base (Entry (new_entry k v) Null).

(** Lines 142-149: [None] is the [return 0] of line 145, after the write
    of line 144; [Some base] is the exit of the loop at the last entry. *)
Fixpoint set_loop_ptr (n : nat) (k : string) (v : Z) (base : ptr) : HM (option ptr) :=
  match n with
  | O => diverge
  | S n' =>
      r ← load_entry base;
      if is_null r.2 then mret (Some base)
      else
        r' ← load_entry r.2;
        if strcmp (key r'.1) k !=? 0
        then store_value r.2 v;; mret None
        else set_loop_ptr n' k v r.2
  end.

(** Lines 132-159. *)
Definition set_body_ptr (t : carp_ht_struct) (k : string) (v : Z) : HM Z :=
  base ← carp_ht_get_ptr t k;
  if is_null base then
    let hash := carp_ht_hash k (h_size t) in
    p ← calloc_entry;
    store_cell (h_buckets t) hash p;;
    write_entry entry_bytes p k v;;
    mret 0
  else
    n ← bound;
    r ← set_loop_ptr n k v base;
    match r with
    | None => mret 0
    | Some last =>
        p ← calloc_entry;
        store_next last p;;
        write_entry pointer_bytes p k v;;
        mret 0
    end.

(** Lines 193-199: the walk along one chain of the old table; the link of
    [base] is read after the call of [carp_ht_set]. *)
Fixpoint migrate_loop (set : carp_ht_struct -> string -> Z -> HM (Z * carp_ht_struct))
    (n : nat) (newh : carp_ht_struct) (base : ptr) : HM carp_ht_struct :=
  match base with
  | Null => mret newh
  | _ =>
      match n with
      | O => diverge
      | S n' =>
          r ← load_entry base;
          s ← set newh (key r.1) (value r.1);
          r' ← load_entry base;
          migrate_loop set n' s.2 r'.2
      end
  end.

(** Lines 178-206, with the call of [carp_ht_set] as a parameter. *)
Definition resize_with_ptr (set : carp_ht_struct -> string -> Z -> HM (Z * carp_ht_struct))
    (t : carp_ht_struct) : HM (Z * carp_ht_struct) :=
  let newsize := 2 * h_size t + 1 in
  hcheck (fits_long newsize) SignedOverflow;;
  a ← new_block (Array (replicate (Z.to_nat newsize) Null));
  if is_null a then mret (1, t)
  else
    n ← bound;
    newh ← for_buckets t (fun newh _ base => migrate_loop set n newh base)
                       {| h_size := newsize; h_buckets := a |};
    carp_ht_cleanup_ptr t;;
    mret (0, {| h_size := newsize; h_buckets := h_buckets newh |}).

(** Lines 120-160. *)
Fixpoint carp_ht_set_ptr (fuel : nat) (t : carp_ht_struct) (k : string) (v : Z)
    : HM (Z * carp_ht_struct) :=
  match fuel with
  | O => diverge
  | S fuel' =>
      used ← carp_ht_used_ptr t;
      if 60 <? used then
        r ← resize_with_ptr (carp_ht_set_ptr fuel') t;
        if r.1 ==? 1 then mret (1, r.2)
        else
          r' ← carp_ht_set_ptr fuel' r.2 k v;
          if r'.1 !=? 0 then mret (1, r'.2)
          else s ← set_body_ptr r'.2 k v; mret (s, r'.2)
      else s ← set_body_ptr t k v; mret (s, t)
  end.

Definition carp_ht_resize_ptr (fuel : nat) (t : carp_ht_struct) : HM (Z * carp_ht_struct) :=
  resize_with_ptr (carp_ht_set_ptr fuel) t.

End Program.
