(* ===== verification/Repr.v ===== *)
(** * Repr: tables in the heap

    How a heap holds a table.  A located chain is a chain with the address
    of each of its entries; the heap holds it ([linked]) when the block at
    each address is the entry with a link to the next.  A located table is
    the list of the located chains of its buckets; the heap holds it at an
    array [a] ([table_at]) when the block at [a] is the array of the heads
    of the chains, every chain is linked, and no address occurs twice: the
    table owns its blocks, and no block is in two chains.  [abs] forgets
    the addresses and gives the table of [Table].  [evolves] is what every
    operation promises of the heap it leaves: blocks outside the table are
    as they were, and the table takes no block that was another's. *)

From stdpp Require Import gmap strings.
From S2P Require Import Prelude Machine CString Hash Alloc Table TableLemmas Heap.

(** ** Definitions *)

(** A chain with the addresses of its entries. *)
Abbreviation lchain := (list (loc * carp_ht_entry)).

(** The pointer to the first entry of a chain. *)
Definition head_ptr (lc : lchain) : ptr :=
  match lc with
  | [] => Null
  | le :: _ => Addr le.1
  end.

(** The heap holds the chain: each entry at its address, linked to the
    next. *)
Fixpoint linked (m : heap) (lc : lchain) : Prop :=
  match lc with
  | [] => True
  | le :: lc' => m !! le.1 = Some (Entry le.2 (head_ptr lc')) /\ linked m lc'
  end.

(** The chain of [Table]: the entries without their addresses. *)
Definition forget (lc : lchain) : chain := lc.*2.

(** The addresses of the entries of a located table. *)
Definition locs (L : list lchain) : list loc := (concat L).*1.

(** The table of [Table] a struct and a located table stand for. *)
Definition abs (t : carp_ht_struct) (L : list lchain) : carp_ht :=
  {| size := h_size t; buckets := forget <$> L |}.

(** The heap holds the located table [L] of the struct [t] at the array
    [a]. *)
Record table_at (m : heap) (t : carp_ht_struct) (a : loc) (L : list lchain) : Prop := {
  at_buckets : h_buckets t = Addr a;
  at_array : m !! a = Some (Array (head_ptr <$> L));
  at_linked : Forall (linked m) L;
  at_nodup : NoDup (a :: locs L);
}.

(** The struct can be used: its size is a positive [long] and its array
    has that many cells at least. *)
Definition usable {P : Platform} (t : carp_ht_struct) (L : list lchain) : Prop :=
  0 < h_size t <= LONG_MAX /\ (Z.to_nat (h_size t) <= length L)%nat.

(** The pointer to the entry at position [j] of a chain. *)
Definition nth_ptr (lc : lchain) (j : nat) : ptr :=
  from_option (fun le => Addr le.1) Wild (lc !! j).

(** The pointer of the C program for a pointer of [Table]. *)
Definition ptr_of (L : list lchain) (p : entry_ptr) : ptr :=
  match p with
  | NULL => Null
  | At i j => nth_ptr (default [] (L !! i)) j
  end.

(** From the heap [m] with the table [L] at [a] to the heap [m'] with the
    table [L'] at [a']: the blocks of [m] outside the table are unchanged,
    and the blocks of the table in [m'] were blocks of the table or were
    not in use. *)
Record evolves (m : heap) (a : loc) (L : list lchain)
    (m' : heap) (a' : loc) (L' : list lchain) : Prop := {
  ev_frame : forall l, l ∈ dom m -> l ∉ a :: locs L -> m' !! l = m !! l;
  ev_fresh : forall l, l ∈ a' :: locs L' -> l ∈ a :: locs L \/ l ∉ dom m;
}.

(** The blocks in use that the table does not reach: garbage. *)
Definition garbage (m : heap) (a : loc) (L : list lchain) : gset loc :=
  dom m ∖ list_to_set (a :: locs L).

(** The heap is well formed for the struct: it holds a table the struct can
    be used with, so the array is a live block with a cell for every
    bucket, every chain ends, and no block is reached twice. *)
Definition owned {P : Platform} (m : heap) (t : carp_ht_struct) : Prop :=
  exists a L, table_at m t a L /\ usable t L.

(** An example: three buckets with "a" and "d" chained in bucket 1, and a
    block that no pointer reaches. *)
Definition example_chains : list lchain :=
  [ []; [(2%positive, {| key := "a"; value := 1 |});
         (3%positive, {| key := "d"; value := 4 |})]; [] ].

Definition example_struct : carp_ht_struct := {| h_size := 3; h_buckets := Addr 1 |}.

Definition example_heap : heap :=
  <[1%positive := Array [Null; Addr 2; Null]]>
  (<[2%positive := Entry {| key := "a"; value := 1 |} (Addr 3)]>
  (<[3%positive := Entry {| key := "d"; value := 4 |} Null]>
  (<[4%positive := Entry {| key := "g"; value := 7 |} Null]> ∅))).

(** ** Chains *)

Section Chains.
Implicit Types (m : heap) (lc : lchain) (l : loc) (e : carp_ht_entry).

Lemma head_ptr_null lc : head_ptr lc = Null <-> lc = [].
Proof. by destruct lc. Qed.

Lemma is_null_head_ptr lc : is_null (head_ptr lc) = bool_decide (lc = []).
Proof. by destruct lc. Qed.

Lemma linked_app m lc1 lc2 : linked m (lc1 ++ lc2) -> linked m lc2.
Proof. induction lc1 as [|le lc1 IH]; [done|]. intros [_ H]. by apply IH. Qed.

Lemma linked_drop m lc j : linked m lc -> linked m (drop j lc).
Proof. rewrite <- (take_drop j lc) at 1. apply linked_app. Qed.

(** The block of the entry at position [j]. *)
Lemma linked_lookup m lc j le :
  linked m lc -> lc !! j = Some le ->
  m !! le.1 = Some (Entry le.2 (head_ptr (drop (S j) lc))).
Proof.
  revert j. induction lc as [|le' lc IH]; intros j; [done|].
  intros [Hl Hlc]. destruct j as [|j]; simpl.
  - intros [= ->]. by rewrite drop_0.
  - by apply IH.
Qed.

Lemma linked_elem_of m lc l : linked m lc -> l ∈ lc.*1 -> is_Some (m !! l).
Proof.
  intros Hl ((l' & e) & -> & (j & Hj)%list_elem_of_lookup_1)%list_elem_of_fmap_1.
  rewrite (linked_lookup _ _ _ _ Hl Hj). eauto.
Qed.

(** A chain is held by every heap that agrees on its blocks. *)
Lemma linked_frame m m' lc :
  (forall l, l ∈ lc.*1 -> m' !! l = m !! l) -> linked m lc -> linked m' lc.
Proof.
  induction lc as [|le lc IH]; [done|]. intros Hm [Hl Hlc]. split.
  - rewrite Hm; [done|]. set_solver.
  - apply IH; [|done]. intros l Hin. apply Hm. set_solver.
Qed.

Lemma linked_insert_ne m lc l b : l ∉ lc.*1 -> linked m lc -> linked (<[l := b]> m) lc.
Proof.
  intros Hl. apply linked_frame. intros l' Hl'.
  apply lookup_insert_ne. by intros ->.
Qed.

Lemma linked_delete_ne m lc l : l ∉ lc.*1 -> linked m lc -> linked (delete l m) lc.
Proof.
  intros Hl. apply linked_frame. intros l' Hl'.
  apply lookup_delete_ne. by intros ->.
Qed.

(** A chain of distinct blocks is no longer than the heap is large: the
    bound of the walks is enough. *)
Lemma linked_length m lc : linked m lc -> NoDup lc.*1 -> (length lc <= base.size m)%nat.
Proof.
  intros Hl Hnd. rewrite <- (length_fmap fst lc).
  rewrite <- (size_list_to_set (C:=gset loc) _ Hnd), <- size_dom.
  apply subseteq_size. intros l Hin%elem_of_list_to_set.
  by apply elem_of_dom, (linked_elem_of _ lc).
Qed.

(** Linking an entry in front of a chain. *)
Lemma linked_cons m lc l e :
  l ∉ lc.*1 -> linked m lc -> linked (<[l := Entry e (head_ptr lc)]> m) ((l, e) :: lc).
Proof.
  intros Hl Hlc. split; [by rewrite lookup_insert_eq|]. by apply linked_insert_ne.
Qed.

End Chains.

(** ** Tables *)

Section Tables.
Context {P : Platform}.
Implicit Types (m : heap) (t : carp_ht_struct) (a l : loc) (L : list lchain) (lc : lchain).

Lemma size_abs t L : size (abs t L) = h_size t.
Proof. done. Qed.

Lemma buckets_abs t L : buckets (abs t L) = forget <$> L.
Proof. done. Qed.

Lemma bucket_abs t L i lc :
  0 <= i -> L !! Z.to_nat i = Some lc -> bucket (abs t L) i = forget lc.
Proof. intros Hi HL. unfold bucket. simpl. by rewrite list_lookup_fmap, HL. Qed.

Lemma locs_lookup L i lc l : L !! i = Some lc -> l ∈ lc.*1 -> l ∈ locs L.
Proof.
  intros HL Hl. unfold locs. rewrite list_elem_of_fmap in *.
  destruct Hl as (le & -> & Hle). exists le. split; [done|].
  apply elem_of_concat. exists lc. split; [done|]. by eapply list_elem_of_lookup_2.
Qed.

(** The chains of a table are chains of distinct blocks. *)
Lemma NoDup_locs_lookup L i lc : NoDup (locs L) -> L !! i = Some lc -> NoDup lc.*1.
Proof.
  intros Hnd HL. unfold locs in Hnd.
  rewrite <- (take_drop_middle L i lc HL), !concat_app, !fmap_app in Hnd.
  simpl in Hnd. rewrite fmap_app in Hnd.
  apply list.NoDup_app in Hnd as (_ & _ & Hnd).
  by apply list.NoDup_app in Hnd as (Hnd & _).
Qed.

Section At.
Context (m : heap) (t : carp_ht_struct) (a : loc) (L : list lchain).
Context (Hat : table_at m t a L).

Lemma table_at_linked i lc : L !! i = Some lc -> linked m lc.
Proof. intros HL. by eapply (proj1 (Forall_lookup _ _) (at_linked _ _ _ _ Hat)). Qed.

Lemma table_at_NoDup i lc : L !! i = Some lc -> NoDup lc.*1.
Proof.
  apply NoDup_locs_lookup. by eapply NoDup_cons_1_2, at_nodup.
Qed.

Lemma table_at_length i lc : L !! i = Some lc -> (length lc <= base.size m)%nat.
Proof. intros HL. eauto using linked_length, table_at_linked, table_at_NoDup. Qed.

(** The array is no entry of a chain. *)
Lemma table_at_array_fresh : a ∉ locs L.
Proof. by eapply NoDup_cons_1_1, at_nodup. Qed.

(** The read of [h->buckets[i]]. *)
Lemma load_cell_at i lc o :
  0 <= i -> L !! Z.to_nat i = Some lc ->
  load_cell (h_buckets t) i m o = Ok (head_ptr lc, m) o.
Proof.
  intros Hi HL. rewrite (at_buckets _ _ _ _ Hat).
  apply load_cell_Some with (head_ptr <$> L); [apply (at_array _ _ _ _ Hat)|done|].
  by rewrite list_lookup_fmap, HL.
Qed.

End At.

(** A heap that agrees with [m] on the blocks of the table holds it
    too. *)
Lemma table_at_frame m m' t a L :
  (forall l, l ∈ a :: locs L -> m' !! l = m !! l) -> table_at m t a L -> table_at m' t a L.
Proof.
  intros Hm [Hb Ha Hl Hnd]. split; [done| |  |done].
  - rewrite Hm; [done|]. by left.
  - apply Forall_lookup. intros i lc HL. eapply linked_frame.
    + intros l Hin. apply Hm. right. by eapply locs_lookup.
    + by eapply (proj1 (Forall_lookup _ _) Hl).
Qed.

(** *** How the heap evolves *)

Lemma evolves_refl m a L : evolves m a L m a L.
Proof. split; [done|]. intros l Hl. by left. Qed.

Lemma evolves_trans m1 a1 L1 m2 a2 L2 m3 a3 L3 :
  evolves m1 a1 L1 m2 a2 L2 -> evolves m2 a2 L2 m3 a3 L3 -> evolves m1 a1 L1 m3 a3 L3.
Proof.
  intros [Hf1 Hn1] [Hf2 Hn2]. split.
  - intros l Hd Hl. rewrite <- (Hf1 l Hd Hl). apply Hf2.
    + apply elem_of_dom. rewrite (Hf1 l Hd Hl). by apply elem_of_dom.
    + intros [?|?]%Hn1; done.
  - intros l [Hl|Hl]%Hn2; [by apply Hn1|].
    destruct (decide (l ∈ a1 :: locs L1)) as [?|Hout]; [by left|]. right.
    intros Hd. apply Hl, elem_of_dom. rewrite (Hf1 l Hd Hout). by apply elem_of_dom.
Qed.

(** The blocks of a table are blocks of the heap. *)
Lemma elem_of_locs L l : l ∈ locs L <-> exists i lc, L !! i = Some lc /\ l ∈ lc.*1.
Proof.
  split; [|intros (i & lc & ? & ?); by eapply locs_lookup].
  unfold locs. intros (le & -> & Hle)%list_elem_of_fmap.
  apply elem_of_concat in Hle as (lc & Hle & (i & Hi)%list_elem_of_lookup_1).
  exists i, lc. split; [done|]. by apply list_elem_of_fmap_2.
Qed.

Lemma table_at_dom m t a L l : table_at m t a L -> l ∈ a :: locs L -> l ∈ dom m.
Proof.
  intros Hat [->|(i & lc & Hi & Hl)%elem_of_locs]%elem_of_cons; apply elem_of_dom.
  - rewrite (at_array _ _ _ _ Hat). eauto.
  - apply (linked_elem_of _ lc); [by eapply table_at_linked|done].
Qed.

(** A table that shares no block with the table that evolves stays where
    it is. *)
Lemma table_at_evolves m a L m' a' L' t0 a0 L0 :
  evolves m a L m' a' L' -> table_at m t0 a0 L0 ->
  (forall l, l ∈ a0 :: locs L0 -> l ∉ a :: locs L) ->
  table_at m' t0 a0 L0 /\ (forall l, l ∈ a0 :: locs L0 -> l ∉ a' :: locs L').
Proof.
  intros [Hf Hn] Hat Hdisj. split.
  - eapply table_at_frame; [|done]. intros l Hl. apply Hf; eauto using table_at_dom.
  - intros l Hl [Hin|Hout]%Hn; [by eapply Hdisj|]. eauto using table_at_dom.
Qed.

(** *** One chain replaced *)

Lemma locs_app L1 L2 : locs (L1 ++ L2) = locs L1 ++ locs L2.
Proof. unfold locs. by rewrite concat_app, fmap_app. Qed.

Lemma locs_cons lc L : locs (lc :: L) = lc.*1 ++ locs L.
Proof. unfold locs. simpl. by rewrite fmap_app. Qed.

Lemma locs_split L i lc :
  L !! i = Some lc -> locs L = locs (take i L) ++ lc.*1 ++ locs (drop (S i) L).
Proof.
  intros H. rewrite <- (take_drop_middle L i lc H) at 1. by rewrite locs_app, locs_cons.
Qed.

Lemma locs_insert L i lc lc' :
  L !! i = Some lc ->
  locs (<[i := lc']> L) = locs (take i L) ++ lc'.*1 ++ locs (drop (S i) L).
Proof.
  intros H. rewrite insert_take_drop by (by eapply lookup_lt_Some).
  by rewrite locs_app, locs_cons.
Qed.

Lemma NoDup_replace_middle {X} (A lc lc' B : list X) :
  NoDup (A ++ lc ++ B) -> NoDup lc' ->
  (forall x, x ∈ lc' -> x ∈ lc \/ ((x ∉ A) /\ (x ∉ B))) ->
  NoDup (A ++ lc' ++ B).
Proof.
  rewrite !list.NoDup_app. intros (HA & HAB & Hlc & HlcB & HB) Hlc' Hsub.
  split_and!; [done| |done| |done].
  - intros x Hx [Hin|Hin]%elem_of_app.
    + destruct (Hsub x Hin) as [?|[? _]]; [|done]. apply (HAB x Hx). set_solver.
    + apply (HAB x Hx). set_solver.
  - intros x Hx Hin. destruct (Hsub x Hx) as [?|[_ ?]]; [|done]. by apply (HlcB x).
Qed.

(** What the table did not reach stays in the heap and is not reached
    later: garbage is for ever. *)
Lemma evolves_garbage m a L m' a' L' :
  evolves m a L m' a' L' -> garbage m a L ⊆ garbage m' a' L'.
Proof.
  intros [Hf Hn] l. unfold garbage.
  rewrite !elem_of_difference, !elem_of_list_to_set. intros [Hd Hout]. split.
  - apply elem_of_dom. rewrite Hf by done. by apply elem_of_dom.
  - intros [?|?]%Hn; done.
Qed.

(** The chains of two buckets share no block. *)
Lemma chains_disjoint m t a L i j lc d l :
  table_at m t a L -> L !! i = Some lc -> L !! j = Some d -> i <> j ->
  l ∈ d.*1 -> l ∉ lc.*1.
Proof.
  intros Hat Hi Hj Hne Hin Hin'. pose proof (at_nodup _ _ _ _ Hat) as Hnd.
  apply NoDup_cons_1_2 in Hnd. rewrite (locs_split L i lc Hi) in Hnd.
  rewrite <- (take_drop_middle L i lc Hi) in Hj.
  apply lookup_app_Some in Hj as [Hj|[Hlen Hj]].
  - apply list.NoDup_app in Hnd as (_ & Hd & _).
    apply (Hd l); [by eapply locs_lookup|set_solver].
  - rewrite length_take_le in Hlen, Hj
      by (apply Nat.lt_le_incl; by eapply lookup_lt_Some).
    destruct (j - i)%nat as [|j'] eqn:E; [lia|]. simpl in Hj.
    apply list.NoDup_app in Hnd as (_ & _ & Hnd).
    apply list.NoDup_app in Hnd as (_ & Hd & _).
    apply (Hd l Hin'). by eapply locs_lookup.
Qed.

(** The heap after an operation that works on the chain of bucket [i] and
    on the array only, and leaves [lc'] where [lc] was. *)
Lemma table_at_store m m' t a L i lc lc' :
  table_at m t a L -> L !! i = Some lc ->
  m' !! a = Some (Array (head_ptr <$> <[i := lc']> L)) ->
  linked m' lc' -> NoDup lc'.*1 ->
  (forall l, l ∈ lc'.*1 -> l ∈ lc.*1 \/ l ∉ dom m) ->
  (forall l, l ∈ dom m -> l ∉ a :: lc.*1 -> m' !! l = m !! l) ->
  table_at m' t a (<[i := lc']> L) /\ evolves m a L m' a (<[i := lc']> L).
Proof.
  intros Hat Hi Ha Hl' Hnd' Hsub Hframe.
  pose proof (at_nodup _ _ _ _ Hat) as Hnd.
  assert (forall l, l ∈ lc.*1 -> l ∈ locs L) as Hlc by (intros; by eapply locs_lookup).
  split; split.
  - apply (at_buckets _ _ _ _ Hat).
  - done.
  - apply Forall_lookup. intros j d Hj.
    destruct (decide (i = j)) as [<-|Hne].
    + apply list_lookup_insert_Some in Hj as [(_ & <- & _)|[? _]]; done.
    + rewrite list_lookup_insert_ne in Hj by done.
      apply (linked_frame m); [|by eapply table_at_linked].
      intros l Hin. pose proof (locs_lookup _ _ _ _ Hj Hin) as Hloc. apply Hframe.
      * eapply table_at_dom; [done|]. by right.
      * intros [->|Hin']%elem_of_cons; [by eapply table_at_array_fresh|].
        by eapply (chains_disjoint m t a L i j lc d l).
  - rewrite (locs_insert L i lc lc' Hi). rewrite (locs_split L i lc Hi) in Hnd.
    rewrite app_comm_cons in *. apply (NoDup_replace_middle _ (lc.*1)); [done..|].
    intros l Hin. destruct (Hsub l Hin) as [?|Hout]; [by left|]. right.
    split; intros Hin'; apply Hout; eapply table_at_dom; try done.
    + apply elem_of_cons in Hin' as [->|Hin']; [by left|]. right.
      rewrite (locs_split L i lc Hi). set_solver.
    + right. rewrite (locs_split L i lc Hi). set_solver.
  - intros l Hd Hl. apply Hframe; [done|].
    intros [->|Hin]%elem_of_cons; apply Hl; [by left|right; by apply Hlc].
  - intros l [->|Hin]%elem_of_cons; [left; by left|].
    rewrite (locs_insert L i lc lc' Hi) in Hin. rewrite (locs_split L i lc Hi).
    apply elem_of_app in Hin as [?|[Hin|?]%elem_of_app].
    + left. set_solver.
    + destruct (Hsub l Hin); [left; set_solver | by right].
    + left. set_solver.
Qed.

End Tables.

(** ** Surgery on chains *)

Section Surgery.
Implicit Types (m : heap) (lc : lchain) (l : loc) (e : carp_ht_entry).

(** A chain whose tail is replaced by a chain with the same head. *)
Lemma linked_app_replace m m' lc1 lc2 lc2' :
  linked m (lc1 ++ lc2) -> linked m' lc2' -> head_ptr lc2' = head_ptr lc2 ->
  (forall l, l ∈ lc1.*1 -> m' !! l = m !! l) ->
  linked m' (lc1 ++ lc2').
Proof.
  intros Hl Hl2 Hh Hm. induction lc1 as [|le lc1 IH]; [done|].
  destruct Hl as [Hle Hl]. split.
  - rewrite Hm by set_solver. rewrite Hle. do 2 f_equal.
    destruct lc1; [by symmetry|done].
  - apply IH; [done|]. intros l Hin. apply Hm. set_solver.
Qed.

(** An entry linked behind the last. *)
Lemma linked_snoc m lc le l e :
  linked m (lc ++ [le]) -> NoDup (lc ++ [le]).*1 -> l ∉ (lc ++ [le]).*1 ->
  linked (<[l := Entry e Null]> (<[le.1 := Entry le.2 (Addr l)]> m))
         ((lc ++ [le]) ++ [(l, e)]).
Proof.
  intros Hl Hnd Hfresh. rewrite <- app_assoc.
  rewrite fmap_app in Hnd, Hfresh. apply list.NoDup_app in Hnd as (_ & Hd & _).
  apply (linked_app_replace m _ lc [le]); [done| |done|].
  - split; [|split; [by rewrite lookup_insert_eq|done]].
    rewrite lookup_insert_ne by set_solver. by rewrite lookup_insert_eq.
  - intros l' Hin. rewrite !lookup_insert_ne; [done| |].
    + intros <-. apply (Hd le.1 Hin). set_solver.
    + intros <-. apply Hfresh. set_solver.
Qed.

End Surgery.

(** ** The example *)

Lemma example_table_at : table_at example_heap example_struct 1 example_chains.
Proof.
  split; [done|done| |].
  - repeat constructor.
  - apply (bool_decide_unpack _). by vm_compute.
Qed.

Lemma example_usable : usable (P:=lp64_roomy) example_struct example_chains.
Proof. split; [by vm_compute|simpl; lia]. Qed.

Lemma example_owned : owned (P:=lp64_roomy) example_heap example_struct.
Proof. exists 1%positive, example_chains. split; [apply example_table_at|apply example_usable]. Qed.
