(* ===== verification/Sim.v ===== *)
(** * Sim: runs on lists and runs on the heap

    The rules that relate a run of a definition of [Table], in the monad
    [M], to the run of its counterpart of [Program], in the monad [HM]: the
    two consume the oracle alike, fault alike and run out of fuel alike, and
    the values and the heap they return are related ([sim]).  For the parts
    of the heap program that have no counterpart in [M], the reads and the
    walks, [returns] says that the run returns, with what, and how it leaves
    the heap.  Both have a rule for [≫=] and a rule with an invariant for
    the loops over a list and over the buckets of a struct. *)

From stdpp Require Import gmap.
From S2P Require Import Prelude Machine CString Hash Alloc Table Print Heap Program.

(** ** Definitions *)

(** The run [r'] on the heap does what the run [r] does: the same outcome,
    the same use of the oracle, and results related by [R] with the heap
    left. *)
Definition sim {A B} (R : A -> B -> heap -> Prop)
    (r : outcome A) (r' : outcome (B * heap)) : Prop :=
  match r, r' with
  | Ok a o, Ok bm o' => o = o' /\ R a bm.1 bm.2
  | Fault f, Fault f' => f = f'
  | OutOfFuel, OutOfFuel => True
  | _, _ => False
  end.

(** The run returns, and its value, heap and oracle satisfy [Q]. *)
Definition returns {B} (Q : B -> heap -> oracle -> Prop) (r' : outcome (B * heap)) : Prop :=
  match r' with
  | Ok bm o' => Q bm.1 bm.2 o'
  | _ => False
  end.

(** A fold over a list that knows the position of each element. *)
Fixpoint ifold {A B} (g : B -> Z -> A -> B) (i : Z) (l : list A) (b : B) : B :=
  match l with
  | [] => b
  | x :: l' => ifold g (i + 1) l' (g b i x)
  end.

(** Brings a run that has reached its [mret] into the form [Ok]. *)
Ltac hret := cbn [returns sim mret HM_ret Heap.hret ret fst snd].

(** ** Rules of [returns] *)

Lemma returns_Ok {B} (Q : B -> heap -> oracle -> Prop) (r : outcome (B * heap)) :
  returns Q r -> exists b m' o', r = Ok (b, m') o' /\ Q b m' o'.
Proof. destruct r as [[b m'] o'| |]; [|done..]. eauto. Qed.

Lemma returns_eq {B} (x : HM B) m o b m' o' :
  x m o = Ok (b, m') o' -> returns (fun b0 m0 o0 => b0 = b /\ m0 = m' /\ o0 = o') (x m o).
Proof. by intros ->. Qed.

Lemma returns_weaken {B} (Q Q' : B -> heap -> oracle -> Prop) r :
  (forall b m o, Q b m o -> Q' b m o) -> returns Q r -> returns Q' r.
Proof. intros HQ. destruct r as [[b m'] o'| |]; [|done..]. apply HQ. Qed.

Lemma returns_bind {A B} (Q : A -> heap -> oracle -> Prop) (Q' : B -> heap -> oracle -> Prop)
    (x : HM A) (k : A -> HM B) m o :
  returns Q (x m o) ->
  (forall a m' o', Q a m' o' -> returns Q' (k a m' o')) ->
  returns Q' ((x ≫= k) m o).
Proof.
  intros Hx Hk. rewrite hbind_unfold.
  destruct (x m o) as [[a m'] o'| |]; [|done..]. by apply Hk.
Qed.

(** The loop over a list, with an invariant that knows how many elements
    the loop has been through. *)
Lemma returns_hfoldM {A B} (I : nat -> B -> heap -> oracle -> Prop)
    (f : B -> A -> HM B) l b m o :
  I 0%nat b m o ->
  (forall j x b m o, l !! j = Some x -> I j b m o -> returns (I (S j)) (f b x m o)) ->
  returns (I (length l)) (hfoldM f l b m o).
Proof.
  revert I b m o. induction l as [|x l IH]; intros I b m o HI Hf; [done|].
  simpl. eapply returns_bind; [by apply (Hf 0%nat)|].
  intros b' m' o' Hb'. apply (IH (fun j => I (S j))); [done|].
  intros j. apply (Hf (S j)).
Qed.

(** The loop over the buckets of a struct. *)
Lemma returns_for_buckets {A} (I : nat -> A -> heap -> oracle -> Prop)
    (t : carp_ht_struct) (body : A -> Z -> ptr -> HM A) acc m o :
  I 0%nat acc m o ->
  (forall j acc m o, (j < Z.to_nat (h_size t))%nat -> I j acc m o ->
     returns (I (S j))
       ((load_cell (h_buckets t) (Z.of_nat j) ≫= body acc (Z.of_nat j)) m o)) ->
  returns (I (Z.to_nat (h_size t))) (for_buckets t body acc m o).
Proof.
  intros HI Hbody. unfold for_buckets.
  rewrite <- (length_seqZ 0 (h_size t)) at 1. apply returns_hfoldM; [done|].
  intros j x b m' o' [-> Hj]%lookup_seqZ HIj. rewrite Z.add_0_l.
  apply Hbody; [lia|done].
Qed.

(** ** Rules of [sim] *)

Lemma sim_ret {A B} (R : A -> B -> heap -> Prop) a b m o :
  R a b m -> sim R (ret a o) (hret b m o).
Proof. by split. Qed.

(** What a simulation says of each outcome. *)
Lemma sim_Ok_l {A B} (R : A -> B -> heap -> Prop) r r' a o :
  sim R r r' -> r = Ok a o -> exists b m', r' = Ok (b, m') o /\ R a b m'.
Proof. intros H ->. destruct r' as [[b m'] o'| |]; [|done..]. destruct H as [-> H]. eauto. Qed.

Lemma sim_Ok_r {A B} (R : A -> B -> heap -> Prop) r r' b m' o :
  sim R r r' -> r' = Ok (b, m') o -> exists a, r = Ok a o /\ R a b m'.
Proof. intros H ->. destruct r as [a o'| |]; [|done..]. destruct H as [-> H]. eauto. Qed.

Lemma sim_Fault {A B} (R : A -> B -> heap -> Prop) r r' f :
  sim R r r' -> r = Fault f <-> r' = Fault f.
Proof. destruct r, r' as [[]| |]; simpl; naive_solver. Qed.

Lemma sim_OutOfFuel {A B} (R : A -> B -> heap -> Prop) r r' :
  sim R r r' -> r = OutOfFuel <-> r' = OutOfFuel.
Proof. destruct r, r' as [[]| |]; simpl; naive_solver. Qed.

(** A simulation, outcome by outcome: the same faults, the same exhaustion
    of the fuel, and for every return of the heap program a return of the
    list program with the same oracle left. *)
Lemma sim_outcomes {A B} (R : A -> B -> heap -> Prop) r r' :
  sim R r r' ->
  (forall f, r = Fault f <-> r' = Fault f) /\ (r = OutOfFuel <-> r' = OutOfFuel) /\
  (forall b m' o', r' = Ok (b, m') o' -> exists a, r = Ok a o' /\ R a b m').
Proof. intros H. split_and!; eauto using sim_Fault, sim_OutOfFuel, sim_Ok_r. Qed.

Lemma sim_weaken {A B} (R R' : A -> B -> heap -> Prop) r r' :
  (forall a b m, R a b m -> R' a b m) -> sim R r r' -> sim R' r r'.
Proof.
  intros HR. destruct r as [a o| |], r' as [[b m'] o'| |]; simpl; try done.
  intros [-> H]. split; [done|]. by apply HR.
Qed.

Lemma sim_bind {A B A' B'} (R : A -> B -> heap -> Prop) (R' : A' -> B' -> heap -> Prop)
    (x : M A) (k : A -> M A') (x' : HM B) (k' : B -> HM B') m o :
  sim R (x o) (x' m o) ->
  (forall a b m' o', R a b m' -> sim R' (k a o') (k' b m' o')) ->
  sim R' ((x ≫= k) o) ((x' ≫= k') m o).
Proof.
  intros Hx Hk. rewrite bind_unfold, hbind_unfold.
  destruct (x o) as [a o1| |], (x' m o) as [[b m'] o2| |]; simpl in *; try done.
  destruct Hx as [<- HR]. by apply Hk.
Qed.

(** A part of the heap program with no counterpart on lists: a read, or a
    walk. *)
Lemma sim_returns {B A' B'} (Q : B -> heap -> oracle -> Prop) (R' : A' -> B' -> heap -> Prop)
    (r : outcome A') (x' : HM B) (k' : B -> HM B') m o :
  returns Q (x' m o) ->
  (forall b m' o', Q b m' o' -> sim R' r (k' b m' o')) ->
  sim R' r ((x' ≫= k') m o).
Proof.
  intros Hx Hk. rewrite hbind_unfold.
  destruct (x' m o) as [[b m'] o2| |]; [|done..]. by apply Hk.
Qed.

(** The loops: one over a list in [M], one over a list of the same length
    in [HM]. *)
Lemma sim_foldM {A B A' B'} (I : nat -> A -> B -> heap -> Prop)
    (f : A -> A' -> M A) (f' : B -> B' -> HM B) l l' a b m o :
  length l = length l' ->
  I 0%nat a b m ->
  (forall j x x' a b m o, l !! j = Some x -> l' !! j = Some x' -> I j a b m ->
     sim (I (S j)) (f a x o) (f' b x' m o)) ->
  sim (I (length l)) (foldM f l a o) (hfoldM f' l' b m o).
Proof.
  revert I l' a b m o. induction l as [|x l IH]; intros I [|x' l'] a b m o Hlen HI Hf;
    try done.
  simpl. eapply sim_bind; [by apply (Hf 0%nat)|].
  intros a1 b1 m1 o1 H1. apply (IH (fun j => I (S j))); [by injection Hlen|done|].
  intros j. apply (Hf (S j)).
Qed.

(** A check is the same check on the heap. *)
Lemma sim_check {A' B'} (R' : A' -> B' -> heap -> Prop) b f
    (k : M A') (k' : HM B') m o :
  (b = true -> sim R' (k o) (k' m o)) ->
  sim R' ((check b f;; k) o) ((hcheck b f;; k') m o).
Proof. destruct b; [|done]. intros H. by apply H. Qed.

(** The loop over the buckets against a loop over a list of chains. *)
Lemma sim_for_buckets {A A' B} (I : nat -> A -> B -> heap -> Prop)
    (f : A -> A' -> M A) (l : list A')
    (t : carp_ht_struct) (body : B -> Z -> ptr -> HM B) a b m o :
  length l = Z.to_nat (h_size t) ->
  I 0%nat a b m ->
  (forall j x a b m o, l !! j = Some x -> I j a b m ->
     sim (I (S j)) (f a x o)
       ((load_cell (h_buckets t) (Z.of_nat j) ≫= body b (Z.of_nat j)) m o)) ->
  sim (I (Z.to_nat (h_size t))) (foldM f l a o) (for_buckets t body b m o).
Proof.
  intros Hlen HI Hbody. unfold for_buckets. rewrite <- Hlen.
  apply sim_foldM; [by rewrite length_seqZ|done|].
  intros j x x' a1 b1 m1 o1 Hx [-> Hj]%lookup_seqZ HIj. rewrite Z.add_0_l.
  by apply Hbody.
Qed.

(** ** Folds with positions *)

Lemma ifold_app {A B} (g : B -> Z -> A -> B) i l1 l2 b :
  ifold g i (l1 ++ l2) b = ifold g (i + Z.of_nat (length l1)) l2 (ifold g i l1 b).
Proof.
  revert i b. induction l1 as [|x l1 IH]; intros i b; simpl.
  - by rewrite Z.add_0_r.
  - rewrite IH. f_equal. lia.
Qed.

Lemma ifold_snoc {A B} (g : B -> Z -> A -> B) l x b :
  ifold g 0 (l ++ [x]) b = g (ifold g 0 l b) (Z.of_nat (length l)) x.
Proof. by rewrite ifold_app. Qed.

Lemma take_S_snoc {A} (l : list A) j x :
  l !! j = Some x -> take (S j) l = take j l ++ [x].
Proof. intros H. by rewrite (take_S_r _ _ _ H). Qed.
