(* ===== verification/RefineRead.v ===== *)
(** * RefineRead: the functions that read the table

    [carp_ht_used_ptr], [carp_ht_get_ptr] and [carp_ht_print_ptr] on a heap
    that holds a table return what [carp_ht_used], [carp_ht_get] and
    [carp_ht_print] return on that table, fault where they fault (the
    product and the quotient of line 65), leave the heap as it is and use
    no allocation.  Their walks end: a chain of the table is no longer than
    the bound they are given. *)

From stdpp Require Import gmap strings.
From S2P Require Import Prelude Machine CString Hash Alloc Table TableLemmas.
From S2P Require Import Lookup Delete Insert Resize Print.
From S2P Require Import Heap Program Repr Sim.

Section Read.
Context {P : Platform}.
Implicit Types (m : heap) (t : carp_ht_struct) (a l : loc) (L : list lchain)
  (lc : lchain) (o : oracle) (k : string).

(** ** Loops that read *)

(** A loop over the buckets whose body reads the heap and leaves it as it
    is computes a fold over the chains of the table. *)
Lemma for_buckets_read {A} (g : A -> Z -> lchain -> A) body t a L m acc o :
  table_at m t a L -> (Z.to_nat (h_size t) <= length L)%nat ->
  (forall acc j lc o, L !! j = Some lc ->
     body acc (Z.of_nat j) (head_ptr lc) m o = Ok (g acc (Z.of_nat j) lc, m) o) ->
  for_buckets t body acc m o = Ok (ifold g 0 (take (Z.to_nat (h_size t)) L) acc, m) o.
Proof.
  intros Hat Hlen Hbody.
  pose proof (returns_for_buckets
    (fun j acc' m' o' => acc' = ifold g 0 (take j L) acc /\ m' = m /\ o' = o)
    t body acc m o) as H.
  apply returns_Ok in H as (acc' & m' & o' & -> & -> & -> & ->); [done|done|].
  intros j acc1 m1 o1 Hj (-> & -> & ->).
  destruct (lookup_lt_is_Some_2 L j) as [lc Hlc]; [lia|].
  rewrite (hbind_Ok _ _ _ _ _ _ _
             (load_cell_at m t a L Hat (Z.of_nat j) lc o ltac:(lia)
                ltac:(by rewrite Nat2Z.id))).
  rewrite (Hbody _ _ _ _ Hlc). simpl.
  by rewrite (take_S_snoc _ _ _ Hlc), ifold_snoc, length_take_le by lia.
Qed.

Lemma ifold_total (l : list lchain) i acc :
  ifold (fun acc _ lc => acc + Z.of_nat (length lc)) i l acc =
  acc + total (forget <$> l).
Proof.
  revert i acc. induction l as [|lc l IH]; intros i acc.
  - simpl. rewrite total_nil. lia.
  - rewrite fmap_cons, total_cons. cbn [ifold]. rewrite IH.
    unfold forget at 2. rewrite length_fmap. lia.
Qed.

Lemma ifold_print (l : list lchain) i out :
  ifold (fun out i lc => out ++ print_bucket i (forget lc)) i l out =
  out ++ concat (imap (fun j c => print_bucket (i + Z.of_nat j) c) (forget <$> l)).
Proof.
  revert i out. induction l as [|lc l IH]; intros i out.
  - simpl. by rewrite app_nil_r.
  - rewrite fmap_cons. cbn [ifold imap concat]. rewrite IH, <- app_assoc, Z.add_0_r.
    do 3 f_equal. apply imap_ext. intros j c _. simpl. f_equal. lia.
Qed.

(** ** carp_ht_used *)

(** The walk of lines 59-62 counts the entries of a chain. *)
Lemma used_loop_linked n lc acc m o :
  linked m lc -> (length lc <= n)%nat ->
  used_loop n (head_ptr lc) acc m o = Ok (acc + Z.of_nat (length lc), m) o.
Proof.
  revert n acc. induction lc as [|le lc IH]; intros n acc Hl Hn.
  - destruct n; simpl; by rewrite Z.add_0_r.
  - destruct n as [|n]; [simpl in Hn; lia|]. destruct Hl as [Hle Hl]. simpl.
    rewrite (hbind_Ok _ _ _ _ _ _ _ (load_entry_Some _ _ _ _ o Hle)). simpl.
    rewrite IH by (done || simpl in Hn; lia). do 2 f_equal. lia.
Qed.

(** The loop of lines 57-63 counts the entries of the table. *)
Lemma used_count m t a L o :
  table_at m t a L -> (Z.to_nat (h_size t) <= length L)%nat ->
  for_buckets t (fun in_use _ base => used_loop (base.size m) base in_use) 0 m o =
  Ok (in_use (abs t L), m) o.
Proof.
  intros Hat Hlen.
  rewrite (for_buckets_read (fun acc _ lc => acc + Z.of_nat (length lc)) _ t a L);
    [|done..|].
  - rewrite ifold_total, Z.add_0_l.
    unfold in_use. by rewrite size_abs, buckets_abs, fmap_take.
  - intros acc j lc o' Hlc. apply used_loop_linked.
    + by eapply table_at_linked.
    + by eapply table_at_length.
Qed.

(** [carp_ht_used] on the heap is [carp_ht_used] on the table, the
    overflow of line 65 included. *)
Lemma carp_ht_used_ptr_sim m t a L o :
  table_at m t a L -> (Z.to_nat (h_size t) <= length L)%nat ->
  sim (fun u u' m' => u' = u /\ m' = m)
      (carp_ht_used (abs t L) o) (carp_ht_used_ptr t m o).
Proof.
  intros Hat Hlen. unfold carp_ht_used_ptr, carp_ht_used.
  rewrite hbind_unfold. simpl. rewrite hbind_unfold, (used_count m t a L) by done.
  cbn [fst snd].
  apply sim_check. intros _. apply sim_check. intros _. by apply sim_ret.
Qed.

(** When it returns, it returns what [carp_ht_used] returns. *)
Lemma carp_ht_used_ptr_Ok m t a L o u :
  table_at m t a L -> (Z.to_nat (h_size t) <= length L)%nat ->
  carp_ht_used (abs t L) o = Ok u o -> carp_ht_used_ptr t m o = Ok (u, m) o.
Proof.
  intros Hat Hlen Hu.
  destruct (sim_Ok_l _ _ _ _ _ (carp_ht_used_ptr_sim m t a L o Hat Hlen) Hu)
    as (u' & m' & -> & -> & ->).
  done.
Qed.

(** ** carp_ht_get *)

Lemma get_loop_ge oob k c j0 j : get_loop oob k c j0 = Some j -> (j0 <= j)%nat.
Proof.
  revert j0. induction c as [|e c IH]; intros j0; [done|]. simpl.
  destruct (strcmp (key e) k !=? 0); [|intros [= <-]; lia].
  destruct oob; [done|]. intros H%IH. lia.
Qed.

(** The walk of lines 169-173 returns the pointer to the entry the walk on
    the list returns the position of. *)
Lemma get_loop_ptr_linked n oob k lc j0 m o :
  linked m lc -> (length lc <= n)%nat ->
  get_loop_ptr n oob k (head_ptr lc) m o =
  Ok (from_option (fun j => nth_ptr lc (j - j0)) Null (get_loop oob k (forget lc) j0), m) o.
Proof.
  revert n j0. induction lc as [|le lc IH]; intros n j0 Hl Hn.
  - by destruct n.
  - destruct n as [|n]; [simpl in Hn; lia|]. destruct Hl as [Hle Hl]. simpl.
    rewrite (hbind_Ok _ _ _ _ _ _ _ (load_entry_Some _ _ _ _ o Hle)). simpl.
    destruct (strcmp (key le.2) k !=? 0);
      [|cbn [from_option nth_ptr]; by rewrite Nat.sub_diag].
    destruct oob; [done|].
    rewrite (IH n (S j0)) by (done || simpl in Hn; lia).
    destruct (get_loop false k (forget lc) (S j0)) as [j|] eqn:E; [|done].
    apply get_loop_ge in E. simpl. unfold nth_ptr.
    by replace (j - j0)%nat with (S (j - S j0)) by lia.
Qed.

Lemma carp_ht_get_ptr_eq m t a L k o :
  table_at m t a L -> usable t L ->
  carp_ht_get_ptr t k m o = Ok (ptr_of L (carp_ht_get (abs t L) k), m) o.
Proof.
  intros Hat [Hsz Hlen]. unfold carp_ht_get_ptr, carp_ht_get.
  pose proof (carp_ht_hash_lt k (h_size t) Hsz) as Hh.
  destruct (lookup_lt_is_Some_2 L (Z.to_nat (carp_ht_hash k (h_size t)))) as [lc Hlc];
    [lia|].
  rewrite (hbind_Ok _ _ _ _ _ _ _ (load_cell_at m t a L Hat _ lc o (proj1 Hh) Hlc)).
  rewrite hbind_unfold. simpl.
  rewrite (get_loop_ptr_linked _ _ _ lc 0)
    by eauto using table_at_linked, table_at_length.
  rewrite (bucket_abs t L _ lc) by (lia || done).
  destruct (get_loop _ k (forget lc) 0) as [j|]; [|done].
  simpl. by rewrite Hlc, Nat.sub_0_r.
Qed.

(** ** carp_ht_print *)

(** The loop of lines 217-219 writes the records of a chain that is not
    empty. *)
Lemma print_loop_linked n i le lc m o :
  linked m (le :: lc) -> (length (le :: lc) <= n)%nat ->
  print_loop n i (Addr le.1) m o = Ok (print_chain i le.2 (forget lc), m) o.
Proof.
  revert n le. induction lc as [|le' lc IH]; intros n le [Hle Hl] Hn;
    (destruct n as [|n]; [simpl in Hn; lia|]); simpl;
    rewrite (hbind_Ok _ _ _ _ _ _ _ (load_entry_Some _ _ _ _ o Hle)); simpl; [done|].
  rewrite hbind_unfold, (IH n le') by (done || simpl in *; lia). done.
Qed.

(** Lines 214-223 write the dump of the table behind the header. *)
Lemma print_loops m t a L u o :
  table_at m t a L -> (Z.to_nat (h_size t) <= length L)%nat ->
  (n ← bound;
   out ← for_buckets t (fun out i base =>
            if is_null base then mret out
            else l ← print_loop n i base; mret (out ++ l ++ [LF]))
          [header u (h_size t)];
   mret (out ++ [footer])) m o = Ok (dump u (abs t L), m) o.
Proof.
  intros Hat Hlen. rewrite hbind_unfold. simpl. rewrite hbind_unfold.
  rewrite (for_buckets_read (fun out i lc => out ++ print_bucket i (forget lc)) _ t a L);
    [|done..|].
  - cbn [fst snd]. rewrite ifold_print. unfold dump.
    rewrite size_abs, buckets_abs, fmap_take. cbn [app]. done.
  - intros out j lc o' Hlc. destruct lc as [|le lc]; simpl; [by rewrite app_nil_r|].
    rewrite hbind_unfold, (print_loop_linked _ _ le lc)
      by eauto using table_at_linked, table_at_length.
    done.
Qed.

Lemma carp_ht_print_ptr_sim m t a L o :
  table_at m t a L -> (Z.to_nat (h_size t) <= length L)%nat ->
  sim (fun out out' m' => out' = out /\ m' = m)
      (carp_ht_print (abs t L) o) (carp_ht_print_ptr t m o).
Proof.
  intros Hat Hlen. unfold carp_ht_print_ptr, carp_ht_print.
  eapply sim_bind; [by apply (carp_ht_used_ptr_sim m t a L)|].
  intros u u' m' o' [-> ->]. rewrite (print_loops m t a L) by done. by split.
Qed.

(** The pointer of an entry of the table points to the block of the
    entry. *)
Lemma deref_ptr_of m t a L p e :
  table_at m t a L -> deref (abs t L) p = Some e ->
  exists l next, ptr_of L p = Addr l /\ m !! l = Some (Entry e next).
Proof.
  intros Hat. destruct p as [|i j]; [done|]. simpl. rewrite list_lookup_fmap.
  destruct (L !! i) as [lc|] eqn:HL; [|done]. simpl. unfold forget, nth_ptr.
  rewrite list_lookup_fmap. destruct (lc !! j) as [le|] eqn:Hj; [|done].
  intros [= <-]. exists le.1, (head_ptr (drop (S j) lc)). split; [done|].
  eapply linked_lookup; eauto using table_at_linked.
Qed.

(** ** The functions *)

(** C16. On a heap that holds a table, carp_ht_get returns without a fault
    and without a change of the heap: NULL when the lookup of the table
    returns NULL, and otherwise a pointer to a live block that holds the
    entry the lookup of the table points to. *)
Theorem carp_ht_get_ptr_refines m t a L k o :
  table_at m t a L -> usable t L ->
  carp_ht_get_ptr t k m o = Ok (ptr_of L (carp_ht_get (abs t L) k), m) o /\
  (carp_ht_get (abs t L) k = NULL -> ptr_of L (carp_ht_get (abs t L) k) = Null) /\
  (forall e, deref (abs t L) (carp_ht_get (abs t L) k) = Some e ->
     exists next,
       load_entry (ptr_of L (carp_ht_get (abs t L) k)) m o = Ok ((e, next), m) o).
Proof.
  intros Hat Hus. split; [by eapply carp_ht_get_ptr_eq|]. split; [by intros ->|].
  intros e He. destruct (deref_ptr_of m t a L _ e Hat He) as (l & next & -> & Hl).
  exists next. by apply load_entry_Some.
Qed.

(** C25. On a heap that holds a table, carp_ht_used and carp_ht_print do
    what they do on that table, whatever the addresses of its blocks: they
    stop with the overflow of the product of line 65 when it stops there,
    and otherwise return the occupancy and the text of the table and leave
    the heap as it is. *)
Theorem carp_ht_print_ptr_refines m t a L o :
  table_at m t a L -> usable t L ->
  sim (fun u u' m' => u' = u /\ m' = m)
      (carp_ht_used (abs t L) o) (carp_ht_used_ptr t m o) /\
  sim (fun out out' m' => out' = out /\ m' = m)
      (carp_ht_print (abs t L) o) (carp_ht_print_ptr t m o) /\
  forall out o', carp_ht_print (abs t L) o = Ok out o' ->
    carp_ht_print_ptr t m o = Ok (out, m) o'.
Proof.
  intros Hat [_ Hlen].
  split_and!; [by eapply carp_ht_used_ptr_sim|by eapply carp_ht_print_ptr_sim|].
  intros out o' Hp.
  destruct (sim_Ok_l _ _ _ _ _ (carp_ht_print_ptr_sim m t a L o Hat Hlen) Hp)
    as (out' & m' & -> & -> & ->).
  done.
Qed.

End Read.

Lemma carp_ht_get_ptr_refines_witness :
  carp_ht_get_ptr (P:=lp64_roomy) example_struct "d" example_heap [] =
  Ok (Addr 3, example_heap) [].
Proof.
  destruct (carp_ht_get_ptr_refines (P:=lp64_roomy) example_heap example_struct 1
              example_chains "d" [] example_table_at example_usable) as [H _].
  rewrite H. reflexivity.
Defined.

Lemma carp_ht_print_ptr_refines_witness :
  carp_ht_print_ptr (P:=lp64_roomy) example_struct example_heap [] =
  Ok (dump 66 (abs example_struct example_chains), example_heap) [].
Proof.
  destruct (carp_ht_print_ptr_refines (P:=lp64_roomy) example_heap example_struct 1
              example_chains [] example_table_at example_usable) as (_ & _ & H).
  by apply H.
Defined.
