(* ===== verification/RefineFree.v ===== *)
(** * RefineFree: the functions that release blocks

    [carp_ht_del_ptr] on a heap that holds a table returns the status of
    [carp_ht_del] and leaves a heap that holds the table [carp_ht_del]
    returns, with the block of the entry it unlinked released and no other
    block touched.  [carp_ht_cleanup_ptr] releases the blocks of the chains
    of the buckets below [size] and the array, and leaves the other blocks
    as they were; the struct keeps the pointer to the released array. *)

From stdpp Require Import gmap strings.
From S2P Require Import Prelude Machine CString Hash Alloc Table TableLemmas.
From S2P Require Import Heap Program Repr Sim RefineRead.

(** ** Definitions *)

(** The heap [m'] holds the chain [lc'] where [m] held [lc]: [lc'] is made
    of blocks of [lc], the blocks of [lc] that are not in [lc'] are
    released, and no block outside [lc] is touched. *)
Record relinked (m : heap) (lc : lchain) (m' : heap) (lc' : lchain) : Prop := {
  rl_linked : linked m' lc';
  rl_nodup : NoDup lc'.*1;
  rl_sub : forall l, l ∈ lc'.*1 -> l ∈ lc.*1;
  rl_frame : forall l, l ∉ lc.*1 -> m' !! l = m !! l;
  rl_dom : forall l, l ∈ dom m' <-> l ∈ dom m /\ (l ∈ lc.*1 -> l ∈ lc'.*1);
}.

(** The heap without the blocks at [ls]. *)
Definition release (ls : list loc) (m : heap) : heap :=
  foldl (fun m l => delete l m) m ls.

(** What [carp_ht_cleanup] leaves of the example heap. *)
Definition example_garbage : heap :=
  <[4%positive := Entry {| key := "g"; value := 7 |} Null]> ∅.

(** ** Chains *)

Section Chains.
Implicit Types (m : heap) (lc : lchain) (l : loc) (o : oracle) (k : string).

(** An entry in front of a chain that was worked on behind it. *)
Lemma relinked_cons m lc m' lc' le :
  relinked m lc m' lc' -> head_ptr lc' = head_ptr lc ->
  m !! le.1 = Some (Entry le.2 (head_ptr lc)) -> le.1 ∉ lc.*1 ->
  relinked m (le :: lc) m' (le :: lc').
Proof.
  intros [Hl Hnd Hsub Hfr Hdom] Hh Hle Hout. split.
  - split; [|done]. by rewrite Hh, Hfr.
  - rewrite fmap_cons. apply list.NoDup_cons. split; [|done]. intros ?%Hsub. done.
  - intros l. rewrite !fmap_cons, !elem_of_cons. naive_solver.
  - intros l. rewrite fmap_cons, elem_of_cons. intros Hl'. apply Hfr. naive_solver.
  - intros l. rewrite Hdom, !fmap_cons, !elem_of_cons.
    destruct (decide (l = le.1)) as [->|]; naive_solver.
Qed.

(** The walk of lines 102-113 behind the entry [le], which [prev] points
    to. *)
Lemma del_loop_ptr_linked n k le lc m o :
  linked m (le :: lc) -> NoDup (le :: lc).*1 -> lc <> [] -> (length lc <= n)%nat ->
  returns (fun st m' o' => o' = o /\
     match del_loop k (forget lc) with
     | None => st = 2 /\ m' = m
     | Some c' => st = 0 /\ exists lc', forget lc' = c' /\
         relinked m (le :: lc) m' (le :: lc')
     end) (del_loop_ptr n k (Addr le.1) (head_ptr lc) m o).
Proof.
  revert n le m. induction lc as [|le1 lc1 IH]; intros n le m [Hle Hl] Hnd Hne Hn; [done|].
  destruct n as [|n]; [simpl in Hn; lia|]. destruct Hl as [Hle1 Hl1].
  rewrite !fmap_cons in Hnd. apply list.NoDup_cons in Hnd as [Hout Hnd].
  pose proof Hnd as [Hout1 Hnd1]%list.NoDup_cons.
  cbn [del_loop_ptr head_ptr]. simpl in Hle.
  rewrite (hbind_Ok _ _ _ _ _ _ _ (load_entry_Some _ _ _ _ o Hle1)). cbn [fst snd].
  cbn [forget fmap list_fmap del_loop]. fold (forget lc1).
  destruct (strcmp (key le1.2) k =? 0) eqn:Ek; cbn [negb].
  - (* the entry found: unlink and release *)
    rewrite (hbind_Ok _ _ _ _ _ _ _ (store_next_Some _ _ _ _ (head_ptr lc1) o Hle)).
    erewrite hbind_Ok; [|apply free_Some with (Entry le1.2 (head_ptr lc1));
      rewrite lookup_insert_ne by set_solver; done].
    hret. split; [done|]. split; [done|]. exists lc1. split; [done|].
    assert (le.1 <> le1.1) by set_solver. split.
    + split.
      * rewrite lookup_delete_ne, lookup_insert_eq by done. done.
      * by apply linked_delete_ne, linked_insert_ne; [|set_solver|].
    + rewrite fmap_cons. apply list.NoDup_cons. set_solver.
    + intros l. rewrite !fmap_cons, !elem_of_cons. naive_solver.
    + intros l. rewrite !fmap_cons, !elem_of_cons. intros Hl.
      rewrite lookup_delete_ne, lookup_insert_ne by naive_solver. done.
    + intros l. rewrite dom_delete, dom_insert, !fmap_cons, !elem_of_cons.
      assert (le.1 ∈ dom m) by (apply elem_of_dom; eauto).
      destruct (decide (l = le1.1)) as [->|]; [set_solver|].
      destruct (decide (l = le.1)) as [->|]; set_solver.
  - (* another key: go on, or give up at the end of the chain *)
    rewrite is_null_head_ptr. destruct lc1 as [|le2 lc2]; [done|].
    rewrite bool_decide_eq_false_2 by done.
    eapply returns_weaken; [|apply (IH n le1 m); try done; simpl in *; lia].
    intros st m' o' [-> Hres]. split; [done|].
    change (forget (le2 :: lc2)) with (le2.2 :: forget lc2) in *.
    destruct (del_loop k (le2.2 :: forget lc2)) as [c'|]; [|done].
    destruct Hres as (-> & lc' & <- & Hrl). split; [done|].
    exists (le1 :: lc'). split; [done|].
    apply relinked_cons; [done|done|done|]. rewrite fmap_cons. set_solver.
Qed.

End Chains.

(** ** carp_ht_del *)

Section Delete.
Context {P : Platform}.
Implicit Types (m : heap) (t : carp_ht_struct) (a l : loc) (L : list lchain)
  (lc : lchain) (o : oracle) (k : string).

Lemma abs_insert t L i lc :
  abs t (<[Z.to_nat i := lc]> L) = store (abs t L) i (forget lc).
Proof. unfold abs, store. simpl. by rewrite list_fmap_insert. Qed.

(** The garbage does not grow when every block a chain loses is
    released. *)
Lemma garbage_store m m' a L i lc lc' :
  L !! i = Some lc ->
  (forall l, l ∈ dom m' <-> l ∈ dom m /\ (l ∈ lc.*1 -> l ∈ lc'.*1)) ->
  (forall l, l ∈ lc'.*1 -> l ∈ lc.*1) ->
  garbage m' a (<[i := lc']> L) = garbage m a L.
Proof.
  intros Hi Hdom Hsub. apply set_eq. intros l. unfold garbage.
  rewrite !elem_of_difference, !elem_of_list_to_set, !elem_of_cons, Hdom.
  rewrite (locs_insert L i lc lc' Hi), (locs_split L i lc Hi), !elem_of_app.
  specialize (Hsub l). tauto.
Qed.

(** A table one chain of which was worked on. *)
Lemma table_at_relinked m m' t a L i lc lc' :
  table_at m t a L -> L !! i = Some lc ->
  relinked m lc m' lc' -> head_ptr lc' = head_ptr lc ->
  table_at m' t a (<[i := lc']> L) /\ evolves m a L m' a (<[i := lc']> L) /\
  garbage m' a (<[i := lc']> L) = garbage m a L.
Proof.
  intros Hat Hi [Hl Hnd Hsub Hfr Hdom] Hh.
  assert (a ∉ lc.*1) as Ha.
  { intros Hin. eapply table_at_array_fresh; [done|]. by eapply locs_lookup. }
  destruct (table_at_store m m' t a L i lc lc' Hat Hi) as [H1 H2]; try done.
  - rewrite Hfr, list_fmap_insert, Hh by done.
    rewrite list_insert_id by (by rewrite list_lookup_fmap, Hi).
    apply (at_array _ _ _ _ Hat).
  - intros l ?%Hsub. by left.
  - intros l _ Hout. apply Hfr. set_solver.
  - split_and!; [done..|]. by eapply garbage_store.
Qed.

(** Lines 96-97: the first entry of a chain is unlinked from the array cell
    and released. *)
Lemma del_head_ptr m t a L i le lc1 o :
  table_at m t a L -> 0 <= i -> L !! Z.to_nat i = Some (le :: lc1) ->
  returns (fun st m' o' => o' = o /\ st = 0 /\
     table_at m' t a (<[Z.to_nat i := lc1]> L) /\
     evolves m a L m' a (<[Z.to_nat i := lc1]> L) /\
     garbage m' a (<[Z.to_nat i := lc1]> L) = garbage m a L)
    ((store_cell (h_buckets t) i (head_ptr lc1);; free (Addr le.1);; mret 0) m o).
Proof.
  intros Hat Hi Hlc.
  pose proof (table_at_linked _ _ _ _ Hat _ _ Hlc) as [Hle Hl1].
  pose proof (table_at_NoDup _ _ _ _ Hat _ _ Hlc) as [Hout Hnd1]%list.NoDup_cons.
  pose proof (at_array _ _ _ _ Hat) as Ha.
  pose proof (lookup_lt_Some _ _ _ Hlc) as Hlt.
  assert (a ∉ (le :: lc1).*1) as Hfresh.
  { intros Hin. eapply table_at_array_fresh; [done|]. by eapply locs_lookup. }
  assert (a <> le.1) as Hne by (intros ->; apply Hfresh; set_solver).
  rewrite (at_buckets _ _ _ _ Hat).
  erewrite hbind_Ok; [|apply store_cell_Some with (ps := head_ptr <$> L);
    [done|rewrite length_fmap; lia]].
  erewrite hbind_Ok; [|apply free_Some with (Entry le.2 (head_ptr lc1));
    by rewrite lookup_insert_ne].
  hret. split; [done|]. split; [done|].
  edestruct (table_at_store m) as [H1 H2]; [exact Hat|exact Hlc| | | | | |
    split_and!; [exact H1|exact H2|]].
  - by rewrite lookup_delete_ne, lookup_insert_eq, list_fmap_insert.
  - apply linked_delete_ne; [done|]. apply linked_insert_ne; [|done].
    intros Hin. apply Hfresh. set_solver.
  - done.
  - intros l Hin. left. set_solver.
  - intros l _ Hout'. rewrite lookup_delete_ne, lookup_insert_ne; set_solver.
  - eapply garbage_store; [done| |set_solver].
    intros l. rewrite dom_delete, dom_insert.
    assert (a ∈ dom m) by (apply elem_of_dom; eauto).
    destruct (decide (l = le.1)) as [->|]; set_solver.
Qed.

Lemma carp_ht_del_ptr_refines m t a L k o :
  table_at m t a L -> usable t L ->
  returns (fun st m' o' => o' = o /\ st = (carp_ht_del (abs t L) k).1 /\
     exists L', (carp_ht_del (abs t L) k).2 = abs t L' /\ table_at m' t a L' /\
       evolves m a L m' a L' /\ garbage m' a L' = garbage m a L /\
       length L' = length L)
    (carp_ht_del_ptr t k m o).
Proof.
  intros Hat [Hsz Hlen]. unfold carp_ht_del_ptr, carp_ht_del. rewrite size_abs.
  pose proof (carp_ht_hash_lt k (h_size t) Hsz) as Hh.
  set (hash := carp_ht_hash k (h_size t)) in *.
  destruct (lookup_lt_is_Some_2 L (Z.to_nat hash)) as [lc Hlc]; [lia|].
  pose proof (table_at_linked _ _ _ _ Hat _ _ Hlc) as Hl.
  pose proof (table_at_NoDup _ _ _ _ Hat _ _ Hlc) as Hnd.
  pose proof (table_at_length _ _ _ _ Hat _ _ Hlc) as Hn.
  rewrite (hbind_Ok _ _ _ _ _ _ _ (load_cell_at m t a L Hat _ lc o (proj1 Hh) Hlc)).
  rewrite (bucket_abs t L _ lc) by (lia || done).
  destruct lc as [|le lc1].
  { hret. split_and!; [done..|]. exists L. eauto 10 using evolves_refl. }
  destruct Hl as [Hle Hl1]. cbn [head_ptr is_null forget fmap list_fmap].
  fold (forget lc1).
  rewrite (hbind_Ok _ _ _ _ _ _ _ (load_entry_Some _ _ _ _ o Hle)). cbn [fst snd].
  destruct (strcmp (key le.2) k =? 0) eqn:Ek.
  - (* the head of the chain *)
    eapply returns_weaken;
      [|apply (del_head_ptr m t a L hash le lc1 o Hat (proj1 Hh) Hlc)].
    intros st m' o' (-> & -> & H1 & H2 & H3). split_and!; [done..|].
    exists (<[Z.to_nat hash := lc1]> L). rewrite <- abs_insert.
    split_and!; try done. by rewrite length_insert.
  - (* behind the head *)
    rewrite hbind_unfold. cbn [bound ret fst snd].
    destruct (base.size m) as [|n] eqn:En; [simpl in Hn; lia|].
    cbn [del_loop_ptr del_loop negb].
    rewrite (hbind_Ok _ _ _ _ _ _ _ (load_entry_Some _ _ _ _ o Hle)). cbn [fst snd].
    rewrite Ek. cbn [negb]. rewrite is_null_head_ptr.
    destruct lc1 as [|le2 lc2].
    { hret. split_and!; [done..|]. exists L. eauto 10 using evolves_refl. }
    rewrite bool_decide_eq_false_2 by done.
    eapply returns_weaken;
      [|apply (del_loop_ptr_linked n k le (le2 :: lc2) m o); try done; simpl in *; lia].
    intros st m' o' [-> Hres]. split; [done|].
    change (forget (le2 :: lc2)) with (le2.2 :: forget lc2) in *.
    destruct (del_loop k (le2.2 :: forget lc2)) as [c'|]; cbn [fmap option_fmap option_map].
    + destruct Hres as (-> & lc' & <- & Hrl). split; [done|].
      exists (<[Z.to_nat hash := le :: lc']> L). rewrite abs_insert.
      split; [done|].
      edestruct (table_at_relinked m m') as (H1 & H2 & H3);
        [exact Hat|exact Hlc|exact Hrl|done|].
      by rewrite length_insert.
    + destruct Hres as [-> ->]. split; [done|]. exists L. eauto 10 using evolves_refl.
Qed.

End Delete.

(** ** carp_ht_cleanup *)

Section Release.
Implicit Types (m : heap) (ls : list loc) (l : loc).

Lemma release_cons l ls m : release (l :: ls) m = release ls (delete l m).
Proof. done. Qed.

Lemma release_app ls1 ls2 m : release (ls1 ++ ls2) m = release ls2 (release ls1 m).
Proof. apply foldl_app. Qed.

Lemma lookup_release ls m l :
  release ls m !! l = if decide (l ∈ ls) then None else m !! l.
Proof.
  revert m. induction ls as [|l' ls IH]; intros m; [done|].
  rewrite release_cons, IH. destruct (decide (l = l')) as [->|Hne].
  - rewrite lookup_delete_eq. rewrite (decide_True (P := l' ∈ l' :: ls)) by set_solver.
    by case_decide.
  - rewrite lookup_delete_ne by done. repeat case_decide; set_solver.
Qed.

Lemma lookup_release_ne ls m l : l ∉ ls -> release ls m !! l = m !! l.
Proof. intros. rewrite lookup_release. by case_decide. Qed.

Lemma elem_of_dom_release ls m l : l ∈ dom (release ls m) <-> l ∈ dom m /\ l ∉ ls.
Proof.
  rewrite !elem_of_dom, lookup_release. case_decide; [|naive_solver].
  split; [by intros []|naive_solver].
Qed.

End Release.

Section Cleanup.
Context {P : Platform}.
Implicit Types (m : heap) (t : carp_ht_struct) (a l : loc) (L : list lchain)
  (lc : lchain) (o : oracle).

(** The walk of lines 234-238 releases the blocks of a chain, from its
    head on. *)
Lemma free_loop_linked n lc m o :
  linked m lc -> NoDup lc.*1 -> (length lc <= n)%nat ->
  free_loop n (head_ptr lc) m o = Ok (tt, release lc.*1 m) o.
Proof.
  revert n m. induction lc as [|le lc IH]; intros n m Hl Hnd Hn; [by destruct n|].
  destruct n as [|n]; [simpl in Hn; lia|]. destruct Hl as [Hle Hl].
  rewrite fmap_cons in *. apply list.NoDup_cons in Hnd as [Hout Hnd].
  cbn [free_loop head_ptr].
  rewrite (hbind_Ok _ _ _ _ _ _ _ (load_entry_Some _ _ _ _ o Hle)).
  rewrite (hbind_Ok _ _ _ _ _ _ _ (free_Some _ _ _ o Hle)). cbn [fst snd].
  rewrite IH; [done|by apply linked_delete_ne|done|simpl in Hn; lia].
Qed.

Lemma locs_take_S L j lc :
  L !! j = Some lc -> locs (take (S j) L) = locs (take j L) ++ lc.*1.
Proof.
  intros H. rewrite (take_S_r _ _ _ H), locs_app, locs_cons.
  unfold locs at 3. simpl. by rewrite app_nil_r.
Qed.

(** The chain of bucket [j] and the chains of the buckets below it share
    no block. *)
Lemma locs_take_disjoint L j lc l :
  NoDup (locs L) -> L !! j = Some lc -> l ∈ lc.*1 -> l ∉ locs (take j L).
Proof.
  intros Hnd Hj Hl Hin. rewrite (locs_split L j lc Hj) in Hnd.
  apply list.NoDup_app in Hnd as (_ & Hd & _). apply (Hd l Hin). set_solver.
Qed.

Lemma carp_ht_cleanup_ptr_eq m t a L o :
  table_at m t a L -> (Z.to_nat (h_size t) <= length L)%nat ->
  carp_ht_cleanup_ptr t m o =
  Ok (tt, delete a (release (locs (take (Z.to_nat (h_size t)) L)) m)) o.
Proof.
  intros Hat Hlen. unfold carp_ht_cleanup_ptr. rewrite hbind_unfold.
  cbn [bound ret fst snd].
  pose proof (at_nodup _ _ _ _ Hat) as [Ha Hnd]%list.NoDup_cons.
  pose proof (returns_for_buckets
    (fun j (_ : unit) m' o' => m' = release (locs (take j L)) m /\ o' = o)
    t (fun _ _ base => free_loop (base.size m) base) tt m o) as H.
  apply returns_Ok in H as ([] & m' & o' & Hrun & -> & ->); [|done|].
  - rewrite (hbind_Ok _ _ _ _ _ _ _ Hrun). rewrite (at_buckets _ _ _ _ Hat).
    apply free_Some with (Array (head_ptr <$> L)).
    rewrite lookup_release_ne; [apply (at_array _ _ _ _ Hat)|].
    intros Hin. apply Ha. unfold locs in *.
    rewrite <- (take_drop (Z.to_nat (h_size t)) L), concat_app, fmap_app. set_solver.
  - intros j [] m1 o1 Hj [-> ->].
    destruct (lookup_lt_is_Some_2 L j) as [lc Hlc]; [lia|].
    rewrite (at_buckets _ _ _ _ Hat).
    erewrite hbind_Ok; [|apply load_cell_Some with (head_ptr <$> L);
      [|lia|by rewrite Nat2Z.id, list_lookup_fmap, Hlc]].
    + rewrite free_loop_linked.
      * hret. by rewrite (locs_take_S _ _ _ Hlc), release_app.
      * apply (linked_frame m); [|by eapply table_at_linked].
        intros l Hl. apply lookup_release_ne. by eapply locs_take_disjoint.
      * by eapply table_at_NoDup.
      * by eapply table_at_length.
    + rewrite lookup_release_ne; [apply (at_array _ _ _ _ Hat)|].
      intros Hin. apply Ha. unfold locs in *.
      rewrite <- (take_drop j L), concat_app, fmap_app. set_solver.
Qed.

(** The blocks [carp_ht_cleanup] releases are no blocks of the heap. *)
Lemma lookup_cleanup m a ls l :
  l ∈ a :: ls -> delete a (release ls m) !! l = None.
Proof.
  intros Hl. destruct (decide (l = a)) as [->|Hne]; [apply lookup_delete_eq|].
  rewrite lookup_delete_ne, lookup_release by done.
  apply elem_of_cons in Hl as [?|?]; [done|]. by rewrite decide_True.
Qed.

(** What is left of the heap is what the table did not reach. *)
Lemma dom_cleanup m a L :
  dom (delete a (release (locs L) m)) = garbage m a L.
Proof.
  apply set_eq. intros l. unfold garbage.
  rewrite dom_delete, !elem_of_difference, elem_of_dom_release, elem_of_singleton.
  rewrite elem_of_list_to_set, elem_of_cons. tauto.
Qed.

(** A read of the array of a struct whose array was released. *)
Lemma load_cell_dangling m a i o :
  m !! a = None -> load_cell (Addr a) i m o = Fault BadPointer.
Proof.
  intros H. unfold load_cell, load_cells.
  by rewrite !hbind_unfold, (load_None _ _ _ H).
Qed.

Lemma for_buckets_dangling {A} t a (body : A -> Z -> ptr -> HM A) x m o :
  h_buckets t = Addr a -> 0 < h_size t -> m !! a = None ->
  for_buckets t body x m o = Fault BadPointer.
Proof.
  intros Hb Hsz H. unfold for_buckets.
  rewrite (seqZ_cons 0 (h_size t)) by done. cbn [hfoldM].
  by rewrite Hb, !hbind_unfold, load_cell_dangling.
Qed.

(** ** The functions *)

(** C15. On a heap that holds a table carp_ht_del returns, with the status
    carp_ht_del returns on the table, and leaves a heap that holds the
    table it leaves, at the same array; blocks outside the table are
    untouched and no block becomes unreachable: the entry unlinked is
    released. *)
Theorem carp_ht_del_ptr_correct m t a L k o :
  table_at m t a L -> usable t L ->
  exists m' L',
    carp_ht_del_ptr t k m o = Ok ((carp_ht_del (abs t L) k).1, m') o /\
    (carp_ht_del (abs t L) k).2 = abs t L' /\
    table_at m' t a L' /\ usable t L' /\ evolves m a L m' a L' /\
    garbage m' a L' = garbage m a L.
Proof.
  intros Hat Hus.
  destruct (returns_Ok _ _ (carp_ht_del_ptr_refines m t a L k o Hat Hus))
    as (st & m' & o' & Hrun & -> & -> & L' & Habs & Hat' & Hev & Hg & Hlen).
  exists m', L'. split_and!; try done. destruct Hus as [Hsz HL]. split; [done|lia].
Qed.

(** C13. carp_ht_cleanup releases every block of the table and nothing
    else: the heap it leaves is the garbage of the heap it was given,
    untouched.  Blocks that carp_ht_set cut off stay in the heap. *)
Theorem carp_ht_cleanup_ptr_releases m t a L o :
  table_at m t a L -> length L = Z.to_nat (h_size t) ->
  exists m',
    carp_ht_cleanup_ptr t m o = Ok (tt, m') o /\
    dom m' = garbage m a L /\
    (forall l, l ∈ garbage m a L -> m' !! l = m !! l).
Proof.
  intros Hat Hlen. eexists. split; [apply carp_ht_cleanup_ptr_eq; [done|lia]|].
  rewrite <- Hlen, firstn_all. split; [apply dom_cleanup|].
  intros l Hl. unfold garbage in Hl. apply elem_of_difference in Hl as [_ Hl].
  rewrite elem_of_list_to_set in Hl.
  rewrite lookup_delete_ne, lookup_release_ne; [done| |];
    intros H; apply Hl, elem_of_cons; [by right|by left].
Qed.

(** C14. carp_ht_cleanup leaves the pointer to the array in the struct: a
    carp_ht_get, a carp_ht_del or a second carp_ht_cleanup on the struct
    reads the released array. *)
Theorem carp_ht_cleanup_ptr_dangling m t a L k o m' :
  table_at m t a L -> usable t L ->
  carp_ht_cleanup_ptr t m o = Ok (tt, m') o ->
  carp_ht_get_ptr t k m' o = Fault BadPointer /\
  carp_ht_del_ptr t k m' o = Fault BadPointer /\
  carp_ht_cleanup_ptr t m' o = Fault BadPointer.
Proof.
  intros Hat [Hsz Hlen]. rewrite (carp_ht_cleanup_ptr_eq m t a L) by done.
  intros [= <-]. pose proof (at_buckets _ _ _ _ Hat) as Hb.
  set (m' := delete a _). assert (m' !! a = None) as Ha by apply lookup_delete_eq.
  unfold carp_ht_get_ptr, carp_ht_del_ptr, carp_ht_cleanup_ptr.
  rewrite Hb, !hbind_unfold, !load_cell_dangling by done. cbn [bound ret fst snd].
  rewrite hbind_unfold, (for_buckets_dangling t a) by (done || lia). done.
Qed.

End Cleanup.

Lemma carp_ht_del_ptr_correct_witness :
  exists m' L',
    carp_ht_del_ptr (P:=lp64_roomy) example_struct "d" example_heap [] =
      Ok ((carp_ht_del (P:=lp64_roomy) (abs example_struct example_chains) "d").1, m') [] /\
    (carp_ht_del (P:=lp64_roomy) (abs example_struct example_chains) "d").2 =
      abs example_struct L' /\
    table_at m' example_struct 1 L' /\ usable (P:=lp64_roomy) example_struct L' /\
    evolves example_heap 1 example_chains m' 1 L' /\
    garbage m' 1 L' = garbage example_heap 1 example_chains.
Proof.
  exact (carp_ht_del_ptr_correct (P:=lp64_roomy) example_heap example_struct 1
           example_chains "d" [] example_table_at example_usable).
Defined.

Lemma carp_ht_cleanup_ptr_releases_witness :
  exists m',
    carp_ht_cleanup_ptr example_struct example_heap [] = Ok (tt, m') [] /\
    dom m' = garbage example_heap 1 example_chains /\
    (forall l, l ∈ garbage example_heap 1 example_chains -> m' !! l = example_heap !! l).
Proof.
  exact (carp_ht_cleanup_ptr_releases example_heap example_struct 1
           example_chains [] example_table_at eq_refl).
Defined.

Lemma carp_ht_cleanup_ptr_dangling_witness :
  carp_ht_get_ptr (P:=lp64_roomy) example_struct "a" example_garbage [] =
    Fault BadPointer /\
  carp_ht_del_ptr (P:=lp64_roomy) example_struct "a" example_garbage [] =
    Fault BadPointer /\
  carp_ht_cleanup_ptr example_struct example_garbage [] =
    Fault BadPointer.
Proof.
  apply (carp_ht_cleanup_ptr_dangling (P:=lp64_roomy) example_heap example_struct 1
           example_chains "a" [] _ example_table_at example_usable).
  by vm_compute.
Defined.
