(* ===== verification/RefineSet.v ===== *)
(** * RefineSet: carp_ht_init and the body of carp_ht_set on the heap

    [carp_ht_init_ptr] and [set_body_ptr] against [carp_ht_init] and
    [set_body]: the same status or the same fault under every oracle, and a
    heap that holds the table the list program returns.  The three ways of
    [set_body] are three ways of the heap: a new block put in the array
    cell, whose chain stays in the heap with no pointer to it; a value
    written into a block of the chain; a new block linked behind the last
    block of the chain. *)

From stdpp Require Import gmap strings.
From S2P Require Import Prelude Machine CString Hash Alloc Table TableLemmas.
From S2P Require Import Heap Program Repr Sim RefineRead RefineFree.

(** ** Definitions *)

(** The blocks an insertion of [k] leaves in the heap with no pointer to
    them: the chain of the bucket of [k], when the lookup of line 132
    returns NULL. *)
Definition evicted {P : Platform} (t : carp_ht_struct) (L : list lchain) (k : string)
    : gset loc :=
  match carp_ht_get (abs t L) k with
  | NULL => list_to_set (default [] (L !! Z.to_nat (carp_ht_hash k (h_size t)))).*1
  | At _ _ => ∅
  end.

(** What an operation that keeps the array promises, against the result
    [r] of the list program: the status, and a heap that holds the table
    of [r] at the same array, with as many buckets. *)
Definition kept {P : Platform} (m : heap) (t : carp_ht_struct) (a : loc) (L : list lchain)
    (G : gset loc) (r : Z * carp_ht) (st : Z) (m' : heap) : Prop :=
  r.1 = st /\ exists L', r.2 = abs t L' /\ table_at m' t a L' /\ length L' = length L /\
    evolves m a L m' a L' /\ garbage m' a L' = garbage m a L ∪ G.

(** The example heap after a carp_ht_set of "g", which hashes to the bucket
    of "a" and "d": the array cell points to the new block at 5, and the
    blocks at 2 and 3 are still there. *)
Definition example_evicting : heap :=
  <[5%positive := Entry {| key := "g"; value := 7 |} Null]>
  (<[1%positive := Array [Null; Addr 5; Null]]> example_heap).

(** ** Chains *)

Section Chains.
Implicit Types (m : heap) (lc : lchain) (l : loc) (o : oracle) (k : string).

(** A chain worked on behind its first entries. *)
Lemma relinked_app m lc1 lc2 m' lc2' :
  relinked m lc2 m' lc2' -> head_ptr lc2' = head_ptr lc2 ->
  linked m (lc1 ++ lc2) -> NoDup (lc1 ++ lc2).*1 ->
  relinked m (lc1 ++ lc2) m' (lc1 ++ lc2').
Proof.
  intros Hrl Hh. induction lc1 as [|le lc1 IH]; intros Hl Hnd; [done|].
  destruct Hl as [Hle Hl]. simpl in Hnd. apply list.NoDup_cons in Hnd as [Hout Hnd].
  apply relinked_cons; [by apply IH| |done|done].
  destruct lc1; [done|done].
Qed.

(** A chain with the same blocks holds as many blocks of the heap. *)
Lemma relinked_same m lc m' lc' :
  linked m' lc' -> NoDup lc.*1 -> lc'.*1 = lc.*1 ->
  (forall l, l ∉ lc.*1 -> m' !! l = m !! l) -> dom m' = dom m ->
  relinked m lc m' lc'.
Proof.
  intros Hl Hnd Heq Hfr Hdom. split; [done|by rewrite Heq|by rewrite Heq|done|].
  intros l. rewrite Hdom, Heq. tauto.
Qed.

Lemma set_loop_step k v (e n : carp_ht_entry) rest :
  set_loop k v (e :: n :: rest) =
  if strcmp (key n) k !=? 0 then Some (e :: {| key := key n; value := v |} :: rest)
  else cons e <$> set_loop k v (n :: rest).
Proof. done. Qed.

(** The walk of lines 142-149 from the entry [le]. *)
Lemma set_loop_ptr_linked n k v le lc m o :
  linked m (le :: lc) -> NoDup (le :: lc).*1 -> (length (le :: lc) <= n)%nat ->
  returns (fun r m' o' => o' = o /\
     match set_loop k v (forget (le :: lc)) with
     | Some c' => r = None /\ exists lc', forget lc' = c' /\
         head_ptr lc' = Addr le.1 /\ relinked m (le :: lc) m' lc'
     | None => m' = m /\ exists lc0 le', le :: lc = lc0 ++ [le'] /\ r = Some (Addr le'.1)
     end) (set_loop_ptr n k v (Addr le.1) m o).
Proof.
  revert n le. induction lc as [|le1 lc1 IH]; intros n le [Hle Hl] Hnd Hn;
    (destruct n as [|n]; [simpl in Hn; lia|]); cbn [set_loop_ptr];
    rewrite (hbind_Ok _ _ _ _ _ _ _ (load_entry_Some _ _ _ _ o Hle)); cbn [fst snd].
  { hret. split; [done|]. change (forget [le]) with [le.2]. cbn [set_loop].
    split; [done|]. by exists nil, le. }
  destruct Hl as [Hle1 Hl1]. cbn [head_ptr is_null].
  rewrite (hbind_Ok _ _ _ _ _ _ _ (load_entry_Some _ _ _ _ o Hle1)). cbn [fst snd].
  change (forget (le :: le1 :: lc1)) with (le.2 :: le1.2 :: forget lc1).
  rewrite set_loop_step. rewrite !fmap_cons in Hnd.
  pose proof Hnd as [Hout [Hout1 Hnd1]%list.NoDup_cons]%list.NoDup_cons.
  destruct (strcmp (key le1.2) k =? 0) eqn:Ek; cbn [negb].
  - (* the next entry has the key: go on *)
    eapply returns_weaken; [|apply (IH n le1);
      [done|by apply list.NoDup_cons_1_2 in Hnd|simpl in *; lia]].
    intros r m' o' [-> Hres]. split; [done|].
    change (forget (le1 :: lc1)) with (le1.2 :: forget lc1) in Hres.
    destruct (set_loop k v (le1.2 :: forget lc1)) as [c'|]; cbn [fmap option_fmap option_map].
    + destruct Hres as (-> & lc' & <- & Hh & Hrl). split; [done|].
      exists (le :: lc'). split_and!; [done..|].
      apply relinked_cons; [done|done|done|]. by rewrite fmap_cons.
    + destruct Hres as (-> & lc0 & le' & Heq & ->). split; [done|].
      exists (le :: lc0), le'. by rewrite Heq.
  - (* the next entry has another key: its value is written *)
    rewrite (hbind_Ok _ _ _ _ _ _ _ (store_value_Some _ _ _ _ v o Hle1)).
    hret. split_and!; [done..|].
    exists (le :: (le1.1, {| key := key le1.2; value := v |}) :: lc1).
    split_and!; [done..|].
    assert (le.1 <> le1.1) by set_solver.
    apply relinked_same; [|by rewrite !fmap_cons|done| |].
    + split; [by rewrite lookup_insert_ne|].
      split; [by rewrite lookup_insert_eq|]. by apply linked_insert_ne.
    + intros l Hl. rewrite lookup_insert_ne; [done|]. rewrite !fmap_cons in Hl. set_solver.
    + apply dom_insert_lookup_L. eauto.
Qed.

End Chains.

(** ** The new entry *)

Section NewEntry.
Context {P : Platform}.
Implicit Types (m : heap) (o : oracle) (k : string).

(** Lines 137 and 151 with lines 155-157: the request, the write of the
    pointer returned ([link], into the array or into the last entry) and
    the writes into the block, against [alloc_entry].  A refused request
    is linked as a null pointer and then written through. *)
Lemma sim_new_entry {A} (R : A -> Z -> heap -> Prop) bytes k v (x : A)
    (link : ptr -> HM unit) (at_ : loc) (b0 : block) (blk : ptr -> block) m o :
  let lnew := fresh (dom m) in
  m !! at_ = Some b0 ->
  (forall p m1 o1, m1 !! at_ = Some b0 -> link p m1 o1 = Ok (tt, <[at_ := blk p]> m1) o1) ->
  (strlen k < key_capacity -> entry_bytes <= malloc_usable bytes ->
   R x 0 (<[lnew := Entry (new_entry k v) Null]> (<[at_ := blk (Addr lnew)]> m))) ->
  sim R ((alloc_entry bytes k;; ret x) o)
        ((p ← calloc_entry; link p;; write_entry bytes p k v;; mret 0) m o).
Proof.
  intros lnew Hat Hlink HR.
  assert (at_ <> lnew) as Hne.
  { intros ->. unfold lnew in Hat. by rewrite fresh_None in Hat. }
  unfold alloc_entry, calloc_entry, new_block. rewrite bind_assoc.
  rewrite bind_unfold, hbind_unfold, bind_unfold.
  destruct o as [|[] o']; cbn [alloc ret fst snd];
    rewrite hbind_unfold, Hlink by (by rewrite ?lookup_insert_ne); cbn [fst snd];
    try done; fold lnew.
  all: unfold write_entry; cbn [is_null negb check hcheck lift].
  all: rewrite !bind_unfold, !hbind_unfold; cbn [ret raise fst snd lift bind].
  all: destruct (entry_bytes <=? malloc_usable bytes) eqn:Eb; [|done].
  all: destruct (strlen k <? key_capacity) eqn:Ek; [|done].
  all: destruct (strlen k <? calloc_cleared bytes) eqn:Ec; [|done].
  all: do 4 (rewrite ?hbind_unfold, ?hcheck_true; cbn [fst snd]).
  all: unfold put; rewrite lookup_insert_ne, lookup_insert_eq by done.
  all: hret; split; [done|]; zbool.
  all: rewrite insert_insert_through by done; by apply HR.
Qed.

End NewEntry.

(** ** The body of carp_ht_set *)

Section Insert.
Context {P : Platform}.
Implicit Types (m : heap) (t : carp_ht_struct) (a l : loc) (L : list lchain)
  (lc : lchain) (o : oracle) (k : string).

Lemma get_loop_lt oob k c j0 j :
  get_loop oob k c j0 = Some j -> (j0 <= j < j0 + length c)%nat.
Proof.
  revert j0. induction c as [|e c IH]; intros j0; [done|]. simpl.
  destruct (strcmp (key e) k !=? 0); [|intros [= <-]; lia].
  destruct oob; [done|]. intros H%IH. lia.
Qed.

(** The pointer [carp_ht_get] returns points into the bucket of the key. *)
Lemma carp_ht_get_At t L k i j lc :
  0 <= carp_ht_hash k (h_size t) ->
  L !! Z.to_nat (carp_ht_hash k (h_size t)) = Some lc ->
  carp_ht_get (abs t L) k = At i j ->
  i = Z.to_nat (carp_ht_hash k (h_size t)) /\ (j < length lc)%nat.
Proof.
  intros Hh Hlc. unfold carp_ht_get. rewrite size_abs, (bucket_abs t L _ lc) by done.
  destruct (get_loop _ k (forget lc) 0) as [j'|] eqn:E; [|done].
  intros [= <- <-]. apply get_loop_lt in E. unfold forget in E.
  rewrite length_fmap in E. split; [done|lia].
Qed.

(** The blocks of a chain are blocks of the heap and of no other chain. *)
Lemma table_at_chain m t a L i lc l :
  table_at m t a L -> L !! i = Some lc -> l ∈ lc.*1 ->
  l ∈ dom m /\ l <> a /\ (l ∉ locs (take i L)) /\ (l ∉ locs (drop (S i) L)).
Proof.
  intros Hat Hi Hl. pose proof (at_nodup _ _ _ _ Hat) as [Ha Hnd]%list.NoDup_cons.
  split_and!.
  - eapply table_at_dom; [done|]. right. by eapply locs_lookup.
  - intros ->. apply Ha. by eapply locs_lookup.
  - by eapply locs_take_disjoint.
  - rewrite (locs_split L i lc Hi) in Hnd.
    apply list.NoDup_app in Hnd as (_ & _ & Hnd).
    apply list.NoDup_app in Hnd as (_ & Hd & _). by apply Hd.
Qed.

(** The garbage after a new block has been linked into the chain of
    bucket [i] behind the blocks [keep] of that chain: the blocks of the
    chain that are not kept. *)
Lemma garbage_fresh m m' t a L i lc keep lnew e :
  table_at m t a L -> L !! i = Some lc -> lnew ∉ dom m ->
  (forall l, l ∈ dom m' <-> l = lnew \/ l ∈ dom m) ->
  (forall l, l ∈ keep.*1 -> l ∈ lc.*1) ->
  garbage m' a (<[i := keep ++ [(lnew, e)]]> L) =
  garbage m a L ∪ (list_to_set lc.*1 ∖ list_to_set keep.*1).
Proof.
  intros Hat Hi Hnew Hdom Hkeep. apply set_eq. intros l. unfold garbage.
  rewrite elem_of_union, !elem_of_difference, !elem_of_list_to_set, !elem_of_cons, Hdom.
  rewrite (locs_insert L i lc _ Hi), (locs_split L i lc Hi), fmap_app, !elem_of_app.
  pose proof (table_at_chain m t a L i lc l Hat Hi) as Hc. specialize (Hkeep l).
  change ([(lnew, e)].*1) with [lnew]. rewrite list_elem_of_singleton.
  destruct (decide (l ∈ lc.*1)), (decide (l ∈ keep.*1)),
    (decide (l = lnew)) as [->|]; tauto.
Qed.

(** *** The three heaps an insertion leaves *)

(** A chain relinked in place. *)
Lemma kept_relinked m t a L hash lc m' lc' :
  table_at m t a L -> L !! Z.to_nat hash = Some lc ->
  relinked m lc m' lc' -> head_ptr lc' = head_ptr lc ->
  kept m t a L ∅ (0, store (abs t L) hash (forget lc')) 0 m'.
Proof.
  intros Hat Hlc Hrl Hh. split; [done|]. exists (<[Z.to_nat hash := lc']> L).
  destruct (table_at_relinked m m' t a L _ lc lc' Hat Hlc Hrl Hh) as (? & ? & ?).
  rewrite abs_insert, length_insert, (right_id_L ∅ (∪)). done.
Qed.

(** A new block in the array cell of bucket [hash]: the chain that was
    there is garbage. *)
Lemma kept_evict m t a L hash lc e :
  table_at m t a L -> 0 <= hash -> L !! Z.to_nat hash = Some lc ->
  kept m t a L (list_to_set lc.*1) (0, store (abs t L) hash [e]) 0
    (<[fresh (dom m) := Entry e Null]>
       (<[a := Array (<[Z.to_nat hash := Addr (fresh (dom m))]> (head_ptr <$> L))]> m)).
Proof.
  intros Hat Hh Hlc. pose proof (is_fresh (dom m)) as Hnew.
  set (lnew := fresh (dom m)) in *.
  assert (a ∈ dom m) as Ha by (eapply table_at_dom; [done|by left]).
  assert (a <> lnew) as Hne by (by intros ->).
  split; [done|]. exists (<[Z.to_nat hash := [] ++ [(lnew, e)]]> L).
  rewrite abs_insert, length_insert. split; [done|].
  edestruct (table_at_store m) as [H1 H2]; [exact Hat|exact Hlc| | | | | |
    split_and!; [exact H1|done|exact H2|]].
  - by rewrite lookup_insert_ne, lookup_insert_eq, list_fmap_insert.
  - split; [by rewrite lookup_insert_eq|done].
  - apply NoDup_singleton.
  - intros l ->%list_elem_of_singleton. by right.
  - intros l Hd Hout. rewrite !lookup_insert_ne; set_solver.
  - rewrite (garbage_fresh m _ t a L _ lc [] lnew e); try done.
    + change ([].*1) with (@nil loc). by rewrite list_to_set_nil, difference_empty_L.
    + intros l. rewrite !dom_insert. set_solver.
    + by intros l ?%elem_of_nil.
Qed.

(** A new block linked behind the last block [le'] of a chain. *)
Lemma kept_append m t a L hash lcA le' e :
  table_at m t a L -> L !! Z.to_nat hash = Some (lcA ++ [le']) ->
  kept m t a L ∅ (0, store (abs t L) hash (forget (lcA ++ [le']) ++ [e])) 0
    (<[fresh (dom m) := Entry e Null]>
       (<[le'.1 := Entry le'.2 (Addr (fresh (dom m)))]> m)).
Proof.
  intros Hat Hlc. pose proof (is_fresh (dom m)) as Hnew.
  set (lnew := fresh (dom m)) in *. set (lc := lcA ++ [le']) in *.
  pose proof (table_at_linked _ _ _ _ Hat _ _ Hlc) as Hl.
  pose proof (table_at_NoDup _ _ _ _ Hat _ _ Hlc) as Hnd.
  pose proof (fun l => table_at_chain m t a L _ lc l Hat Hlc) as Hc.
  assert (lnew ∉ lc.*1) as Hout by (intros ?%Hc; tauto).
  assert (le'.1 ∈ lc.*1) as Hin by (unfold lc; rewrite fmap_app; set_solver).
  split; [done|]. exists (<[Z.to_nat hash := lc ++ [(lnew, e)]]> L).
  rewrite abs_insert, length_insert. split; [by unfold forget; rewrite fmap_app|].
  edestruct (table_at_store m) as [H1 H2]; [exact Hat|exact Hlc| | | | | |
    split_and!; [exact H1|done|exact H2|]].
  - rewrite !lookup_insert_ne, list_fmap_insert; [| |].
    + rewrite list_insert_id; [apply (at_array _ _ _ _ Hat)|].
      rewrite list_lookup_fmap, Hlc. unfold lc. by destruct lcA.
    + intros Heq. apply Hc in Hin. naive_solver.
    + intros Heq. apply Hnew. rewrite Heq. eapply table_at_dom; [done|by left].
  - by apply linked_snoc.
  - rewrite fmap_app. apply list.NoDup_app. split_and!; [done| |apply NoDup_singleton].
    intros l Hl' ->%list_elem_of_singleton. done.
  - intros l. rewrite fmap_app, elem_of_app.
    intros [?|Hx%list_elem_of_singleton]; [by left|right; by rewrite Hx].
  - intros l Hd Hout'. rewrite !lookup_insert_ne; set_solver.
  - rewrite (garbage_fresh m _ t a L _ lc lc lnew e); try done.
    + by rewrite difference_diag_L.
    + intros l. rewrite !dom_insert. apply Hc in Hin. set_solver.
Qed.

Lemma head_ptr_app lc1 lc2 lc2' :
  head_ptr lc2' = head_ptr lc2 -> head_ptr (lc1 ++ lc2') = head_ptr (lc1 ++ lc2).
Proof. by destruct lc1. Qed.

(** Lines 142-157 from the entry [le] the lookup found, at position [j] of
    the chain of its bucket: a value written into a later entry, or a new
    block linked behind the last. *)
Lemma set_found_ptr_sim m t a L k v o hash lc j le :
  table_at m t a L -> L !! Z.to_nat hash = Some lc -> lc !! j = Some le ->
  sim (kept m t a L ∅)
    (match set_loop k v (forget (le :: drop (S j) lc)) with
     | Some c' => ret (0, store (abs t L) hash (take j (forget lc) ++ c'))
     | None =>
         alloc_entry pointer_bytes k;;
         ret (0, store (abs t L) hash (forget lc ++ [new_entry k v]))
     end o)
    ((r ← set_loop_ptr (base.size m) k v (Addr le.1);
      match r with
      | Some last =>
          p ← calloc_entry;
          store_next last p;; write_entry pointer_bytes p k v;; mret 0
      | None => mret 0
      end) m o).
Proof.
  intros Hat Hlc Hle.
  pose proof (table_at_linked _ _ _ _ Hat _ _ Hlc) as Hl.
  pose proof (table_at_NoDup _ _ _ _ Hat _ _ Hlc) as Hnd.
  pose proof (table_at_length _ _ _ _ Hat _ _ Hlc) as Hn.
  pose proof (take_drop_middle lc j le Hle) as Hsplit. rewrite <- Hsplit in Hl, Hnd.
  eapply sim_returns.
  { apply (set_loop_ptr_linked (base.size m) k v le (drop (S j) lc) m o).
    - by eapply linked_app.
    - rewrite fmap_app in Hnd. by apply list.NoDup_app in Hnd as (_ & _ & ?).
    - rewrite <- (drop_S _ _ _ Hle), length_drop. lia. }
  intros r m' o' [-> Hres].
  destruct (set_loop k v (forget (le :: drop (S j) lc))) as [c'|].
  - (* a value written *)
    destruct Hres as (-> & lc' & <- & Hh' & Hrl). hret. split; [done|].
    replace (take j (forget lc) ++ forget lc') with (forget (take j lc ++ lc'))
      by (unfold forget; by rewrite fmap_app, fmap_take).
    apply (kept_relinked m t a L hash lc); [done|done| |].
    + rewrite <- Hsplit at 1. by apply relinked_app.
    + rewrite <- Hsplit at 2. by apply head_ptr_app.
  - (* a new block behind the last *)
    destruct Hres as (-> & lc0 & le' & Heq & ->). rewrite Heq, app_assoc in Hsplit, Hl.
    apply (sim_new_entry _ _ _ _ _ _ le'.1 (Entry le'.2 Null) (fun p => Entry le'.2 p)).
    + apply linked_app in Hl. by destruct Hl.
    + intros p m1 o1 Hb. by apply store_next_Some with (next := Null).
    + intros _ _. rewrite <- Hsplit. apply kept_append; [done|]. by rewrite Hsplit.
Qed.

Lemma set_body_ptr_sim m t a L k v o :
  table_at m t a L -> usable t L ->
  sim (kept m t a L (evicted t L k))
      (set_body (abs t L) k v o) (set_body_ptr t k v m o).
Proof.
  intros Hat Hus. pose proof Hus as [Hsz Hlen]. unfold set_body, set_body_ptr, evicted.
  rewrite (hbind_Ok _ _ _ _ _ _ _ (carp_ht_get_ptr_eq m t a L k o Hat Hus)).
  pose proof (carp_ht_hash_lt k (h_size t) Hsz) as Hh. rewrite size_abs.
  set (hash := carp_ht_hash k (h_size t)) in *.
  destruct (lookup_lt_is_Some_2 L (Z.to_nat hash)) as [lc Hlc]; [lia|].
  pose proof (table_at_linked _ _ _ _ Hat _ _ Hlc) as Hl.
  pose proof (table_at_NoDup _ _ _ _ Hat _ _ Hlc) as Hnd.
  pose proof (table_at_length _ _ _ _ Hat _ _ Hlc) as Hn.
  destruct (carp_ht_get (abs t L) k) as [|i j] eqn:Eg; cbn [ptr_of is_null].
  - (* a new block in the array cell *)
    rewrite Hlc. cbn [default from_option id]. rewrite (at_buckets _ _ _ _ Hat).
    apply (sim_new_entry _ _ _ _ _ _ a (Array (head_ptr <$> L))
             (fun p => Array (<[Z.to_nat hash := p]> (head_ptr <$> L))));
      [apply (at_array _ _ _ _ Hat)| |].
    + intros p m1 o1 Hb. apply store_cell_Some; [done|]. rewrite length_fmap. lia.
    + intros _ _. apply kept_evict; [done|lia|done].
  - (* a walk from the entry found *)
    destruct (carp_ht_get_At t L k i j lc (proj1 Hh) Hlc Eg) as [-> Hj]. fold hash.
    destruct (lookup_lt_is_Some_2 lc j Hj) as [le Hle].
    rewrite Z2Nat.id, (bucket_abs t L _ lc), Hlc by (lia || done).
    cbn [default from_option id].
    unfold nth_ptr. rewrite Hle. cbn [from_option is_null].
    rewrite hbind_unfold. cbn [bound ret fst snd].
    assert (drop j (forget lc) = forget (le :: drop (S j) lc)) as ->
      by (unfold forget; by rewrite <- fmap_drop, (drop_S _ _ _ Hle)).
    by apply set_found_ptr_sim.
Qed.

(** C7. When the lookup of line 132 returns NULL, a carp_ht_set that
    returns puts its new block in the array cell and drops the pointer to
    the chain of the bucket: every block of that chain stays in the heap
    and is reached from the table no more.  The heap holds the table
    set_body returns, and its garbage has grown by exactly that chain. *)
Theorem set_body_ptr_leaks m t a L k v o lc st m' o' :
  table_at m t a L -> usable t L ->
  carp_ht_get (abs t L) k = NULL ->
  L !! Z.to_nat (carp_ht_hash k (h_size t)) = Some lc ->
  set_body_ptr t k v m o = Ok (st, m') o' ->
  exists L', set_body (abs t L) k v o = Ok (st, abs t L') o' /\
    table_at m' t a L' /\
    garbage m' a L' = garbage m a L ∪ list_to_set (lc.*1) /\
    forall l, l ∈ lc.*1 -> l ∈ dom m' /\ l ∉ a :: locs L'.
Proof.
  intros Hat Hus Hget HL Hrun.
  destruct (sim_Ok_r _ _ _ _ _ _ (set_body_ptr_sim m t a L k v o Hat Hus) Hrun)
    as ([st0 h] & Hset & Hst & L' & Hh & Hat' & _ & _ & Hg).
  simpl in Hst, Hh. subst st0 h. exists L'. split; [done|]. split; [done|].
  unfold evicted in Hg. rewrite Hget, HL in Hg. simpl in Hg. split; [done|].
  intros l Hl. assert (l ∈ garbage m' a L') as Hin.
  { rewrite Hg. by apply elem_of_union_r, elem_of_list_to_set. }
  unfold garbage in Hin. apply elem_of_difference in Hin as [? Hout]. split; [done|].
  by rewrite elem_of_list_to_set in Hout.
Qed.

End Insert.

(** ** carp_ht_init *)

Section Init.
Context {P : Platform}.
Implicit Types (m : heap) (a : loc) (o : oracle).

(** The loop of lines 77-78 clears the cells of the block, one by one. *)
Lemma init_loop a sz m o :
  m !! a = Some (Array (replicate (Z.to_nat sz) Wild)) ->
  hfoldM (fun _ i => store_cell (Addr a) i Null) (seqZ 0 sz) tt m o =
  Ok (tt, <[a := Array (replicate (Z.to_nat sz) Null)]> m) o.
Proof.
  intros Ha. set (n := Z.to_nat sz) in *.
  pose proof (returns_hfoldM
    (fun j (_ : unit) m' o' =>
       m' = <[a := Array (replicate j Null ++ replicate (n - j) Wild)]> m /\ o' = o)
    (fun _ i => store_cell (Addr a) i Null) (seqZ 0 sz) tt m o) as H.
  apply returns_Ok in H as ([] & m' & o' & -> & -> & ->).
  - rewrite length_seqZ. fold n. by rewrite Nat.sub_diag, app_nil_r.
  - split; [|done]. cbn [replicate app]. by rewrite Nat.sub_0_r, insert_id.
  - intros j i [] m1 o1 [-> Hj]%lookup_seqZ [-> ->]. rewrite Z.add_0_l.
    erewrite store_cell_Some; [|apply lookup_insert_eq|
      rewrite length_app, !length_replicate; lia].
    hret. split; [|done]. rewrite insert_insert_eq, Nat2Z.id. do 2 f_equal.
    replace j with (length (replicate j Null) + 0)%nat at 1
      by (rewrite length_replicate; lia).
    rewrite insert_app_r. replace (n - j)%nat with (S (n - S j)) by lia.
    by rewrite (replicate_S_end j), <- app_assoc.
Qed.

(** A table of [n] empty buckets in a new block. *)
Lemma table_at_empty m a n sz :
  table_at (<[a := Array (replicate n Null)]> m) {| h_size := sz; h_buckets := Addr a |}
           a (replicate n []).
Proof.
  split; [done| | |].
  - by rewrite lookup_insert_eq, fmap_replicate.
  - by apply Forall_replicate.
  - unfold locs. rewrite concat_replicate_nil. apply NoDup_singleton.
Qed.

Lemma carp_ht_init_ptr_sim sz m o :
  sim (fun r r' m' => r.1 = r'.1 /\ h_size r'.2 = sz /\
         if r.1 =? 0
         then r.2 = abs r'.2 (replicate (Z.to_nat sz) []) /\
              h_buckets r'.2 = Addr (fresh (dom m)) /\
              m' = <[fresh (dom m) := Array (replicate (Z.to_nat sz) Null)]> m
         else h_buckets r'.2 = Null /\ m' = m)
      (carp_ht_init sz o) (carp_ht_init_ptr sz m o).
Proof.
  unfold carp_ht_init, carp_ht_init_ptr. apply sim_check. intros Hsz. zbool.
  unfold new_block. rewrite bind_unfold, hbind_unfold, bind_unfold.
  destruct o as [|[] o']; cbn [alloc ret fst snd is_null]; try (by hret).
  all: apply sim_check; intros _.
  all: rewrite hbind_unfold, init_loop by apply lookup_insert_eq; hret.
  all: rewrite insert_insert_eq; split_and!; try done.
  all: unfold abs, empty_table; simpl; by rewrite fmap_replicate.
Qed.

(** The heap carp_ht_init leaves when it returns: with status 0 one more
    block, the array of NULLs at a fresh address, and the struct points to
    it; with another status the heap it was given. *)
Lemma carp_ht_init_ptr_Ok sz m o st t' m' o' :
  carp_ht_init_ptr sz m o = Ok ((st, t'), m') o' ->
  0 < sz /\ h_size t' = sz /\
  exists h, carp_ht_init sz o = Ok (st, h) o' /\
    if st =? 0
    then h = empty_table sz /\ h_buckets t' = Addr (fresh (dom m)) /\
         m' = <[fresh (dom m) := Array (replicate (Z.to_nat sz) Null)]> m
    else h_buckets t' = Null /\ m' = m.
Proof.
  intros Hrun. split.
  { unfold carp_ht_init_ptr in Hrun. destruct (0 <? sz) eqn:E; [lia|done]. }
  destruct (sim_Ok_r _ _ _ _ _ _ (carp_ht_init_ptr_sim sz m o) Hrun)
    as ([st0 h] & Hinit & Hst & Hsz & H).
  simpl in *. subst st0. split; [done|]. exists h. split; [done|].
  destruct (st =? 0); [|done]. destruct H as (-> & ? & ?). split; [|done].
  unfold abs, empty_table. simpl. by rewrite Hsz, fmap_replicate.
Qed.

(** C26. A carp_ht_init that returns 0 leaves a heap that is well formed
    for the struct: the array is a new block of size cells, all NULL, the
    table of the struct is the empty table carp_ht_init returns, and the
    blocks the heap had are untouched and none of them is the table's.  A
    carp_ht_init that returns another status leaves the heap as it was and
    a struct without array. *)
Theorem carp_ht_init_ptr_owned sz m o st t' m' o' :
  sz <= LONG_MAX ->
  carp_ht_init_ptr sz m o = Ok ((st, t'), m') o' ->
  (st = 0 /\ owned m' t' /\ carp_ht_init sz o = Ok (0, empty_table sz) o' /\
   exists a, table_at m' t' a (replicate (Z.to_nat sz) []) /\
     garbage m' a (replicate (Z.to_nat sz) []) = dom m /\
     forall l, l ∈ dom m -> m' !! l = m !! l) \/
  (st <> 0 /\ m' = m /\ h_buckets t' = Null).
Proof.
  intros Hmax (Hsz & Ht & h & Hinit & H)%carp_ht_init_ptr_Ok.
  destruct (st =? 0) eqn:E; [left|right; split; [lia|by destruct H]].
  apply Z.eqb_eq in E as ->. destruct H as (-> & Hb & ->).
  assert (table_at (<[fresh (dom m) := Array (replicate (Z.to_nat sz) Null)]> m) t'
            (fresh (dom m)) (replicate (Z.to_nat sz) [])) as Hat.
  { destruct t' as [sz' b]. simpl in *. subst. apply table_at_empty. }
  split_and!; [done| |done|].
  - eexists _, _. split; [exact Hat|]. split; [lia|]. rewrite length_replicate. lia.
  - eexists. split; [exact Hat|]. pose proof (is_fresh (dom m)) as Hfresh. split.
    + unfold garbage, locs. rewrite concat_replicate_nil, dom_insert_L. set_solver.
    + intros l Hl. apply lookup_insert_ne. by intros <-.
Qed.

End Init.

Lemma set_body_ptr_leaks_witness :
  exists L', set_body (P:=lp64_roomy) (abs example_struct example_chains) "g" 7 [] =
               Ok (0, abs example_struct L') [] /\
    table_at example_evicting example_struct 1 L' /\
    garbage example_evicting 1 L' =
      garbage example_heap 1 example_chains ∪ list_to_set [2%positive; 3%positive] /\
    forall l, l ∈ [2%positive; 3%positive] ->
      l ∈ dom example_evicting /\ l ∉ 1%positive :: locs L'.
Proof.
  apply (set_body_ptr_leaks (P:=lp64_roomy) example_heap example_struct 1 example_chains
           "g" 7 []
           [(2%positive, {| key := "a"; value := 1 |});
            (3%positive, {| key := "d"; value := 4 |})]
           0 example_evicting [] example_table_at example_usable);
    by vm_compute.
Defined.

Lemma carp_ht_init_ptr_owned_witness :
  exists t' m', carp_ht_init_ptr (P:=lp64_roomy) 3 example_garbage [] = Ok ((0, t'), m') [] /\
    owned (P:=lp64_roomy) m' t'.
Proof.
  eexists _, _. split; [by vm_compute|].
  destruct (carp_ht_init_ptr_owned (P:=lp64_roomy) 3 example_garbage [] 0 _ _ []
              ltac:(by vm_compute) eq_refl) as [(_ & H & _)|[? _]]; done.
Defined.
