(* ===== verification/RefineResize.v ===== *)
(** * RefineResize: carp_ht_resize and carp_ht_set on the heap

    [carp_ht_set_ptr] and [carp_ht_resize_ptr] against [carp_ht_set] and
    [carp_ht_resize], by induction on the fuel they share: under every
    oracle the heap program returns the status the list program returns,
    faults where it faults and runs out of fuel where it does, and leaves a
    heap that holds the table the list program returns.  During a
    migration the heap holds two tables that share no block: the old one,
    which the walk of lines 189-200 reads while [carp_ht_set] builds the
    new one, and which [carp_ht_cleanup] then releases. *)

From stdpp Require Import gmap strings.
From S2P Require Import Prelude Machine CString Hash Alloc Table TableLemmas.
From S2P Require Import Lookup Delete Insert Resize.
From S2P Require Import Heap Program Repr Sim RefineRead RefineFree RefineSet.

(** ** Definitions *)

(** What an operation that may move the table promises, against the result
    [r] of the list program: the status, a struct that is no smaller, and
    a heap that holds the table of [r] where the struct says. *)
Definition moved {P : Platform} (m : heap) (t : carp_ht_struct) (a : loc)
    (L : list lchain) (r : Z * carp_ht) (r' : Z * carp_ht_struct) (m' : heap) : Prop :=
  r.1 = r'.1 /\ h_size t <= h_size r'.2 /\
  exists a' L', r.2 = abs r'.2 L' /\ table_at m' r'.2 a' L' /\ usable r'.2 L' /\
    evolves m a L m' a' L'.

(** The state of a migration: the heap [m] holds the old table [L] of [t]
    as it was, and the new table of [tnew], built from the empty table at
    [a0] in the heap [m0], with no block of the old one. *)
Record migrating {P : Platform} (t : carp_ht_struct) (a : loc) (L : list lchain)
    (m0 : heap) (a0 : loc) (L0 : list lchain) (sz0 : Z)
    (newh : carp_ht) (tnew : carp_ht_struct) (m : heap) : Prop := {
  mg_old : table_at m t a L;
  mg_size : sz0 <= h_size tnew;
  mg_new : exists anew Lnew, newh = abs tnew Lnew /\ table_at m tnew anew Lnew /\
    usable tnew Lnew /\ evolves m0 a0 L0 m anew Lnew /\
    (forall l, l ∈ a :: locs L -> l ∉ anew :: locs Lnew);
}.

(** What [carp_ht_resize] promises on top: when it returns 0, no block of
    the old table is left in the heap. *)
Definition resized {P : Platform} (m : heap) (t : carp_ht_struct) (a : loc)
    (L : list lchain) (r : Z * carp_ht) (r' : Z * carp_ht_struct) (m' : heap) : Prop :=
  moved m t a L r r' m' /\
  (r.1 = 0 -> forall l, l ∈ a :: locs (take (Z.to_nat (h_size t)) L) -> m' !! l = None).

(** The struct and the heap a run returned. *)
Definition returned (r : outcome (Z * carp_ht_struct * heap)) : carp_ht_struct * heap :=
  match r with
  | Ok (_, t, m) _ => (t, m)
  | _ => ({| h_size := 0; h_buckets := Null |}, ∅)
  end.

(** The example after a carp_ht_set of "b", which finds the table 66% full
    and resizes it to seven buckets, and after a carp_ht_resize. *)
Definition example_set : carp_ht_struct * heap :=
  returned (carp_ht_set_ptr (P:=lp64_roomy) 2 example_struct "b" 2 example_heap []).

Definition example_resize : carp_ht_struct * heap :=
  returned (carp_ht_resize_ptr (P:=lp64_roomy) 1 example_struct example_heap []).

Section Resize.
Context {P : Platform}.
Implicit Types (m : heap) (t : carp_ht_struct) (a l : loc) (L : list lchain)
  (lc : lchain) (o : oracle) (k : string).

(** ** The promises compose *)

Lemma moved_trans m t a L m1 t1 a1 L1 r r' m2 :
  h_size t <= h_size t1 -> evolves m a L m1 a1 L1 ->
  moved m1 t1 a1 L1 r r' m2 -> moved m t a L r r' m2.
Proof.
  intros Hsz Hev (Hst & Hsz' & a' & L' & Habs & Hat & Hus & Hev').
  split; [done|]. split; [lia|]. exists a', L'. eauto using evolves_trans.
Qed.

(** The promise is about the table; the status is the caller's. *)
Lemma moved_status m t a L r r' m' st :
  moved m t a L r r' m' -> moved m t a L (st, r.2) (st, r'.2) m'.
Proof. intros (_ & H). by split. Qed.

Lemma kept_moved m t a L G r st m' :
  usable t L -> kept m t a L G r st m' -> moved m t a L r (st, t) m'.
Proof.
  intros [Hsz Hlen] (Hst & L' & Habs & Hat & Hlen' & Hev & _).
  split; [done|]. split; [done|]. exists a, L'. split_and!; try done.
  split; [done|]. by rewrite Hlen'.
Qed.

(** The table is the table of every struct with the same array. *)
Lemma table_at_struct m t t' a L :
  h_buckets t' = h_buckets t -> table_at m t a L -> table_at m t' a L.
Proof. intros Hb [? ? ? ?]. split; [by rewrite Hb|done..]. Qed.

(** Lines 132-159 as the last step of [carp_ht_set]. *)
Lemma set_body_ptr_moved m t a L k v o :
  table_at m t a L -> usable t L ->
  sim (moved m t a L) (set_body (abs t L) k v o)
      ((s ← set_body_ptr t k v; mret (s, t)) m o).
Proof.
  intros Hat Hus. rewrite <- bind_ret_r.
  eapply sim_bind; [by apply set_body_ptr_sim|].
  intros r st m' o' Hkept. hret. split; [done|].
  destruct r. by eapply kept_moved.
Qed.

(** ** The migration *)

(** One insertion into the new table leaves the migration where it was. *)
Lemma migrating_step t a L m0 a0 L0 sz0 tnew m anew Lnew r r' m1 :
  table_at m t a L -> sz0 <= h_size tnew -> evolves m0 a0 L0 m anew Lnew ->
  (forall l, l ∈ a :: locs L -> l ∉ anew :: locs Lnew) ->
  moved m tnew anew Lnew r r' m1 ->
  migrating t a L m0 a0 L0 sz0 r.2 r'.2 m1.
Proof.
  intros Hold Hsz Hev Hdisj (_ & Hsz' & a' & L' & Habs & Hat & Hus & Hev').
  destruct (table_at_evolves _ _ _ _ _ _ _ _ _ Hev' Hold Hdisj) as [Hold' Hdisj'].
  split; [done|lia|]. exists a', L'. eauto 10 using evolves_trans.
Qed.

Lemma moved_refl m t a L st :
  table_at m t a L -> usable t L -> moved m t a L (st, abs t L) (st, t) m.
Proof.
  intros Hat Hus. split; [done|]. split; [done|]. exists a, L.
  eauto using evolves_refl.
Qed.

Lemma locs_take L n l : l ∈ locs (take n L) -> l ∈ locs L.
Proof.
  rewrite !elem_of_locs. intros (i & lc & [Hi _]%lookup_take_Some & Hl). eauto.
Qed.

(** The migration starts from the old table and a new array of empty
    buckets at a fresh address. *)
Lemma migrating_start m t a L newsize :
  table_at m t a L -> 0 < newsize <= LONG_MAX ->
  let a0 := fresh (dom m) in
  let m0 := <[a0 := Array (replicate (Z.to_nat newsize) Null)]> m in
  migrating t a L m0 a0 (replicate (Z.to_nat newsize) []) newsize
    (empty_table newsize) {| h_size := newsize; h_buckets := Addr a0 |} m0.
Proof.
  intros Hat Hsz a0 m0.
  assert (forall l, l ∈ a :: locs L -> l <> a0) as Hne.
  { intros l Hl%(table_at_dom _ _ _ _ _ Hat) ->. by apply (is_fresh (dom m)). }
  split; [|simpl; lia|].
  - eapply table_at_frame; [|done]. intros l Hl%Hne. by apply lookup_insert_ne.
  - exists a0, (replicate (Z.to_nat newsize) []). split_and!.
    + unfold abs, empty_table. simpl. by rewrite fmap_replicate.
    + apply table_at_empty.
    + split; [done|]. simpl. by rewrite length_replicate.
    + apply evolves_refl.
    + unfold locs. rewrite concat_replicate_nil. intros l Hl%Hne.
      by intros ?%list_elem_of_singleton.
Qed.

(** The migration ends with the new table in the place of the old one,
    whose blocks are released (lines 202-205). *)
Lemma migrated_moved m t a L a0 b L0 newh tnew mf :
  usable t L -> a0 ∉ dom m -> locs L0 = [] -> 2 * h_size t + 1 <= LONG_MAX ->
  migrating t a L (<[a0 := b]> m) a0 L0 (2 * h_size t + 1) newh tnew mf ->
  moved m t a L (0, {| size := 2 * h_size t + 1; buckets := buckets newh |})
    (0, {| h_size := 2 * h_size t + 1; h_buckets := h_buckets tnew |})
    (delete a (release (locs (take (Z.to_nat (h_size t)) L)) mf)).
Proof.
  intros [Hsz Hlen] Ha0 HL0 Hfit [Hold Hsz' (anew & Lnew & -> & Hnew & [_ Hus] & [Hf Hn] & Hdisj)].
  assert (forall l, l ∉ a :: locs L ->
    delete a (release (locs (take (Z.to_nat (h_size t)) L)) mf) !! l = mf !! l) as Hrel.
  { intros l Hl. rewrite lookup_delete_ne, lookup_release_ne; [done| |].
    - intros Hin%locs_take. apply Hl, elem_of_cons. by right.
    - intros Heq. apply Hl, elem_of_cons. by left. }
  assert (forall l, l ∈ a0 :: locs L0 -> l = a0) as Hnew0.
  { intros l [->|Hin]%elem_of_cons; [done|]. rewrite HL0 in Hin. inversion Hin. }
  split; [done|]. split; [simpl; lia|]. exists anew, Lnew. split_and!; [done| | |split].
  - apply table_at_struct with tnew; [done|]. eapply table_at_frame; [|done].
    intros l Hl. apply Hrel. intros Hin. by apply (Hdisj l).
  - split; simpl; lia.
  - intros l Hd Hl. assert (l <> a0) as Hne by (by intros ->).
    rewrite Hrel by done. rewrite Hf.
    + by apply lookup_insert_ne.
    + apply elem_of_dom. rewrite lookup_insert_ne by done. by apply elem_of_dom.
    + by intros ?%Hnew0.
  - intros l [->%Hnew0|Hout]%Hn; right; [done|].
    intros Hd. apply Hout, elem_of_dom. rewrite lookup_insert_ne; [by apply elem_of_dom|].
    by intros <-.
Qed.

Lemma resized_moved m t a L r r' m' : resized m t a L r r' m' -> moved m t a L r r' m'.
Proof. by intros []. Qed.

Section Migration.
Variable set : carp_ht -> string -> Z -> M (Z * carp_ht).
Variable set_ptr : carp_ht_struct -> string -> Z -> HM (Z * carp_ht_struct).
Hypothesis set_sim : forall m t a L k v o, table_at m t a L -> usable t L ->
  sim (moved m t a L) (set (abs t L) k v o) (set_ptr t k v m o).

Local Abbreviation move := (fun newh e => r ← set newh (key e) (value e); ret r.2).

(** Lines 193-199: the walk along the rest [lc] of a chain of the old
    table. *)
Lemma migrate_loop_sim t a L m0 a0 L0 sz0 i pre lc : forall n newh tnew m o,
  L !! i = Some (pre ++ lc) -> (length lc <= n)%nat ->
  migrating t a L m0 a0 L0 sz0 newh tnew m ->
  sim (migrating t a L m0 a0 L0 sz0)
      (foldM move (forget lc) newh o) (migrate_loop set_ptr n tnew (head_ptr lc) m o).
Proof.
  revert pre. induction lc as [|le lc IH]; intros pre n newh tnew m o HL Hn Hmg.
  { destruct n; by apply sim_ret. }
  destruct n as [|n]; [simpl in Hn; lia|]. cbn [migrate_loop head_ptr].
  change (forget (le :: lc)) with (le.2 :: forget lc). rewrite foldM_cons, bind_assoc.
  destruct Hmg as [Hold Hsz (anew & Lnew & -> & Hnew & Hus & Hev & Hdisj)].
  assert (forall m', table_at m' t a L ->
    m' !! le.1 = Some (Entry le.2 (head_ptr lc))) as Hread.
  { intros m' Hat. by destruct (linked_app _ _ _ (table_at_linked _ _ _ _ Hat _ _ HL)). }
  rewrite hbind_unfold, (load_entry_Some _ _ _ _ _ (Hread m Hold)). cbn [fst snd].
  eapply sim_bind; [by apply set_sim|]. intros r r' m1 o1 Hmv.
  pose proof (migrating_step _ _ _ _ _ _ _ _ _ _ _ _ _ _ Hold Hsz Hev Hdisj Hmv) as Hmg.
  rewrite bind_ret_l, hbind_unfold, (load_entry_Some _ _ _ _ _ (Hread m1 (mg_old _ _ _ _ _ _ _ _ _ _ Hmg))).
  cbn [fst snd]. apply (IH (pre ++ [le])); [by rewrite <- app_assoc|simpl in Hn; lia|done].
Qed.

(** Lines 189-200: the walk over the buckets of the old table. *)
Lemma migrate_buckets_sim t a L m0 a0 L0 sz0 n newh tnew m o :
  usable t L -> (forall i lc, L !! i = Some lc -> (length lc <= n)%nat) ->
  migrating t a L m0 a0 L0 sz0 newh tnew m ->
  sim (migrating t a L m0 a0 L0 sz0)
    (foldM move (entries (abs t L)) newh o)
    (for_buckets t (fun newh _ base => migrate_loop set_ptr n newh base) tnew m o).
Proof.
  intros [Hsz Hlen] Hn Hmg. unfold entries. rewrite foldM_concat, size_abs, buckets_abs.
  apply (sim_for_buckets (fun _ => migrating t a L m0 a0 L0 sz0)
           (fun b c => foldM move c b)); [|done|].
  { rewrite length_take, length_fmap. lia. }
  intros j c newh1 tnew1 m1 o1 [Hc Hj]%lookup_take_Some Hmg1.
  rewrite list_lookup_fmap in Hc. destruct (L !! j) as [lc|] eqn:HL; [|done].
  injection Hc as <-. rewrite hbind_unfold.
  rewrite (load_cell_at _ _ _ _ (mg_old _ _ _ _ _ _ _ _ _ _ Hmg1) _ lc)
    by (rewrite ?Nat2Z.id; first [lia|done]).
  cbn [fst snd]. apply migrate_loop_sim with j []; eauto.
Qed.

(** Lines 178-206. *)
Lemma resize_with_ptr_sim m t a L o :
  table_at m t a L -> usable t L ->
  sim (resized m t a L) (resize_with set (abs t L) o) (resize_with_ptr set_ptr t m o).
Proof.
  intros Hat Hus. unfold resize_with, resize_with_ptr. rewrite size_abs.
  apply sim_check. intros [_ Hfit%Z.leb_le]%andb_true_iff.
  unfold new_block. rewrite bind_unfold, hbind_unfold, bind_unfold.
  assert (0 < 2 * h_size t + 1 <= LONG_MAX) as Hsz by (destruct Hus; lia).
  pose proof (migrating_start m t a L _ Hat Hsz) as Hmg. cbn zeta in Hmg.
  destruct o as [|[] o']; cbn [alloc ret fst snd is_null];
    try (by apply sim_ret; split; [apply moved_refl|]).
  all: rewrite hbind_unfold; cbn [bound ret fst snd].
  all: eapply sim_bind;
    [apply migrate_buckets_sim; [done| |exact Hmg]; intros i lc;
     apply (table_at_length _ _ _ _ (mg_old _ _ _ _ _ _ _ _ _ _ Hmg))|].
  all: intros newh tnew mf o1 Hmf; rewrite hbind_unfold.
  all: rewrite (carp_ht_cleanup_ptr_eq mf t a L) by (first [apply Hmf|apply Hus]).
  all: cbn [snd]; apply sim_ret; split; [|intros _ l; apply lookup_cleanup].
  all: eapply migrated_moved; eauto.
  all: first [apply is_fresh | unfold locs; by rewrite concat_replicate_nil].
Qed.

End Migration.

(** ** carp_ht_set and carp_ht_resize *)

Lemma carp_ht_set_ptr_sim fuel : forall m t a L k v o,
  table_at m t a L -> usable t L ->
  sim (moved m t a L) (carp_ht_set fuel (abs t L) k v o) (carp_ht_set_ptr fuel t k v m o).
Proof.
  induction fuel as [|fuel IH]; intros m t a L k v o Hat Hus; [done|].
  cbn [carp_ht_set carp_ht_set_ptr].
  eapply sim_bind; [apply (carp_ht_used_ptr_sim m t a L); [done|apply Hus]|].
  intros u u' m0 o0 [-> ->].
  destruct (60 <? u); [|by apply set_body_ptr_moved].
  eapply sim_bind; [by apply resize_with_ptr_sim|].
  intros r r' m1 o1 Hmv%resized_moved. pose proof Hmv as (Hst & Hsz & a1 & L1 & Hr & Hat1 & Hus1 & Hev1).
  rewrite <- Hst. destruct (r.1 ==? 1); [by apply sim_ret, moved_status|].
  rewrite Hr. eapply sim_bind; [by apply IH|].
  intros s s' m2 o2 Hmv2. apply (moved_trans m t a L) in Hmv2; [|done..].
  pose proof Hmv2 as (Hst2 & Hsz2 & a2 & L2 & Hs & Hat2 & Hus2 & Hev2).
  rewrite <- Hst2. destruct (s.1 !=? 0); [by apply sim_ret, moved_status|].
  rewrite Hs. eapply sim_weaken; [|by apply set_body_ptr_moved].
  intros x x' m3 Hmv3. by eapply moved_trans.
Qed.

Lemma carp_ht_resize_ptr_sim fuel m t a L o :
  table_at m t a L -> usable t L ->
  sim (resized m t a L) (carp_ht_resize fuel (abs t L) o) (carp_ht_resize_ptr fuel t m o).
Proof. apply resize_with_ptr_sim. apply carp_ht_set_ptr_sim. Qed.

(** A resize that returns 0 stores the size it computed on entry. *)
Lemma resize_with_size set h o h' o' :
  resize_with set h o = Ok (0, h') o' -> size h' = 2 * size h + 1.
Proof.
  unfold resize_with. intros ([] & o1 & _ & H)%bind_Ok_inv.
  apply bind_Ok_inv in H as ([] & o2 & _ & H); [|done].
  apply bind_Ok_inv in H as (newh & o3 & _ & H). by injection H as <- _.
Qed.

(** A pointer [carp_ht_get] returns points to a block of a chain of the
    buckets below [size]. *)
Lemma get_ptr_in_table t L k e :
  usable t L -> deref (abs t L) (carp_ht_get (abs t L) k) = Some e ->
  exists l, ptr_of L (carp_ht_get (abs t L) k) = Addr l /\
    l ∈ locs (take (Z.to_nat (h_size t)) L).
Proof.
  intros [Hsz Hlen] He. pose proof (carp_ht_hash_lt k (h_size t) Hsz) as Hh.
  destruct (lookup_lt_is_Some_2 L (Z.to_nat (carp_ht_hash k (h_size t)))) as [lc Hlc];
    [lia|].
  destruct (carp_ht_get (abs t L) k) as [|i j] eqn:Hg; [done|].
  destruct (carp_ht_get_At t L k i j lc (proj1 Hh) Hlc Hg) as [-> Hj].
  destruct (lookup_lt_is_Some_2 lc j Hj) as [le Hle]. exists le.1. split.
  - simpl. rewrite Hlc. unfold nth_ptr. simpl. by rewrite Hle.
  - apply elem_of_locs. eexists _, lc. split.
    + apply lookup_take_Some. split; [done|lia].
    + eapply (list_elem_of_fmap_2 fst), list_elem_of_lookup_2, Hle.
Qed.

(** ** The functions *)

(** C1. carp_ht_set on the heap refines carp_ht_set on the table, under
    every oracle and with every fuel: the two fault together, with the same
    fault, and run out of fuel together; when the heap program returns,
    the list program returns the same status with the same oracle left,
    and the heap holds the table it returns at the struct returned, whose
    size is no smaller; blocks outside the table are untouched and the
    table takes no block that was in use outside it, so a block that was
    unreachable stays allocated and unreachable. *)
Theorem carp_ht_set_ptr_refines fuel m t a L k v o :
  table_at m t a L -> usable t L ->
  (forall f, carp_ht_set fuel (abs t L) k v o = Fault f <->
             carp_ht_set_ptr fuel t k v m o = Fault f) /\
  (carp_ht_set fuel (abs t L) k v o = OutOfFuel <->
   carp_ht_set_ptr fuel t k v m o = OutOfFuel) /\
  (forall st t' m' o', carp_ht_set_ptr fuel t k v m o = Ok ((st, t'), m') o' ->
     exists a' L', carp_ht_set fuel (abs t L) k v o = Ok (st, abs t' L') o' /\
       table_at m' t' a' L' /\ usable t' L' /\ evolves m a L m' a' L' /\
       garbage m a L ⊆ garbage m' a' L' /\ h_size t <= h_size t').
Proof.
  intros Hat Hus.
  destruct (sim_outcomes _ _ _ (carp_ht_set_ptr_sim fuel m t a L k v o Hat Hus))
    as (Hf & Ho & Hok).
  split; [done|]. split; [done|]. intros st t' m' o' Hrun.
  destruct (Hok _ _ _ Hrun)
    as ([st0 h] & Hset & Hst & Hsz & a' & L' & Hh & Hat' & Hus' & Hev).
  simpl in *. subst. exists a', L'. split_and!; try done. by apply evolves_garbage.
Qed.

(** C12. A carp_ht_resize that returns 0 leaves a heap that holds the table
    carp_ht_resize returns, of 2 * size + 1 buckets, at a new array; no
    block of the old table is left in the heap, so every pointer to an
    entry that carp_ht_get returned before the resize dangles after it. *)
Theorem carp_ht_resize_ptr_releases fuel m t a L o t' m' o' :
  table_at m t a L -> usable t L ->
  carp_ht_resize_ptr fuel t m o = Ok ((0, t'), m') o' ->
  exists a' L', carp_ht_resize fuel (abs t L) o = Ok (0, abs t' L') o' /\
    table_at m' t' a' L' /\ usable t' L' /\ h_size t' = 2 * h_size t + 1 /\ a' <> a /\
    (forall l, l ∈ a :: locs (take (Z.to_nat (h_size t)) L) -> m' !! l = None) /\
    (forall k e, deref (abs t L) (carp_ht_get (abs t L) k) = Some e ->
       load_entry (ptr_of L (carp_ht_get (abs t L) k)) m' o' = Fault BadPointer).
Proof.
  intros Hat Hus Hrun.
  destruct (sim_Ok_r _ _ _ _ _ _ (carp_ht_resize_ptr_sim fuel m t a L o Hat Hus) Hrun)
    as ([st0 h] & Hres & (Hst & _ & a' & L' & Hh & Hat' & Hus' & _) & Hrel).
  simpl in *. subst st0 h. specialize (Hrel eq_refl). exists a', L'.
  split_and!; try done.
  - by apply resize_with_size in Hres.
  - intros ->. pose proof (at_array _ _ _ _ Hat') as Ha.
    rewrite Hrel in Ha; [done|]. by left.
  - intros k e (l & -> & Hl)%get_ptr_in_table; [|done].
    unfold load_entry. rewrite hbind_unfold, load_None; [done|]. apply Hrel. by right.
Qed.

(** C10. The well-formedness of the heap is an invariant of the interface:
    from a heap that holds a usable table for the struct, a carp_ht_set or
    a carp_ht_resize that returns, with whatever status, leaves such a
    heap for the struct it returns; carp_ht_del and carp_ht_get always
    return, carp_ht_del with such a heap and carp_ht_get with the heap
    unchanged; carp_ht_used returns with the heap unchanged or stops with
    the overflow of the product of line 65, and reads no block that is not
    live. *)
Theorem owned_preserved m t :
  owned m t ->
  (forall fuel k v o st t' m' o',
     carp_ht_set_ptr fuel t k v m o = Ok ((st, t'), m') o' -> owned m' t') /\
  (forall fuel o st t' m' o',
     carp_ht_resize_ptr fuel t m o = Ok ((st, t'), m') o' -> owned m' t') /\
  (forall k o, exists st m', carp_ht_del_ptr t k m o = Ok (st, m') o /\ owned m' t) /\
  (forall k o, exists p, carp_ht_get_ptr t k m o = Ok (p, m) o) /\
  (forall o, carp_ht_used_ptr t m o = Fault SignedOverflow \/
             exists u, carp_ht_used_ptr t m o = Ok (u, m) o).
Proof.
  intros (a & L & Hat & Hus). split_and!.
  - intros fuel k v o st t' m' o' Hrun.
    destruct (sim_Ok_r _ _ _ _ _ _ (carp_ht_set_ptr_sim fuel m t a L k v o Hat Hus) Hrun)
      as (r & _ & _ & _ & a' & L' & _ & ? & ? & _). by exists a', L'.
  - intros fuel o st t' m' o' Hrun.
    destruct (sim_Ok_r _ _ _ _ _ _ (carp_ht_resize_ptr_sim fuel m t a L o Hat Hus) Hrun)
      as (r & _ & (_ & _ & a' & L' & _ & ? & ? & _) & _). by exists a', L'.
  - intros k o.
    destruct (returns_Ok _ _ (carp_ht_del_ptr_refines m t a L k o Hat Hus))
      as (st & m' & o' & Hrun & -> & _ & L' & _ & Hat' & _ & _ & Hlen).
    exists st, m'. split; [done|]. exists a, L'. split; [done|].
    destruct Hus. split; [done|lia].
  - intros k o. eexists. by eapply carp_ht_get_ptr_eq.
  - intros o. pose proof (carp_ht_used_ptr_sim m t a L o Hat (proj2 Hus)) as Hsim.
    destruct (carp_ht_used_total (abs t L) o) as [Hf|[u Hu]].
    + destruct Hus as [Hsz _]. simpl. lia.
    + left. by apply (sim_Fault _ _ _ _ Hsim).
    + right. exists u. by eapply carp_ht_used_ptr_Ok; [|apply Hus|].
Qed.

End Resize.

Lemma carp_ht_set_ptr_refines_witness :
  exists a' L',
    carp_ht_set (P:=lp64_roomy) 2 (abs example_struct example_chains) "b" 2 [] =
      Ok (0, abs example_set.1 L') [] /\
    table_at example_set.2 example_set.1 a' L' /\
    usable (P:=lp64_roomy) example_set.1 L' /\
    evolves example_heap 1 example_chains example_set.2 a' L' /\
    garbage example_heap 1 example_chains ⊆ garbage example_set.2 a' L' /\
    3 <= h_size example_set.1.
Proof.
  destruct (carp_ht_set_ptr_refines (P:=lp64_roomy) 2 example_heap example_struct 1
              example_chains "b" 2 [] example_table_at example_usable) as (_ & _ & H).
  apply (H 0 example_set.1 example_set.2 []). by vm_compute.
Defined.

Lemma carp_ht_resize_ptr_releases_witness :
  exists a' L',
    carp_ht_resize (P:=lp64_roomy) 1 (abs example_struct example_chains) [] =
      Ok (0, abs example_resize.1 L') [] /\
    table_at example_resize.2 example_resize.1 a' L' /\
    usable (P:=lp64_roomy) example_resize.1 L' /\
    h_size example_resize.1 = 7 /\ a' <> 1%positive /\
    (forall l, l ∈ [1%positive; 2%positive; 3%positive] -> example_resize.2 !! l = None) /\
    (forall k e,
       deref (abs example_struct example_chains)
         (carp_ht_get (P:=lp64_roomy) (abs example_struct example_chains) k) = Some e ->
       load_entry
         (ptr_of example_chains
            (carp_ht_get (P:=lp64_roomy) (abs example_struct example_chains) k))
         example_resize.2 [] = Fault BadPointer).
Proof.
  apply (carp_ht_resize_ptr_releases (P:=lp64_roomy) 1 example_heap example_struct 1
           example_chains [] example_resize.1 example_resize.2 []
           example_table_at example_usable).
  by vm_compute.
Defined.

Lemma owned_preserved_witness :
  exists st m',
    carp_ht_del_ptr (P:=lp64_roomy) example_struct "a" example_heap [] = Ok (st, m') [] /\
    owned (P:=lp64_roomy) m' example_struct.
Proof.
  destruct (owned_preserved (P:=lp64_roomy) example_heap example_struct example_owned)
    as (_ & _ & H & _).
  exact (H "a" []).
Defined.
