(* ===== verification/HeapReach.v ===== *)
(** * HeapReach: runs of the interface on the heap

    The states a client reaches on the heap: from a [carp_ht_init] that
    returned 0, by calls of [carp_ht_set] and [carp_ht_del], with the
    struct and the heap each call leaves.  Every such state holds a table
    that [Reach] reaches with the same calls, so what [Reach] proves of
    the tables holds of the heaps; and on an allocator whose pointer-sized
    block holds an entry and is cleared a [carp_ht_set] is always possible
    there, up to the size at which line 65 overflows: it returns 0, and
    the key is found afterwards. *)

From stdpp Require Import gmap strings.
From S2P Require Import Prelude Machine CString Hash Alloc Table TableLemmas.
From S2P Require Import Heap Program Repr Sim RefineRead RefineFree RefineSet RefineResize.
From S2P Require Import Lookup Lifecycle Delete Insert Resize Reach.

(** ** Definitions *)

(** An example: the struct and the heap of a [carp_ht_init] of three
    buckets on the empty heap. *)
Definition example_init : carp_ht_struct * heap :=
  returned (carp_ht_init_ptr (P:=lp64_roomy) 3 ∅ []).

Section HeapReach.
Context {P : Platform}.
Implicit Types (m : heap) (t : carp_ht_struct) (a : loc) (L : list lchain)
  (o : oracle) (k : string) (log : list carp_ht_entry).

(** One call on the heap, with the entries it was asked to store: the
    calls of [step], on a struct and a heap. *)
Inductive hstep : carp_ht_struct * heap -> list carp_ht_entry ->
    carp_ht_struct * heap -> Prop :=
| hstep_set t m k v fuel o st t' m' o' :
    never_fails o -> strlen k < key_capacity -> 2 * h_size t + 1 <= LONG_MAX ->
    carp_ht_set_ptr (S (S fuel)) t k v m o = Ok ((st, t'), m') o' ->
    hstep (t, m) [entry_of k v] (t', m')
| hstep_del t m k o st m' o' :
    carp_ht_del_ptr t k m o = Ok (st, m') o' ->
    hstep (t, m) [] (t, m').

(** The states reached from a [carp_ht_init] that returned 0 on some heap,
    with the log of the entries the calls were asked to store. *)
Inductive hreachable : list carp_ht_entry -> carp_ht_struct * heap -> Prop :=
| hreach_init sz m o t m' o' :
    sz <= LONG_MAX -> carp_ht_init_ptr sz m o = Ok ((0, t), m') o' ->
    hreachable [] (t, m')
| hreach_step log s l s' :
    hreachable log s -> hstep s l s' -> hreachable (l ++ log) s'.

(** ** Lemmas *)

(** [carp_ht_init] on the heap starts where [carp_ht_init] starts. *)
Lemma hinit_abs sz m o t m' o' :
  sz <= LONG_MAX -> carp_ht_init_ptr sz m o = Ok ((0, t), m') o' ->
  exists a L, table_at m' t a L /\ usable t L /\ reachable [] (abs t L).
Proof.
  intros Hmax (Hsz & Ht & h & Hinit & -> & Hb & ->)%carp_ht_init_ptr_Ok.
  exists (fresh (dom m)), (replicate (Z.to_nat sz) []).
  destruct t as [sz' b]. simpl in *. subst. split_and!.
  - apply table_at_empty.
  - split; [done|]. simpl. by rewrite length_replicate.
  - apply (reach_init sz o _ o'); [done|].
    unfold abs. simpl. by rewrite fmap_replicate.
Qed.

(** A call on the heap is the call on the table the heap holds. *)
Lemma hstep_abs s l s' a L :
  hstep s l s' -> table_at s.2 s.1 a L -> usable s.1 L ->
  exists a' L', table_at s'.2 s'.1 a' L' /\ usable s'.1 L' /\
    step (abs s.1 L) l (abs s'.1 L').
Proof.
  destruct 1 as [t m k v fuel o st t' m' o' Ho Hk Hfit Hrun|t m k o st m' o' Hrun];
    simpl; intros Hat Hus.
  - destruct (sim_Ok_r _ _ _ _ _ _ (carp_ht_set_ptr_sim _ m t a L k v o Hat Hus) Hrun)
      as ([st0 h] & Hset & _ & _ & a' & L' & Hh & Hat' & Hus' & _).
    simpl in Hh. subst h. exists a', L'. split_and!; [done..|].
    by apply (step_set _ k v fuel o st0 _ o').
  - destruct (returns_Ok _ _ (carp_ht_del_ptr_refines m t a L k o Hat Hus))
      as (st1 & m1 & o1 & Hrun1 & _ & _ & L' & Hh & Hat' & _ & _ & Hlen).
    rewrite Hrun in Hrun1. injection Hrun1 as _ <- _. exists a, L'.
    split_and!; [done| |rewrite <- Hh; apply step_del].
    destruct Hus. split; [done|lia].
Qed.

Lemma hreachable_abs log s :
  hreachable log s ->
  exists a L, table_at s.2 s.1 a L /\ usable s.1 L /\ reachable log (abs s.1 L).
Proof.
  induction 1 as [sz m o t m' o' Hmax Hinit|log s l s' _ IH Hstep].
  - by apply (hinit_abs sz m o t m' o').
  - destruct IH as (a & L & Hat & Hus & Hr).
    destruct (hstep_abs _ _ _ _ _ Hstep Hat Hus) as (a' & L' & ? & ? & ?).
    exists a', L'. split_and!; [done..|]. by eapply reach_step.
Qed.

(** A lookup that finds the key returns a pointer to a block. *)
Lemma get_ptr_found t L k :
  usable t L -> carp_ht_get (abs t L) k <> NULL ->
  exists l, ptr_of L (carp_ht_get (abs t L) k) = Addr l.
Proof.
  intros [Hsz Hlen] Hne. pose proof (carp_ht_hash_lt k (h_size t) Hsz) as Hh.
  destruct (lookup_lt_is_Some_2 L (Z.to_nat (carp_ht_hash k (h_size t)))) as [lc Hlc];
    [lia|].
  destruct (carp_ht_get (abs t L) k) as [|i j] eqn:Hg; [done|].
  destruct (carp_ht_get_At t L k i j lc (proj1 Hh) Hlc Hg) as [-> Hj].
  destruct (lookup_lt_is_Some_2 lc j Hj) as [le Hle]. exists le.1.
  simpl. rewrite Hlc. unfold nth_ptr. simpl. by rewrite Hle.
Qed.

(** ** Theorems *)

(** C9. Every state a client reaches on the heap holds a table that the
    same calls reach in the model of the table: the heap is well formed
    for the struct, the table satisfies the invariant of the tables and
    has no more entries than buckets, and a carp_ht_get on the heap finds
    no value but one the log holds for the key. *)
Theorem hreachable_refines log t m :
  hreachable log (t, m) ->
  exists a L, table_at m t a L /\ usable t L /\ reachable log (abs t L) /\
    inv (abs t L) /\ sparse (abs t L) /\ length L = Z.to_nat (h_size t) /\
    (forall l, l ∈ locs L -> exists e, e ∈ log /\ exists next, m !! l = Some (Entry e next)) /\
    forall k o,
      carp_ht_get_ptr t k m o = Ok (ptr_of L (carp_ht_get (abs t L) k), m) o.
Proof.
  intros (a & L & Hat & Hus & Hr)%hreachable_abs. simpl in *.
  destruct (reachable_sound _ _ Hr) as [Hinv Hs]. pose proof (inv_wf _ Hinv) as Hwf.
  exists a, L. split_and!; [done..| | |by intros; eapply carp_ht_get_ptr_eq].
  - destruct Hwf as [_ Hlen]. simpl in Hlen. by rewrite length_fmap in Hlen.
  - intros l (i & lc & Hi & ((l' & e) & -> & (j & Hj)%list_elem_of_lookup_1)
                %list_elem_of_fmap_1)%elem_of_locs.
    exists e. split; [|eexists; eapply (linked_lookup m lc j (l', e));
                       eauto using table_at_linked].
    apply (reachable_entries log (abs t L)); [done|].
    rewrite (entries_wf _ Hwf). apply elem_of_concat. exists (forget lc). split.
    + apply list_elem_of_fmap. exists (l', e). split; [done|].
      by eapply list_elem_of_lookup_2.
    + apply list_elem_of_fmap_2. by eapply list_elem_of_lookup_2.
Qed.

(** C11. On an allocator whose pointer-sized block holds an entry and is
    cleared behind the key, a carp_ht_set is possible in every state a
    client reaches on the heap, as long as a hundred times the size is a
    value of long, so that neither line 65 nor line 182 overflows: with
    allocations that succeed and a key that fits, the call returns 0
    within two nested calls, the state it leaves is reached, and a
    carp_ht_get of the key on it returns a pointer that is not NULL. *)
Theorem hreachable_set_live log t m k v o fuel :
  roomy -> cleared -> hreachable log (t, m) -> never_fails o ->
  strlen k < key_capacity -> h_size t * 100 <= LONG_MAX ->
  exists t' m' o' l,
    carp_ht_set_ptr (S (S fuel)) t k v m o = Ok ((0, t'), m') o' /\
    hreachable (entry_of k v :: log) (t', m') /\
    carp_ht_get_ptr t' k m' o' = Ok (Addr l, m') o'.
Proof.
  intros Hroomy Hcl Hreach Ho Hk Hcent.
  destruct (hreachable_abs _ _ Hreach) as (a & L & Hat & Hus & Hr). simpl in *.
  destruct (reachable_sound _ _ Hr) as [Hinv Hs].
  assert (2 * h_size t + 1 <= LONG_MAX) as Hfit by (destruct Hus; lia).
  assert (in_use (abs t L) * 100 <= LONG_MAX) as Hcount
    by (unfold sparse in Hs; simpl in Hs; lia).
  destruct (runs_Ok (set_result (abs t L) k v) (carp_ht_set (S (S fuel)) (abs t L) k v o))
    as ([st h'] & o' & Hset & _ & Hst & _ & _ & Hget & _).
  { eapply runs_weaken; [| |by apply carp_ht_set_runs]; [by apply set_fault_roomy|done]. }
  simpl in Hst. subst st.
  destruct (sim_Ok_l _ _ _ _ _ (carp_ht_set_ptr_sim _ m t a L k v o Hat Hus) Hset)
    as ([st t'] & m' & Hrun & Hst & _ & a' & L' & Hh & Hat' & Hus' & _).
  simpl in *. subst st h'. destruct (get_ptr_found t' L' k Hus' Hget) as [l Hl].
  exists t', m', o', l. split_and!; [done| |].
  - apply (hreach_step log (t, m) [entry_of k v] (t', m') Hreach).
    by apply (hstep_set t m k v fuel o 0 t' m' o').
  - rewrite <- Hl. by eapply carp_ht_get_ptr_eq.
Qed.

End HeapReach.

Lemma example_hreachable :
  hreachable (P:=lp64_roomy) [] (example_init.1, example_init.2).
Proof. apply (hreach_init 3 ∅ [] _ _ []); by vm_compute. Qed.

Lemma hreachable_refines_witness :
  exists a L, table_at example_init.2 example_init.1 a L /\
    reachable (P:=lp64_roomy) [] (abs example_init.1 L).
Proof.
  destruct (hreachable_refines (P:=lp64_roomy) [] example_init.1 example_init.2
              example_hreachable) as (a & L & Hat & _ & Hr & _).
  by exists a, L.
Defined.

Lemma hreachable_set_live_witness :
  exists t' m' o' l,
    carp_ht_set_ptr (P:=lp64_roomy) 2 example_init.1 "a" 1 example_init.2 [] =
      Ok ((0, t'), m') o' /\
    hreachable (P:=lp64_roomy) [entry_of "a" 1] (t', m') /\
    carp_ht_get_ptr (P:=lp64_roomy) t' "a" m' o' = Ok (Addr l, m') o'.
Proof.
  apply (hreachable_set_live (P:=lp64_roomy) [] example_init.1 example_init.2 "a" 1 [] 0
           lp64_roomy_roomy lp64_roomy_cleared example_hreachable never_fails_nil);
    by vm_compute.
Defined.
