(* ===== verification/Driver.v ===== *)
(** * Driver: the program of main

    [main] (src/src/lib/carp_ht.c, 7-33) on the table layer ([main]) and on
    the heap ([main_ptr]): a table of 10 buckets, eleven calls of
    [carp_ht_set] whose statuses are dropped, a dump, a deletion of
    "Maxwell" with its status line, a second dump and the cleanup.  The two
    runs fault together and write the same text, under every platform,
    oracle and fuel.  The examples run them: the ninth insertion finds the
    table 70% full and resizes it; on x86-64 with glibc that insertion
    overruns the block of line 151; with an allocator whose smallest block
    holds an entry the run ends with two of the eleven keys lost, one key
    stored twice, a deletion that finds nothing to delete and two blocks
    never released. *)

From stdpp Require Import gmap strings.
From S2P Require Import Prelude Machine CString Hash Alloc Table TableLemmas.
From S2P Require Import Lookup Lifecycle Delete Insert Resize Print.
From S2P Require Import Heap Program Repr Sim RefineRead RefineFree RefineSet RefineResize.

(** ** Definitions *)

(** A string literal of [main], which writes the terminator out: the array
    holds it twice. *)
Definition lit (s : string) : string := s +:+ String NUL EmptyString.

(** Lines 13-23: the keys and values set, in order. *)
Definition main_keys : list (string * Z) :=
  [(lit "Maxwell", 17); (lit "llewxaM", 18); (lit "axwellM", 19);
   (lit "a", 19); (lit "b", 19); (lit "c", 19); (lit "d", 19); (lit "e", 19);
   (lit "f", 19); (lit "g", 19); (lit "h", 19)].

(** Line 28. *)
Definition print_status (status : Z) : string :=
  "del status: " +:+ printf_d status +:+ LF.

(** What a run of [main] leaves to observe: the table the first
    [carp_ht_print] is given, the status line 28 prints, the table the
    second [carp_ht_print] is given, the entries [carp_ht_cleanup]
    releases, and the text written. *)
Record main_result := {
  printed_first : carp_ht;
  del_status : Z;
  printed_second : carp_ht;
  released : list carp_ht_entry;
  written : list string;
}.

(** Lines 13-23: the statuses of the calls are dropped. *)
Definition main_sets {P : Platform} (fuel : nat) (h : carp_ht) : M carp_ht :=
  foldM (fun h kv => r ← carp_ht_set fuel h kv.1 kv.2; ret r.2) main_keys h.

(** Lines 7-33.  The status of [carp_ht_init] is dropped too: without an
    array the first [carp_ht_set] reads through NULL at line 58. *)
Definition main {P : Platform} (fuel : nat) : M main_result :=
  r ← carp_ht_init 10;
  check (r.1 ==? 0) NullDeref;;
  h ← main_sets fuel r.2;
  out1 ← carp_ht_print h;
  let d := carp_ht_del h (lit "Maxwell") in
  out2 ← carp_ht_print d.2;
  ret {| printed_first := h; del_status := d.1; printed_second := d.2;
         released := (carp_ht_cleanup d.2).1;
         written := out1 ++ [print_status d.1] ++ out2 |}.

(** Lines 13-23 on the heap. *)
Definition main_sets_ptr {P : Platform} (fuel : nat) (t : carp_ht_struct)
    : HM carp_ht_struct :=
  hfoldM (fun t kv => r ← carp_ht_set_ptr fuel t kv.1 kv.2; mret r.2) main_keys t.

(** Lines 7-33 on the heap: what the run writes to stdout.  The struct is
    a local variable of [main]; the heap the run leaves is what the program
    has not released when it ends. *)
Definition main_ptr {P : Platform} (fuel : nat) : HM (list string) :=
  r ← carp_ht_init_ptr 10;
  t ← main_sets_ptr fuel r.2;
  out1 ← carp_ht_print_ptr t;
  status ← carp_ht_del_ptr t (lit "Maxwell");
  out2 ← carp_ht_print_ptr t;
  carp_ht_cleanup_ptr t;;
  mret (out1 ++ [print_status status] ++ out2).

(** The heap [m] holds the table [h] for the struct [t], in blocks that
    were not in use in the heap [m0], whose blocks are as they were. *)
Definition holds {P : Platform} (m0 : heap) (h : carp_ht) (t : carp_ht_struct)
    (m : heap) : Prop :=
  exists a L, h = abs t L /\ table_at m t a L /\ usable t L /\
    forall l, l ∈ dom m0 -> m !! l = m0 !! l /\ l ∉ a :: locs L.

(** The blocks a run of [main] has not released when it ends: the entry of
    "Maxwell", cut off by the insertion of "llewxaM" into the first table,
    and the entry of "e", cut off by the insertion of "llewxaM" into the
    second. *)
Definition main_leak : heap :=
  <[2%positive := Entry {| key := "Maxwell"; value := 17 |} Null]>
  (<[15%positive := Entry {| key := "e"; value := 19 |} Null]> ∅).

(** The keys of [main] as C strings. *)
Definition main_names : list string :=
  ["Maxwell"; "llewxaM"; "axwellM"; "a"; "b"; "c"; "d"; "e"; "f"; "g"; "h"].

(** The table after the first eight insertions on x86-64: "llewxaM" has
    replaced "Maxwell" in bucket 5, and seven of ten buckets are in use. *)
Definition table_before_resize : carp_ht :=
  {| size := 10;
     buckets := [[{| key := "a"; value := 19 |}]; [{| key := "b"; value := 19 |}];
                 [{| key := "c"; value := 19 |}]; [{| key := "d"; value := 19 |}];
                 [{| key := "e"; value := 19 |}]; [{| key := "llewxaM"; value := 18 |}];
                 []; []; []; [{| key := "axwellM"; value := 19 |}]] |}.

(** ** Lemmas *)

(** A literal and its text are the same C string. *)
Lemma cstr_lit s : cstr (lit s) = cstr s.
Proof.
  unfold lit. induction s as [|ch s IH]; simpl; [done|].
  destruct (is_nul ch); [done|]. by rewrite IH.
Qed.

Section Main.
Context {P : Platform}.
Implicit Types (m : heap) (t : carp_ht_struct) (h : carp_ht) (o : oracle).

(** The table of a [carp_ht_init] that returned 0 is held by the heap it
    left. *)
Lemma holds_init m sz :
  0 < sz <= LONG_MAX ->
  holds m (abs {| h_size := sz; h_buckets := Addr (fresh (dom m)) |} (replicate (Z.to_nat sz) []))
        {| h_size := sz; h_buckets := Addr (fresh (dom m)) |}
        (<[fresh (dom m) := Array (replicate (Z.to_nat sz) Null)]> m).
Proof.
  intros Hsz. eexists _, _. split_and!; [done|apply table_at_empty| |].
  - split; [done|]. simpl. by rewrite length_replicate.
  - intros l Hl. assert (l <> fresh (dom m)) by (intros ->; by apply is_fresh in Hl).
    split; [by rewrite lookup_insert_ne|].
    unfold locs. rewrite concat_replicate_nil. by intros ?%list_elem_of_singleton.
Qed.

(** A table that moves takes no block that was in use outside it. *)
Lemma framed_evolves m0 m a L m' a' L' :
  (forall l, l ∈ dom m0 -> m !! l = m0 !! l /\ l ∉ a :: locs L) ->
  evolves m a L m' a' L' ->
  forall l, l ∈ dom m0 -> m' !! l = m0 !! l /\ l ∉ a' :: locs L'.
Proof.
  intros Hfr [Hframe Hfresh] l Hl. destruct (Hfr l Hl) as [Heq Hout].
  assert (l ∈ dom m) as Hdom by (apply elem_of_dom; rewrite Heq; by apply elem_of_dom).
  split; [by rewrite Hframe|]. by intros [?|?]%Hfresh.
Qed.

(** Without an array the first [carp_ht_set] reads through NULL at line
    58. *)
Lemma main_sets_ptr_null fuel m o :
  main_sets_ptr (S fuel) {| h_size := 10; h_buckets := Null |} m o = Fault NullDeref.
Proof. done. Qed.

(** Lines 13-23: the insertions on the heap are the insertions on the
    table the heap holds. *)
Lemma main_sets_ptr_sim fuel m0 h t m o :
  holds m0 h t m -> sim (holds m0) (main_sets fuel h o) (main_sets_ptr fuel t m o).
Proof.
  intros Hh. unfold main_sets, main_sets_ptr.
  apply (sim_foldM (fun _ => holds m0)); [done..|].
  intros j x x' h1 t1 m1 o1 Hx Hx' (a & L & -> & Hat & Hus & Hfr).
  assert (x' = x) as -> by congruence.
  eapply sim_bind; [by apply carp_ht_set_ptr_sim|].
  intros r r' m2 o2 (_ & _ & a' & L' & Hr & Hat' & Hus' & Hev).
  apply sim_ret. exists a', L'. eauto using framed_evolves.
Qed.

(** Lines 25-32: the dumps, the deletion and the cleanup. *)
Lemma main_tail_sim m0 h t m o :
  holds m0 h t m ->
  sim (fun r out m' => out = written r /\ forall l, l ∈ dom m0 -> m' !! l = m0 !! l)
    ((out1 ← carp_ht_print h;
      let d := carp_ht_del h (lit "Maxwell") in
      out2 ← carp_ht_print d.2;
      ret {| printed_first := h; del_status := d.1; printed_second := d.2;
             released := (carp_ht_cleanup d.2).1;
             written := out1 ++ [print_status d.1] ++ out2 |}) o)
    ((out1 ← carp_ht_print_ptr t;
      status ← carp_ht_del_ptr t (lit "Maxwell");
      out2 ← carp_ht_print_ptr t;
      carp_ht_cleanup_ptr t;;
      mret (out1 ++ [print_status status] ++ out2)) m o).
Proof.
  intros (a & L & -> & Hat & Hus & Hfr). pose proof (proj2 Hus) as Hlen.
  eapply sim_bind; [by apply (carp_ht_print_ptr_sim m t a L)|].
  intros out1 ? ? o1 [-> ->]. cbv zeta.
  eapply sim_returns; [by apply (carp_ht_del_ptr_refines m t a L)|].
  intros st m1 ? (-> & -> & L' & Hd & Hat' & Hev & _ & HL'). rewrite Hd.
  eapply sim_bind; [apply (carp_ht_print_ptr_sim m1 t a L'); [done|lia]|].
  intros out2 ? ? o2 [-> ->].
  rewrite hbind_unfold, (carp_ht_cleanup_ptr_eq m1 t a L') by (done || lia).
  split; [done|]. split; [done|]. intros l Hl. cbn [fst snd].
  destruct (framed_evolves _ _ _ _ _ _ _ Hfr Hev l Hl) as [<- Hout].
  apply not_elem_of_cons in Hout as [? Hout].
  rewrite lookup_delete_ne, lookup_release_ne; [done| |done].
  by intros ?%locs_take.
Qed.

(** [main] on the heap does what [main] does on the table. *)
Lemma main_ptr_sim fuel m o :
  sim (fun r out m' => out = written r /\ forall l, l ∈ dom m -> m' !! l = m !! l)
      (main (S fuel) o) (main_ptr (S fuel) m o).
Proof.
  unfold main, main_ptr. eapply sim_bind; [apply carp_ht_init_ptr_sim|].
  intros [st h] [st' [sz b]] m1 o1 (Hst & Hsz & H). simpl in *. subst st' sz.
  pose proof LONG_MAX_ge. destruct (st =? 0) eqn:E.
  - destruct H as (-> & -> & ->). rewrite bind_unfold. cbn [check ret].
    eapply sim_bind; [apply main_sets_ptr_sim, holds_init; lia|].
    intros h2 t2 m2 o2 Hh. by apply main_tail_sim.
  - destruct H as [-> ->]. by rewrite hbind_unfold, main_sets_ptr_null.
Qed.

(** ** Theorems *)

(** C22. The program of [main] on the heap refines the program on the
    table, on every platform, under every oracle, with every fuel of at
    least one call and from every heap: the two runs stop with the same
    fault or run out of fuel together, and when the run on the heap
    returns, the run on the table returns with the same oracle left and has
    written the same text, the two dumps and the status line between
    them; every block that was in the heap before the run is as it
    was. *)
Theorem main_ptr_refines fuel m o :
  (forall f, main (S fuel) o = Fault f <-> main_ptr (S fuel) m o = Fault f) /\
  (main (S fuel) o = OutOfFuel <-> main_ptr (S fuel) m o = OutOfFuel) /\
  (forall out m' o', main_ptr (S fuel) m o = Ok (out, m') o' ->
     exists r, main (S fuel) o = Ok r o' /\ out = written r /\
       (forall l, l ∈ dom m -> m' !! l = m !! l) /\
       exists u1 u2, written r = dump u1 (printed_first r) ++ [print_status (del_status r)]
                                 ++ dump u2 (printed_second r)).
Proof.
  destruct (sim_outcomes _ _ _ (main_ptr_sim fuel m o)) as (Hf & Ho & Hok).
  split_and!; [done..|]. intros out m' o' (r & Hr & -> & Hfr)%Hok.
  exists r. split_and!; [done..|]. revert Hr. unfold main.
  intros (r0 & o0 & _ & (_ & o1 & _ & (h & o2 & _ & H)%bind_Ok_inv)%bind_Ok_inv)%bind_Ok_inv.
  apply bind_Ok_inv in H as (out1 & o3 & (u1 & _ & _ & ->)%carp_ht_print_Ok_inv & H).
  apply bind_Ok_inv in H as (out2 & o4 & (u2 & _ & _ & ->)%carp_ht_print_Ok_inv & [= <- _]).
  by exists u1, u2.
Qed.

End Main.

(** On x86-64 with glibc the run on the heap overruns the block of line
    151, and so does the run on the table. *)
Lemma main_ptr_refines_witness : main (P:=lp64) 2 [] = Fault HeapOverflow.
Proof. apply (proj1 (main_ptr_refines (P:=lp64) 1 ∅ [])). by vm_compute. Defined.

(** ** Examples *)

(** The first eight insertions, on either allocator for x86-64: no chain is
    appended to, so the size of the blocks does not matter. *)
Example main_first_eight (P : Platform) fuel :
  P = lp64 \/ P = lp64_roomy ->
  foldM (fun h kv => r ← carp_ht_set (S fuel) h kv.1 kv.2; ret r.2)
        (take 8 main_keys) (empty_table 10) [] = Ok table_before_resize [].
Proof. by intros [-> | ->]. Qed.

(** On x86-64 with glibc [main] does not run to its end: the ninth
    [carp_ht_set] finds the table 70% full, resizes it, inserts "f" in its
    recursive call and then appends "f" again in a block of the size of a
    pointer, which the entry overruns. *)
Example main_glibc_overruns fuel :
  carp_ht_used (P:=lp64) table_before_resize [] = Ok 70 [] /\
  carp_ht_set (P:=lp64) (S (S fuel)) table_before_resize (lit "f") 19 [] =
    Fault HeapOverflow /\
  main (P:=lp64) (S (S fuel)) [] = Fault HeapOverflow /\
  main_ptr (P:=lp64) (S (S fuel)) ∅ [] = Fault HeapOverflow.
Proof. split_and!; [reflexivity|by vm_compute..]. Qed.

(** With an allocator whose smallest block holds an entry, [main] ends
    with a table of 21 buckets in which two of its eleven keys are not
    found ("Maxwell", replaced by "llewxaM" in bucket 5 of the first table,
    and "e", replaced by "llewxaM" during the migration), "f" is stored
    twice, and the deletion of "Maxwell" returns 2 and changes nothing. *)
Example main_roomy_loses_keys fuel :
  exists r, main (P:=lp64_roomy) (S (S fuel)) [] = Ok r [] /\
    size (printed_first r) = 21 /\ in_use (printed_first r) = 10 /\
    get_value (P:=lp64_roomy) (printed_first r) <$> main_names =
      [None; Some 18; Some 19; Some 19; Some 19; Some 19; Some 19; None;
       Some 19; Some 19; Some 19] /\
    length (filter (matches "f") (entries (printed_first r))) = 2%nat /\
    del_status r = 2 /\ printed_second r = printed_first r /\
    released r = entries (printed_first r).
Proof. eexists. split; [by vm_compute|]. split_and!; reflexivity. Qed.

(** The run of [main] on the heap with that allocator: it writes the dump
    of the table the list program ends with, the line "del status: 2" and
    the same dump again, ten records each, and ends with two blocks it has
    not released: the entries of "Maxwell" and "e", which no pointer
    reached any more when carp_ht_cleanup ran. *)
Example main_ptr_runs fuel :
  exists r, main (P:=lp64_roomy) (S (S fuel)) [] = Ok r [] /\
    main_ptr (P:=lp64_roomy) (S (S fuel)) ∅ [] = Ok (written r, main_leak) [] /\
    written r = dump 47 (printed_first r) ++ [print_status 2] ++ dump 47 (printed_second r) /\
    length (filter is_record (dump 47 (printed_first r))) = 10%nat.
Proof. eexists. split; [by vm_compute|]. split_and!; by vm_compute. Qed.
